(** * Solar-System-Live: the ephemeris caches of the API server

    A shallow embedding of [server/src/cache/bodyEphemerisCache.ts] (the
    single-body cache) and [server/src/cache/ephemerisCache.ts] (the
    multi-body snapshot cache), with the properties of their freshness,
    coalescing and degradation policies.

    Conventions.  Millisecond clock readings ([Date.now()]) and the
    millisecond configuration values are integers ([Z]); the astronomical
    quantities are IEEE doubles ([float]) and are only ever copied, or
    written to and read back from JSON text.  An
    optional property ([x?: T], or a value that may be [undefined]) is an
    [option].  Every [await] splits a function into segments that run to
    completion; a segment is a function of the module state and of what the
    awaited operation delivered, and a small event system schedules the
    segments the way the JavaScript job queue does. *)

From Stdlib Require Import ZArith Lia.
From Stdlib Require Import PrimFloat.
From stdpp Require Import gmap strings pretty list.

Open Scope Z_scope.

(** ** JavaScript values *)

(** [x ?? y] where [y] may itself be undefined. *)
Definition nullish {A} (x y : option A) : option A :=
  match x with
  | Some v => Some v
  | None => y
  end.

(** Truthiness of an optional string: defined and not empty. *)
Definition truthy (s : option string) : bool :=
  match s with
  | Some s => negb (String.eqb s "")
  | None => false
  end.

(** A thrown value: an [Error] object carrying a message, or anything else
    (no [message] property), of which only [String(err)] is known. *)
Inductive JsError :=
  | ErrorObj (message : string)
  | Thrown (repr : string).

#[export] Instance JsError_eq_dec : EqDecision JsError.
Proof. solve_decision. Defined.

(** [err?.message] *)
Definition err_message (e : JsError) : option string :=
  match e with
  | ErrorObj m => Some m
  | Thrown _ => None
  end.

(** [err?.message ?? String(err)] *)
Definition err_text (e : JsError) : string :=
  match e with
  | ErrorObj m => m
  | Thrown r => r
  end.

(** [err?.message ?? 'Erreur inconnue lors du fetch Horizons'] *)
Definition freeze_reason_of (e : JsError) : string :=
  default "Erreur inconnue lors du fetch Horizons" (err_message e).

(** What the observability logger receives. *)
Inductive LogLevel := LInfo | LWarn | LError.

Record LogEvent := {
  level : LogLevel;
  event : string;
  error : option string
}.

(** What a number-typed property of an object can hold: a double, or the
    [null] that comes back for some doubles when the object has been
    through JSON text. *)
Inductive JsNumber :=
  | Num (f : float)
  | Null.

(** [JSON.parse(JSON.stringify(x))] for a number [x]: NaN and the two
    infinities are written [null]; either zero is written [0]; any other
    double is written with enough digits to be read back as it was. *)
Definition json_number (x : JsNumber) : JsNumber :=
  match x with
  | Num f =>
      if is_nan f || is_infinity f then Null
      else if is_zero f then Num 0%float
      else Num f
  | Null => Null
  end.

(** The outcome of an awaited operation. *)
Inductive Settled (A : Type) :=
  | Fulfilled (value : A)
  | Rejected (reason : JsError).
Arguments Fulfilled {A} value.
Arguments Rejected {A} reason.

(** ** config/bodies.ts *)
Module Bodies.

Definition BodyId := string.

Inductive BodyKind := star | moon.

Record BodyConfig := {
  id : BodyId;
  displayName : string;
  kind : BodyKind;
  horizonsId : string
}.

Definition BODIES : list BodyConfig := [
  {| id := "sun"; displayName := "Soleil"; kind := star; horizonsId := "10" |};
  {| id := "moon"; displayName := "Lune"; kind := moon; horizonsId := "301" |};
  {| id := "phobos"; displayName := "Phobos"; kind := moon; horizonsId := "401" |};
  {| id := "deimos"; displayName := "Deimos"; kind := moon; horizonsId := "402" |};
  {| id := "io"; displayName := "Io"; kind := moon; horizonsId := "501" |};
  {| id := "europa"; displayName := "Europe"; kind := moon; horizonsId := "502" |};
  {| id := "ganymede"; displayName := "Ganymède"; kind := moon; horizonsId := "503" |};
  {| id := "callisto"; displayName := "Callisto"; kind := moon; horizonsId := "504" |};
  {| id := "enceladus"; displayName := "Encelade"; kind := moon; horizonsId := "602" |};
  {| id := "rhea"; displayName := "Rhéa"; kind := moon; horizonsId := "605" |};
  {| id := "titan"; displayName := "Titan"; kind := moon; horizonsId := "606" |};
  {| id := "iapetus"; displayName := "Japet"; kind := moon; horizonsId := "608" |};
  {| id := "ariel"; displayName := "Ariel"; kind := moon; horizonsId := "701" |};
  {| id := "umbriel"; displayName := "Umbriel"; kind := moon; horizonsId := "702" |};
  {| id := "titania"; displayName := "Titania"; kind := moon; horizonsId := "703" |};
  {| id := "oberon"; displayName := "Oberon"; kind := moon; horizonsId := "704" |};
  {| id := "miranda"; displayName := "Miranda"; kind := moon; horizonsId := "705" |};
  {| id := "triton"; displayName := "Triton"; kind := moon; horizonsId := "801" |};
  {| id := "nereid"; displayName := "Néréide"; kind := moon; horizonsId := "802" |};
  {| id := "charon"; displayName := "Charon"; kind := moon; horizonsId := "901" |};
  {| id := "nix"; displayName := "Nix"; kind := moon; horizonsId := "902" |};
  {| id := "hydra"; displayName := "Hydra"; kind := moon; horizonsId := "903" |};
  {| id := "kerberos"; displayName := "Kerberos"; kind := moon; horizonsId := "904" |};
  {| id := "styx"; displayName := "Styx"; kind := moon; horizonsId := "905" |}
].

(** [new Map(BODIES.map((b) => [b.id, b]))]: a later entry replaces an
    earlier one with the same key. *)
Definition BODY_BY_ID : gmap BodyId BodyConfig :=
  foldl (fun m b => <[id b := b]> m) ∅ BODIES.

End Bodies.

(** ** nasa/horizonsClient: what [fetchPlanetStateVector] resolves to *)
Module Horizons.

Record StateVector := {
  name : string;
  x_au : float;
  y_au : float;
  z_au : float;
  vx_au_per_day : option float;
  vy_au_per_day : option float;
  vz_au_per_day : option float;
  velocityUnit : option string;
  referenceFrame : option string;
  source : option string;
  timestamp : option string;
  range_au : option float;
  range_rate_km_s : option float;
  light_time_minutes : option float;
  solar_elongation_deg : option float;
  phase_angle_deg : option float;
  illumination_fraction : option float;
  apparent_magnitude : option float
}.

End Horizons.

(** ** cache/bodyEphemerisCache.ts: the single-body cache *)
Module BodyEphemerisCache.

Definition BodyId := Bodies.BodyId.

Inductive CacheStatus := HIT | MISS | FROZEN.

Record Metadata := {
  cacheStatus : option CacheStatus;
  cacheAgeMs : option Z;
  cacheExpiresInMs : option Z;
  responseTimeMs : option Z;
  requestId : option string;
  frozenSnapshot : option bool;
  freezeReason : option string
}.

Record BodyEphemerisPayload := {
  id : BodyId;
  timestamp : string;
  x_au : float;
  y_au : float;
  z_au : float;
  vx : option float;
  vy : option float;
  vz : option float;
  velocityUnit : option string;
  referenceFrame : option string;
  source : option string;
  range_au : option float;
  range_rate_km_s : option float;
  light_time_minutes : option float;
  solar_elongation_deg : option float;
  phase_angle_deg : option float;
  illumination_fraction : option float;
  apparent_magnitude : option float;
  metadata : option Metadata
}.

Record CacheEntry := {
  payload : BodyEphemerisPayload;
  cachedAt : Z;
  expiresAt : Z
}.

(** The argument of [getBodyEphemeris]; an absent [forceRefresh] is falsy. *)
Record Options := {
  o_id : BodyId;
  forceRefresh : bool;
  correlationId : option string
}.

Definition PromiseId := nat.

(** Where a promise made by [fetchFresh] stands before it settles: waiting
    for the upstream call, or already failed on an unknown body, before any
    upstream call was made. *)
Inductive FetchState :=
  | Upstream (cfg : Bodies.BodyConfig) (started : Z)
  | Unknown (e : JsError).

(** The chain [fetchFresh(..).then(..).catch(..).finally(..)] made by one
    call, with what its callbacks close over. *)
Record Chain := {
  ch_id : BodyId;
  ch_correlationId : option string;
  ch_fetch : FetchState
}.

Inductive PromiseState :=
  | Pending (c : Chain)
  | Done (r : Settled BodyEphemerisPayload).

(** The module-level maps [cache] and [inflight], the promises they refer
    to, the upstream calls issued so far and the log. *)
Record State := {
  cache : gmap BodyId CacheEntry;
  inflight : gmap BodyId PromiseId;
  promises : gmap PromiseId PromiseState;
  upstream : list BodyId;
  logs : list LogEvent
}.

Definition initial : State :=
  {| cache := ∅; inflight := ∅; promises := ∅; upstream := []; logs := [] |}.

Definition set_cache (c : gmap BodyId CacheEntry) (st : State) : State :=
  {| cache := c; inflight := inflight st; promises := promises st;
     upstream := upstream st; logs := logs st |}.

Definition set_inflight (f : gmap BodyId PromiseId) (st : State) : State :=
  {| cache := cache st; inflight := f; promises := promises st;
     upstream := upstream st; logs := logs st |}.

Definition set_promise (pid : PromiseId) (p : PromiseState) (st : State) : State :=
  {| cache := cache st; inflight := inflight st;
     promises := <[pid := p]> (promises st);
     upstream := upstream st; logs := logs st |}.

Definition call_upstream (i : BodyId) (st : State) : State :=
  {| cache := cache st; inflight := inflight st; promises := promises st;
     upstream := upstream st ++ [i]; logs := logs st |}.

Definition log (l : LogLevel) (ev : string) (err : option string) (st : State) : State :=
  {| cache := cache st; inflight := inflight st; promises := promises st;
     upstream := upstream st;
     logs := logs st ++ [{| level := l; event := ev; error := err |}] |}.

(** [{...undefined}] *)
Definition no_metadata : Metadata :=
  {| cacheStatus := None; cacheAgeMs := None; cacheExpiresInMs := None;
     responseTimeMs := None; requestId := None; frozenSnapshot := None;
     freezeReason := None |}.

(** [{...payload, metadata: m}] *)
Definition with_metadata (p : BodyEphemerisPayload) (m : Metadata) : BodyEphemerisPayload :=
  {| id := id p; timestamp := timestamp p;
     x_au := x_au p; y_au := y_au p; z_au := z_au p;
     vx := vx p; vy := vy p; vz := vz p;
     velocityUnit := velocityUnit p; referenceFrame := referenceFrame p;
     source := source p; range_au := range_au p;
     range_rate_km_s := range_rate_km_s p;
     light_time_minutes := light_time_minutes p;
     solar_elongation_deg := solar_elongation_deg p;
     phase_angle_deg := phase_angle_deg p;
     illumination_fraction := illumination_fraction p;
     apparent_magnitude := apparent_magnitude p;
     metadata := Some m |}.

Section WithConfig.

(** [BODY_CACHE_TTL_MS], read from the environment at start-up (default
    60000), and [Date.prototype.toISOString] on a millisecond reading. *)
Variable BODY_CACHE_TTL_MS : Z.
Variable toISOString : Z -> string.

(** [getFromCache]; [t] is its own [Date.now()]. *)
Definition getFromCache (t : Z) (i : BodyId) (st : State) : option CacheEntry * State :=
  match cache st !! i with
  | None => (None, st)
  | Some entry =>
      if bool_decide (expiresAt entry <= t)
      then (None, set_cache (delete i (cache st)) st)
      else (Some entry, st)
  end.

(** The object returned on a hit (lines 109-118). *)
Definition hit_payload (cached : CacheEntry) (now : Z) (cid : option string)
  : BodyEphemerisPayload :=
  let base := default no_metadata (metadata (payload cached)) in
  with_metadata (payload cached)
    {| cacheStatus := Some HIT;
       cacheAgeMs := Some (now - cachedAt cached);
       cacheExpiresInMs := Some (Z.max 0 (expiresAt cached - now));
       responseTimeMs := responseTimeMs base;
       requestId := nullish cid (requestId base);
       frozenSnapshot := frozenSnapshot base;
       freezeReason := freezeReason base |}.

(** The object returned after a fetch that resolved (lines 125-133 and
    162-170, the same literal). *)
Definition miss_payload (p : BodyEphemerisPayload) : BodyEphemerisPayload :=
  let base := default no_metadata (metadata p) in
  with_metadata p
    {| cacheStatus := Some MISS;
       cacheAgeMs := Some 0;
       cacheExpiresInMs := Some BODY_CACHE_TTL_MS;
       responseTimeMs := responseTimeMs base;
       requestId := requestId base;
       frozenSnapshot := frozenSnapshot base;
       freezeReason := freezeReason base |}.

(** The object returned from the [catch] block (lines 181-192). *)
Definition frozen_payload (cached : CacheEntry) (now : Z) (cid : option string)
    (err : JsError) : BodyEphemerisPayload :=
  let base := default no_metadata (metadata (payload cached)) in
  with_metadata (payload cached)
    {| cacheStatus := Some FROZEN;
       cacheAgeMs := Some (now - cachedAt cached);
       cacheExpiresInMs := Some 0;
       responseTimeMs := responseTimeMs base;
       requestId := nullish cid (requestId base);
       frozenSnapshot := Some true;
       freezeReason := Some (freeze_reason_of err) |}.

(** [fetchFresh] up to its [await]: the configuration lookup, and, for a
    known body, the clock reading [started] and the upstream call. *)
Definition fetchFresh (i : BodyId) (t_started : Z) (st : State) : FetchState * State :=
  match Bodies.BODY_BY_ID !! i with
  | None => (Unknown (ErrorObj ("Corps inconnu: " +:+ i)), st)
  | Some cfg => (Upstream cfg t_started, call_upstream i st)
  end.

(** [fetchFresh] after its [await], on a vector: [t_resp] is the clock
    reading of lines 69 and 73. *)
Definition fresh_payload (i : BodyId) (cid : option string) (started t_resp : Z)
    (vec : Horizons.StateVector) : BodyEphemerisPayload :=
  {| id := i;
     timestamp := default (toISOString t_resp) (Horizons.timestamp vec);
     x_au := Horizons.x_au vec; y_au := Horizons.y_au vec; z_au := Horizons.z_au vec;
     vx := Horizons.vx_au_per_day vec;
     vy := Horizons.vy_au_per_day vec;
     vz := Horizons.vz_au_per_day vec;
     velocityUnit := Horizons.velocityUnit vec;
     referenceFrame := Horizons.referenceFrame vec;
     source := Horizons.source vec;
     range_au := Horizons.range_au vec;
     range_rate_km_s := Horizons.range_rate_km_s vec;
     light_time_minutes := Horizons.light_time_minutes vec;
     solar_elongation_deg := Horizons.solar_elongation_deg vec;
     phase_angle_deg := Horizons.phase_angle_deg vec;
     illumination_fraction := Horizons.illumination_fraction vec;
     apparent_magnitude := Horizons.apparent_magnitude vec;
     metadata := Some
       {| cacheStatus := None; cacheAgeMs := None; cacheExpiresInMs := None;
          responseTimeMs := Some (t_resp - started);
          requestId := cid;
          frozenSnapshot := None; freezeReason := None |} |}.

(** How a call leaves its first, synchronous segment. *)
Inductive Suspended :=
  | AwaitExisting (pid : PromiseId)
  | AwaitOwn (pid : PromiseId).

Inductive Entered :=
  | Return (p : BodyEphemerisPayload)
  | Await (s : Suspended).

Definition awaited (s : Suspended) : PromiseId :=
  match s with
  | AwaitExisting pid => pid
  | AwaitOwn pid => pid
  end.

(** [getBodyEphemeris] from its entry to its first [await] or [return]
    (lines 102-161).  [now] is the reading of line 103, [t_lookup] the one
    inside [getFromCache], [t_started] the one inside [fetchFresh]. *)
Definition enter (o : Options) (now t_lookup t_started : Z) (st : State)
  : Entered * State :=
  let '(cached, st1) :=
    if forceRefresh o then (None, st) else getFromCache t_lookup (o_id o) st in
  match cached with
  | Some entry => (Return (hit_payload entry now (correlationId o)), st1)
  | None =>
      match inflight st1 !! o_id o with
      | Some existing => (Await (AwaitExisting existing), st1)
      | None =>
          let p : PromiseId := fresh (dom (promises st1)) in
          let '(f, st2) := fetchFresh (o_id o) t_started st1 in
          let c := {| ch_id := o_id o; ch_correlationId := correlationId o;
                      ch_fetch := f |} in
          (Await (AwaitOwn p),
           set_inflight (<[o_id o := p]> (inflight st2)) (set_promise p (Pending c) st2))
      end
  end.

(** What [fetchFresh] settles with, given what the upstream call did. *)
Definition fetched (c : Chain) (outcome : Settled Horizons.StateVector) (t_resp : Z)
  : Settled BodyEphemerisPayload :=
  match ch_fetch c with
  | Unknown e => Rejected e
  | Upstream _ started =>
      match outcome with
      | Fulfilled vec =>
          Fulfilled (fresh_payload (ch_id c) (ch_correlationId c) started t_resp vec)
      | Rejected e => Rejected e
      end
  end.

(** The callbacks of the chain (lines 137-156), run when [fetchFresh]
    settles: [then] stores the record (two clock readings, [t_cached] and
    [t_expires]) and logs, [catch] logs and rethrows, [finally] clears the
    in-flight slot. *)
Definition settle_chain (c : Chain) (r : Settled BodyEphemerisPayload)
    (t_cached t_expires : Z) (st : State) : State :=
  let st1 :=
    match r with
    | Fulfilled p =>
        log LInfo "body_ephemeris_refresh" None
          (set_cache
             (<[ch_id c := {| payload := p; cachedAt := t_cached;
                              expiresAt := t_expires + BODY_CACHE_TTL_MS |}]> (cache st))
             st)
    | Rejected e =>
        log LError "body_ephemeris_refresh_failed" (Some (err_text e)) st
    end in
  set_inflight (delete (ch_id c) (inflight st1)) st1.

(** The continuation of a call that joined a fetch already in flight
    (lines 124-133): no [try] around the [await]. *)
Definition resume_existing (r : Settled BodyEphemerisPayload)
  : Settled BodyEphemerisPayload :=
  match r with
  | Fulfilled p => Fulfilled (miss_payload p)
  | Rejected e => Rejected e
  end.

(** The continuation of the call that started the fetch (lines 160-195). *)
Definition resume_own (o : Options) (now : Z) (r : Settled BodyEphemerisPayload)
    (st : State) : Settled BodyEphemerisPayload * State :=
  match r with
  | Fulfilled p => (Fulfilled (miss_payload p), st)
  | Rejected e =>
      match cache st !! o_id o with
      | Some cached =>
          (Fulfilled (frozen_payload cached now (correlationId o) e),
           log LWarn "body_ephemeris_frozen" (Some (err_text e)) st)
      | None => (Rejected e, st)
      end
  end.

(** *** The event loop

    A call runs its first segment when it arrives.  When the upstream call
    of a chain settles, the chain's callbacks run and then, in the same
    drain of the job queue, the continuation of every call awaiting that
    promise, in the order in which they started to wait. *)

Record Caller := {
  c_call : nat;
  c_options : Options;
  c_now : Z;
  c_wait : Suspended
}.

Record System := {
  state : State;
  waiting : list Caller;
  results : gmap nat (Settled BodyEphemerisPayload);
  ncalls : nat
}.

Definition boot : System :=
  {| state := initial; waiting := []; results := ∅; ncalls := 0%nat |}.

Inductive Event :=
  | EvCall (o : Options) (now t_lookup t_started : Z)
  | EvSettle (pid : PromiseId) (outcome : Settled Horizons.StateVector)
      (t_resp t_cached t_expires : Z).

Definition resume (w : Caller) (r : Settled BodyEphemerisPayload) (st : State)
  : Settled BodyEphemerisPayload * State :=
  match c_wait w with
  | AwaitExisting _ => (resume_existing r, st)
  | AwaitOwn _ => resume_own (c_options w) (c_now w) r st
  end.

Fixpoint resume_all (pid : PromiseId) (r : Settled BodyEphemerisPayload)
    (ws : list Caller) (st : State)
    (res : gmap nat (Settled BodyEphemerisPayload))
  : list Caller * State * gmap nat (Settled BodyEphemerisPayload) :=
  match ws with
  | [] => ([], st, res)
  | w :: ws' =>
      if bool_decide (awaited (c_wait w) = pid)
      then let '(out, st') := resume w r st in
           resume_all pid r ws' st' (<[c_call w := out]> res)
      else let '(rest, st', res') := resume_all pid r ws' st res in
           (w :: rest, st', res')
  end.

Definition step (e : Event) (s : System) : option System :=
  match e with
  | EvCall o now t_lookup t_started =>
      let '(out, st') := enter o now t_lookup t_started (state s) in
      let n := ncalls s in
      Some
        match out with
        | Return p =>
            {| state := st'; waiting := waiting s;
               results := <[n := Fulfilled p]> (results s); ncalls := S n |}
        | Await w =>
            {| state := st';
               waiting := waiting s ++
                 [{| c_call := n; c_options := o; c_now := now; c_wait := w |}];
               results := results s; ncalls := S n |}
        end
  | EvSettle pid outcome t_resp t_cached t_expires =>
      match promises (state s) !! pid with
      | Some (Pending c) =>
          let r := fetched c outcome t_resp in
          let st1 := settle_chain c r t_cached t_expires
                       (set_promise pid (Done r) (state s)) in
          let '(ws, st2, res) := resume_all pid r (waiting s) st1 (results s) in
          Some {| state := st2; waiting := ws; results := res; ncalls := ncalls s |}
      | _ => None
      end
  end.

Fixpoint run (es : list Event) (s : System) : option System :=
  match es with
  | [] => Some s
  | e :: es' =>
      match step e s with
      | Some s' => run es' s'
      | None => None
      end
  end.

End WithConfig.

End BodyEphemerisCache.

(** ** config/planets: a row of the tracked-planet table *)
Module Planets.

Record PlanetConfig := {
  name : string;
  horizonsId : string
}.

End Planets.

(** ** cache/ephemerisCache.ts: the multi-body snapshot cache *)
Module EphemerisCache.

Inductive CacheBackend := redis | memory.

Inductive CacheState := HIT | MISS | STALE | FROZEN.

Inductive SnapshotMode := state_vectors | full.

#[export] Instance SnapshotMode_eq_dec : EqDecision SnapshotMode.
Proof. solve_decision. Defined.

#[export] Instance SnapshotMode_countable : Countable SnapshotMode.
Proof.
  refine (inj_countable'
            (fun m => match m with state_vectors => false | full => true end)
            (fun b => if b then full else state_vectors) _).
  intros []; reflexivity.
Defined.

Record EphemerisBody := {
  name : string;
  x_au : JsNumber;
  y_au : JsNumber;
  z_au : JsNumber;
  vx : option JsNumber;
  vy : option JsNumber;
  vz : option JsNumber;
  velocityUnit : option string;
  timestamp : option string;
  range_au : option JsNumber;
  range_rate_km_s : option JsNumber;
  light_time_minutes : option JsNumber;
  solar_elongation_deg : option JsNumber;
  phase_angle_deg : option JsNumber;
  illumination_fraction : option JsNumber;
  apparent_magnitude : option JsNumber
}.

(** [EphemerisSnapshot['metadata']]; [cacheStatus] only ever receives one
    of the four cache states. *)
Record Metadata := {
  source : option string;
  referenceFrame : option string;
  distanceUnit : option string;
  md_velocityUnit : option string;
  responseTimeMs : option Z;
  cacheStatus : option CacheState;
  md_cacheBackend : option CacheBackend;
  md_cacheAgeMs : option Z;
  cacheExpiresInMs : option Z;
  cacheStale : option bool;
  generatedAt : option string;
  frozenSnapshot : option bool;
  freezeReason : option string;
  requestId : option string;
  partial : option bool;
  fallbackBodies : option (list string);
  missingBodies : option (list string)
}.

Record EphemerisSnapshot := {
  snap_timestamp : string;
  metadata : Metadata;
  bodies : list EphemerisBody
}.

(** A snapshot object lives in the heap; a cache record and a refresh
    result hold a reference to it, so an assignment to a property of the
    object is seen through every reference. *)
Definition loc := nat.

Record CacheRecord := {
  payload : loc;
  cachedAt : Z;
  expiresAt : Z;
  staleUntil : Z
}.

(** [SnapshotResult]: [P] is [loc] for what [refreshSnapshot] resolves to
    (the object it has just cached) and [EphemerisSnapshot] for what
    [getSnapshot] returns (an object built for that caller alone). *)
Record SnapshotResult (P : Type) := {
  res_payload : P;
  cacheState : CacheState;
  cacheBackend : CacheBackend;
  cacheAgeMs : Z
}.
Arguments res_payload {P} _.
Arguments cacheState {P} _.
Arguments cacheBackend {P} _.
Arguments cacheAgeMs {P} _.

Definition CACHE_KEY_BY_MODE (m : SnapshotMode) : string :=
  match m with
  | state_vectors => "ephemeris:planets:v1"
  | full => "ephemeris:planets:full:v1"
  end.

(** [JSON.parse(JSON.stringify(body))]: the strings come back as they were,
    a property that is [undefined] is left out of the text and is absent
    afterwards, and every number goes through [json_number]. *)
Definition json_body (b : EphemerisBody) : EphemerisBody :=
  {| name := name b;
     x_au := json_number (x_au b);
     y_au := json_number (y_au b);
     z_au := json_number (z_au b);
     vx := json_number <$> vx b;
     vy := json_number <$> vy b;
     vz := json_number <$> vz b;
     velocityUnit := velocityUnit b;
     timestamp := timestamp b;
     range_au := json_number <$> range_au b;
     range_rate_km_s := json_number <$> range_rate_km_s b;
     light_time_minutes := json_number <$> light_time_minutes b;
     solar_elongation_deg := json_number <$> solar_elongation_deg b;
     phase_angle_deg := json_number <$> phase_angle_deg b;
     illumination_fraction := json_number <$> illumination_fraction b;
     apparent_magnitude := json_number <$> apparent_magnitude b |}.

(** The same for a snapshot: its timestamp and its metadata (strings,
    booleans, integers and arrays of strings) come back as they were. *)
Definition json_snapshot (p : EphemerisSnapshot) : EphemerisSnapshot :=
  {| snap_timestamp := snap_timestamp p;
     metadata := metadata p;
     bodies := json_body <$> bodies p |}.

(** A text produced by [JSON.stringify(record)], held as what [JSON.parse]
    makes of it: the record with its snapshot by value. *)
Record Serialized := {
  s_payload : EphemerisSnapshot;
  s_cachedAt : Z;
  s_expiresAt : Z;
  s_staleUntil : Z
}.

(** The shared store (Redis): a key holds a text until its expiry. *)
Record StoreEntry := {
  raw : Serialized;
  expiry : Z
}.

(** [GET key] served at time [t]. *)
Definition store_get (s : gmap string StoreEntry) (key : string) (t : Z)
  : option Serialized :=
  match s !! key with
  | Some e => if bool_decide (t < expiry e) then Some (raw e) else None
  | None => None
  end.

(** [SET key text PX px] served at time [t]. *)
Definition store_set (s : gmap string StoreEntry) (key : string) (text : Serialized)
    (px t : Z) : gmap string StoreEntry :=
  <[key := {| raw := text; expiry := t + px |}]> s.

(** The argument of [getSnapshot]; absent flags are falsy. *)
Record Options := {
  forceRefresh : bool;
  correlationId : option string;
  includeObserver : bool
}.

Definition mode_of (includeObserver : bool) : SnapshotMode :=
  if includeObserver then full else state_vectors.

Definition PromiseId := nat.

(** One call of [refreshSnapshot]. *)
Record Refresh := {
  r_reason : string;
  r_correlationId : option string;
  r_mode : SnapshotMode
}.

(** Where a call of [refreshSnapshot] is suspended: in the [readCache] of
    [buildPlanetSnapshot]; in the loop over the planets, at the [await] of
    the fetch for the planet that follows those whose outcomes are in
    [results]; in the store write of [writeCache], which was given a text
    and an expiry (or nothing, when no write was issued). *)
Inductive Phase :=
  | Reading
  | Fetching (started : Z) (cached : option CacheRecord)
      (results : list (Settled Horizons.StateVector))
  | Writing (record : CacheRecord) (issued : option (Serialized * Z)).

Inductive PromiseState :=
  | Pending (r : Refresh) (ph : Phase)
  | Done (res : Settled (SnapshotResult loc)).

Inductive Metric :=
  | CacheHit (b : CacheBackend) (freshness : string) (age : Z)
  | CacheMiss (b : CacheBackend) (reason : string) (mode : SnapshotMode)
      (responseTime : option Z)
  | HorizonsLatency (ms : Z).

(** A call of [fetchPlanetStateVector]. *)
Record UpstreamCall := {
  u_horizonsId : string;
  u_name : string;
  u_includeObserver : bool
}.

Record State := {
  heap : gmap loc EphemerisSnapshot;
  memoryCache : gmap SnapshotMode CacheRecord;
  inflightByMode : gmap SnapshotMode PromiseId;
  store : gmap string StoreEntry;
  promises : gmap PromiseId PromiseState;
  upstream : list UpstreamCall;
  logs : list LogEvent;
  metrics : list Metric
}.

Definition initial : State :=
  {| heap := ∅; memoryCache := ∅; inflightByMode := ∅; store := ∅;
     promises := ∅; upstream := []; logs := []; metrics := [] |}.

Definition set_heap (h : gmap loc EphemerisSnapshot) (st : State) : State :=
  {| heap := h; memoryCache := memoryCache st;
     inflightByMode := inflightByMode st; store := store st;
     promises := promises st; upstream := upstream st; logs := logs st;
     metrics := metrics st |}.

Definition set_memoryCache (c : gmap SnapshotMode CacheRecord) (st : State) : State :=
  {| heap := heap st; memoryCache := c;
     inflightByMode := inflightByMode st; store := store st;
     promises := promises st; upstream := upstream st; logs := logs st;
     metrics := metrics st |}.

Definition set_inflightByMode (f : gmap SnapshotMode PromiseId) (st : State) : State :=
  {| heap := heap st; memoryCache := memoryCache st;
     inflightByMode := f; store := store st;
     promises := promises st; upstream := upstream st; logs := logs st;
     metrics := metrics st |}.

Definition set_store (s : gmap string StoreEntry) (st : State) : State :=
  {| heap := heap st; memoryCache := memoryCache st;
     inflightByMode := inflightByMode st; store := s;
     promises := promises st; upstream := upstream st; logs := logs st;
     metrics := metrics st |}.

Definition set_promise (pid : PromiseId) (p : PromiseState) (st : State) : State :=
  {| heap := heap st; memoryCache := memoryCache st;
     inflightByMode := inflightByMode st; store := store st;
     promises := <[pid := p]> (promises st);
     upstream := upstream st; logs := logs st; metrics := metrics st |}.

Definition call_upstream (cs : list UpstreamCall) (st : State) : State :=
  {| heap := heap st; memoryCache := memoryCache st;
     inflightByMode := inflightByMode st; store := store st;
     promises := promises st; upstream := upstream st ++ cs; logs := logs st;
     metrics := metrics st |}.

Definition log_all (ls : list LogEvent) (st : State) : State :=
  {| heap := heap st; memoryCache := memoryCache st;
     inflightByMode := inflightByMode st; store := store st;
     promises := promises st; upstream := upstream st; logs := logs st ++ ls;
     metrics := metrics st |}.

Definition log (l : LogLevel) (ev : string) (err : option string) (st : State) : State :=
  log_all [{| level := l; event := ev; error := err |}] st.

Definition record_metric (m : Metric) (st : State) : State :=
  {| heap := heap st; memoryCache := memoryCache st;
     inflightByMode := inflightByMode st; store := store st;
     promises := promises st; upstream := upstream st; logs := logs st;
     metrics := metrics st ++ [m] |}.

(** [{...payload, metadata: m}], and the assignment [payload.metadata = m]
    on an object held by value. *)
Definition with_metadata (p : EphemerisSnapshot) (m : Metadata) : EphemerisSnapshot :=
  {| snap_timestamp := snap_timestamp p; metadata := m; bodies := bodies p |}.

Section WithConfig.

(** The configuration read at start-up: [CACHE_TTL_MS] (default 120000),
    [STALE_WHILE_REVALIDATE_MS] (default half the TTL, rounded down),
    [PREWARM_INTERVAL_MS]; the planet table of [config/planets]; what
    [redisReady] resolves to (a connected client, or null when no address is
    configured or the connection failed); and [Date.prototype.toISOString]
    on a millisecond reading. *)
Variable CACHE_TTL_MS : Z.
Variable STALE_WHILE_REVALIDATE_MS : Z.
Variable PREWARM_INTERVAL_MS : Z.
Variable PLANETS : list Planets.PlanetConfig.
Variable redisClient : bool.
Variable toISOString : Z -> string.

Definition getRedisClient : bool := redisClient.

(** [(await getRedisClient()) ? 'redis' : 'memory'] *)
Definition backend_now : CacheBackend :=
  if getRedisClient then redis else memory.

(** The reply to [client.get(cacheKey)], served at [t]: the store is
    unreachable ([reach] is the error thrown), or it gives the text held
    under the key, if any. *)
Definition get_reply (reach : option JsError) (t : Z) (mode : SnapshotMode)
    (st : State) : Settled (option Serialized) :=
  match reach with
  | Some e => Rejected e
  | None => Fulfilled (store_get (store st) (CACHE_KEY_BY_MODE mode) t)
  end.

(** [JSON.parse(raw) as CacheRecord]: a new object. *)
Definition parse (text : Serialized) (st : State) : CacheRecord * State :=
  let l : loc := fresh (dom (heap st)) in
  ({| payload := l; cachedAt := s_cachedAt text; expiresAt := s_expiresAt text;
      staleUntil := s_staleUntil text |},
   set_heap (<[l := s_payload text]> (heap st)) st).

(** [readCache], given the reply to its [client.get] (not consulted
    without a client). *)
Definition readCache (reply : Settled (option Serialized)) (mode : SnapshotMode)
    (st : State) : option CacheRecord * State :=
  if getRedisClient then
    match reply with
    | Fulfilled (Some text) =>
        let '(parsed, st1) := parse text st in
        (Some parsed, set_memoryCache (<[mode := parsed]> (memoryCache st1)) st1)
    | Fulfilled None => (memoryCache st !! mode, st)
    | Rejected err =>
        let st1 := log LWarn "redis_read_failed" (Some (err_text err)) st in
        (memoryCache st1 !! mode, st1)
    end
  else (memoryCache st !! mode, st).

(** [JSON.stringify(record)], with the snapshot as it is at that moment. *)
Definition serialize (record : CacheRecord) (st : State) : option Serialized :=
  match heap st !! payload record with
  | Some snap =>
      Some {| s_payload := json_snapshot snap; s_cachedAt := cachedAt record;
              s_expiresAt := expiresAt record; s_staleUntil := staleUntil record |}
  | None => None
  end.

(** [writeCache] up to the [await] of its [client.set]: the memory write,
    and the text and [PX] handed to the store, if a write is issued. *)
Definition writeCache_issue (record : CacheRecord) (backend : CacheBackend)
    (mode : SnapshotMode) (st : State) : option (option (Serialized * Z) * State) :=
  let st1 := set_memoryCache (<[mode := record]> (memoryCache st)) st in
  if getRedisClient && match backend with redis => true | memory => false end
  then
    match serialize record st1 with
    | Some text => Some (Some (text, staleUntil record - cachedAt record), st1)
    | None => None
    end
  else Some (None, st1).

(** [writeCache] after that [await]: the store holds the text when the
    command went through at [t]; a failure is logged and not rethrown. *)
Definition writeCache_done (mode : SnapshotMode) (issued : option (Serialized * Z))
    (reach : option JsError) (t : Z) (st : State) : State :=
  match issued with
  | None => st
  | Some (text, px) =>
      match reach with
      | None => set_store (store_set (store st) (CACHE_KEY_BY_MODE mode) text px t) st
      | Some err => log LWarn "redis_write_failed" (Some (err_text err)) st
      end
  end.

(** The [Map] built at lines 186-189. *)
Definition fallback_map (bs : list EphemerisBody) : gmap string EphemerisBody :=
  foldl (fun m b => <[name b := b]> m) ∅ bs.

(** The object pushed at lines 224-241. *)
Definition body_of_vector (r : Horizons.StateVector) : EphemerisBody :=
  {| name := Horizons.name r;
     x_au := Num (Horizons.x_au r);
     y_au := Num (Horizons.y_au r);
     z_au := Num (Horizons.z_au r);
     vx := Num <$> Horizons.vx_au_per_day r;
     vy := Num <$> Horizons.vy_au_per_day r;
     vz := Num <$> Horizons.vz_au_per_day r;
     velocityUnit := Horizons.velocityUnit r;
     timestamp := Horizons.timestamp r;
     range_au := Num <$> Horizons.range_au r;
     range_rate_km_s := Num <$> Horizons.range_rate_km_s r;
     light_time_minutes := Num <$> Horizons.light_time_minutes r;
     solar_elongation_deg := Num <$> Horizons.solar_elongation_deg r;
     phase_angle_deg := Num <$> Horizons.phase_angle_deg r;
     illumination_fraction := Num <$> Horizons.illumination_fraction r;
     apparent_magnitude := Num <$> Horizons.apparent_magnitude r |}.

(** The variables the callback of [results.forEach] updates. *)
Record Acc := {
  a_bodies : list EphemerisBody;
  usedFallback : list string;
  missing : list string;
  timestamps : list string;
  a_referenceFrame : string;
  a_velocityUnit : string;
  warnings : list LogEvent
}.

Definition push_timestamp (ts : list string) (t : option string) : list string :=
  match t with
  | Some s => if truthy t then ts ++ [s] else ts
  | None => ts
  end.

(** One run of the callback of [results.forEach] (lines 215-266). *)
Definition visit (fallbacks : gmap string EphemerisBody) (acc : Acc)
    (cfg : Planets.PlanetConfig) (result : Settled Horizons.StateVector) : Acc :=
  match result with
  | Fulfilled r =>
      {| a_bodies := a_bodies acc ++ [body_of_vector r];
         usedFallback := usedFallback acc;
         missing := missing acc;
         timestamps := push_timestamp (timestamps acc) (Horizons.timestamp r);
         a_referenceFrame := default (a_referenceFrame acc) (Horizons.referenceFrame r);
         a_velocityUnit := default (a_velocityUnit acc) (Horizons.velocityUnit r);
         warnings := warnings acc |}
  | Rejected reason =>
      match fallbacks !! Planets.name cfg with
      | Some fallback =>
          {| a_bodies := a_bodies acc ++ [fallback];
             usedFallback := usedFallback acc ++ [Planets.name cfg];
             missing := missing acc;
             timestamps := push_timestamp (timestamps acc) (timestamp fallback);
             a_referenceFrame := a_referenceFrame acc;
             a_velocityUnit := a_velocityUnit acc;
             warnings := warnings acc ++
               [{| level := LWarn; event := "horizons_body_fallback";
                   error := Some (err_text reason) |}] |}
      | None =>
          {| a_bodies := a_bodies acc;
             usedFallback := usedFallback acc;
             missing := missing acc ++ [Planets.name cfg];
             timestamps := timestamps acc;
             a_referenceFrame := a_referenceFrame acc;
             a_velocityUnit := a_velocityUnit acc;
             warnings := warnings acc ++
               [{| level := LWarn; event := "horizons_body_missing";
                   error := Some (err_text reason) |}] |}
      end
  end.

Definition forEach (fallbacks : gmap string EphemerisBody) (acc : Acc)
    (results : list (Planets.PlanetConfig * Settled Horizons.StateVector)) : Acc :=
  foldl (fun a cr => visit fallbacks a cr.1 cr.2) acc results.

(** [xs.length ? xs : undefined] *)
Definition nonempty_or_undefined (xs : list string) : option (list string) :=
  match xs with
  | [] => None
  | _ => Some xs
  end.

(** [buildPlanetSnapshot] once the loop over [PLANETS] has collected
    [results]: [cached] is the snapshot of the record [readCache] gave,
    [started] and [t_done] the clock readings of lines 184 and 203,
    [t_stamp] the one of line 273.  It returns the snapshot, or the error
    thrown at line 269, and the warnings logged on the way. *)
Definition buildPlanetSnapshot (cached : option EphemerisSnapshot)
    (started t_done t_stamp : Z) (results : list (Settled Horizons.StateVector))
  : Settled EphemerisSnapshot * list LogEvent :=
  let fallbacks := fallback_map (from_option bodies [] cached) in
  let latencyMs := t_done - started in
  let cachedMeta := metadata <$> cached in
  let acc0 :=
    {| a_bodies := []; usedFallback := []; missing := []; timestamps := [];
       a_referenceFrame :=
         default "J2000-ECLIPTIC" (cachedMeta ≫= referenceFrame);
       a_velocityUnit := default "AU/day" (cachedMeta ≫= md_velocityUnit);
       warnings := [] |} in
  let acc := forEach fallbacks acc0 (zip PLANETS results) in
  match a_bodies acc with
  | [] => (Rejected (ErrorObj "No Horizons data available"), warnings acc)
  | _ =>
      (Fulfilled
         {| snap_timestamp :=
              default (default (toISOString t_stamp) (snap_timestamp <$> cached))
                      (head (timestamps acc));
            metadata :=
              {| source := Some "NASA-JPL-Horizons";
                 referenceFrame := Some (a_referenceFrame acc);
                 distanceUnit := Some "AU";
                 md_velocityUnit := Some (a_velocityUnit acc);
                 responseTimeMs := Some latencyMs;
                 cacheStatus := None; md_cacheBackend := None;
                 md_cacheAgeMs := None; cacheExpiresInMs := None;
                 cacheStale := None; generatedAt := None;
                 frozenSnapshot := None; freezeReason := None;
                 requestId := None;
                 partial := Some (bool_decide (usedFallback acc ≠ [])
                                  || bool_decide (missing acc ≠ []));
                 fallbackBodies := nonempty_or_undefined (usedFallback acc);
                 missingBodies := nonempty_or_undefined (missing acc) |};
            bodies := a_bodies acc |},
       warnings acc)
  end.

(** The call of [fetchPlanetStateVector] one turn of the loop of lines
    192-202 makes. *)
Definition planet_call (includeObserver : bool) (cfg : Planets.PlanetConfig)
  : UpstreamCall :=
  {| u_horizonsId := Planets.horizonsId cfg;
     u_name := Planets.name cfg;
     u_includeObserver := includeObserver |}.

(** [decoratePayloadMetadata]; [t] is its [Date.now()]. *)
Definition decoratePayloadMetadata (t : Z) (payload : EphemerisSnapshot)
    (cacheState : CacheState) (backend : CacheBackend) (cacheAgeMs : Z)
    (correlationId : option string) : EphemerisSnapshot :=
  let baseMetadata := metadata payload in
  with_metadata payload
    {| source := source baseMetadata;
       referenceFrame := referenceFrame baseMetadata;
       distanceUnit := distanceUnit baseMetadata;
       md_velocityUnit := md_velocityUnit baseMetadata;
       responseTimeMs := responseTimeMs baseMetadata;
       cacheStatus := Some cacheState;
       md_cacheBackend := Some backend;
       md_cacheAgeMs := Some cacheAgeMs;
       cacheExpiresInMs := Some (Z.max 0 (CACHE_TTL_MS - cacheAgeMs));
       cacheStale := Some (match cacheState with STALE => true | _ => false end);
       generatedAt :=
         Some (default (toISOString (t - cacheAgeMs)) (generatedAt baseMetadata));
       frozenSnapshot := frozenSnapshot baseMetadata;
       freezeReason := freezeReason baseMetadata;
       requestId := nullish correlationId (requestId baseMetadata);
       partial := partial baseMetadata;
       fallbackBodies := fallbackBodies baseMetadata;
       missingBodies := missingBodies baseMetadata |}.

(** The metadata assigned at lines 312-321. *)
Definition miss_metadata (base : Metadata) (backend : CacheBackend) (now : Z)
    (correlationId : option string) : Metadata :=
  {| source := source base;
     referenceFrame := referenceFrame base;
     distanceUnit := distanceUnit base;
     md_velocityUnit := md_velocityUnit base;
     responseTimeMs := responseTimeMs base;
     cacheStatus := Some MISS;
     md_cacheBackend := Some backend;
     md_cacheAgeMs := Some 0;
     cacheExpiresInMs := Some CACHE_TTL_MS;
     cacheStale := Some false;
     generatedAt := Some (toISOString now);
     frozenSnapshot := frozenSnapshot base;
     freezeReason := freezeReason base;
     requestId := correlationId;
     partial := partial base;
     fallbackBodies := fallbackBodies base;
     missingBodies := missingBodies base |}.

(** The metadata assigned at lines 443-450. *)
Definition frozen_metadata (base : Metadata) (err : JsError)
    (correlationId : option string) : Metadata :=
  {| source := source base;
     referenceFrame := referenceFrame base;
     distanceUnit := distanceUnit base;
     md_velocityUnit := md_velocityUnit base;
     responseTimeMs := responseTimeMs base;
     cacheStatus := cacheStatus base;
     md_cacheBackend := md_cacheBackend base;
     md_cacheAgeMs := md_cacheAgeMs base;
     cacheExpiresInMs := Some 0;
     cacheStale := Some true;
     generatedAt := generatedAt base;
     frozenSnapshot := Some true;
     freezeReason := Some (freeze_reason_of err);
     requestId := correlationId;
     partial := partial base;
     fallbackBodies := fallbackBodies base;
     missingBodies := missingBodies base |}.

(** [setInflight(mode, refreshSnapshot(reason, correlationId, mode))]: the
    new call of [refreshSnapshot] stops at its first [await] without having
    touched the state, and its promise takes the slot of the mode. *)
Definition setInflight_refresh (reason : string) (correlationId : option string)
    (mode : SnapshotMode) (st : State) : PromiseId * State :=
  let p : PromiseId := fresh (dom (promises st)) in
  let r := {| r_reason := reason; r_correlationId := correlationId;
              r_mode := mode |} in
  (p, set_inflightByMode (<[mode := p]> (inflightByMode st))
        (set_promise p (Pending r Reading) st)).

(** The callback [setInflight] attaches with [finally]. *)
Definition clear_inflight (mode : SnapshotMode) (p : PromiseId) (st : State) : State :=
  match inflightByMode st !! mode with
  | Some current =>
      if bool_decide (current = p)
      then set_inflightByMode (delete mode (inflightByMode st)) st
      else st
  | None => st
  end.

(** *** [refreshSnapshot], segment by segment

    Its first segment, up to the loop of [buildPlanetSnapshot], is the
    [readCache] of line 185 ([readCache] above); the reading of line 184 is
    kept for the latency. *)


(** The snapshot of the record [readCache] gave.  (The loop reads its
    [bodies] before the fetches and its [metadata] and [timestamp] after
    them; nothing assigns to the object in between, see
    [refresh_written].) *)
Definition cached_snapshot (cached : option CacheRecord) (st : State)
  : option (option EphemerisSnapshot) :=
  match cached with
  | None => Some None
  | Some c =>
      match heap st !! payload c with
      | Some snap => Some (Some snap)
      | None => None
      end
  end.

(** From the end of the loop to the [await] inside [writeCache] (lines
    203-307), or to the [throw] of line 269: [results] are the outcomes of
    the fetches, in the order of the planet table; [now] is the reading of
    line 298. *)
Definition refresh_fetched (p : PromiseId) (r : Refresh) (started : Z)
    (cached : option CacheRecord) (results : list (Settled Horizons.StateVector))
    (t_done t_stamp now : Z) (st : State) : option (option JsError * State) :=
  match cached_snapshot cached st with
  | None => None
  | Some cachedSnap =>
      let st1 := record_metric (HorizonsLatency (t_done - started)) st in
      let '(built, warns) := buildPlanetSnapshot cachedSnap started t_done t_stamp results in
      let st2 := log_all warns st1 in
      match built with
      | Rejected e => Some (Some e, st2)
      | Fulfilled snap =>
          let l : loc := fresh (dom (heap st2)) in
          let st3 := set_heap (<[l := snap]> (heap st2)) st2 in
          let record :=
            {| payload := l; cachedAt := now; expiresAt := now + CACHE_TTL_MS;
               staleUntil := now + CACHE_TTL_MS + STALE_WHILE_REVALIDATE_MS |} in
          match writeCache_issue record backend_now (r_mode r) st3 with
          | Some (issued, st4) =>
              Some (None, set_promise p (Pending r (Writing record issued)) st4)
          | None => None
          end
      end
  end.

(** After the [await] of [writeCache] (lines 308-336): the metrics, the
    assignment to [payload.metadata], the log and the result. *)
Definition refresh_written (r : Refresh) (record : CacheRecord)
    (issued : option (Serialized * Z)) (reach : option JsError) (t_store : Z)
    (st : State) : option (SnapshotResult loc * State) :=
  let st1 := writeCache_done (r_mode r) issued reach t_store st in
  match heap st1 !! payload record with
  | None => None
  | Some snap =>
      let st2 :=
        record_metric
          (CacheMiss backend_now (r_reason r) (r_mode r)
             (responseTimeMs (metadata snap))) st1 in
      let decorated :=
        with_metadata snap
          (miss_metadata (metadata snap) backend_now (cachedAt record)
             (r_correlationId r)) in
      let st3 := set_heap (<[payload record := decorated]> (heap st2)) st2 in
      Some ({| res_payload := payload record; cacheState := MISS;
               cacheBackend := backend_now; cacheAgeMs := 0 |},
            log LInfo "ephemeris_refresh" None st3)
  end.

(** *** [getSnapshot], segment by segment *)

Inductive Entered :=
  | Return (res : SnapshotResult EphemerisSnapshot)
  | Await (p : PromiseId).

(** Lines 405-415: join the refresh in flight for the mode, or start one. *)
Definition join_or_refresh (o : Options) (mode : SnapshotMode) (st : State)
  : Entered * State :=
  match inflightByMode st !! mode with
  | Some inflight => (Await inflight, st)
  | None =>
      let '(p, st') :=
        setInflight_refresh
          (if forceRefresh o then "manual-refresh" else "miss")
          (correlationId o) mode st in
      (Await p, st')
  end.

(** [getSnapshot] from its entry to its [return] of line 389 or its
    [await] of line 418.  [now] is the reading of line 371, [t_dec] the one
    inside [decoratePayloadMetadata], [reply] the reply to the [client.get]
    of [readCache]. *)
Definition enter (o : Options) (now t_dec : Z) (reply : Settled (option Serialized))
    (st : State) : option (Entered * State) :=
  let mode := mode_of (includeObserver o) in
  let backend := backend_now in
  let '(cached, st1) :=
    if forceRefresh o then (None, st) else readCache reply mode st in
  match cached with
  | None => Some (join_or_refresh o mode st1)
  | Some c =>
      let cacheAgeMs := now - cachedAt c in
      let isFresh := bool_decide (cacheAgeMs < CACHE_TTL_MS) in
      let isStaleButAllowed :=
        negb isFresh
        && bool_decide (cacheAgeMs < CACHE_TTL_MS + STALE_WHILE_REVALIDATE_MS) in
      if isFresh || isStaleButAllowed then
        let cacheState := if isFresh then HIT else STALE in
        let st2 :=
          record_metric
            (CacheHit backend (if isFresh then "fresh" else "stale") cacheAgeMs) st1 in
        let st3 :=
          if isStaleButAllowed && bool_decide (inflightByMode st2 !! mode = None)
          then (setInflight_refresh "stale-revalidate" None mode st2).2
          else st2 in
        match heap st3 !! payload c with
        | None => None
        | Some snap =>
            Some (Return
                    {| res_payload :=
                         decoratePayloadMetadata t_dec snap cacheState backend
                           cacheAgeMs (correlationId o);
                       cacheState := cacheState;
                       cacheBackend := backend;
                       cacheAgeMs := cacheAgeMs |},
                  st3)
        end
      else Some (join_or_refresh o mode st1)
  end.

(** Lines 418-430: the awaited refresh resolved. *)
Definition resume_fulfilled (o : Options) (t_dec : Z) (result : SnapshotResult loc)
    (st : State) : option (SnapshotResult EphemerisSnapshot) :=
  match heap st !! res_payload result with
  | None => None
  | Some snap =>
      Some {| res_payload :=
                decoratePayloadMetadata t_dec snap (cacheState result)
                  (cacheBackend result) (cacheAgeMs result)
                  (nullish (correlationId o) (requestId (metadata snap)));
              cacheState := cacheState result;
              cacheBackend := cacheBackend result;
              cacheAgeMs := cacheAgeMs result |}
  end.

(** Lines 433-474: the [catch] block once [cached] is known. *)
Definition frozen_or_throw (o : Options) (now t_dec : Z) (err : JsError)
    (cached : option CacheRecord) (st : State)
  : option (Settled (SnapshotResult EphemerisSnapshot) * State) :=
  let backend := backend_now in
  match cached with
  | Some c =>
      match heap st !! payload c with
      | None => None
      | Some snap =>
          let cacheAgeMs := now - cachedAt c in
          let decorated :=
            decoratePayloadMetadata t_dec snap FROZEN backend cacheAgeMs
              (correlationId o) in
          let payload :=
            with_metadata decorated
              (frozen_metadata (metadata decorated) err (correlationId o)) in
          Some (Fulfilled
                  {| res_payload := payload; cacheState := FROZEN;
                     cacheBackend := backend; cacheAgeMs := cacheAgeMs |},
                log LWarn "ephemeris_snapshot_frozen" (Some (err_text err)) st)
      end
  | None =>
      Some (Rejected err,
            log LError "ephemeris_refresh_failed" (Some (err_text err)) st)
  end.

(** *** The event loop *)

(** What a suspended call of [getSnapshot] awaits: the refresh of its mode
    (line 418), or, in its [catch] block, the [readCache] of line 432. *)
Inductive Wait :=
  | AwaitInflight (p : PromiseId)
  | AwaitReadCache (err : JsError).

#[export] Instance Wait_eq_dec : EqDecision Wait.
Proof. solve_decision. Defined.

Record Caller := {
  c_call : nat;
  c_options : Options;
  c_now : Z;
  c_wait : Wait
}.

Record System := {
  state : State;
  waiting : list Caller;
  results : gmap nat (Settled (SnapshotResult EphemerisSnapshot));
  ncalls : nat
}.

Definition boot : System :=
  {| state := initial; waiting := []; results := ∅; ncalls := 0%nat |}.

(** The continuation of one call when the promise it awaits settles.  In
    the [catch] block, line 432 looks in memory first and awaits
    [readCache] only when memory has nothing. *)
Definition resume (t_dec : Z) (w : Caller) (res : Settled (SnapshotResult loc))
    (st : State)
  : option ((Caller + Settled (SnapshotResult EphemerisSnapshot)) * State) :=
  match res with
  | Fulfilled result =>
      match resume_fulfilled (c_options w) t_dec result st with
      | Some out => Some (inr (Fulfilled out), st)
      | None => None
      end
  | Rejected err =>
      match memoryCache st !! mode_of (includeObserver (c_options w)) with
      | Some c =>
          match frozen_or_throw (c_options w) (c_now w) t_dec err (Some c) st with
          | Some (out, st') => Some (inr out, st')
          | None => None
          end
      | None =>
          Some (inl {| c_call := c_call w; c_options := c_options w;
                       c_now := c_now w; c_wait := AwaitReadCache err |}, st)
      end
  end.

Fixpoint resume_all (t_dec : Z) (p : PromiseId) (res : Settled (SnapshotResult loc))
    (ws : list Caller) (st : State)
    (out : gmap nat (Settled (SnapshotResult EphemerisSnapshot)))
  : option (list Caller * State * gmap nat (Settled (SnapshotResult EphemerisSnapshot))) :=
  match ws with
  | [] => Some ([], st, out)
  | w :: ws' =>
      match c_wait w with
      | AwaitInflight q =>
          if bool_decide (q = p) then
            match resume t_dec w res st with
            | Some (inl w', st') =>
                match resume_all t_dec p res ws' st' out with
                | Some (rest, st'', out') => Some (w' :: rest, st'', out')
                | None => None
                end
            | Some (inr r, st') =>
                resume_all t_dec p res ws' st' (<[c_call w := r]> out)
            | None => None
            end
          else
            match resume_all t_dec p res ws' st out with
            | Some (rest, st', out') => Some (w :: rest, st', out')
            | None => None
            end
      | AwaitReadCache _ =>
          match resume_all t_dec p res ws' st out with
          | Some (rest, st', out') => Some (w :: rest, st', out')
          | None => None
          end
      end
  end.

(** A refresh settles: its promise is done, the [finally] callback of
    [setInflight] runs, then the continuations of the calls awaiting it. *)
Definition settle (t_dec : Z) (p : PromiseId) (r : Refresh)
    (res : Settled (SnapshotResult loc)) (s : System) (st : State) : option System :=
  let st1 := clear_inflight (r_mode r) p (set_promise p (Done res) st) in
  match resume_all t_dec p res (waiting s) st1 (results s) with
  | Some (ws, st2, out) =>
      Some {| state := st2; waiting := ws; results := out; ncalls := ncalls s |}
  | None => None
  end.

(** The loop of lines 192-202 at the top of a turn, [collected] being the
    outcomes so far.  When a planet is left, the fetch for it is
    called and the refresh waits for it.  When none is left the refresh
    goes on to build the snapshot: it fails, and settles, or it reaches the
    [await] inside [writeCache].  The four clock readings are taken only in
    the second case: lines 203, 273 and 298, and the [Date.now()] of the
    decoration in the continuations of the callers. *)
Definition refresh_loop (p : PromiseId) (r : Refresh) (started : Z)
    (cached : option CacheRecord) (collected : list (Settled Horizons.StateVector))
    (t_done t_stamp now t_dec : Z) (s : System) (st : State) : option System :=
  match PLANETS !! length collected with
  | Some cfg =>
      let call :=
        planet_call match r_mode r with full => true | state_vectors => false end cfg in
      Some {| state := set_promise p (Pending r (Fetching started cached collected))
                         (call_upstream [call] st);
              waiting := waiting s; results := results s;
              ncalls := ncalls s |}
  | None =>
      match refresh_fetched p r started cached collected t_done t_stamp now st with
      | Some (Some err, st') => settle t_dec p r (Rejected err) s st'
      | Some (None, st') =>
          Some {| state := st'; waiting := waiting s;
                  results := results s; ncalls := ncalls s |}
      | None => None
      end
  end.

Fixpoint remove_caller (n : nat) (ws : list Caller) : option (Caller * list Caller) :=
  match ws with
  | [] => None
  | w :: ws' =>
      if bool_decide (c_call w = n) then Some (w, ws')
      else match remove_caller n ws' with
           | Some (x, rest) => Some (x, w :: rest)
           | None => None
           end
  end.

Inductive Event :=
  (* a call of getSnapshot arrives and runs to its return or its await *)
  | EvCall (o : Options) (now t_dec : Z) (reach : option JsError) (t_store : Z)
  (* the readCache of a refresh completes, and its loop begins *)
  | EvRead (p : PromiseId) (reach : option JsError) (t_store t_started : Z)
      (t_done t_stamp now t_dec : Z)
  (* the fetch a refresh is waiting for settles, and its loop goes on *)
  | EvFetched (p : PromiseId) (outcome : Settled Horizons.StateVector)
      (t_done t_stamp now t_dec : Z)
  (* the writeCache of a refresh completes *)
  | EvWritten (p : PromiseId) (reach : option JsError) (t_store t_dec : Z)
  (* the readCache in the catch block of a call completes *)
  | EvCatchRead (n : nat) (reach : option JsError) (t_store t_dec : Z)
  (* the prewarm timer fires *)
  | EvPrewarm
  (* another process changes the shared store *)
  | EvStore (s : gmap string StoreEntry).

Definition step (e : Event) (s : System) : option System :=
  let st := state s in
  match e with
  | EvCall o now t_dec reach t_store =>
      let reply := get_reply reach t_store (mode_of (includeObserver o)) st in
      match enter o now t_dec reply st with
      | Some (Return res, st') =>
          Some {| state := st'; waiting := waiting s;
                  results := <[ncalls s := Fulfilled res]> (results s);
                  ncalls := S (ncalls s) |}
      | Some (Await p, st') =>
          Some {| state := st';
                  waiting := waiting s ++
                    [{| c_call := ncalls s; c_options := o; c_now := now;
                        c_wait := AwaitInflight p |}];
                  results := results s; ncalls := S (ncalls s) |}
      | None => None
      end
  | EvRead p reach t_store t_started t_done t_stamp now t_dec =>
      match promises st !! p with
      | Some (Pending r Reading) =>
          let reply := get_reply reach t_store (r_mode r) st in
          let '(cached, st1) := readCache reply (r_mode r) st in
          refresh_loop p r t_started cached [] t_done t_stamp now t_dec s st1
      | _ => None
      end
  | EvFetched p outcome t_done t_stamp now t_dec =>
      match promises st !! p with
      | Some (Pending r (Fetching started cached results)) =>
          refresh_loop p r started cached (results ++ [outcome])
            t_done t_stamp now t_dec s st
      | _ => None
      end
  | EvWritten p reach t_store t_dec =>
      match promises st !! p with
      | Some (Pending r (Writing record issued)) =>
          match refresh_written r record issued reach t_store st with
          | Some (result, st') => settle t_dec p r (Fulfilled result) s st'
          | None => None
          end
      | _ => None
      end
  | EvCatchRead n reach t_store t_dec =>
      match remove_caller n (waiting s) with
      | Some (w, rest) =>
          match c_wait w with
          | AwaitReadCache err =>
              let mode := mode_of (includeObserver (c_options w)) in
              let '(cached, st1) := readCache (get_reply reach t_store mode st) mode st in
              match frozen_or_throw (c_options w) (c_now w) t_dec err cached st1 with
              | Some (out, st2) =>
                  Some {| state := st2; waiting := rest;
                          results := <[n := out]> (results s); ncalls := ncalls s |}
              | None => None
              end
          | AwaitInflight _ => None
          end
      | None => None
      end
  | EvPrewarm =>
      if bool_decide (0 < CACHE_TTL_MS) && bool_decide (0 < PREWARM_INTERVAL_MS) then
        match inflightByMode st !! state_vectors with
        | Some _ => Some s
        | None =>
            Some {| state := (setInflight_refresh "background-prewarm" None
                                state_vectors st).2;
                    waiting := waiting s; results := results s; ncalls := ncalls s |}
        end
      else None
  | EvStore s' =>
      Some {| state := set_store s' st; waiting := waiting s;
              results := results s; ncalls := ncalls s |}
  end.

Fixpoint run (es : list Event) (s : System) : option System :=
  match es with
  | [] => Some s
  | e :: es' =>
      match step e s with
      | Some s' => run es' s'
      | None => None
      end
  end.

End WithConfig.

End EphemerisCache.

(** ** routes/ephemeris.ts: the HTTP handlers in front of the two caches

    In the source tree its text follows that of the single-body cache, as
    lines 197-325 of cache/bodyEphemerisCache.ts; line numbers below are
    those. *)
Module EphemerisRoutes.

(** A value found in [req.query]: a string, or something that is not one
    (a nested object). *)
Inductive QueryValue :=
  | QString (s : string)
  | QObject.

(** [req.query.refresh]: absent, one value, or an array of values. *)
Inductive QueryParam :=
  | QAbsent
  | QOne (v : QueryValue)
  | QMany (vs : list QueryValue).

(** [req.headers[name]]: absent, a string, or an array of strings. *)
Inductive HeaderIn :=
  | HAbsent
  | HOne (s : string)
  | HMany (ss : list string).

(** What the handlers read of a request: [req.requestId] (set by a
    middleware), [req.query.refresh], [req.headers['x-refresh-cache']] and
    [req.params.id]. *)
Record Request := {
  requestId : option string;
  q_refresh : QueryParam;
  h_refresh : HeaderIn;
  p_id : option string
}.

(** [s === '1' || s === 'true'] *)
Definition on (s : string) : bool := String.eqb s "1" || String.eqb s "true".

Definition value_on (v : QueryValue) : bool :=
  match v with
  | QString s => on s
  | QObject => false
  end.

(** [parseForceRefresh] *)
Definition parseForceRefresh (req : Request) : bool :=
  let refreshParamValue : option QueryValue :=
    match q_refresh req with
    | QOne (QString s) => Some (QString s)
    | QMany vs => List.find value_on vs
    | QOne QObject | QAbsent => None
    end in
  let refreshHeader : option string :=
    match h_refresh req with
    | HMany ss => head ss
    | HOne s => Some s
    | HAbsent => None
    end in
  from_option value_on false refreshParamValue
  || from_option on false refreshHeader.

(** What [res.setHeader] is given: a cache state, a backend, a number
    (passed as such or through [toString]), or a string. *)
Inductive HeaderValue :=
  | HState (cs : EphemerisCache.CacheState)
  | HBodyStatus (cs : BodyEphemerisCache.CacheStatus)
  | HBackend (b : EphemerisCache.CacheBackend)
  | HNum (n : Z)
  | HStr (s : string).

Inductive Body :=
  | JsonSnapshot (p : EphemerisCache.EphemerisSnapshot)
  | JsonBody (p : BodyEphemerisCache.BodyEphemerisPayload)
  | JsonError (message : string).

Record Response := {
  status : Z;
  headers : list (string * HeaderValue);
  body : Body
}.

Definition flag (b : bool) : HeaderValue := HStr (if b then "1" else "0").

(** The [X-Request-Id] header of both handlers: set when either id is
    truthy, to the payload's id unless that is undefined. *)
Definition request_id_header (of_payload of_request : option string)
  : list (string * HeaderValue) :=
  if truthy of_payload || truthy of_request
  then [("X-Request-Id", HStr (default "" (nullish of_payload of_request)))]
  else [].

(** The argument [handleSnapshotRequest] passes to [getSnapshot]; the
    routes [/planets] and [/planets/state-vectors] leave [includeObserver]
    out, [/planets/full] sets it. *)
Definition snapshot_options (observer : bool) (req : Request) : EphemerisCache.Options :=
  {| EphemerisCache.forceRefresh := parseForceRefresh req;
     EphemerisCache.correlationId := requestId req;
     EphemerisCache.includeObserver := observer |}.

(** [handleSnapshotRequest] after its [await]: the response, and what is
    logged. *)
Definition snapshot_response (CACHE_TTL_MS : Z) (req : Request)
    (out : Settled (EphemerisCache.SnapshotResult EphemerisCache.EphemerisSnapshot))
  : Response * list LogEvent :=
  match out with
  | Fulfilled res =>
      let payload := EphemerisCache.res_payload res in
      let m := EphemerisCache.metadata payload in
      let cacheState := EphemerisCache.cacheState res in
      let isStale :=
        match cacheState with
        | EphemerisCache.STALE | EphemerisCache.FROZEN => true
        | _ => false
        end in
      ({| status := 200;
          headers :=
            match EphemerisCache.responseTimeMs m with
            | Some ms => [("X-Horizons-Latency", HNum ms)]
            | None => []
            end
            ++ [("X-Horizons-Cache", HState cacheState);
                ("X-Horizons-Cache-Backend", HBackend (EphemerisCache.cacheBackend res));
                ("X-Horizons-Cache-Age", HNum (EphemerisCache.cacheAgeMs res));
                ("X-Horizons-TTL", HNum CACHE_TTL_MS);
                ("X-Horizons-Cache-Stale", flag isStale);
                ("X-Horizons-Frozen",
                 flag (default false (EphemerisCache.frozenSnapshot m)))]
            ++ request_id_header (EphemerisCache.requestId m) (requestId req);
          body := JsonSnapshot payload |},
       [])
  | Rejected err =>
      ({| status := 500; headers := [];
          body := JsonError "Erreur lors de la récupération des éphémérides" |},
       [{| level := LError; event := "ephemeris_fetch_failed";
           error := Some (err_text err) |}])
  end.

(** The handler of [/body/:id] up to its [await]: it answers at once, or
    calls [getBodyEphemeris]. *)
Inductive Routed :=
  | Respond (r : Response)
  | Call (o : BodyEphemerisCache.Options).

Definition body_route (req : Request) : Routed :=
  if truthy (p_id req) then
    let id := default "" (p_id req) in
    match Bodies.BODY_BY_ID !! id with
    | Some _ =>
        Call {| BodyEphemerisCache.o_id := id;
                BodyEphemerisCache.forceRefresh := parseForceRefresh req;
                BodyEphemerisCache.correlationId := requestId req |}
    | None =>
        Respond {| status := 404; headers := []; body := JsonError "Unknown body id" |}
    end
  else Respond {| status := 400; headers := []; body := JsonError "Missing body id" |}.

(** The same handler after its [await]. *)
Definition body_response (req : Request) (out : Settled BodyEphemerisCache.BodyEphemerisPayload)
  : Response * list LogEvent :=
  match out with
  | Fulfilled payload =>
      let m := BodyEphemerisCache.metadata payload in
      let of_m {A} (f : BodyEphemerisCache.Metadata -> option A) : option A := m ≫= f in
      ({| status := 200;
          headers :=
            match of_m BodyEphemerisCache.responseTimeMs with
            | Some ms => [("X-Horizons-Latency", HNum ms)]
            | None => []
            end
            ++ match of_m BodyEphemerisCache.cacheStatus with
               | Some cs => [("X-Horizons-Cache", HBodyStatus cs)]
               | None => []
               end
            ++ match of_m BodyEphemerisCache.cacheAgeMs with
               | Some age => [("X-Horizons-Cache-Age", HNum age)]
               | None => []
               end
            ++ match of_m BodyEphemerisCache.cacheExpiresInMs with
               | Some ms => [("X-Horizons-TTL", HNum ms)]
               | None => []
               end
            ++ [("X-Horizons-Frozen",
                 flag (default false (of_m BodyEphemerisCache.frozenSnapshot)))]
            ++ request_id_header (of_m BodyEphemerisCache.requestId) (requestId req);
          body := JsonBody payload |},
       [])
  | Rejected err =>
      ({| status := 500; headers := [];
          body := JsonError "Erreur lors de la rＤupＳation des ＱhＮＳides" |},
       [{| level := LError; event := "body_ephemeris_fetch_failed";
           error := Some (err_text err) |}])
  end.

End EphemerisRoutes.

(** * Invariants and auxiliary notions *)

(** ** The single-body cache *)
Module BodyInvariants.
Import BodyEphemerisCache.

(** The chain of promise [p] is still pending and fetches body [i]. *)
Definition in_flight (st : State) (i : BodyId) (p : PromiseId) : Prop :=
  exists c, promises st !! p = Some (Pending c) /\ ch_id c = i.

(** The in-flight map and the pending chains describe each other. *)
Record registered (st : State) : Prop := {
  reg_inflight : forall i p, inflight st !! i = Some p -> in_flight st i p;
  reg_pending : forall p c,
    promises st !! p = Some (Pending c) -> inflight st !! ch_id c = Some p
}.

Record consistent (s : System) : Prop := {
  con_registered : registered (state s);
  con_waiting : forall w, w ∈ waiting s ->
    in_flight (state s) (o_id (c_options w)) (awaited (c_wait w))
    /\ (c_call w < ncalls s)%nat
    /\ results s !! c_call w = None;
  con_nodup : NoDup (c_call <$> waiting s);
  con_results : forall n r, results s !! n = Some r -> (n < ncalls s)%nat;
  con_cold : forall w p, w ∈ waiting s -> c_wait w = AwaitOwn p ->
    forceRefresh (c_options w) = false ->
    cache (state s) !! o_id (c_options w) = None
}.


(** A forced-refresh request for body [i]: its correlation id and the three
    clock readings of its first segment. *)
Definition forced_call (i : BodyId) (req : option string * Z * Z * Z) : Event :=
  EvCall {| o_id := i; forceRefresh := true; correlationId := req.1.1.1 |}
    req.1.1.2 req.1.2 req.2.

(** A result that is neither a hit nor a frozen record: the payload of a
    fetch that resolved, or the error of one that failed. *)
Definition fetched_or_failed (TTL : Z) (r : Settled BodyEphemerisPayload) : Prop :=
  (exists p, r = Fulfilled (miss_payload TTL p)) \/ (exists e, r = Rejected e).

(** Call number [n] has not returned and was made without [forceRefresh],
    or it has returned with [fetched_or_failed]. *)
Definition cold_call (TTL : Z) (n : nat) (s : System) : Prop :=
  (exists w, w ∈ waiting s /\ c_call w = n /\ forceRefresh (c_options w) = false)
  \/ (exists r, results s !! n = Some r /\ fetched_or_failed TTL r).


(** The upstream calls made so far for body [i]. *)
Definition calls_for (i : BodyId) (st : State) : list BodyId :=
  filter (fun j => j = i) (upstream st).

(** The calls numbered [n0 .. n0 + K - 1] share the chain of promise [p]
    for body [i]: while it is pending they all await it and [calls] are the
    upstream calls made for the body; once it has resolved they have all
    returned the same payload. *)
Definition coalesced (TTL : Z) (i : BodyId) (calls : list BodyId) (n0 K : nat)
    (p : PromiseId) (s : System) : Prop :=
  match promises (state s) !! p with
  | Some (Pending c) =>
      ch_id c = i
      /\ calls_for i (state s) = calls
      /\ forall k, (k < K)%nat ->
           exists w, w ∈ waiting s /\ c_call w = (n0 + k)%nat
                     /\ awaited (c_wait w) = p
  | Some (Done (Fulfilled payload)) =>
      forall k, (k < K)%nat ->
        results s !! (n0 + k)%nat = Some (Fulfilled (miss_payload TTL payload))
  | Some (Done (Rejected _)) => True
  | None => False
  end.


(** A payload as [getBodyEphemeris] returns them: one of its three object
    literals. *)
Definition returned (TTL : Z) (p : BodyEphemerisPayload) : Prop :=
  (exists e now cid, p = hit_payload e now cid)
  \/ (exists q, p = miss_payload TTL q)
  \/ (exists e now cid err, p = frozen_payload e now cid err).


(** *** Notions for the further properties *)

(** Every cache entry holds, under a body's id, a payload that
    [fetchFresh] built for that body. *)
Definition sound_cache (iso : Z -> string) (st : State) : Prop :=
  forall i e, cache st !! i = Some e ->
    exists cid started t_resp vec,
      payload e = fresh_payload iso i cid started t_resp vec.

(** A payload as a caller receives it: the measurements of an upstream
    vector, under metadata that tell one of the three stories. *)
Definition answered (TTL : Z) (iso : Z -> string) (p : BodyEphemerisPayload) : Prop :=
  exists i cid started t_resp vec m,
    p = with_metadata (fresh_payload iso i cid started t_resp vec) m
    /\ responseTimeMs m = Some (t_resp - started)
    /\ match cacheStatus m with
       | Some HIT =>
           is_Some (cacheAgeMs m)
           /\ (exists ms, cacheExpiresInMs m = Some ms /\ 0 <= ms)
           /\ frozenSnapshot m = None /\ freezeReason m = None
       | Some MISS =>
           cacheAgeMs m = Some 0 /\ cacheExpiresInMs m = Some TTL
           /\ frozenSnapshot m = None /\ freezeReason m = None
       | Some FROZEN =>
           is_Some (cacheAgeMs m) /\ cacheExpiresInMs m = Some 0
           /\ frozenSnapshot m = Some true /\ is_Some (freezeReason m)
       | None => False
       end.

(** Every call made so far is suspended or has been answered. *)
Definition accounted (s : System) : Prop :=
  forall n, (n < ncalls s)%nat ->
    (exists w, w ∈ waiting s /\ c_call w = n) \/ is_Some (results s !! n).

(** The error [fetchFresh] throws for an id that is not in the table. *)
Definition unknown_body (i : BodyId) : JsError := ErrorObj ("Corps inconnu: " +:+ i).

(** The table of bodies is respected: only known bodies are cached and
    fetched, a chain is waiting for the upstream call of its own body, or
    has failed on its own unknown id; and there are no more upstream calls
    than chains, and no more chains than calls. *)
Record tidy (s : System) : Prop := {
  tidy_cache : forall i e, cache (state s) !! i = Some e -> is_Some (Bodies.BODY_BY_ID !! i);
  tidy_upstream : forall i, i ∈ upstream (state s) -> is_Some (Bodies.BODY_BY_ID !! i);
  tidy_chain : forall p c, promises (state s) !! p = Some (Pending c) ->
    match ch_fetch c with
    | Upstream cfg _ => Bodies.BODY_BY_ID !! ch_id c = Some cfg
    | Unknown e => Bodies.BODY_BY_ID !! ch_id c = None /\ e = unknown_body (ch_id c)
    end;
  tidy_count : (length (upstream (state s)) <= size (promises (state s)))%nat
               /\ (size (promises (state s)) <= ncalls s)%nat
}.

End BodyInvariants.

(** ** The snapshot cache *)
Module SnapshotInvariants.
Import EphemerisCache.

(** The refresh behind promise [p] has not settled and is for mode [m]. *)
Definition in_flight (st : State) (m : SnapshotMode) (p : PromiseId) : Prop :=
  exists r ph, promises st !! p = Some (Pending r ph) /\ r_mode r = m.

Record registered (st : State) : Prop := {
  reg_inflight : forall m p, inflightByMode st !! m = Some p -> in_flight st m p;
  reg_pending : forall p r ph,
    promises st !! p = Some (Pending r ph) -> inflightByMode st !! r_mode r = Some p
}.

Record consistent (s : System) : Prop := {
  con_registered : registered (state s);
  con_waiting : forall w, w ∈ waiting s ->
    (c_call w < ncalls s)%nat
    /\ results s !! c_call w = None
    /\ (forall p, c_wait w = AwaitInflight p ->
          exists r ph, promises (state s) !! p = Some (Pending r ph));
  con_nodup : NoDup (c_call <$> waiting s);
  con_results : forall n r, results s !! n = Some r -> (n < ncalls s)%nat
}.


(** Two states with the same maps (they may differ in what was logged and
    measured). *)
Definition same_maps (st st' : State) : Prop :=
  heap st' = heap st /\ memoryCache st' = memoryCache st
  /\ inflightByMode st' = inflightByMode st /\ store st' = store st
  /\ promises st' = promises st /\ upstream st' = upstream st.


(** The snapshot with the per-caller [requestId] left out. *)
Definition without_requestId (p : EphemerisSnapshot) : EphemerisSnapshot :=
  let m := metadata p in
  with_metadata p
    {| source := source m; referenceFrame := referenceFrame m;
       distanceUnit := distanceUnit m; md_velocityUnit := md_velocityUnit m;
       responseTimeMs := responseTimeMs m; cacheStatus := cacheStatus m;
       md_cacheBackend := md_cacheBackend m; md_cacheAgeMs := md_cacheAgeMs m;
       cacheExpiresInMs := cacheExpiresInMs m; cacheStale := cacheStale m;
       generatedAt := generatedAt m; frozenSnapshot := frozenSnapshot m;
       freezeReason := freezeReason m; requestId := None;
       partial := partial m; fallbackBodies := fallbackBodies m;
       missingBodies := missingBodies m |}.

(** A forced-refresh request: its correlation id, its two clock readings
    and what the store would answer (not consulted on this path). *)
Definition forced_call (observer : bool)
    (req : option string * Z * Z * option JsError * Z) : Event :=
  EvCall {| forceRefresh := true; correlationId := req.1.1.1.1;
            includeObserver := observer |}
    req.1.1.1.2 req.1.1.2 req.1.2 req.2.

(** The calls numbered [n0 .. n0 + K - 1] share the refresh of promise
    [p]: while it is pending they all await it; once it has resolved they
    have all returned a [MISS] with one payload, up to [requestId]. *)
Definition coalesced (n0 K : nat) (p : PromiseId) (s : System) : Prop :=
  match promises (state s) !! p with
  | Some (Pending _ _) =>
      forall k, (k < K)%nat ->
        exists w, w ∈ waiting s /\ c_call w = (n0 + k)%nat
                  /\ c_wait w = AwaitInflight p
  | Some (Done (Fulfilled _)) =>
      (forall k, (k < K)%nat ->
         exists res, results s !! (n0 + k)%nat = Some (Fulfilled res)
                     /\ cacheState res = MISS)
      /\ (forall k k' res res', (k < K)%nat -> (k' < K)%nat ->
             results s !! (n0 + k)%nat = Some (Fulfilled res) ->
             results s !! (n0 + k')%nat = Some (Fulfilled res') ->
             without_requestId (res_payload res) = without_requestId (res_payload res'))
  | Some (Done (Rejected _)) => True
  | None => False
  end.


(** *** What a JSON text keeps of a body

    [JSON.stringify] writes a number that is not finite (a NaN, an
    infinity) as [null] and either zero as [0]; any other number is written
    with digits that [JSON.parse] reads back to the same number.  Strings
    come back as they were, and a field that is absent stays absent. *)
Definition json_written (x y : JsNumber) : Prop :=
  match x, y with
  | Num f, Num g =>
      is_nan f = false /\ is_infinity f = false
      /\ (if is_zero f then g = 0%float else g = f)
  | Num f, Null => is_nan f = true \/ is_infinity f = true
  | Null, Null => True
  | Null, Num _ => False
  end.

Definition json_written_opt (x y : option JsNumber) : Prop :=
  match x, y with
  | Some a, Some b => json_written a b
  | None, None => True
  | _, _ => False
  end.

(** [b'] is what the text of [b] reads back to. *)
Definition body_written (b b' : EphemerisBody) : Prop :=
  name b' = name b
  /\ velocityUnit b' = velocityUnit b
  /\ timestamp b' = timestamp b
  /\ json_written (x_au b) (x_au b')
  /\ json_written (y_au b) (y_au b')
  /\ json_written (z_au b) (z_au b')
  /\ json_written_opt (vx b) (vx b')
  /\ json_written_opt (vy b) (vy b')
  /\ json_written_opt (vz b) (vz b')
  /\ json_written_opt (range_au b) (range_au b')
  /\ json_written_opt (range_rate_km_s b) (range_rate_km_s b')
  /\ json_written_opt (light_time_minutes b) (light_time_minutes b')
  /\ json_written_opt (solar_elongation_deg b) (solar_elongation_deg b')
  /\ json_written_opt (phase_angle_deg b) (phase_angle_deg b')
  /\ json_written_opt (illumination_fraction b) (illumination_fraction b')
  /\ json_written_opt (apparent_magnitude b) (apparent_magnitude b').

(** *** The per-body accounting of a refresh, in the words of the specification

    Every tracked body is processed on its own: a fetch that succeeded
    contributes its vector; a fetch that failed contributes the previous
    snapshot's value for that body, if there is one, and the body's name
    goes to the fallback list; otherwise the name goes to the missing
    list.  [previous] gives the previous value for a name. *)

(** The previous snapshot's value for the body named [n]: the body of that
    name in the snapshot's list (the last one, should there be several). *)
Definition previous_value (prev : list EphemerisBody) (n : string)
  : option EphemerisBody :=
  last (filter (fun b => name b = n) prev).

Definition body_outcome (previous : string -> option EphemerisBody)
    (pr : Planets.PlanetConfig * Settled Horizons.StateVector) : option EphemerisBody :=
  match pr.2 with
  | Fulfilled r => Some (body_of_vector r)
  | Rejected _ => previous (Planets.name pr.1)
  end.

Definition fallback_name (previous : string -> option EphemerisBody)
    (pr : Planets.PlanetConfig * Settled Horizons.StateVector) : option string :=
  match pr.2 with
  | Fulfilled _ => None
  | Rejected _ =>
      match previous (Planets.name pr.1) with
      | Some _ => Some (Planets.name pr.1)
      | None => None
      end
  end.

Definition missing_name (previous : string -> option EphemerisBody)
    (pr : Planets.PlanetConfig * Settled Horizons.StateVector) : option string :=
  match pr.2 with
  | Fulfilled _ => None
  | Rejected _ =>
      match previous (Planets.name pr.1) with
      | Some _ => None
      | None => Some (Planets.name pr.1)
      end
  end.

Definition spec_bodies previous prs : list EphemerisBody :=
  omap (body_outcome previous) prs.
Definition spec_fallbackBodies previous prs : list string :=
  omap (fallback_name previous) prs.
Definition spec_missingBodies previous prs : list string :=
  omap (missing_name previous) prs.

(** What a caller is handed when a whole refresh failed with [err] and the
    record [c], holding the snapshot [snap], was found. *)
Definition frozen_result (now : Z) (c : CacheRecord) (snap : EphemerisSnapshot)
    (err : JsError) (res : SnapshotResult EphemerisSnapshot) : Prop :=
  cacheState res = FROZEN
  /\ cacheAgeMs res = now - cachedAt c
  /\ bodies (res_payload res) = bodies snap
  /\ snap_timestamp (res_payload res) = snap_timestamp snap
  /\ cacheStatus (metadata (res_payload res)) = Some FROZEN
  /\ cacheStale (metadata (res_payload res)) = Some true
  /\ cacheExpiresInMs (metadata (res_payload res)) = Some 0
  /\ frozenSnapshot (metadata (res_payload res)) = Some true
  /\ freezeReason (metadata (res_payload res)) = Some (freeze_reason_of err).

(** What a call does to the promises: nothing, or one new refresh for its
    mode, and then only when none is in flight for that mode. *)
Definition starts (st st' : State) (mode : SnapshotMode) (reason : string)
    (cid : option string) (p : PromiseId) : Prop :=
  inflightByMode st !! mode = None
  /\ promises st !! p = None
  /\ promises st' =
       <[p := Pending {| r_reason := reason; r_correlationId := cid; r_mode := mode |}
                      Reading]> (promises st)
  /\ inflightByMode st' = <[mode := p]> (inflightByMode st)
  /\ heap st' = heap st /\ memoryCache st' = memoryCache st
  /\ store st' = store st /\ upstream st' = upstream st.

(** Every pending promise of [st] is still pending in [st']. *)
Definition pending_kept (st st' : State) : Prop :=
  forall q r ph, promises st !! q = Some (Pending r ph) ->
    exists r' ph', promises st' !! q = Some (Pending r' ph').

(** Two states with the same objects, memory records and store. *)
Definition same_data (st st' : State) : Prop :=
  heap st' = heap st /\ memoryCache st' = memoryCache st /\ store st' = store st.

(** A store read gave a text: one new object, one memory record replaced
    by a record that refers to it. *)
Definition read_through (client : bool) (mode : SnapshotMode) (st st' : State) : Prop :=
  same_data st st'
  \/ exists text parsed,
       client = true
       /\ heap st !! payload parsed = None
       /\ heap st' = <[payload parsed := s_payload text]> (heap st)
       /\ memoryCache st' = <[mode := parsed]> (memoryCache st)
       /\ store st' = store st
       /\ cachedAt parsed = s_cachedAt text /\ expiresAt parsed = s_expiresAt text
       /\ staleUntil parsed = s_staleUntil text.

(** The error of line 269. *)
Definition no_data : JsError := ErrorObj "No Horizons data available".


(** *** Notions for the further properties *)

(** The states the route reports as stale (lines 249-250 of the routes). *)
Definition stale_state (cs : CacheState) : bool :=
  match cs with
  | STALE | FROZEN => true
  | HIT | MISS => false
  end.

(** A result whose payload metadata tells the same story as the result
    itself, for a process configured with [TTL], [SWR] and [backend]. *)
Record labelled (TTL SWR : Z) (backend : CacheBackend)
    (res : SnapshotResult EphemerisSnapshot) : Prop := {
  lab_status : cacheStatus (metadata (res_payload res)) = Some (cacheState res);
  lab_age : md_cacheAgeMs (metadata (res_payload res)) = Some (cacheAgeMs res);
  lab_backend : md_cacheBackend (metadata (res_payload res)) = Some backend
                /\ cacheBackend res = backend;
  lab_stale : cacheStale (metadata (res_payload res)) = Some (stale_state (cacheState res));
  lab_expires : cacheExpiresInMs (metadata (res_payload res)) =
                  Some (match cacheState res with
                        | FROZEN => 0
                        | _ => Z.max 0 (TTL - cacheAgeMs res)
                        end);
  lab_generated : is_Some (generatedAt (metadata (res_payload res)));
  lab_window : match cacheState res with
               | HIT => cacheAgeMs res < TTL
               | STALE => TTL <= cacheAgeMs res < TTL + SWR
               | MISS => cacheAgeMs res = 0
               | FROZEN =>
                   frozenSnapshot (metadata (res_payload res)) = Some true
                   /\ is_Some (freezeReason (metadata (res_payload res)))
               end
}.

(** Every reference a state holds leads to an object of the heap. *)
Record allocated (st : State) : Prop := {
  al_memory : forall m c,
    memoryCache st !! m = Some c -> is_Some (heap st !! payload c);
  al_fetching : forall p r started c collected,
    promises st !! p = Some (Pending r (Fetching started (Some c) collected)) ->
    is_Some (heap st !! payload c);
  al_writing : forall p r record issued,
    promises st !! p = Some (Pending r (Writing record issued)) ->
    is_Some (heap st !! payload record)
}.

(** The mode an event works for, if it works for one. *)
Definition event_mode (s : System) (e : Event) : option SnapshotMode :=
  let of_promise p :=
    match promises (state s) !! p with
    | Some (Pending r _) => Some (r_mode r)
    | _ => None
    end in
  match e with
  | EvCall o _ _ _ _ => Some (mode_of (includeObserver o))
  | EvRead p _ _ _ _ _ _ _ => of_promise p
  | EvFetched p _ _ _ _ _ => of_promise p
  | EvWritten p _ _ _ => of_promise p
  | EvCatchRead n _ _ _ =>
      match remove_caller n (waiting s) with
      | Some (w, _) => Some (mode_of (includeObserver (c_options w)))
      | None => None
      end
  | EvPrewarm => Some state_vectors
  | EvStore _ => None
  end.

Definition is_rejected {A} (r : Settled A) : bool :=
  match r with
  | Rejected _ => true
  | Fulfilled _ => false
  end.

Definition is_fulfilled {A} (r : Settled A) : bool :=
  match r with
  | Fulfilled _ => true
  | Rejected _ => false
  end.

(** Two snapshot objects with the same measurements: they may differ in
    the cache decoration of their metadata only. *)
Definition same_measurements (x x' : EphemerisSnapshot) : Prop :=
  bodies x' = bodies x
  /\ snap_timestamp x' = snap_timestamp x
  /\ source (metadata x') = source (metadata x)
  /\ referenceFrame (metadata x') = referenceFrame (metadata x)
  /\ distanceUnit (metadata x') = distanceUnit (metadata x)
  /\ md_velocityUnit (metadata x') = md_velocityUnit (metadata x)
  /\ responseTimeMs (metadata x') = responseTimeMs (metadata x)
  /\ partial (metadata x') = partial (metadata x)
  /\ fallbackBodies (metadata x') = fallbackBodies (metadata x)
  /\ missingBodies (metadata x') = missingBodies (metadata x).

(** The timestamp a body contributes to the snapshot's: its own, when it
    has one that is not empty (lines 221-223 and 249-251). *)
Definition stamp_of (b : EphemerisBody) : option string :=
  if truthy (timestamp b) then timestamp b else None.

(** Metadata without any cache decoration, as [buildPlanetSnapshot]
    returns them. *)
Definition undecorated (m : Metadata) : Prop :=
  cacheStatus m = None /\ md_cacheBackend m = None /\ md_cacheAgeMs m = None
  /\ cacheExpiresInMs m = None /\ cacheStale m = None /\ generatedAt m = None
  /\ frozenSnapshot m = None /\ freezeReason m = None /\ requestId m = None.

(** The event delivers the outcome of a fetch. *)
Definition is_outcome (e : Event) : bool :=
  match e with
  | EvFetched _ _ _ _ _ _ => true
  | _ => false
  end.

Definition outcomes_delivered (es : list Event) : nat :=
  length (filter (fun e => is_outcome e = true) es).

Definition fetching (ph : Phase) : nat :=
  match ph with
  | Fetching _ _ _ => 1
  | _ => 0
  end.

(** The fetches under way for a mode: one when the refresh that holds the
    in-flight slot of the mode is in its loop, none otherwise. *)
Definition outstanding (st : State) (m : SnapshotMode) : nat :=
  match inflightByMode st !! m with
  | Some p =>
      match promises st !! p with
      | Some (Pending _ ph) => fetching ph
      | _ => 0%nat
      end
  | None => 0%nat
  end.

(** The event delivers the last outcome of a fetch loop of [s]: the loop
    is over, and the refresh goes on to build its snapshot. *)
Definition ends_loop (PLANETS : list Planets.PlanetConfig) (s : System) (e : Event)
  : bool :=
  match e with
  | EvFetched p _ _ _ _ _ =>
      match promises (state s) !! p with
      | Some (Pending _ (Fetching _ _ collected)) =>
          bool_decide (length PLANETS <= S (length collected))%nat
      | _ => false
      end
  | _ => false
  end.

(** No event of [es], run from [s], ends a fetch loop. *)
Fixpoint no_loop_ends (TTL SWR PREWARM : Z) (PLANETS : list Planets.PlanetConfig)
    (client : bool) (iso : Z -> string) (es : list Event) (s : System) : Prop :=
  match es with
  | [] => True
  | e :: es' =>
      ends_loop PLANETS s e = false
      /\ match step TTL SWR PREWARM PLANETS client iso e s with
         | Some s1 => no_loop_ends TTL SWR PREWARM PLANETS client iso es' s1
         | None => True
         end
  end.

(** Every call made so far is suspended or has been answered. *)
Definition accounted (s : System) : Prop :=
  forall n, (n < ncalls s)%nat ->
    (exists w, w ∈ waiting s /\ c_call w = n) \/ is_Some (results s !! n).

(** What a call is answered with: a labelled result, or the error of a
    refresh that found no data at all. *)
Definition answer_ok (TTL SWR : Z) (backend : CacheBackend)
    (x : Settled (SnapshotResult EphemerisSnapshot)) : Prop :=
  match x with
  | Fulfilled res => labelled TTL SWR backend res
  | Rejected e => e = no_data
  end.

Definition waits_ok (w : Caller) : Prop :=
  forall err, c_wait w = AwaitReadCache err -> err = no_data.

(** The payload of [x] carries the measurements of an object of [h]. *)
Definition carried (h : gmap loc EphemerisSnapshot)
    (x : Settled (SnapshotResult EphemerisSnapshot)) : Prop :=
  match x with
  | Fulfilled res =>
      exists l y, h !! l = Some y /\ same_measurements y (res_payload res)
  | Rejected _ => True
  end.

End SnapshotInvariants.

(** ** The routes *)
Module RouteInvariants.

(** A call of [getBodyEphemeris] as the route makes them. *)
Definition through_route (e : BodyEphemerisCache.Event) : Prop :=
  match e with
  | BodyEphemerisCache.EvCall o _ _ _ => exists req, EphemerisRoutes.body_route req = EphemerisRoutes.Call o
  | BodyEphemerisCache.EvSettle _ _ _ _ _ => True
  end.

(** Every chain is waiting for its upstream call, and there are as many
    upstream calls as chains. *)
Definition all_upstream (s : BodyEphemerisCache.System) : Prop :=
  (forall p c,
     BodyEphemerisCache.promises (BodyEphemerisCache.state s) !! p
       = Some (BodyEphemerisCache.Pending c) ->
     exists cfg started, BodyEphemerisCache.ch_fetch c = BodyEphemerisCache.Upstream cfg started)
  /\ length (BodyEphemerisCache.upstream (BodyEphemerisCache.state s))
     = size (BodyEphemerisCache.promises (BodyEphemerisCache.state s)).

End RouteInvariants.

(** * Concrete runs *)
Module Scenario.

(** A rendering of a clock reading, standing for [toISOString] in the
    runs below. *)
Definition clock_text (t : Z) : string := "T" +:+ pretty t.

(** A vector as [fetchPlanetStateVector] resolves to, in vectors-only
    mode. *)
Definition vector (name : string) (x : float) : Horizons.StateVector :=
  {| Horizons.name := name;
     Horizons.x_au := x; Horizons.y_au := 0%float; Horizons.z_au := 0%float;
     Horizons.vx_au_per_day := None; Horizons.vy_au_per_day := None;
     Horizons.vz_au_per_day := None;
     Horizons.velocityUnit := Some "AU/day";
     Horizons.referenceFrame := Some "J2000-ECLIPTIC";
     Horizons.source := Some "NASA-JPL-Horizons";
     Horizons.timestamp := Some "2025-01-01T00:00";
     Horizons.range_au := None; Horizons.range_rate_km_s := None;
     Horizons.light_time_minutes := None; Horizons.solar_elongation_deg := None;
     Horizons.phase_angle_deg := None; Horizons.illumination_fraction := None;
     Horizons.apparent_magnitude := None |}.

(** A vector whose second coordinate did not parse (a NaN) and whose third
    is a negative zero. *)
Definition garbled (name : string) (x : float) : Horizons.StateVector :=
  {| Horizons.name := name;
     Horizons.x_au := x; Horizons.y_au := nan; Horizons.z_au := neg_zero;
     Horizons.vx_au_per_day := None; Horizons.vy_au_per_day := None;
     Horizons.vz_au_per_day := None;
     Horizons.velocityUnit := Some "AU/day";
     Horizons.referenceFrame := Some "J2000-ECLIPTIC";
     Horizons.source := Some "NASA-JPL-Horizons";
     Horizons.timestamp := Some "2025-01-01T00:00";
     Horizons.range_au := None; Horizons.range_rate_km_s := None;
     Horizons.light_time_minutes := None; Horizons.solar_elongation_deg := None;
     Horizons.phase_angle_deg := None; Horizons.illumination_fraction := None;
     Horizons.apparent_magnitude := None |}.

Definition upstream_down : JsError := ErrorObj "upstream down".

Module Body.
Import BodyEphemerisCache.

Definition TTL : Z := 60000.

Definition moon_call (force : bool) (cid : string) (t : Z) : Event :=
  EvCall {| o_id := "moon"; forceRefresh := force; correlationId := Some cid |} t t t.

(** A first request caches the Moon at 5 ms.  Two forced requests then
    arrive together: "b" starts a fetch, "c" joins it, and the fetch
    fails. *)
Definition joined_failure : list Event :=
  [ moon_call true "a" 0;
    EvSettle 0%nat (Fulfilled (vector "Lune" 1%float)) 5 5 5;
    moon_call true "b" 10;
    moon_call true "c" 11;
    EvSettle 1%nat (Rejected upstream_down) 20 20 20 ].

(** The Moon is cached at 5 ms and expires at 60005 ms; a request without
    [forceRefresh] arrives at 70000 ms. *)
Definition cached_moon : list Event :=
  [ moon_call true "a" 0;
    EvSettle 0%nat (Fulfilled (vector "Lune" 1%float)) 5 5 5 ].

Definition late_request : Options :=
  {| o_id := "moon"; forceRefresh := false; correlationId := Some "late" |}.

Definition moon_cached : System :=
  match run TTL clock_text cached_moon boot with
  | Some s => s
  | None => boot
  end.

Definition moon_entry : CacheEntry :=
  {| payload := fresh_payload clock_text "moon" (Some "a") 0 5 (vector "Lune" 1%float);
     cachedAt := 5; expiresAt := 5 + TTL |}.

(** What a call got: the status of its payload, or the error thrown. *)
Definition outcome (r : option (Settled BodyEphemerisPayload))
  : option (option CacheStatus + JsError) :=
  match r with
  | Some (Fulfilled p) => Some (inl (metadata p ≫= cacheStatus))
  | Some (Rejected e) => Some (inr e)
  | None => None
  end.

End Body.

Module Snapshot.
Import EphemerisCache.

Definition TTL : Z := 120000.
Definition STALE_WINDOW : Z := 60000.
Definition PREWARM : Z := 96000.

Definition PLANETS : list Planets.PlanetConfig :=
  [ {| Planets.name := "Venus"; Planets.horizonsId := "299" |};
    {| Planets.name := "Mars"; Planets.horizonsId := "499" |} ].

Definition run (client : bool) : list Event -> System -> option System :=
  EphemerisCache.run TTL STALE_WINDOW PREWARM PLANETS client clock_text.

Definition request (force : bool) (cid : option string) : Options :=
  {| forceRefresh := force; correlationId := cid; includeObserver := false |}.

(** A forced request "req-1" starts a refresh; the two fetches resolve one
    after the other and the record is stamped at 10 ms: the state when
    [writeCache] is awaited. *)
Definition refresh_awaiting_write : list Event :=
  [ EvCall (request true (Some "req-1")) 0 0 None 0;
    EvRead 0%nat None 0 0 0 0 0 0;
    EvFetched 0%nat (Fulfilled (vector "Venus" 1%float)) 5 5 5 5;
    EvFetched 0%nat (Fulfilled (vector "Mars" 2%float)) 10 10 10 10 ].

(** The same, with [writeCache] over and the refresh resolved. *)
Definition refresh_done : list Event :=
  refresh_awaiting_write ++ [EvWritten 0%nat None 11 11].

(** Then a request without a correlation id, well inside the TTL. *)
Definition refresh_then_hit : list Event :=
  refresh_done ++ [EvCall (request false None) 1000 1000 None 1000].

(** The snapshot object the memory record of the vectors-only mode refers
    to. *)
Definition cached_object (s : System) : option (CacheRecord * EphemerisSnapshot) :=
  match memoryCache (state s) !! state_vectors with
  | Some record =>
      match heap (state s) !! payload record with
      | Some snap => Some (record, snap)
      | None => None
      end
  | None => None
  end.

Definition cached_decoration (s : System)
  : option (CacheRecord * (option CacheState * option string * option string)) :=
  match cached_object s with
  | Some (record, snap) =>
      Some (record, (cacheStatus (metadata snap), requestId (metadata snap),
                     generatedAt (metadata snap)))
  | None => None
  end.

(** The state reached by [refresh_done] without a store. *)
Definition warm : State :=
  match run false refresh_done boot with
  | Some s => state s
  | None => initial
  end.

Definition warm_record : CacheRecord :=
  {| payload := 0%nat; cachedAt := 10; expiresAt := 120010; staleUntil := 180010 |}.

(** A process with a store: a refresh that has the vector of Venus and
    awaits that of Mars, the last of its loop. *)
Definition fetching_with_store : State :=
  match run true [ EvCall (request true None) 0 0 None 0;
                   EvRead 0%nat None 0 0 0 0 0 0;
                   EvFetched 0%nat (Fulfilled (vector "Venus" 1%float)) 5 5 5 5 ] boot with
  | Some s => state s
  | None => initial
  end.

Definition manual_refresh : Refresh :=
  {| r_reason := "manual-refresh"; r_correlationId := None; r_mode := state_vectors |}.

Definition both_vectors : list (Settled Horizons.StateVector) :=
  [Fulfilled (vector "Venus" 1%float); Fulfilled (vector "Mars" 2%float)].

(** Venus answers, Mars answers with a garbled vector. *)
Definition store_vectors : list (Settled Horizons.StateVector) :=
  [Fulfilled (vector "Venus" 1%float); Fulfilled (garbled "Mars" 2%float)].


(** Venus answers with a new position, Mars fails. *)
Definition venus_moved_mars_down : list (Settled Horizons.StateVector) :=
  [Fulfilled (vector "Venus" 3%float); Rejected upstream_down].

(** A snapshot with nothing in it, for the lookups below that cannot
    fail. *)
Definition blank : EphemerisSnapshot :=
  {| snap_timestamp := "";
     metadata :=
       {| source := None; referenceFrame := None; distanceUnit := None;
          md_velocityUnit := None; responseTimeMs := None; cacheStatus := None;
          md_cacheBackend := None; md_cacheAgeMs := None; cacheExpiresInMs := None;
          cacheStale := None; generatedAt := None; frozenSnapshot := None;
          freezeReason := None; requestId := None; partial := None;
          fallbackBodies := None; missingBodies := None |};
     bodies := [] |}.

Definition warm_snapshot : EphemerisSnapshot :=
  default blank (heap warm !! payload warm_record).


(** With [warm_snapshot] as the previous snapshot: Mars falls back. *)
Definition fallback_snapshot : EphemerisSnapshot :=
  match (buildPlanetSnapshot PLANETS clock_text (Some warm_snapshot)
           200000 200010 200010 venus_moved_mars_down).1 with
  | Fulfilled snap => snap
  | Rejected _ => blank
  end.

(** The refresh of [fetching_with_store] once the fetch of Mars has
    resolved too, with a garbled vector, the record stamped at 10 ms. *)
Definition awaiting_store_write : State :=
  match refresh_fetched TTL STALE_WINDOW PLANETS true clock_text 0%nat manual_refresh
          0 None store_vectors 10 10 10 fetching_with_store with
  | Some (_, st) => st
  | None => initial
  end.

(** The same without a store, Mars answering well. *)
Definition fetching : State :=
  match run false [ EvCall (request true None) 0 0 None 0;
                    EvRead 0%nat None 0 0 0 0 0 0;
                    EvFetched 0%nat (Fulfilled (vector "Venus" 1%float)) 5 5 5 5 ] boot with
  | Some s => state s
  | None => initial
  end.

Definition awaiting_write : State :=
  match refresh_fetched TTL STALE_WINDOW PLANETS false clock_text 0%nat manual_refresh
          0 None both_vectors 10 10 10 fetching with
  | Some (_, st) => st
  | None => initial
  end.

(** A text another process left in the store. *)
Definition stored_text : Serialized :=
  {| s_payload := warm_snapshot; s_cachedAt := 10; s_expiresAt := 120010;
     s_staleUntil := 180010 |}.

(** A process with a store that is empty at first.  A forced request
    "req-1" starts a refresh; both fetches fail; meanwhile another process
    has left [stored_text] in the store.  The refresh has no body at all and
    throws, memory holds no record, and the call goes on to [readCache]. *)
Definition refresh_without_data : list Event :=
  [ EvCall (request true (Some "req-1")) 100 100 None 100;
    EvRead 0%nat None 100 100 100 100 100 100;
    EvFetched 0%nat (Rejected upstream_down) 105 105 105 105;
    EvStore {[ CACHE_KEY_BY_MODE state_vectors :=
                 {| raw := stored_text; expiry := 180010 |} ]};
    EvFetched 0%nat (Rejected upstream_down) 110 110 110 110 ].

(** The call of [refresh_without_data], suspended at [readCache]. *)
Definition waiting_call : Caller :=
  {| c_call := 0%nat; c_options := request true (Some "req-1"); c_now := 100;
     c_wait := AwaitReadCache SnapshotInvariants.no_data |}.

End Snapshot.

End Scenario.

(** * Further concrete runs *)
Module Walkthrough.

Module Body.
Import BodyEphemerisCache.

(** The first request for the Moon has started its fetch. *)
Definition moon_fetching : System :=
  match run Scenario.Body.TTL Scenario.clock_text [Scenario.Body.moon_call true "a" 0] boot with
  | Some s => s
  | None => boot
  end.

Definition moon_chain : Chain :=
  {| ch_id := "moon"; ch_correlationId := Some "a";
     ch_fetch :=
       Upstream {| Bodies.id := "moon"; Bodies.displayName := "Lune";
                   Bodies.kind := Bodies.moon; Bodies.horizonsId := "301" |} 0 |}.

(** The Moon is cached; "b" has started a second fetch and "c" has joined
    it. *)
Definition joined_pending : System :=
  match run Scenario.Body.TTL Scenario.clock_text (take 4 Scenario.Body.joined_failure) boot with
  | Some s => s
  | None => boot
  end.

Definition second_chain : Chain :=
  {| ch_id := "moon"; ch_correlationId := Some "b";
     ch_fetch :=
       Upstream {| Bodies.id := "moon"; Bodies.displayName := "Lune";
                   Bodies.kind := Bodies.moon; Bodies.horizonsId := "301" |} 10 |}.

Definition joined_caller : Caller :=
  {| c_call := 2%nat;
     c_options := {| o_id := "moon"; forceRefresh := true; correlationId := Some "c" |};
     c_now := 11; c_wait := AwaitExisting 1%nat |}.

(** The second fetch resolves. *)
Definition joined_resolved : System :=
  match step Scenario.Body.TTL Scenario.clock_text
          (EvSettle 1%nat (Fulfilled (Scenario.vector "Lune" 2%float)) 20 20 20)
          joined_pending with
  | Some s => s
  | None => boot
  end.

(** A request for a body that is not in the table. *)
Definition pluto_request : Options :=
  {| o_id := "pluto"; forceRefresh := false; correlationId := Some "p" |}.

End Body.

Module Snapshot.
Import EphemerisCache.

(** Both fetches fail. *)
Definition all_down : list (Settled Horizons.StateVector) :=
  [Rejected Scenario.upstream_down; Rejected Scenario.upstream_down].

(** The system when the first refresh awaits [writeCache], and when it has
    resolved, without a store. *)
Definition awaiting_write_system : System :=
  match Scenario.Snapshot.run false Scenario.Snapshot.refresh_awaiting_write boot with
  | Some s => s
  | None => boot
  end.

(** The same refresh when it has the vector of Venus and awaits that of
    Mars. *)
Definition fetching_system : System :=
  match Scenario.Snapshot.run false (take 3 Scenario.Snapshot.refresh_awaiting_write) boot with
  | Some s => s
  | None => boot
  end.

Definition warm_system : System :=
  match Scenario.Snapshot.run false Scenario.Snapshot.refresh_done boot with
  | Some s => s
  | None => boot
  end.

(** The snapshot of [awaiting_write_system], not yet decorated. *)
Definition fresh_snapshot : EphemerisSnapshot :=
  default Scenario.Snapshot.blank (heap (state awaiting_write_system) !! 0%nat).

(** The system after the hit of [Scenario.Snapshot.refresh_then_hit]. *)
Definition hit_system : System :=
  match Scenario.Snapshot.run false Scenario.Snapshot.refresh_then_hit boot with
  | Some s => s
  | None => boot
  end.

(** After the first refresh, a forced request starts a second one, which
    gets the vector of Venus and awaits that of Mars. *)
Definition second_refresh : list Event :=
  [ EvCall (Scenario.Snapshot.request true (Some "req-2")) 1000 1000 None 1000;
    EvRead 1%nat None 1000 1000 1000 1000 1000 1000;
    EvFetched 1%nat (Fulfilled (Scenario.vector "Venus" 3%float)) 1005 1005 1005 1005 ].

Definition refetching_system : System :=
  match Scenario.Snapshot.run false second_refresh warm_system with
  | Some s => s
  | None => boot
  end.

(** The system of [Scenario.Snapshot.refresh_without_data], with a store. *)
Definition without_data_system : System :=
  match Scenario.Snapshot.run true Scenario.Snapshot.refresh_without_data boot with
  | Some s => s
  | None => boot
  end.

End Snapshot.

Module Routes.
Import EphemerisRoutes.

(** [GET /body/moon?refresh=0&refresh=true] with request id "r-1". *)
Definition moon_request : Request :=
  {| requestId := Some "r-1"; q_refresh := QMany [QString "0"; QString "true"];
     h_refresh := HAbsent; p_id := Some "moon" |}.

(** [GET /planets] with request id "r-2". *)
Definition planets_request : Request :=
  {| requestId := Some "r-2"; q_refresh := QAbsent; h_refresh := HAbsent; p_id := None |}.

End Routes.

End Walkthrough.

(** * Maps built from lists *)

Section MapFromList.
Context {A : Type} (key : A -> string).

(** [new Map(xs.map((x) => [key(x), x]))], and the loop that calls
    [map.set(key(x), x)] for each [x]: the entry of a key is the last
    element of the list with that key. *)
Lemma foldl_insert_lookup (xs : list A) : forall (m0 : gmap string A) (k : string),
  foldl (fun m x => <[key x := x]> m) m0 xs !! k
    = match last (filter (fun x => key x = k) xs) with
      | Some x => Some x
      | None => m0 !! k
      end.
Proof.
  induction xs as [|x xs IH]; intros m0 k; [done|].
  cbn [foldl]. rewrite IH, filter_cons.
  destruct (decide (key x = k)) as [Hk|Hk].
  - destruct (filter (fun x => key x = k) xs) as [|y ys] eqn:Ef.
    + subst k. cbn. by rewrite lookup_insert_eq.
    + rewrite last_cons_cons. destruct (last (y :: ys)) eqn:El; [done|].
      by apply last_None in El.
  - destruct (last (filter (fun x => key x = k) xs)); [done|].
    by rewrite lookup_insert_ne.
Qed.

Lemma foldl_insert_lookup_Some (xs : list A) (k : string) (x : A) :
  foldl (fun m x => <[key x := x]> m) (∅ : gmap string A) xs !! k = Some x -> x ∈ xs /\ key x = k.
Proof.
  rewrite foldl_insert_lookup.
  destruct (last (filter (fun x => key x = k) xs)) as [y|] eqn:El; [|done].
  intros [= ->]. apply last_Some_elem_of in El.
  by apply list_elem_of_filter in El as [? ?].
Qed.

Lemma foldl_insert_lookup_None (xs : list A) (k : string) :
  foldl (fun m x => <[key x := x]> m) (∅ : gmap string A) xs !! k = None <-> forall x, x ∈ xs -> key x <> k.
Proof.
  rewrite foldl_insert_lookup.
  destruct (last (filter (fun x => key x = k) xs)) as [y|] eqn:El.
  - split; [done|]. intros H. apply last_Some_elem_of in El.
    apply list_elem_of_filter in El as [? ?]. by destruct (H y).
  - split; [|done]. intros _ x Hx Hk. apply last_None in El.
    assert (Hin : x ∈ filter (fun x => key x = k) xs) by (by apply list_elem_of_filter).
    rewrite El in Hin. by apply elem_of_nil in Hin.
Qed.

(** With distinct keys nothing is lost: the entries are the elements. *)
Lemma foldl_insert_lookup_NoDup (xs : list A) (k : string) (x : A) :
  NoDup (key <$> xs) ->
  foldl (fun m x => <[key x := x]> m) (∅ : gmap string A) xs !! k = Some x <-> x ∈ xs /\ key x = k.
Proof.
  intros Hnd. split; [apply foldl_insert_lookup_Some|].
  intros [Hx Hk]. destruct (foldl _ _ _ !! k) as [y|] eqn:Hy.
  - apply foldl_insert_lookup_Some in Hy as [Hy Hky]. f_equal.
    apply list_elem_of_lookup in Hx as [i Hi], Hy as [j Hj].
    assert (i = j) as ->; [|congruence].
    eapply NoDup_lookup; [exact Hnd| |].
    + rewrite list_lookup_fmap, Hi. reflexivity.
    + rewrite list_lookup_fmap, Hj. cbn. congruence.
  - rewrite foldl_insert_lookup_None in Hy. by destruct (Hy x Hx).
Qed.

End MapFromList.

(** * Properties of the single-body cache *)
Section BodyFacts.
Import BodyEphemerisCache BodyInvariants.
Variable TTL : Z.
Variable iso : Z -> string.

Lemma body_getFromCache_spec t i st :
  getFromCache t i st =
    match cache st !! i with
    | Some e => if bool_decide (expiresAt e <= t)
                then (None, set_cache (delete i (cache st)) st)
                else (Some e, st)
    | None => (None, st)
    end.
Proof. unfold getFromCache. destruct (cache st !! i); reflexivity. Qed.

Lemma body_getFromCache_frame t i st c st' :
  getFromCache t i st = (c, st') ->
  inflight st' = inflight st /\ promises st' = promises st
  /\ upstream st' = upstream st
  /\ (forall j, cache st' !! j = None \/ cache st' !! j = cache st !! j)
  /\ (c = None -> cache st' !! i = None)
  /\ (forall e, c = Some e -> cache st !! i = Some e /\ t < expiresAt e /\ st' = st).
Proof.
  unfold getFromCache. destruct (cache st !! i) as [e|] eqn:E.
  - case_bool_decide; intros [= <- <-]; simpl; split_and!; auto; try congruence.
    + intros j. destruct (decide (i = j)) as [->|];
        [left; apply lookup_delete_eq|right; by apply lookup_delete_ne].
    + intros _. apply lookup_delete_eq.
    + intros e' [= <-]. split_and!; [done|lia|done].
  - intros [= <- <-]. split_and!; auto; congruence.
Qed.

Lemma body_fresh_promise_none (st : State) :
  promises st !! (fresh (dom (promises st)) : PromiseId) = None.
Proof. apply not_elem_of_dom, is_fresh. Qed.

(** What the first segment of a call does to the maps. *)
Lemma body_enter_cases o now tl ts st out st' :
  enter o now tl ts st = (out, st') ->
  (exists e, out = Return (hit_payload e now (correlationId o))
     /\ forceRefresh o = false /\ cache st !! o_id o = Some e /\ tl < expiresAt e
     /\ st' = st)
  \/ (exists p st1, out = Await (AwaitExisting p)
     /\ inflight st1 !! o_id o = Some p /\ st' = st1
     /\ inflight st1 = inflight st /\ promises st1 = promises st
     /\ upstream st1 = upstream st
     /\ (forall j, cache st1 !! j = None \/ cache st1 !! j = cache st !! j)
     /\ (forceRefresh o = false -> cache st1 !! o_id o = None))
  \/ (exists st1 f st2, let p := fresh (dom (promises st)) in
     out = Await (AwaitOwn p)
     /\ inflight st !! o_id o = None
     /\ inflight st1 = inflight st /\ promises st1 = promises st
     /\ upstream st1 = upstream st
     /\ (forall j, cache st1 !! j = None \/ cache st1 !! j = cache st !! j)
     /\ (forceRefresh o = false -> cache st1 !! o_id o = None)
     /\ fetchFresh (o_id o) ts st1 = (f, st2)
     /\ st' = set_inflight (<[o_id o := p]> (inflight st2))
                (set_promise p
                   (Pending {| ch_id := o_id o; ch_correlationId := correlationId o;
                               ch_fetch := f |}) st2)).
Proof.
  unfold enter.
  destruct (if forceRefresh o then (None, st) else getFromCache tl (o_id o) st)
    as [cached st1] eqn:E.
  assert (Hfr : inflight st1 = inflight st /\ promises st1 = promises st
      /\ upstream st1 = upstream st
      /\ (forall j, cache st1 !! j = None \/ cache st1 !! j = cache st !! j)
      /\ (cached = None -> forceRefresh o = false -> cache st1 !! o_id o = None)
      /\ (forall e, cached = Some e -> forceRefresh o = false
            /\ cache st !! o_id o = Some e /\ tl < expiresAt e /\ st1 = st)).
  { destruct (forceRefresh o) eqn:F.
    - injection E as <- <-. split_and!; auto; congruence.
    - apply body_getFromCache_frame in E as (?&?&?&?&?&?). split_and!; auto; naive_solver. }
  destruct Hfr as (Hi & Hp & Hu & Hc & Hnone & Hsome).
  destruct cached as [e|].
  - intros [= <- <-]. left. exists e. destruct (Hsome e eq_refl) as (?&?&?&?). done.
  - destruct (inflight st1 !! o_id o) as [p|] eqn:Ein.
    + intros [= <- <-]. right; left. exists p, st1. split_and!; auto.
    + destruct (fetchFresh (o_id o) ts st1) as [f st2] eqn:Ef.
      intros [= <- <-]. right; right. exists st1, f, st2. simpl.
      rewrite Hp. split_and!; auto. congruence.
Qed.

Lemma body_fetchFresh_frame i ts st f st' :
  fetchFresh i ts st = (f, st') ->
  cache st' = cache st /\ inflight st' = inflight st /\ promises st' = promises st
  /\ ((exists cfg, Bodies.BODY_BY_ID !! i = Some cfg /\ f = Upstream cfg ts
         /\ upstream st' = upstream st ++ [i])
      \/ (Bodies.BODY_BY_ID !! i = None /\ upstream st' = upstream st
          /\ exists e, f = Unknown e)).
Proof.
  unfold fetchFresh. destruct (Bodies.BODY_BY_ID !! i) as [cfg|].
  - intros [= <- <-]. simpl. split_and!; auto. left. eauto.
  - intros [= <- <-]. split_and!; auto. right. eauto.
Qed.


Lemma body_registered_ext st st' :
  inflight st' = inflight st -> promises st' = promises st ->
  registered st -> registered st'.
Proof.
  intros Hi Hp [H1 H2]. split; unfold in_flight in *; rewrite ?Hi, ?Hp; auto.
Qed.

Lemma body_in_flight_ext st st' i p :
  promises st' = promises st -> in_flight st i p -> in_flight st' i p.
Proof. unfold in_flight. by intros ->. Qed.

(** Two chains in flight for one body are one chain. *)
Lemma body_registered_unique st i p q :
  registered st -> in_flight st i p -> in_flight st i q -> p = q.
Proof.
  intros [_ H] (c & Hc & <-) (d & Hd & Hid).
  apply H in Hc. apply H in Hd. rewrite Hid in Hd. congruence.
Qed.

Lemma body_registered_start st i p c :
  registered st -> promises st !! p = None -> inflight st !! i = None ->
  ch_id c = i ->
  registered (set_inflight (<[i := p]> (inflight st)) (set_promise p (Pending c) st)).
Proof.
  intros [H1 H2] Hp Hi Hc. split; simpl; unfold in_flight; simpl.
  - intros j q. destruct (decide (i = j)) as [<-|Hne].
    + rewrite lookup_insert_eq. intros [= <-]. exists c. by rewrite lookup_insert_eq.
    + rewrite lookup_insert_ne by done. intros Hq.
      destruct (H1 j q Hq) as (d & Hd & Hdj).
      exists d. rewrite lookup_insert_ne; [done|congruence].
  - intros q d. destruct (decide (p = q)) as [<-|Hne].
    + rewrite lookup_insert_eq. intros [= <-]. rewrite Hc. apply lookup_insert_eq.
    + rewrite lookup_insert_ne by done. intros Hd.
      pose proof (H2 q d Hd) as Hq.
      rewrite lookup_insert_ne; [done|congruence].
Qed.

Lemma body_settle_chain_frame c r tc te st :
  inflight (settle_chain TTL c r tc te st) = delete (ch_id c) (inflight st)
  /\ promises (settle_chain TTL c r tc te st) = promises st
  /\ upstream (settle_chain TTL c r tc te st) = upstream st
  /\ cache (settle_chain TTL c r tc te st) =
       match r with
       | Fulfilled p =>
           <[ch_id c := {| payload := p; cachedAt := tc; expiresAt := te + TTL |}]> (cache st)
       | Rejected _ => cache st
       end.
Proof. unfold settle_chain. destruct r; simpl; auto. Qed.

Lemma body_registered_settle st p c r tc te :
  registered st -> promises st !! p = Some (Pending c) ->
  registered (settle_chain TTL c r tc te (set_promise p (Done r) st)).
Proof.
  intros [H1 H2] Hp.
  destruct (body_settle_chain_frame c r tc te (set_promise p (Done r) st))
    as (Hi & Hpr & _ & _).
  split; unfold in_flight; rewrite Hi, Hpr; simpl.
  - intros j q Hq.
    apply lookup_delete_Some in Hq as [Hne Hq].
    destruct (H1 j q Hq) as (d & Hd & Hdj). exists d. split; [|done].
    rewrite lookup_insert_ne; [done|]. intros <-. congruence.
  - intros q d Hd.
    destruct (decide (p = q)) as [<-|Hne].
    + rewrite lookup_insert_eq in Hd. done.
    + rewrite lookup_insert_ne in Hd by done.
      pose proof (H2 q d Hd) as Hq. pose proof (H2 p c Hp) as Hpc.
      rewrite lookup_delete_ne; [done|]. intros Heq. rewrite Heq in Hpc. congruence.
Qed.

(** The outcome of a continuation depends on the state through the cache
    only, and a continuation only logs. *)
Lemma body_resume_frame w r st :
  let st' := (resume TTL w r st).2 in
  cache st' = cache st /\ inflight st' = inflight st
  /\ promises st' = promises st /\ upstream st' = upstream st.
Proof.
  unfold resume, resume_own. destruct (c_wait w); simpl; auto.
  destruct r; simpl; auto. destruct (cache st !! _); simpl; auto.
Qed.

Lemma body_resume_out_ext w r st st0 :
  cache st0 = cache st -> (resume TTL w r st0).1 = (resume TTL w r st).1.
Proof.
  intros H. unfold resume, resume_own. destruct (c_wait w); simpl; auto.
  destruct r; simpl; auto. rewrite H. destruct (cache st !! _); simpl; auto.
Qed.

Lemma body_resume_all_spec p r ws : forall st res ws' st' res',
  resume_all TTL p r ws st res = (ws', st', res') ->
  ws' = filter (fun w => awaited (c_wait w) <> p) ws
  /\ cache st' = cache st /\ inflight st' = inflight st
  /\ promises st' = promises st /\ upstream st' = upstream st
  /\ (forall n, (forall w, w ∈ ws -> awaited (c_wait w) = p -> c_call w <> n) ->
        res' !! n = res !! n)
  /\ (NoDup (c_call <$> ws) ->
      forall w, w ∈ ws -> awaited (c_wait w) = p ->
        res' !! c_call w = Some (resume TTL w r st).1).
Proof.
  induction ws as [|w ws IH]; intros st res ws' st' res'; simpl.
  - intros [= <- <- <-]. split_and!; auto. intros _ w Hw. by apply elem_of_nil in Hw.
  - case_bool_decide as Hw.
    + destruct (resume TTL w r st) as [out st1] eqn:Er.
      intros Hrec. apply IH in Hrec as (-> & Hc & Hi & Hp & Hu & Hfr & Hres).
      pose proof (body_resume_frame w r st) as Hf. rewrite Er in Hf. simpl in Hf.
      destruct Hf as (Hc1 & Hi1 & Hp1 & Hu1).
      split_and!; try congruence.
      * rewrite filter_cons_False; [done|]. intros Hn. by apply Hn.
      * intros n Hn. rewrite Hfr.
        -- rewrite lookup_insert_ne; [done|]. apply Hn; [left|done].
        -- intros w' Hw'. apply Hn. by right.
      * intros Hnd w' Hw' Haw. simpl in Hnd. apply NoDup_cons in Hnd as [Hnin Hnd].
        apply elem_of_cons in Hw' as [->|Hw'].
        -- rewrite Hfr.
           ++ rewrite lookup_insert_eq. by rewrite Er.
           ++ intros w' Hw' _ Heq. apply Hnin. rewrite <- Heq.
              by apply list_elem_of_fmap_2.
        -- rewrite (Hres Hnd w' Hw' Haw). f_equal. by apply body_resume_out_ext.
    + destruct (resume_all TTL p r ws st res) as [[rest st1] res1] eqn:Er.
      intros [= <- <- <-].
      apply IH in Er as (-> & Hc & Hi & Hp & Hu & Hfr & Hres).
      split_and!; auto.
      * by rewrite filter_cons_True.
      * intros n Hn. apply Hfr. intros w' Hw'. apply Hn. by right.
      * intros Hnd w' Hw' Haw. simpl in Hnd. apply NoDup_cons in Hnd as [_ Hnd].
        apply elem_of_cons in Hw' as [->|Hw']; [done|]. by apply Hres.
Qed.


Lemma body_consistent_boot : consistent boot.
Proof.
  split; simpl.
  - split; simpl; intros *; by rewrite lookup_empty.
  - intros w Hw. by apply elem_of_nil in Hw.
  - constructor.
  - intros n r. by rewrite lookup_empty.
  - intros w p Hw. by apply elem_of_nil in Hw.
Qed.

Lemma body_consistent_fresh_call s :
  consistent s ->
  results s !! ncalls s = None
  /\ ncalls s ∉ (c_call <$> waiting s).
Proof.
  intros H. split.
  - destruct (results s !! ncalls s) eqn:E; [|done].
    apply (con_results _ H) in E. lia.
  - intros Hin. apply list_elem_of_fmap in Hin as (w & Hw & Hin).
    apply (con_waiting _ H) in Hin as (_ & Hlt & _). lia.
Qed.

Lemma body_consistent_call s o now tl ts s' :
  consistent s -> step TTL iso (EvCall o now tl ts) s = Some s' -> consistent s'.
Proof.
  intros H. pose proof (body_consistent_fresh_call s H) as [Hres Hnin].
  simpl. destruct (enter o now tl ts (state s)) as [out st'] eqn:E.
  intros [= <-].
  apply body_enter_cases in E as [(e & -> & Hf & Hc & Ht & ->)
    |[(p & st1 & -> & Hp & -> & Hi & Hpr & Hu & Hca & Hcold)
     |(st1 & f & st2 & -> & Hnone & Hi & Hpr & Hu & Hca & Hcold & Hff & ->)]].
  - (* a hit *)
    split; simpl.
    + apply H.
    + intros w Hw. destruct (con_waiting _ H w Hw) as (Hfl & Hlt & Hr).
      split_and!; [done|lia|]. rewrite lookup_insert_ne; [done|lia].
    + apply H.
    + intros n r. destruct (decide (ncalls s = n)) as [<-|Hne].
      * intros _. lia.
      * rewrite lookup_insert_ne by done. intros Hn.
        apply (con_results _ H) in Hn. lia.
    + apply H.
  - (* joins the chain in flight *)
    assert (Hreg : registered st1) by (eapply body_registered_ext; [done..|apply H]).
    split; simpl.
    + done.
    + intros w Hw. apply elem_of_app in Hw as [Hw|Hw].
      * destruct (con_waiting _ H w Hw) as (Hfl & Hlt & Hr).
        split_and!; [by eapply body_in_flight_ext|lia|done].
      * apply list_elem_of_singleton in Hw as ->. simpl.
        split_and!; [by apply Hreg|lia|done].
    + rewrite fmap_app. apply NoDup_app. split_and!.
      * apply H.
      * intros n Hn Hn'. apply list_elem_of_singleton in Hn' as ->. done.
      * apply NoDup_singleton.
    + intros n r Hn. apply (con_results _ H) in Hn. lia.
    + intros w q Hw Hq Hf. apply elem_of_app in Hw as [Hw|Hw].
      * pose proof (con_cold _ H w q Hw Hq Hf) as Hc.
        destruct (Hca (o_id (c_options w))) as [?|Heq]; [done|congruence].
      * apply list_elem_of_singleton in Hw as ->. done.
  - (* starts a chain *)
    apply body_fetchFresh_frame in Hff as (Hc2 & Hi2 & Hp2 & _).
    set (p := fresh (dom (promises (state s)))) in *.
    assert (Hpn : promises st2 !! p = None).
    { rewrite Hp2, Hpr. apply body_fresh_promise_none. }
    assert (Hreg2 : registered st2).
    { eapply body_registered_ext; [| |apply H]; congruence. }
    split; simpl.
    + apply body_registered_start; [done|done|congruence|done].
    + intros w Hw. apply elem_of_app in Hw as [Hw|Hw].
      * destruct (con_waiting _ H w Hw) as ((c & Hc & Hid) & Hlt & Hr).
        split_and!; [|lia|done].
        exists c. split; [|done]. simpl.
        rewrite lookup_insert_ne; [congruence|]. intros Heq.
        rewrite Hp2, Hpr, Heq in Hpn. congruence.
      * apply list_elem_of_singleton in Hw as ->. simpl.
        split_and!; [|lia|done].
        eexists. split; [apply lookup_insert_eq|done].
    + rewrite fmap_app. apply NoDup_app. split_and!.
      * apply H.
      * intros n Hn Hn'. apply list_elem_of_singleton in Hn' as ->. done.
      * apply NoDup_singleton.
    + intros n r Hn. apply (con_results _ H) in Hn. lia.
    + intros w q Hw Hq Hf. rewrite Hc2. apply elem_of_app in Hw as [Hw|Hw].
      * pose proof (con_cold _ H w q Hw Hq Hf) as Hc.
        destruct (Hca (o_id (c_options w))) as [?|Heq]; [done|congruence].
      * apply list_elem_of_singleton in Hw as ->. simpl in *. auto.
Qed.

Lemma body_consistent_settle s p outcome tr tc te s' :
  consistent s -> step TTL iso (EvSettle p outcome tr tc te) s = Some s' ->
  consistent s'.
Proof.
  intros H. simpl.
  destruct (promises (state s) !! p) as [[c|]|] eqn:Hp; try done.
  set (r := fetched iso c outcome tr).
  set (st1 := settle_chain TTL c r tc te (set_promise p (Done r) (state s))).
  assert (Hreg1 : registered st1) by (apply body_registered_settle; [apply H|done]).
  destruct (body_settle_chain_frame c r tc te (set_promise p (Done r) (state s)))
    as (Hi1 & Hp1 & Hu1 & Hc1). fold st1 in Hi1, Hp1, Hu1, Hc1.
  clearbody st1. simpl in Hp1, Hc1.
  destruct (resume_all TTL p r (waiting s) st1 (results s)) as [[ws st2] res] eqn:Er.
  intros [= <-].
  apply body_resume_all_spec in Er as (-> & Hc & Hi & Hpr & Hu & Hfr & Hres).
  assert (Hkeep : forall w, w ∈ waiting s -> awaited (c_wait w) <> p ->
     in_flight st2 (o_id (c_options w)) (awaited (c_wait w))).
  { intros w Hw Hne. destruct (con_waiting _ H w Hw) as ((d & Hd & Hid) & _).
    exists d. split; [|done]. rewrite Hpr, Hp1. by rewrite lookup_insert_ne. }
  split; simpl.
  - eapply body_registered_ext; [done..|done].
  - intros w Hw. apply list_elem_of_filter in Hw as [Hne Hw].
    destruct (con_waiting _ H w Hw) as (_ & Hlt & Hr).
    split_and!; [by apply Hkeep|done|].
    rewrite Hfr; [done|]. intros w' Hw' Haw Heq.
    assert (w' = w) as ->; [|done].
    pose proof (con_nodup _ H) as Hnd.
    apply list_elem_of_lookup in Hw as [i Hi'], Hw' as [j Hj].
    assert (i = j) as ->.
    { eapply NoDup_lookup; [exact Hnd| |].
      - rewrite list_lookup_fmap, Hi'. reflexivity.
      - rewrite list_lookup_fmap, Hj. simpl. by rewrite Heq. }
    congruence.
  - pose proof (con_nodup _ H) as Hnd.
    eapply sublist_NoDup; [exact Hnd|]. apply fmap_sublist, sublist_filter.
  - intros n r0 Hn.
    destruct (decide (Exists (fun w => awaited (c_wait w) = p /\ c_call w = n) (waiting s)))
      as [Hex|Hno].
    + apply Exists_exists in Hex as (w & Hw & _ & <-).
      by apply (con_waiting _ H w Hw).
    + rewrite Hfr in Hn; [by apply (con_results _ H) in Hn|].
      intros w Hw Haw Heq. apply Hno, Exists_exists. eauto.
  - intros w q Hw Hq Hf. apply list_elem_of_filter in Hw as [Hne Hw].
    rewrite Hc, Hc1. simpl.
    assert (Hid : ch_id c <> o_id (c_options w)).
    { intros Heq. apply Hne. symmetry.
      eapply (body_registered_unique (state s) (ch_id c)); [apply H| |].
      - by exists c.
      - rewrite Heq. by apply (con_waiting _ H w Hw). }
    pose proof (con_cold _ H w q Hw Hq Hf).
    destruct r; [by rewrite lookup_insert_ne|done].
Qed.

Lemma body_consistent_step s e s' :
  consistent s -> step TTL iso e s = Some s' -> consistent s'.
Proof.
  destruct e; [apply body_consistent_call|apply body_consistent_settle].
Qed.

Lemma body_consistent_run es : forall s s',
  consistent s -> run TTL iso es s = Some s' -> consistent s'.
Proof.
  induction es as [|e es IH]; intros s s' H; simpl.
  - by intros [= <-].
  - destruct (step TTL iso e s) as [s1|] eqn:E; [|done].
    apply IH. by eapply body_consistent_step.
Qed.


Lemma body_consistent_reachable es s :
  run TTL iso es boot = Some s -> consistent s.
Proof. apply body_consistent_run, body_consistent_boot. Qed.

Lemma body_run_cons e es s :
  run TTL iso (e :: es) s =
    match step TTL iso e s with
    | Some s' => run TTL iso es s'
    | None => None
    end.
Proof. reflexivity. Qed.

(** *** Coalescing *)

(** A forced call that finds a chain in flight joins it and changes nothing
    else. *)
Lemma body_forced_call_joins i p req s :
  inflight (state s) !! i = Some p ->
  step TTL iso (forced_call i req) s =
    Some {| state := state s;
            waiting := waiting s ++
              [{| c_call := ncalls s;
                  c_options := {| o_id := i; forceRefresh := true;
                                  correlationId := req.1.1.1 |};
                  c_now := req.1.1.2; c_wait := AwaitExisting p |}];
            results := results s; ncalls := S (ncalls s) |}.
Proof.
  intros Hp. unfold forced_call. cbn [step]. unfold enter.
  cbn [forceRefresh o_id correlationId fst snd]. rewrite Hp. reflexivity.
Qed.

Lemma body_forced_calls_join i p reqs : forall s,
  inflight (state s) !! i = Some p ->
  exists s', run TTL iso (forced_call i <$> reqs) s = Some s'
    /\ state s' = state s /\ results s' = results s
    /\ ncalls s' = (ncalls s + length reqs)%nat
    /\ (forall w, w ∈ waiting s -> w ∈ waiting s')
    /\ (forall k, (k < length reqs)%nat ->
          exists w, w ∈ waiting s' /\ c_call w = (ncalls s + k)%nat
                    /\ awaited (c_wait w) = p).
Proof.
  induction reqs as [|req reqs IH]; intros s Hp.
  - exists s. simpl. split_and!; auto; lia.
  - rewrite fmap_cons, body_run_cons, (body_forced_call_joins i p req s Hp).
    match goal with |- context [run _ _ _ ?s1] => destruct (IH s1) as
      (s' & Hrun & Hst & Hres & Hn & Hold & Hnew) end; [done|].
    simpl in *. exists s'. split_and!; [done|done|done|lia| |].
    + intros w Hw. apply Hold, elem_of_app. by left.
    + intros [|k] Hk.
      * eexists. split; [apply Hold, elem_of_app; right; apply list_elem_of_singleton; reflexivity|].
        simpl. split; [lia|done].
      * destruct (Hnew k) as (w & Hw & Hc & Ha); [lia|].
        exists w. split_and!; [done|lia|done].
Qed.

Lemma body_resume_fulfilled_out w p st :
  (resume TTL w (Fulfilled p) st).1 = Fulfilled (miss_payload TTL p).
Proof. unfold resume. by destruct (c_wait w). Qed.

(** K simultaneous forced-refresh requests for a body with no fetch in
    flight: one upstream call, and when it resolves every caller gets the
    same payload. *)
Lemma body_coalescing s i cfg req reqs :
  consistent s ->
  Bodies.BODY_BY_ID !! i = Some cfg ->
  inflight (state s) !! i = None ->
  exists s1 p,
    run TTL iso (forced_call i <$> (req :: reqs)) s = Some s1
    /\ upstream (state s1) = upstream (state s) ++ [i]
    /\ in_flight (state s1) i p
    /\ forall vec tr tc te, exists s2 payload,
         step TTL iso (EvSettle p (Fulfilled vec) tr tc te) s1 = Some s2
         /\ upstream (state s2) = upstream (state s1)
         /\ forall k, (k < length (req :: reqs))%nat ->
              results s2 !! (ncalls s + k)%nat = Some (Fulfilled payload).
Proof.
  intros Hcon Hcfg Hnone.
  set (p := fresh (dom (promises (state s))) : PromiseId).
  set (c := {| ch_id := i; ch_correlationId := req.1.1.1;
               ch_fetch := Upstream cfg req.2 |}).
  set (st0 := set_inflight (<[i := p]> (inflight (state s)))
                (set_promise p (Pending c) (call_upstream i (state s)))).
  set (w0 := {| c_call := ncalls s;
                c_options := {| o_id := i; forceRefresh := true;
                                correlationId := req.1.1.1 |};
                c_now := req.1.1.2; c_wait := AwaitOwn p |}).
  set (s0 := {| state := st0; waiting := waiting s ++ [w0];
                results := results s; ncalls := S (ncalls s) |}).
  assert (Hstep : step TTL iso (forced_call i req) s = Some s0).
  { unfold forced_call. cbn [step]. unfold enter, fetchFresh.
    cbn [forceRefresh o_id correlationId fst snd]. rewrite Hnone, Hcfg.
    reflexivity. }
  assert (Hcon0 : consistent s0) by (eapply body_consistent_step; eauto).
  destruct (body_forced_calls_join i p reqs s0) as (s1 & Hrun & Hst & Hres & Hn & Hold & Hnew).
  { simpl. apply lookup_insert_eq. }
  assert (Hcon1 : consistent s1).
  { eapply body_consistent_run; [exact Hcon0|exact Hrun]. }
  assert (Hp1 : promises (state s1) !! p = Some (Pending c)).
  { rewrite Hst. simpl. apply lookup_insert_eq. }
  exists s1, p. split_and!.
  - rewrite fmap_cons, body_run_cons, Hstep. exact Hrun.
  - by rewrite Hst.
  - by exists c.
  - intros vec tr tc te. simpl. rewrite Hp1.
    set (r := fetched iso c (Fulfilled vec) tr).
    set (st1 := settle_chain TTL c r tc te (set_promise p (Done r) (state s1))).
    assert (Hu1 : upstream st1 = upstream (state s1)).
    { apply (body_settle_chain_frame c r tc te (set_promise p (Done r) (state s1))). }
    clearbody st1.
    destruct (resume_all TTL p r (waiting s1) st1 (results s1)) as [[ws st2] res] eqn:Er.
    apply body_resume_all_spec in Er as (-> & _ & _ & _ & Hu & _ & Hr).
    eexists _, (miss_payload TTL (fresh_payload iso i req.1.1.1 req.2 tr vec)).
    split; [reflexivity|]. split; [simpl; congruence|].
    simpl. intros k Hk.
    assert (Hw : exists w, w ∈ waiting s1 /\ c_call w = (ncalls s + k)%nat
                           /\ awaited (c_wait w) = p).
    { destruct k as [|k].
      - exists w0. split_and!; [|simpl; lia|done].
        apply Hold, elem_of_app. right. by apply list_elem_of_singleton.
      - destruct (Hnew k) as (w & Hw & Hc & Ha); [lia|].
        exists w. split_and!; [done|simpl in Hc; lia|done]. }
    destruct Hw as (w & Hw & <- & Ha).
    rewrite (Hr (con_nodup _ Hcon1) w Hw Ha).
    unfold r, fetched, c. simpl. by rewrite body_resume_fulfilled_out.
Qed.

(** *** Degradation *)

(** The call that started the fetch: a record for the body, expired or
    not, is returned frozen; without one the error is rethrown. *)
Lemma body_resume_own_rejected o now e st :
  (resume_own TTL o now (Rejected e) st).1 =
    match cache st !! o_id o with
    | Some cached => Fulfilled (frozen_payload cached now (correlationId o) e)
    | None => Rejected e
    end.
Proof. unfold resume_own. by destruct (cache st !! o_id o). Qed.

(** A call that joined the fetch rethrows whatever the cache holds. *)
Lemma body_resume_existing_rejected e :
  resume_existing TTL (Rejected e) = Rejected e.
Proof. reflexivity. Qed.

(** *** Expiry *)

Lemma body_cold_call_step n s e s' :
  consistent s -> cold_call TTL n s -> step TTL iso e s = Some s' ->
  cold_call TTL n s'.
Proof.
  intros Hcon Hcold. destruct e as [o now tl ts|p outcome tr tc te].
  - (* another call arrives *)
    pose proof (body_consistent_fresh_call s Hcon) as [Hfresh _].
    simpl. destruct (enter o now tl ts (state s)) as [out st'].
    intros [= <-].
    destruct Hcold as [(w & Hw & Hn & Hf)|(r & Hr & Hgood)].
    + left. exists w. destruct out; simpl; split_and!; auto.
      apply elem_of_app. by left.
    + right. exists r. split; [|done]. destruct out; simpl; [|done].
      rewrite lookup_insert_ne; [done|]. intros Heq. congruence.
  - (* a chain settles *)
    simpl. destruct (promises (state s) !! p) as [[c|]|] eqn:Hp; try done.
    set (r := fetched iso c outcome tr).
    set (st1 := settle_chain TTL c r tc te (set_promise p (Done r) (state s))).
    assert (Hc1 : forall x, r = Rejected x -> cache st1 = cache (state s)).
    { intros x Hx.
      destruct (body_settle_chain_frame c r tc te (set_promise p (Done r) (state s)))
        as (_ & _ & _ & Hc). fold st1 in Hc. by rewrite Hx in Hc. }
    clearbody st1.
    destruct (resume_all TTL p r (waiting s) st1 (results s)) as [[ws st2] res] eqn:Er.
    intros [= <-].
    apply body_resume_all_spec in Er as (-> & _ & _ & _ & _ & Hfr & Hres).
    specialize (Hres (con_nodup _ Hcon)).
    destruct Hcold as [(w & Hw & Hn & Hf)|(r0 & Hr & Hgood)].
    + destruct (decide (awaited (c_wait w) = p)) as [Ha|Ha].
      * right. eexists. simpl. rewrite <- Hn. split; [by apply Hres|].
        unfold resume. destruct (c_wait w) as [q|q] eqn:Hwq.
        -- unfold resume_existing, fetched_or_failed. destruct r; eauto.
        -- unfold resume_own. destruct r as [pl|x] eqn:Hr; simpl.
           ++ left. eauto.
           ++ rewrite (Hc1 x eq_refl), (con_cold _ Hcon w q Hw Hwq Hf).
              right. eauto.
      * left. exists w. simpl. split_and!; auto. by apply list_elem_of_filter.
    + right. exists r0. simpl. split; [|done]. rewrite Hfr; [done|].
      intros w Hw _ Heq. destruct (con_waiting _ Hcon w Hw) as (_ & _ & Hnone).
      congruence.
Qed.

Lemma body_cold_call_run n es : forall s s',
  consistent s -> cold_call TTL n s -> run TTL iso es s = Some s' ->
  cold_call TTL n s'.
Proof.
  induction es as [|e es IH]; intros s s' Hcon Hcold; simpl.
  - by intros [= <-].
  - destruct (step TTL iso e s) as [s1|] eqn:E; [|done].
    apply IH; [by eapply body_consistent_step|by eapply body_cold_call_step].
Qed.

(** Whatever a call returns carries one of the three statuses. *)
Lemma body_status_of_result (r : BodyEphemerisPayload) :
  (exists e now cid, r = hit_payload e now cid)
  \/ (exists p, r = miss_payload TTL p)
  \/ (exists e now cid err, r = frozen_payload e now cid err) ->
  exists m s, metadata r = Some m /\ cacheStatus m = Some s
    /\ (s = HIT \/ s = MISS \/ s = FROZEN).
Proof.
  intros [(e & now & cid & ->)|[(p & ->)|(e & now & cid & err & ->)]];
    simpl; eauto 10.
Qed.


Lemma body_results_stable s e s' n x :
  consistent s -> step TTL iso e s = Some s' ->
  results s !! n = Some x -> results s' !! n = Some x.
Proof.
  intros Hcon Hstep Hn.
  destruct e as [o now tl ts|p outcome tr tc te]; simpl in Hstep.
  - destruct (enter o now tl ts (state s)) as [[pl|w] st']; injection Hstep as <-;
      simpl; [|done].
    rewrite lookup_insert_ne; [done|]. intros Heq.
    apply (con_results _ Hcon) in Hn. lia.
  - destruct (promises (state s) !! p) as [[c|]|] eqn:Hp; try done.
    destruct (resume_all TTL p _ (waiting s) _ (results s)) as [[ws st2] res] eqn:Er.
    injection Hstep as <-.
    apply body_resume_all_spec in Er as (_ & _ & _ & _ & _ & Hfr & _).
    simpl. rewrite Hfr; [done|]. intros w Hw _ Heq.
    destruct (con_waiting _ Hcon w Hw) as (_ & _ & Hnone). congruence.
Qed.

Lemma body_coalesced_step i calls n0 K p s e s' :
  consistent s -> coalesced TTL i calls n0 K p s -> step TTL iso e s = Some s' ->
  coalesced TTL i calls n0 K p s'.
Proof.
  intros Hcon Hco Hstep. unfold coalesced in *.
  destruct (promises (state s) !! p) as [[c|[payload|err]]|] eqn:Hp; [| | |done].
  - destruct Hco as (Hid & Hcalls & Hall).
    destruct e as [o now tl ts|q outcome tr tc te]; simpl in Hstep.
    + (* a call arrives: it joins [p] or concerns another body *)
      destruct (enter o now tl ts (state s)) as [out st'] eqn:E.
      assert (Hst : promises st' !! p = Some (Pending c)
                    /\ calls_for i st' = calls).
      { apply body_enter_cases in E as [(e & -> & _ & _ & _ & ->)
          |[(q & st1 & -> & _ & -> & _ & Hpr & Hu & _)
           |(st1 & f & st2 & -> & Hnone & Hi & Hpr & Hu & _ & _ & Hff & ->)]].
        - done.
        - unfold calls_for. by rewrite Hpr, Hu.
        - apply body_fetchFresh_frame in Hff as (_ & _ & Hp2 & Hup).
          assert (Hne : o_id o <> i).
          { intros Heq. pose proof (reg_pending _ (con_registered _ Hcon) p c Hp) as Hin.
            rewrite Hid, <- Heq in Hin. congruence. }
          split.
          + simpl. rewrite lookup_insert_ne; [congruence|]. intros Heq.
            pose proof (body_fresh_promise_none (state s)). congruence.
          + unfold calls_for in *. simpl.
            destruct Hup as [(cfg & _ & _ & ->)|(_ & -> & _)]; [|congruence].
            rewrite Hu, filter_app, filter_cons_False, filter_nil, app_nil_r by done.
            done. }
      destruct Hst as [Hp' Hc'].
      assert (Hs' : state s' = st' /\ forall w, w ∈ waiting s -> w ∈ waiting s').
      { destruct out; injection Hstep as <-; simpl; split; auto.
        intros w Hw. apply elem_of_app. by left. }
      destruct Hs' as [Hs' Hws]. rewrite Hs', Hp'. split_and!; [done|done|].
      intros k Hk. destruct (Hall k Hk) as (w & Hw & Hc0 & Ha). exists w.
      split_and!; auto.
    + (* a chain settles *)
      destruct (promises (state s) !! q) as [[d|]|] eqn:Hq; try done.
      set (r := fetched iso d outcome tr) in *.
      set (st1 := settle_chain TTL d r tc te (set_promise q (Done r) (state s))) in *.
      destruct (body_settle_chain_frame d r tc te (set_promise q (Done r) (state s)))
        as (_ & Hp1 & Hu1 & _). fold st1 in Hp1, Hu1. clearbody st1. simpl in Hp1, Hu1.
      destruct (resume_all TTL q r (waiting s) st1 (results s)) as [[ws st2] res] eqn:Er.
      injection Hstep as <-.
      apply body_resume_all_spec in Er as (-> & _ & _ & Hp2 & Hu2 & _ & Hres).
      simpl. rewrite Hp2, Hp1.
      destruct (decide (q = p)) as [->|Hne].
      * rewrite lookup_insert_eq. replace d with c in * by congruence.
        destruct r as [payload|err] eqn:Hr; [|done].
        intros k Hk. destruct (Hall k Hk) as (w & Hw & <- & Ha).
        rewrite (Hres (con_nodup _ Hcon) w Hw Ha). f_equal.
        apply body_resume_fulfilled_out.
      * rewrite lookup_insert_ne, Hp by done. split_and!; [done| |].
        -- unfold calls_for in *. by rewrite Hu2, Hu1.
        -- intros k Hk. destruct (Hall k Hk) as (w & Hw & Hc0 & Ha). exists w.
           split_and!; [|done..]. apply list_elem_of_filter. split; [congruence|done].
  - assert (Hp' : promises (state s') !! p = Some (Done (Fulfilled payload))).
    { destruct e as [o now tl ts|q outcome tr tc te]; simpl in Hstep.
      - destruct (enter o now tl ts (state s)) as [out st'] eqn:E.
        assert (promises st' !! p = Some (Done (Fulfilled payload))).
        { apply body_enter_cases in E as [(e & -> & _ & _ & _ & ->)
            |[(q & st1 & -> & _ & -> & _ & Hpr & _)
             |(st1 & f & st2 & -> & Hnone & Hi & Hpr & Hu & _ & _ & Hff & ->)]];
            [done|congruence|].
          apply body_fetchFresh_frame in Hff as (_ & _ & Hp2 & _). simpl.
          rewrite lookup_insert_ne; [congruence|]. intros Heq.
          pose proof (body_fresh_promise_none (state s)). congruence. }
        by destruct out; injection Hstep as <-.
      - destruct (promises (state s) !! q) as [[d|]|] eqn:Hq; try done.
        destruct (body_settle_chain_frame d (fetched iso d outcome tr) tc te
                    (set_promise q (Done (fetched iso d outcome tr)) (state s)))
          as (_ & Hp1 & _).
        destruct (resume_all TTL q _ (waiting s) _ (results s)) as [[ws st2] res] eqn:Er.
        injection Hstep as <-.
        apply body_resume_all_spec in Er as (_ & _ & _ & Hp2 & _).
        simpl. rewrite Hp2, Hp1. simpl.
        rewrite lookup_insert_ne; [done|congruence]. }
    rewrite Hp'. intros k Hk. eapply body_results_stable; eauto.
  - assert (Hp' : promises (state s') !! p = Some (Done (Rejected err))).
    { destruct e as [o now tl ts|q outcome tr tc te]; simpl in Hstep.
      - destruct (enter o now tl ts (state s)) as [out st'] eqn:E.
        assert (promises st' !! p = Some (Done (Rejected err))).
        { apply body_enter_cases in E as [(e & -> & _ & _ & _ & ->)
            |[(q & st1 & -> & _ & -> & _ & Hpr & _)
             |(st1 & f & st2 & -> & Hnone & Hi & Hpr & Hu & _ & _ & Hff & ->)]];
            [done|congruence|].
          apply body_fetchFresh_frame in Hff as (_ & _ & Hp2 & _). simpl.
          rewrite lookup_insert_ne; [congruence|]. intros Heq.
          pose proof (body_fresh_promise_none (state s)). congruence. }
        by destruct out; injection Hstep as <-.
      - destruct (promises (state s) !! q) as [[d|]|] eqn:Hq; try done.
        destruct (body_settle_chain_frame d (fetched iso d outcome tr) tc te
                    (set_promise q (Done (fetched iso d outcome tr)) (state s)))
          as (_ & Hp1 & _).
        destruct (resume_all TTL q _ (waiting s) _ (results s)) as [[ws st2] res] eqn:Er.
        injection Hstep as <-.
        apply body_resume_all_spec in Er as (_ & _ & _ & Hp2 & _).
        simpl. rewrite Hp2, Hp1. simpl.
        rewrite lookup_insert_ne; [done|congruence]. }
    by rewrite Hp'.
Qed.

Lemma body_coalesced_run i calls n0 K p es : forall s s',
  consistent s -> coalesced TTL i calls n0 K p s -> run TTL iso es s = Some s' ->
  coalesced TTL i calls n0 K p s'.
Proof.
  induction es as [|e es IH]; intros s s' Hcon Hco; simpl.
  - by intros [= <-].
  - destruct (step TTL iso e s) as [s1|] eqn:E; [|done].
    apply IH; [by eapply body_consistent_step|by eapply body_coalesced_step].
Qed.

(** K simultaneous forced-refresh requests for a body with no fetch in
    flight make one upstream call, and however the system goes on, no
    other call is made for the body while that one is pending, and once it
    has resolved all K callers have the same payload. *)
Lemma body_coalescing_run s i cfg req reqs :
  consistent s ->
  Bodies.BODY_BY_ID !! i = Some cfg ->
  inflight (state s) !! i = None ->
  exists s1 p,
    run TTL iso (forced_call i <$> (req :: reqs)) s = Some s1
    /\ upstream (state s1) = upstream (state s) ++ [i]
    /\ forall es s2, run TTL iso es s1 = Some s2 ->
         coalesced TTL i (calls_for i (state s) ++ [i]) (ncalls s) (S (length reqs)) p s2.
Proof.
  intros Hcon Hcfg Hnone.
  set (p := fresh (dom (promises (state s))) : PromiseId).
  set (c := {| ch_id := i; ch_correlationId := req.1.1.1;
               ch_fetch := Upstream cfg req.2 |}).
  set (st0 := set_inflight (<[i := p]> (inflight (state s)))
                (set_promise p (Pending c) (call_upstream i (state s)))).
  set (w0 := {| c_call := ncalls s;
                c_options := {| o_id := i; forceRefresh := true;
                                correlationId := req.1.1.1 |};
                c_now := req.1.1.2; c_wait := AwaitOwn p |}).
  set (s0 := {| state := st0; waiting := waiting s ++ [w0];
                results := results s; ncalls := S (ncalls s) |}).
  assert (Hstep : step TTL iso (forced_call i req) s = Some s0).
  { unfold forced_call. cbn [step]. unfold enter, fetchFresh.
    cbn [forceRefresh o_id correlationId fst snd]. rewrite Hnone, Hcfg.
    reflexivity. }
  assert (Hcon0 : consistent s0) by (eapply body_consistent_step; eauto).
  destruct (body_forced_calls_join i p reqs s0) as (s1 & Hrun & Hst & Hres & Hn & Hold & Hnew).
  { simpl. apply lookup_insert_eq. }
  assert (Hcon1 : consistent s1).
  { eapply body_consistent_run; [exact Hcon0|exact Hrun]. }
  exists s1, p. split_and!.
  - rewrite fmap_cons, body_run_cons, Hstep. exact Hrun.
  - by rewrite Hst.
  - intros es s2 Hrun2. eapply body_coalesced_run; [exact Hcon1| |exact Hrun2].
    unfold coalesced. rewrite Hst. simpl. rewrite lookup_insert_eq.
    split_and!; [done| |].
    + unfold calls_for. simpl.
      by rewrite filter_app, filter_cons_True, filter_nil.
    + intros [|k] Hk.
      * exists w0. split_and!; [|simpl; lia|done].
        apply Hold, elem_of_app. right. by apply list_elem_of_singleton.
      * destruct (Hnew k) as (w & Hw & Hc & Ha); [lia|].
        exists w. split_and!; [done|simpl in Hc; lia|done].
Qed.


Lemma body_returned_step s e s' :
  consistent s ->
  (forall n p, results s !! n = Some (Fulfilled p) -> returned TTL p) ->
  step TTL iso e s = Some s' ->
  forall n p, results s' !! n = Some (Fulfilled p) -> returned TTL p.
Proof.
  intros Hcon Hall Hstep n p.
  destruct e as [o now tl ts|q outcome tr tc te]; simpl in Hstep.
  - destruct (enter o now tl ts (state s)) as [out st'] eqn:E.
    apply body_enter_cases in E as [(e & -> & _)|[(q & st1 & -> & _)|(st1 & f & st2 & -> & _)]];
      injection Hstep as <-; simpl; [|apply Hall..].
    destruct (decide (ncalls s = n)) as [<-|Hne].
    + rewrite lookup_insert_eq. intros [= <-]. left. eauto.
    + rewrite lookup_insert_ne by done. apply Hall.
  - destruct (promises (state s) !! q) as [[c|]|] eqn:Hq; try done.
    destruct (resume_all TTL q _ (waiting s) _ (results s)) as [[ws st2] res] eqn:Er.
    injection Hstep as <-. simpl.
    apply body_resume_all_spec in Er as (_ & _ & _ & _ & _ & Hfr & Hres).
    destruct (decide (Exists (fun w => awaited (c_wait w) = q /\ c_call w = n) (waiting s)))
      as [Hex|Hno].
    + apply Exists_exists in Hex as (w & Hw & Ha & <-).
      rewrite (Hres (con_nodup _ Hcon) w Hw Ha).
      unfold resume, resume_existing, resume_own.
      destruct (c_wait w), (fetched iso c outcome tr); simpl; try (intros [= <-]); try done.
      * right; left. eauto.
      * right; left. eauto.
      * destruct (cache _ !! _); simpl; intros [= <-]. right; right. eauto 10.
    + rewrite Hfr; [apply Hall|]. intros w Hw Ha Hc. apply Hno, Exists_exists. eauto.
Qed.

Lemma body_returned_run es : forall s s',
  consistent s ->
  (forall n p, results s !! n = Some (Fulfilled p) -> returned TTL p) ->
  run TTL iso es s = Some s' ->
  forall n p, results s' !! n = Some (Fulfilled p) -> returned TTL p.
Proof.
  induction es as [|e es IH]; intros s s' Hcon Hall; simpl.
  - by intros [= <-].
  - destruct (step TTL iso e s) as [s1|] eqn:E; [|done].
    apply IH; [by eapply body_consistent_step|by eapply body_returned_step].
Qed.

(** C10. A lookup at or after [expiresAt] deletes the entry and answers
    nothing, so whatever a lookup leaves for the body is unexpired and a
    hit is only ever served from an unexpired entry; every payload a call
    returns carries one of the statuses HIT, MISS and FROZEN; and a call
    without [forceRefresh] that arrives at or after the expiry of the
    body's entry does not return at once, and whenever it returns it is
    with the payload of a fetch that resolved or with the error of the
    fetch: never with a frozen record. *)
Theorem C10_single_body_expiry :
  (forall t i st e,
     cache st !! i = Some e -> expiresAt e <= t ->
     getFromCache t i st = (None, set_cache (delete i (cache st)) st))
  /\ (forall t i st c st' e,
        getFromCache t i st = (c, st') -> cache st' !! i = Some e -> t < expiresAt e)
  /\ (forall o now tl ts st p st',
        enter o now tl ts st = (Return p, st') ->
        exists e, cache st !! o_id o = Some e /\ tl < expiresAt e
                  /\ p = hit_payload e now (correlationId o))
  /\ (forall es s n p,
        run TTL iso es boot = Some s -> results s !! n = Some (Fulfilled p) ->
        exists m status,
          metadata p = Some m /\ cacheStatus m = Some status
          /\ (status = HIT \/ status = MISS \/ status = FROZEN))
  /\ (forall es s o now tl ts e,
        run TTL iso es boot = Some s ->
        forceRefresh o = false ->
        cache (state s) !! o_id o = Some e ->
        expiresAt e <= tl ->
        exists s1,
          step TTL iso (EvCall o now tl ts) s = Some s1
          /\ cache (state s1) !! o_id o = None
          /\ results s1 !! ncalls s = None
          /\ (exists w, w ∈ waiting s1 /\ c_call w = ncalls s)
          /\ forall es2 s2 r,
               run TTL iso es2 s1 = Some s2 -> results s2 !! ncalls s = Some r ->
               fetched_or_failed TTL r).
Proof.
  split_and!.
  - intros t i st e He Ht. unfold getFromCache. rewrite He. by rewrite bool_decide_true.
  - intros t i st c st' e Hg He.
    apply body_getFromCache_frame in Hg as (_ & _ & _ & _ & Hnone & Hsome).
    destruct c as [e'|].
    + destruct (Hsome e' eq_refl) as (He' & Ht & ->). congruence.
    + rewrite Hnone in He; done.
  - intros o now tl ts st p st' He.
    apply body_enter_cases in He as [(e & [= ->] & _ & Hc & Ht & _)
      |[(q & st1 & [=] & _)|(st1 & f & st2 & [=] & _)]]. eauto.
  - intros es s n p Hrun Hn. apply body_status_of_result.
    eapply body_returned_run; [apply body_consistent_boot| |exact Hrun|exact Hn].
    intros n' p'. simpl. by rewrite lookup_empty.
  - intros es s o now tl ts e Hrun Hf Hc Ht.
    pose proof (body_consistent_reachable es s Hrun) as Hcon.
    pose proof (body_consistent_fresh_call s Hcon) as [Hfresh _].
    destruct (step TTL iso (EvCall o now tl ts) s) as [s1|] eqn:Hstep.
    2:{ simpl in Hstep. by destruct (enter o now tl ts (state s)) as [[] ?]. }
    pose proof (body_consistent_step _ _ _ Hcon Hstep) as Hcon1.
    simpl in Hstep. destruct (enter o now tl ts (state s)) as [out st'] eqn:E.
    assert (Hshape : cache st' !! o_id o = None /\ exists w, out = Await w).
    { apply body_enter_cases in E as [(e' & -> & _ & Hc' & Ht' & _)
        |[(q & st1 & -> & _ & -> & _ & _ & _ & _ & Hcold)
         |(st1 & f & st2 & -> & _ & _ & _ & _ & _ & Hcold & Hff & ->)]].
      - rewrite Hc in Hc'. injection Hc' as <-. lia.
      - split; [by apply Hcold|eauto].
      - apply body_fetchFresh_frame in Hff as (Hc2 & _). simpl. rewrite Hc2.
        split; [by apply Hcold|eauto]. }
    destruct Hshape as (Hnone & w & ->). injection Hstep as <-.
    eexists. split; [reflexivity|]. simpl. split_and!; [done|done| |].
    + eexists. split; [apply elem_of_app; right; apply list_elem_of_singleton; reflexivity|].
      done.
    + intros es2 s2 r Hrun2 Hr.
      assert (Hcold : cold_call TTL (ncalls s) s2).
      { eapply body_cold_call_run; [exact Hcon1| |exact Hrun2].
        left. eexists. split; [apply elem_of_app; right;
                               apply list_elem_of_singleton; reflexivity|].
        by split. }
      destruct Hcold as [(w' & Hw' & Hc' & _)|(r' & Hr' & Hgood)].
      * pose proof (body_consistent_run _ _ _ Hcon1 Hrun2) as Hcon2.
        destruct (con_waiting _ Hcon2 w' Hw') as (_ & _ & Hnone'). congruence.
      * congruence.
Qed.


(** *** Further properties of the single-body cache *)

(** Where a result comes from. *)
Lemma body_step_results s e s' n x :
  consistent s -> step TTL iso e s = Some s' -> results s' !! n = Some x ->
  results s !! n = Some x
  \/ (exists o now tl ts entry,
        e = EvCall o now tl ts /\ n = ncalls s /\ forceRefresh o = false
        /\ cache (state s) !! o_id o = Some entry /\ tl < expiresAt entry
        /\ state s' = state s
        /\ x = Fulfilled (hit_payload entry now (correlationId o)))
  \/ (exists p outcome tr tc te c w,
        e = EvSettle p outcome tr tc te
        /\ promises (state s) !! p = Some (Pending c)
        /\ w ∈ waiting s /\ awaited (c_wait w) = p /\ c_call w = n
        /\ x = (resume TTL w (fetched iso c outcome tr)
                  (settle_chain TTL c (fetched iso c outcome tr) tc te
                     (set_promise p (Done (fetched iso c outcome tr)) (state s)))).1).
Proof.
  intros Hcon Hstep Hn.
  destruct e as [o now tl ts|q outcome tr tc te]; simpl in Hstep.
  - destruct (enter o now tl ts (state s)) as [out st'] eqn:E.
    apply body_enter_cases in E
      as [(e & -> & Hf & Hc & Ht & ->)|[(q & st1 & -> & _)|(st1 & f & st2 & -> & _)]];
      injection Hstep as <-; simpl in *; [|by left..].
    destruct (decide (ncalls s = n)) as [<-|Hne].
    + rewrite lookup_insert_eq in Hn. injection Hn as <-.
      right; left. exists o, now, tl, ts, e. done.
    + rewrite lookup_insert_ne in Hn by done. by left.
  - destruct (promises (state s) !! q) as [[c|]|] eqn:Hq; try done.
    destruct (resume_all TTL q _ (waiting s) _ (results s)) as [[ws st2] res] eqn:Er.
    injection Hstep as <-. simpl in *.
    apply body_resume_all_spec in Er as (_ & _ & _ & _ & _ & Hfr & Hres).
    destruct (decide (Exists (fun w => awaited (c_wait w) = q /\ c_call w = n) (waiting s)))
      as [Hex|Hno].
    + apply Exists_exists in Hex as (w & Hw & Ha & <-).
      rewrite (Hres (con_nodup _ Hcon) w Hw Ha) in Hn. injection Hn as <-.
      right; right. exists q, outcome, tr, tc, te, c, w. done.
    + rewrite Hfr in Hn; [by left|].
      intros w Hw Ha Hc. apply Hno, Exists_exists. eauto.
Qed.

Lemma body_step_cache s e s' i entry :
  step TTL iso e s = Some s' -> cache (state s') !! i = Some entry ->
  cache (state s) !! i = Some entry
  \/ (exists p outcome tr tc te c started cfg vec,
        e = EvSettle p outcome tr tc te
        /\ promises (state s) !! p = Some (Pending c)
        /\ ch_fetch c = Upstream cfg started
        /\ outcome = Fulfilled vec
        /\ ch_id c = i
        /\ entry = {| payload := fresh_payload iso i (ch_correlationId c) started tr vec;
                      cachedAt := tc; expiresAt := te + TTL |}).
Proof.
  intros Hstep Hi.
  destruct e as [o now tl ts|q outcome tr tc te]; simpl in Hstep.
  - destruct (enter o now tl ts (state s)) as [out st'] eqn:E.
    assert (state s' = st') as Hst by (destruct out; by injection Hstep as <-).
    rewrite Hst in Hi. left.
    apply body_enter_cases in E
      as [(e & _ & _ & _ & _ & ->)|[(q & st1 & _ & _ & -> & _ & _ & _ & Hc & _)
         |(st1 & f & st2 & _ & _ & _ & _ & _ & Hc & _ & Hff & ->)]].
    + done.
    + destruct (Hc i) as [H|H]; congruence.
    + apply body_fetchFresh_frame in Hff as (Hc2 & _). simpl in Hi. rewrite Hc2 in Hi.
      destruct (Hc i) as [H|H]; congruence.
  - destruct (promises (state s) !! q) as [[c|]|] eqn:Hq; try done.
    destruct (resume_all TTL q _ (waiting s) _ (results s)) as [[ws st2] res] eqn:Er.
    injection Hstep as <-. simpl in *.
    apply body_resume_all_spec in Er as (_ & Hc & _).
    rewrite Hc in Hi.
    destruct (body_settle_chain_frame c (fetched iso c outcome tr) tc te
                (set_promise q (Done (fetched iso c outcome tr)) (state s)))
      as (_ & _ & _ & Hc1).
    rewrite Hc1 in Hi. simpl in Hi.
    unfold fetched in Hi |- *.
    destruct (ch_fetch c) as [cfg started|err] eqn:Hf; [|by left].
    destruct outcome as [vec|err]; [|by left].
    destruct (decide (i = ch_id c)) as [->|Hne].
    + rewrite lookup_insert_eq in Hi. injection Hi as <-.
      right. exists q, (Fulfilled vec), tr, tc, te, c, started, cfg, vec. done.
    + rewrite lookup_insert_ne in Hi by done. by left.
Qed.

Lemma body_sound_cache_step s e s' :
  sound_cache iso (state s) -> step TTL iso e s = Some s' -> sound_cache iso (state s').
Proof.
  intros Hs Hstep i entry Hi.
  destruct (body_step_cache _ _ _ _ _ Hstep Hi)
    as [H|(p & outcome & tr & tc & te & c & started & cfg & vec & _ & _ & _ & _ & _ & ->)].
  - by eapply Hs.
  - simpl. eauto.
Qed.

Lemma body_hit_answered entry i now cid :
  (exists cid0 started t_resp vec,
     payload entry = fresh_payload iso i cid0 started t_resp vec) ->
  answered TTL iso (hit_payload entry now cid).
Proof.
  intros (cid0 & started & t_resp & vec & Hp).
  exists i, cid0, started, t_resp, vec. eexists. unfold hit_payload. rewrite Hp.
  split; [reflexivity|]. simpl. split; [done|]. split_and!; try done.
  eexists. split; [done|]. lia.
Qed.

Lemma body_miss_answered i cid started t_resp vec :
  answered TTL iso (miss_payload TTL (fresh_payload iso i cid started t_resp vec)).
Proof.
  exists i, cid, started, t_resp, vec. eexists. unfold miss_payload.
  split; [reflexivity|]. simpl. done.
Qed.

Lemma body_frozen_answered entry i now cid err :
  (exists cid0 started t_resp vec,
     payload entry = fresh_payload iso i cid0 started t_resp vec) ->
  answered TTL iso (frozen_payload entry now cid err).
Proof.
  intros (cid0 & started & t_resp & vec & Hp).
  exists i, cid0, started, t_resp, vec. eexists. unfold frozen_payload. rewrite Hp.
  split; [reflexivity|]. simpl. split; [done|]. split_and!; by eauto.
Qed.

Lemma body_answered_step s e s' :
  consistent s -> sound_cache iso (state s) ->
  (forall n p, results s !! n = Some (Fulfilled p) -> answered TTL iso p) ->
  step TTL iso e s = Some s' ->
  forall n p, results s' !! n = Some (Fulfilled p) -> answered TTL iso p.
Proof.
  intros Hcon Hs Hall Hstep n p Hn.
  destruct (body_step_results _ _ _ _ _ Hcon Hstep Hn)
    as [H|[(o & now & tl & ts & entry & _ & _ & _ & Hc & _ & _ & [= ->])
       |(q & outcome & tr & tc & te & c & w & _ & Hq & Hw & Ha & _ & Hx)]].
  - by eapply Hall.
  - eapply body_hit_answered, Hs, Hc.
  - unfold resume, resume_existing, resume_own, fetched in Hx.
    destruct (ch_fetch c) as [cfg started|err0] eqn:Hf.
    + destruct outcome as [vec|err].
      * destruct (c_wait w); simpl in Hx; injection Hx as ->; apply body_miss_answered.
      * destruct (c_wait w); simpl in Hx; [done|].
        destruct (cache _ !! _) as [entry|] eqn:Hc; simpl in Hx; [|done].
        injection Hx as ->. eapply body_frozen_answered.
        destruct (body_settle_chain_frame c (Rejected err) tc te
                    (set_promise q (Done (Rejected err)) (state s))) as (_ & _ & _ & Hc1).
        try rewrite Hc1 in Hc. simpl in Hc. by eapply Hs.
    + destruct (c_wait w); simpl in Hx; [done|].
      destruct (cache _ !! _) as [entry|] eqn:Hc; simpl in Hx; [|done].
      injection Hx as ->. eapply body_frozen_answered.
      destruct (body_settle_chain_frame c (Rejected err0) tc te
                  (set_promise q (Done (Rejected err0)) (state s))) as (_ & _ & _ & Hc1).
      try rewrite Hc1 in Hc. simpl in Hc. by eapply Hs.
Qed.

Lemma body_answered_run es : forall s s',
  consistent s -> sound_cache iso (state s) ->
  (forall n p, results s !! n = Some (Fulfilled p) -> answered TTL iso p) ->
  run TTL iso es s = Some s' ->
  sound_cache iso (state s')
  /\ forall n p, results s' !! n = Some (Fulfilled p) -> answered TTL iso p.
Proof.
  induction es as [|e es IH]; intros s s' Hcon Hs Hall.
  - by intros [= <-].
  - rewrite body_run_cons. destruct (step TTL iso e s) as [s1|] eqn:E; [|done].
    apply IH; [by eapply body_consistent_step|by eapply body_sound_cache_step
              |by eapply body_answered_step].
Qed.


(** *** The table of bodies, and the bookkeeping *)

Lemma body_tidy_boot : tidy boot.
Proof.
  split.
  - done.
  - intros i Hi. by apply elem_of_nil in Hi.
  - done.
  - cbn. rewrite map_size_empty. lia.
Qed.

Lemma body_fetchFresh_unknown i ts st :
  Bodies.BODY_BY_ID !! i = None ->
  fetchFresh i ts st = (Unknown (unknown_body i), st).
Proof. intros H. unfold fetchFresh. by rewrite H. Qed.

Lemma body_fetchFresh_known i ts st cfg :
  Bodies.BODY_BY_ID !! i = Some cfg ->
  fetchFresh i ts st = (Upstream cfg ts, call_upstream i st).
Proof. intros H. unfold fetchFresh. by rewrite H. Qed.

(** What a call does to the chains and to the upstream calls. *)
Lemma body_enter_chains o now tl ts st out st' :
  enter o now tl ts st = (out, st') ->
  (promises st' = promises st /\ upstream st' = upstream st
   /\ forall p, out <> Await (AwaitOwn p))
  \/ (exists f,
       out = Await (AwaitOwn (fresh (dom (promises st))))
       /\ inflight st !! o_id o = None
       /\ promises st !! (fresh (dom (promises st)) : PromiseId) = None
       /\ promises st' =
            <[fresh (dom (promises st)) :=
                Pending {| ch_id := o_id o; ch_correlationId := correlationId o;
                           ch_fetch := f |}]> (promises st)
       /\ ((exists cfg, Bodies.BODY_BY_ID !! o_id o = Some cfg /\ f = Upstream cfg ts
               /\ upstream st' = upstream st ++ [o_id o])
           \/ (Bodies.BODY_BY_ID !! o_id o = None /\ f = Unknown (unknown_body (o_id o))
               /\ upstream st' = upstream st))).
Proof.
  intros E.
  apply body_enter_cases in E
    as [(e & -> & _ & _ & _ & ->)|[(q & st1 & -> & _ & -> & _ & Hp1 & Hu1 & _)
       |(st1 & f & st2 & -> & Hi & _ & Hp1 & Hu1 & _ & _ & Hff & ->)]].
  - left. done.
  - left. done.
  - right. exists f. split; [done|]. split; [done|].
    split; [apply body_fresh_promise_none|].
    destruct (Bodies.BODY_BY_ID !! o_id o) as [cfg|] eqn:Hcfg.
    + rewrite (body_fetchFresh_known _ _ _ _ Hcfg) in Hff. injection Hff as <- <-.
      simpl. rewrite Hp1, Hu1. split; [done|]. left. eauto.
    + rewrite (body_fetchFresh_unknown _ _ _ Hcfg) in Hff. injection Hff as <- <-.
      simpl. rewrite Hp1, Hu1. split; [done|]. right. eauto.
Qed.

Lemma body_settle_chains s q outcome tr tc te s' :
  step TTL iso (EvSettle q outcome tr tc te) s = Some s' ->
  exists c, promises (state s) !! q = Some (Pending c)
    /\ promises (state s') = <[q := Done (fetched iso c outcome tr)]> (promises (state s))
    /\ upstream (state s') = upstream (state s)
    /\ inflight (state s') = delete (ch_id c) (inflight (state s))
    /\ ncalls s' = ncalls s.
Proof.
  simpl. destruct (promises (state s) !! q) as [[c|]|] eqn:Hq; try done.
  destruct (resume_all TTL q _ (waiting s) _ (results s)) as [[ws st2] res] eqn:Er.
  intros [= <-]. simpl.
  apply body_resume_all_spec in Er as (_ & _ & Hi & Hp & Hu & _).
  destruct (body_settle_chain_frame c (fetched iso c outcome tr) tc te
              (set_promise q (Done (fetched iso c outcome tr)) (state s)))
    as (Hi1 & Hp1 & Hu1 & _).
  exists c. rewrite Hp, Hp1, Hu, Hu1, Hi, Hi1. done.
Qed.

Lemma body_tidy_step s e s' :
  tidy s -> step TTL iso e s = Some s' -> tidy s'.
Proof.
  intros [Hc Hu Hch [Hn1 Hn2]] Hstep.
  assert (Hcache : forall i e0, cache (state s') !! i = Some e0 ->
    is_Some (Bodies.BODY_BY_ID !! i)).
  { intros i e0 Hi.
    destruct (body_step_cache _ _ _ _ _ Hstep Hi)
      as [H|(p & outcome & tr & tc & te & c & started & cfg & vec & _ & Hp & Hf & _ & <- & _)].
    - by eapply Hc.
    - specialize (Hch p c Hp). rewrite Hf in Hch. eauto. }
  destruct e as [o now tl ts|q outcome tr tc te].
  - simpl in Hstep. destruct (enter o now tl ts (state s)) as [out st'] eqn:E.
    assert (state s' = st' /\ ncalls s' = S (ncalls s)) as [Hst Hnc]
      by (destruct out; by injection Hstep as <-).
    apply body_enter_chains in E
      as [(Hp & Hup & _)|(f & _ & _ & Hnone & Hp & Hf)].
    + split; [done|..]; rewrite ?Hst, ?Hnc, ?Hp, ?Hup; [done|done|lia].
    + assert (Hsize : size (promises st') = S (size (promises (state s)))).
      { rewrite Hp. by apply map_size_insert_None. }
      split; [done|..]; rewrite ?Hst, ?Hnc.
      * destruct Hf as [(cfg & Hcfg & _ & ->)|(_ & _ & ->)]; [|done].
        intros i Hi. apply elem_of_app in Hi as [Hi|Hi]; [by apply Hu|].
        apply list_elem_of_singleton in Hi as ->. eauto.
      * rewrite Hp. intros p c Hpc.
        destruct (decide (p = fresh (dom (promises (state s))))) as [->|Hne].
        -- rewrite lookup_insert_eq in Hpc. injection Hpc as <-. simpl.
           by destruct Hf as [(cfg & Hcfg & -> & _)|(Hcfg & -> & _)].
        -- rewrite lookup_insert_ne in Hpc by done. by eapply Hch.
      * rewrite Hsize.
        destruct Hf as [(cfg & _ & _ & ->)|(_ & _ & ->)]; rewrite ?length_app; simpl; lia.
  - apply body_settle_chains in Hstep as (c & Hq & Hp & Hup & _ & Hnc).
    split; [done|..]; rewrite ?Hp, ?Hup, ?Hnc.
    + done.
    + intros p c0 Hpc. destruct (decide (p = q)) as [->|Hne].
      * by rewrite lookup_insert_eq in Hpc.
      * rewrite lookup_insert_ne in Hpc by done. by eapply Hch.
    + rewrite map_size_insert_Some by eauto. done.
Qed.

Lemma body_tidy_run es : forall s s',
  tidy s -> run TTL iso es s = Some s' -> tidy s'.
Proof.
  induction es as [|e es IH]; intros s s' Ht.
  - by intros [= <-].
  - rewrite body_run_cons. destruct (step TTL iso e s) as [s1|] eqn:E; [|done].
    apply IH. by eapply body_tidy_step.
Qed.

Lemma body_accounted_step s e s' :
  consistent s -> accounted s -> step TTL iso e s = Some s' -> accounted s'.
Proof.
  intros Hcon Hacc Hstep.
  destruct e as [o now tl ts|q outcome tr tc te]; simpl in Hstep.
  - destruct (enter o now tl ts (state s)) as [[p|w] st'] eqn:E;
      injection Hstep as <-; intros n Hn; simpl in *.
    + destruct (decide (n = ncalls s)) as [->|Hne].
      * right. rewrite lookup_insert_eq. eauto.
      * rewrite lookup_insert_ne by done. apply Hacc. lia.
    + destruct (decide (n = ncalls s)) as [->|Hne].
      * left. eexists. split; [apply elem_of_app; right; by apply list_elem_of_singleton|].
        done.
      * destruct (Hacc n ltac:(lia)) as [(w0 & Hw0 & Hc0)|?]; [|by right].
        left. exists w0. split; [apply elem_of_app; by left|done].
  - destruct (promises (state s) !! q) as [[c|]|] eqn:Hq; try done.
    destruct (resume_all TTL q _ (waiting s) _ (results s)) as [[ws st2] res] eqn:Er.
    injection Hstep as <-. intros n Hn. simpl in *.
    apply body_resume_all_spec in Er as (-> & _ & _ & _ & _ & Hfr & Hres).
    destruct (Hacc n Hn) as [(w & Hw & <-)|[x Hx]].
    + destruct (decide (awaited (c_wait w) = q)) as [Ha|Ha].
      * right. rewrite (Hres (con_nodup _ Hcon) w Hw Ha). eauto.
      * left. exists w. split; [|done]. by apply list_elem_of_filter.
    + right. destruct (decide (Exists (fun w => awaited (c_wait w) = q /\ c_call w = n)
                                 (waiting s))) as [Hex|Hno].
      * apply Exists_exists in Hex as (w & Hw & Ha & <-).
        rewrite (Hres (con_nodup _ Hcon) w Hw Ha). eauto.
      * rewrite Hfr; [eauto|]. intros w Hw Ha Hc. apply Hno, Exists_exists. eauto.
Qed.

Lemma body_accounted_run es : forall s s',
  consistent s -> accounted s -> run TTL iso es s = Some s' -> accounted s'.
Proof.
  induction es as [|e es IH]; intros s s' Hcon Hacc.
  - by intros [= <-].
  - rewrite body_run_cons. destruct (step TTL iso e s) as [s1|] eqn:E; [|done].
    apply IH; [by eapply body_consistent_step|by eapply body_accounted_step].
Qed.

(** X2. The bookkeeping of every state reached from start-up.  The
    in-flight slot of a body holds a promise exactly when that promise is
    the unsettled chain of a fetch for the body.  Every call made so far
    is either suspended or answered, never both, and a suspended call
    awaits the unsettled chain of its own body.  Only bodies of the table
    are ever cached or fetched upstream, and there are never more upstream
    calls than chains, nor more chains than calls. *)
Theorem X_body_bookkeeping es s :
  run TTL iso es boot = Some s ->
  (forall i p, inflight (state s) !! i = Some p <-> in_flight (state s) i p)
  /\ (forall n, (n < ncalls s)%nat <->
        (exists w, w ∈ waiting s /\ c_call w = n) \/ is_Some (results s !! n))
  /\ (forall w, w ∈ waiting s ->
        results s !! c_call w = None
        /\ in_flight (state s) (o_id (c_options w)) (awaited (c_wait w)))
  /\ (forall i e, cache (state s) !! i = Some e -> is_Some (Bodies.BODY_BY_ID !! i))
  /\ (forall i, i ∈ upstream (state s) -> is_Some (Bodies.BODY_BY_ID !! i))
  /\ (length (upstream (state s)) <= size (promises (state s)) <= ncalls s)%nat.
Proof.
  intros Hrun.
  pose proof (body_consistent_reachable es s Hrun) as Hcon.
  assert (Hacc : accounted s).
  { eapply body_accounted_run; [apply body_consistent_boot| |exact Hrun].
    intros n Hn. simpl in Hn. lia. }
  pose proof (body_tidy_run es boot s body_tidy_boot Hrun) as [Hc Hu _ Hn].
  destruct Hcon as [[Hreg1 Hreg2] Hwait Hnd Hres _].
  split; [|split; [|split; [|split; [|split]]]].
  - intros i p. split; [apply Hreg1|].
    intros (c & Hp & <-). by eapply Hreg2.
  - intros n. split; [apply Hacc|].
    intros [(w & Hw & <-)|[x Hx]]; [by apply Hwait|by eapply Hres].
  - intros w Hw. destruct (Hwait w Hw) as (? & _ & ?). done.
  - exact Hc.
  - exact Hu.
  - exact Hn.
Qed.

(** *** An id that is not in the table *)

Lemma body_enter_unknown o now tl ts st :
  cache st !! o_id o = None -> inflight st !! o_id o = None ->
  Bodies.BODY_BY_ID !! o_id o = None ->
  enter o now tl ts st =
    (Await (AwaitOwn (fresh (dom (promises st)))),
     set_inflight (<[o_id o := fresh (dom (promises st))]> (inflight st))
       (set_promise (fresh (dom (promises st)))
          (Pending {| ch_id := o_id o; ch_correlationId := correlationId o;
                      ch_fetch := Unknown (unknown_body (o_id o)) |}) st)).
Proof.
  intros Hc Hi Hunk. unfold enter, getFromCache. rewrite Hc.
  destruct (forceRefresh o); rewrite Hi; cbv zeta;
    by rewrite (body_fetchFresh_unknown _ _ _ Hunk).
Qed.

(** X3. A call for an id that is not in the table of bodies, with no chain
    in flight for it: nothing is cached for the id; the call makes no
    upstream call and suspends on a chain that has already failed; and when
    that chain settles the call throws "Corps inconnu: <id>", leaving no
    cache entry and no in-flight slot behind. *)
Theorem X_body_unknown_id es s o now tl ts :
  run TTL iso es boot = Some s ->
  Bodies.BODY_BY_ID !! o_id o = None ->
  inflight (state s) !! o_id o = None ->
  cache (state s) !! o_id o = None
  /\ exists s1 p,
       step TTL iso (EvCall o now tl ts) s = Some s1
       /\ upstream (state s1) = upstream (state s)
       /\ results s1 !! ncalls s = None
       /\ promises (state s1) !! p
            = Some (Pending {| ch_id := o_id o; ch_correlationId := correlationId o;
                               ch_fetch := Unknown (unknown_body (o_id o)) |})
       /\ forall outcome tr tc te, exists s2,
            step TTL iso (EvSettle p outcome tr tc te) s1 = Some s2
            /\ results s2 !! ncalls s = Some (Rejected (unknown_body (o_id o)))
            /\ upstream (state s2) = upstream (state s)
            /\ cache (state s2) !! o_id o = None
            /\ inflight (state s2) !! o_id o = None.
Proof.
  intros Hrun Hunk Hinf.
  pose proof (body_consistent_reachable es s Hrun) as Hcon.
  pose proof (body_tidy_run es boot s body_tidy_boot Hrun) as [Hc _ _ _].
  assert (Hnone : cache (state s) !! o_id o = None).
  { destruct (cache (state s) !! o_id o) as [e|] eqn:E; [|done].
    destruct (Hc _ _ E) as [cfg Hcfg]. congruence. }
  split; [done|].
  set (p := fresh (dom (promises (state s))) : PromiseId).
  set (c := {| ch_id := o_id o; ch_correlationId := correlationId o;
               ch_fetch := Unknown (unknown_body (o_id o)) |}).
  set (w := {| c_call := ncalls s; c_options := o; c_now := now; c_wait := AwaitOwn p |}).
  set (st1 := set_inflight (<[o_id o := p]> (inflight (state s)))
                (set_promise p (Pending c) (state s))).
  set (s1 := {| state := st1; waiting := waiting s ++ [w]; results := results s;
                ncalls := S (ncalls s) |}).
  assert (Hstep : step TTL iso (EvCall o now tl ts) s = Some s1).
  { cbn [step]. by rewrite (body_enter_unknown o now tl ts (state s) Hnone Hinf Hunk). }
  pose proof (body_consistent_step _ _ _ Hcon Hstep) as Hcon1.
  exists s1, p. split; [done|]. split; [done|].
  split; [exact (proj1 (body_consistent_fresh_call s Hcon))|].
  split; [by apply lookup_insert_eq|].
  intros outcome tr tc te.
  destruct (step TTL iso (EvSettle p outcome tr tc te) s1) as [s2|] eqn:Hset.
  2:{ exfalso. cbn [step] in Hset.
      replace (promises (state s1) !! p) with (Some (Pending c)) in Hset
        by (symmetry; apply lookup_insert_eq).
      by destruct (resume_all _ _ _ _ _ _) as [[? ?] ?]. }
  exists s2. split; [done|].
  assert (Hin : results s2 !! ncalls s = Some (Rejected (unknown_body (o_id o)))
                \/ results s2 !! ncalls s = None).
  { destruct (results s2 !! ncalls s) as [x|] eqn:Hx; [|by right]. left.
    destruct (body_step_results _ _ _ _ _ Hcon1 Hset Hx)
      as [H|[(o0 & now0 & tl0 & ts0 & entry & [=] & _)
         |(q & outcome0 & tr0 & tc0 & te0 & c0 & w0 & [= <- <- <- <- <-] & Hq & Hw0 & Ha
           & Hc0 & ->)]].
    - pose proof (proj1 (body_consistent_fresh_call s Hcon)) as Hfresh. cbn in H.
      congruence.
    - replace (promises (state s1) !! p) with (Some (Pending c)) in Hq
        by (symmetry; apply lookup_insert_eq).
      injection Hq as <-.
      assert (w0 = w) as ->.
      { cbn in Hw0. apply elem_of_app in Hw0 as [Hw0|Hw0].
        - destruct (con_waiting _ Hcon w0 Hw0) as (_ & Hlt & _). lia.
        - by apply list_elem_of_singleton in Hw0. }
      unfold resume, resume_own, fetched. cbn. by rewrite Hnone. }
  pose proof (body_settle_chains _ _ _ _ _ _ _ Hset) as (c0 & Hq & Hp2 & Hup2 & Hi2 & _).
  replace (promises (state s1) !! p) with (Some (Pending c)) in Hq
    by (symmetry; apply lookup_insert_eq).
  injection Hq as <-.
  assert (Hc2 : cache (state s2) !! o_id o = None).
  { destruct (cache (state s2) !! o_id o) as [entry|] eqn:E; [|done].
    destruct (body_step_cache _ _ _ _ _ Hset E)
      as [H|(q & outcome0 & tr0 & tc0 & te0 & c0 & started & cfg & vec & [= <- _ _ _ _]
            & Hq & Hf & _)].
    - cbn in H. congruence.
    - replace (promises (state s1) !! p) with (Some (Pending c)) in Hq
        by (symmetry; apply lookup_insert_eq).
      injection Hq as <-. done. }
  split_and!.
  - destruct Hin as [?|Hn]; [done|]. exfalso.
    (* the call is no longer waiting, so it has been answered *)
    assert (Hacc : accounted s2).
    { eapply body_accounted_step; [exact Hcon1| |exact Hset].
      eapply body_accounted_step; [exact Hcon| |exact Hstep].
      eapply body_accounted_run; [apply body_consistent_boot| |exact Hrun].
      intros n Hlt. cbn in Hlt. lia. }
    assert (Hnc : ncalls s2 = S (ncalls s)).
    { cbn [step] in Hset.
      replace (promises (state s1) !! p) with (Some (Pending c)) in Hset
        by (symmetry; apply lookup_insert_eq).
      destruct (resume_all _ _ _ _ _ _) as [[? ?] ?]. by injection Hset as <-. }
    destruct (Hacc (ncalls s) ltac:(lia)) as [(w2 & Hw2 & Hc2')|[x Hx]]; [|congruence].
    pose proof (body_consistent_step _ _ _ Hcon1 Hset) as Hcon2.
    destruct (con_waiting _ Hcon2 w2 Hw2) as ((d & Hd & Hid) & _).
    cbn [step] in Hset.
    replace (promises (state s1) !! p) with (Some (Pending c)) in Hset
      by (symmetry; apply lookup_insert_eq).
    destruct (resume_all _ _ _ _ _ _) as [[ws st2] res] eqn:Er.
    injection Hset as <-. cbn in *.
    apply body_resume_all_spec in Er as (-> & _).
    apply list_elem_of_filter in Hw2 as [Hne Hw2].
    apply elem_of_app in Hw2 as [Hw2|Hw2].
    + destruct (con_waiting _ Hcon w2 Hw2) as (_ & Hlt & _). lia.
    + apply list_elem_of_singleton in Hw2 as ->. done.
  - by rewrite Hup2.
  - done.
  - rewrite Hi2. apply lookup_delete_eq.
Qed.

(** *** From a fetch to the hits it serves *)

(** X4. When the upstream call of a chain resolves with a vector, the body's
    entry is the payload built from that vector, cached at the [then]
    callback's first clock reading and expiring one TTL after its second;
    the in-flight slot of the body is free; and a call without
    [forceRefresh] whose lookup comes before that expiry returns at once
    the cached payload as a HIT, aged from the caching time, touching
    neither the state nor the upstream. *)
Theorem X_body_fetch_then_hit s p c cfg started vec tr tc te s1 cid now tl ts :
  promises (state s) !! p = Some (Pending c) ->
  ch_fetch c = Upstream cfg started ->
  step TTL iso (EvSettle p (Fulfilled vec) tr tc te) s = Some s1 ->
  tl < te + TTL ->
  let fetched_payload := fresh_payload iso (ch_id c) (ch_correlationId c) started tr vec in
  let entry := {| payload := fetched_payload; cachedAt := tc; expiresAt := te + TTL |} in
  cache (state s1) !! ch_id c = Some entry
  /\ inflight (state s1) !! ch_id c = None
  /\ step TTL iso
       (EvCall {| o_id := ch_id c; forceRefresh := false; correlationId := cid |} now tl ts)
       s1
     = Some {| state := state s1; waiting := waiting s1;
               results := <[ncalls s1 := Fulfilled (hit_payload entry now cid)]> (results s1);
               ncalls := S (ncalls s1) |}
  /\ hit_payload entry now cid
     = with_metadata fetched_payload
         {| cacheStatus := Some HIT; cacheAgeMs := Some (now - tc);
            cacheExpiresInMs := Some (Z.max 0 (te + TTL - now));
            responseTimeMs := Some (tr - started);
            requestId := nullish cid (ch_correlationId c);
            frozenSnapshot := None; freezeReason := None |}.
Proof.
  intros Hp Hf Hstep Htl fetched_payload entry.
  assert (Hc : cache (state s1) !! ch_id c = Some entry).
  { cbn [step] in Hstep. rewrite Hp in Hstep.
    destruct (resume_all _ _ _ _ _ _) as [[ws st2] res] eqn:Er.
    injection Hstep as <-. cbn.
    apply body_resume_all_spec in Er as (_ & -> & _).
    destruct (body_settle_chain_frame c (fetched iso c (Fulfilled vec) tr) tc te
                (set_promise p (Done (fetched iso c (Fulfilled vec) tr)) (state s)))
      as (_ & _ & _ & ->).
    unfold fetched. rewrite Hf. by rewrite lookup_insert_eq. }
  split; [done|]. split.
  { apply body_settle_chains in Hstep as (c0 & Hq & _ & _ & -> & _).
    rewrite Hp in Hq. injection Hq as <-. apply lookup_delete_eq. }
  split; [|done].
  cbn [step]. unfold enter, getFromCache. cbn [forceRefresh o_id correlationId].
  rewrite Hc. cbn [expiresAt entry]. rewrite bool_decide_false by lia. done.
Qed.

(** *** The table of bodies *)

Lemma body_BODIES_NoDup : NoDup (Bodies.id <$> Bodies.BODIES).
Proof. apply (bool_decide_unpack _). vm_compute. reflexivity. Qed.

(** X5. The lookup table [BODY_BY_ID] loses nothing of [BODIES]: the ids
    (and the Horizons ids) of the table are pairwise distinct, so an id is
    mapped to a configuration exactly when that configuration is the row
    of the table with this id, and the map has as many entries as the
    table has rows. *)
Theorem X_bodies_table (i : Bodies.BodyId) (cfg : Bodies.BodyConfig) :
  (Bodies.BODY_BY_ID !! i = Some cfg <-> cfg ∈ Bodies.BODIES /\ Bodies.id cfg = i)
  /\ (Bodies.BODY_BY_ID !! i = None <-> i ∉ Bodies.id <$> Bodies.BODIES)
  /\ size Bodies.BODY_BY_ID = length Bodies.BODIES
  /\ NoDup (Bodies.horizonsId <$> Bodies.BODIES).
Proof.
  split_and!.
  - apply (foldl_insert_lookup_NoDup Bodies.id), body_BODIES_NoDup.
  - unfold Bodies.BODY_BY_ID. rewrite (foldl_insert_lookup_None Bodies.id). split.
    + intros H Hin. apply list_elem_of_fmap in Hin as (x & -> & Hx). by apply (H x).
    + intros H x Hx Hi. apply H. apply list_elem_of_fmap. eauto.
  - vm_compute. reflexivity.
  - apply (bool_decide_unpack _). vm_compute. reflexivity.
Qed.

End BodyFacts.

(** * Properties of the snapshot cache *)
Section SnapshotFacts.
Import EphemerisCache SnapshotInvariants.
Variable TTL SWR PREWARM : Z.
Variable PLANETS : list Planets.PlanetConfig.
Variable client : bool.
Variable iso : Z -> string.

Local Abbreviation readCache := (readCache client).
Local Abbreviation enter := (enter TTL SWR client iso).
Local Abbreviation step := (step TTL SWR PREWARM PLANETS client iso).
Local Abbreviation run := (run TTL SWR PREWARM PLANETS client iso).
Local Abbreviation backend_now := (backend_now client).
Local Abbreviation decoratePayloadMetadata := (decoratePayloadMetadata TTL iso).
Local Abbreviation refresh_fetched := (refresh_fetched TTL SWR PLANETS client iso).
Local Abbreviation refresh_written := (refresh_written TTL client iso).
Local Abbreviation buildPlanetSnapshot := (buildPlanetSnapshot PLANETS iso).
Local Abbreviation resume_fulfilled := (resume_fulfilled TTL iso).
Local Abbreviation frozen_or_throw := (frozen_or_throw TTL client iso).
Local Abbreviation resume := (resume TTL client iso).
Local Abbreviation resume_all := (resume_all TTL client iso).
Local Abbreviation settle := (settle TTL client iso).
Local Abbreviation refresh_loop := (refresh_loop TTL SWR PLANETS client iso).
Local Abbreviation writeCache_issue := (writeCache_issue client).
Local Abbreviation read_through := (read_through client).
Local Abbreviation no_loop_ends := (no_loop_ends TTL SWR PREWARM PLANETS client iso).

(** *** What each segment does to the maps *)

Lemma snap_same_maps_refl st : same_maps st st.
Proof. by repeat split. Qed.

Lemma snap_same_maps_trans st1 st2 st3 :
  same_maps st1 st2 -> same_maps st2 st3 -> same_maps st1 st3.
Proof.
  intros (?&?&?&?&?&?) (?&?&?&?&?&?). repeat split; congruence.
Qed.

Lemma snap_same_maps_log l ev err st : same_maps st (log l ev err st).
Proof. by repeat split. Qed.

Lemma snap_same_maps_log_all ls st : same_maps st (log_all ls st).
Proof. by repeat split. Qed.

Lemma snap_same_maps_metric m st : same_maps st (record_metric m st).
Proof. by repeat split. Qed.

Lemma snap_fresh_loc_none (st : State) : heap st !! (fresh (dom (heap st)) : loc) = None.
Proof. apply not_elem_of_dom, is_fresh. Qed.

Lemma snap_fresh_promise_none (st : State) :
  promises st !! (fresh (dom (promises st)) : PromiseId) = None.
Proof. apply not_elem_of_dom, is_fresh. Qed.

(** [readCache]: either the store gave a text, which becomes a new object
    and the memory record of the mode, or the answer is the memory record
    and no map changes. *)
Lemma snap_readCache_cases reply mode st cached st' :
  readCache reply mode st = (cached, st') ->
  (exists text parsed,
      client = true /\ reply = Fulfilled (Some text)
      /\ parsed = {| payload := fresh (dom (heap st));
                     cachedAt := s_cachedAt text; expiresAt := s_expiresAt text;
                     staleUntil := s_staleUntil text |}
      /\ cached = Some parsed
      /\ heap st' = <[payload parsed := s_payload text]> (heap st)
      /\ memoryCache st' = <[mode := parsed]> (memoryCache st)
      /\ inflightByMode st' = inflightByMode st /\ store st' = store st
      /\ promises st' = promises st /\ upstream st' = upstream st)
  \/ (cached = memoryCache st !! mode /\ same_maps st st'
      /\ (client = false \/ reply = Fulfilled None \/ exists e, reply = Rejected e)).
Proof.
  unfold EphemerisCache.readCache, getRedisClient.
  destruct client; [destruct reply as [[text|]|e]|]; simpl; intros [= <- <-].
  - left. eexists _, _. split_and!; reflexivity.
  - right. split_and!; auto using snap_same_maps_refl.
  - right. split_and!; eauto using snap_same_maps_log.
  - right. split_and!; auto using snap_same_maps_refl.
Qed.

Lemma snap_readCache_result reply mode st cached st' :
  readCache reply mode st = (cached, st') -> memoryCache st' !! mode = cached.
Proof.
  intros H. apply snap_readCache_cases in H
    as [(text & parsed & _ & _ & _ & -> & _ & -> & _)|(-> & (_ & -> & _) & _)].
  - apply lookup_insert_eq.
  - done.
Qed.

Lemma snap_setInflight_refresh_frame reason cid mode st :
  let p := fresh (dom (promises st)) in
  let st' := (setInflight_refresh reason cid mode st).2 in
  (setInflight_refresh reason cid mode st).1 = p
  /\ promises st !! p = None
  /\ promises st' =
       <[p := Pending {| r_reason := reason; r_correlationId := cid; r_mode := mode |}
                      Reading]> (promises st)
  /\ inflightByMode st' = <[mode := p]> (inflightByMode st)
  /\ heap st' = heap st /\ memoryCache st' = memoryCache st
  /\ store st' = store st /\ upstream st' = upstream st.
Proof. simpl. split_and!; auto. apply snap_fresh_promise_none. Qed.


Lemma snap_join_or_refresh_cases o mode st out st' :
  join_or_refresh o mode st = (out, st') ->
  exists p, out = Await p
    /\ ((inflightByMode st !! mode = Some p /\ st' = st)
        \/ starts st st' mode (if forceRefresh o then "manual-refresh" else "miss")
             (correlationId o) p).
Proof.
  unfold join_or_refresh. destruct (inflightByMode st !! mode) as [q|] eqn:E.
  - intros [= <- <-]. exists q. split; [done|]. by left.
  - destruct (setInflight_refresh _ _ _ _) as [p st1] eqn:Es.
    intros [= <- <-]. exists p. split; [done|]. right.
    pose proof (snap_setInflight_refresh_frame
      (if forceRefresh o then "manual-refresh" else "miss") (correlationId o) mode st) as Hf.
    rewrite Es in Hf. simpl in Hf. destruct Hf as (-> & ? & ? & ? & ? & ? & ? & ?).
    by split_and!.
Qed.


(** *** The first segment of [getSnapshot] *)

Lemma snap_enter_forced o now t_dec reply st :
  forceRefresh o = true ->
  enter o now t_dec reply st = Some (join_or_refresh o (mode_of (includeObserver o)) st).
Proof. intros H. unfold EphemerisCache.enter. by rewrite H. Qed.

Lemma snap_enter_absent o now t_dec reply st st1 :
  forceRefresh o = false ->
  readCache reply (mode_of (includeObserver o)) st = (None, st1) ->
  enter o now t_dec reply st = Some (join_or_refresh o (mode_of (includeObserver o)) st1).
Proof. intros H Hr. unfold EphemerisCache.enter. by rewrite H, Hr. Qed.

Lemma snap_enter_fresh o now t_dec reply st c st1 snap :
  forceRefresh o = false ->
  readCache reply (mode_of (includeObserver o)) st = (Some c, st1) ->
  heap st1 !! payload c = Some snap ->
  now - cachedAt c < TTL ->
  enter o now t_dec reply st =
    Some (Return
            {| res_payload :=
                 decoratePayloadMetadata t_dec snap HIT backend_now
                   (now - cachedAt c) (correlationId o);
               cacheState := HIT; cacheBackend := backend_now;
               cacheAgeMs := now - cachedAt c |},
          record_metric (CacheHit backend_now "fresh" (now - cachedAt c)) st1).
Proof.
  intros H Hr Hh Hage. unfold EphemerisCache.enter. rewrite H, Hr.
  rewrite bool_decide_true by done. simpl. by rewrite Hh.
Qed.

Lemma snap_enter_stale o now t_dec reply st c st1 snap :
  forceRefresh o = false ->
  readCache reply (mode_of (includeObserver o)) st = (Some c, st1) ->
  heap st1 !! payload c = Some snap ->
  TTL <= now - cachedAt c < TTL + SWR ->
  let mode := mode_of (includeObserver o) in
  let st2 := record_metric (CacheHit backend_now "stale" (now - cachedAt c)) st1 in
  enter o now t_dec reply st =
    Some (Return
            {| res_payload :=
                 decoratePayloadMetadata t_dec snap STALE backend_now
                   (now - cachedAt c) (correlationId o);
               cacheState := STALE; cacheBackend := backend_now;
               cacheAgeMs := now - cachedAt c |},
          match inflightByMode st1 !! mode with
          | Some _ => st2
          | None => (setInflight_refresh "stale-revalidate" None mode st2).2
          end).
Proof.
  intros H Hr Hh Hage. unfold EphemerisCache.enter. rewrite H, Hr.
  rewrite bool_decide_false by lia. rewrite bool_decide_true by lia.
  cbn [negb andb orb].
  change (inflightByMode (record_metric ?m st1)) with (inflightByMode st1).
  destruct (inflightByMode st1 !! mode_of (includeObserver o)) eqn:E.
  - rewrite bool_decide_false by done.
    cbn [andb heap record_metric]. by rewrite Hh.
  - rewrite bool_decide_true by done.
    cbn [andb heap record_metric setInflight_refresh set_inflightByMode set_promise snd].
    by rewrite Hh.
Qed.

Lemma snap_enter_expired o now t_dec reply st c st1 :
  forceRefresh o = false ->
  readCache reply (mode_of (includeObserver o)) st = (Some c, st1) ->
  TTL + SWR <= now - cachedAt c ->
  TTL <= now - cachedAt c ->
  enter o now t_dec reply st = Some (join_or_refresh o (mode_of (includeObserver o)) st1).
Proof.
  intros H Hr Hage Hage'. unfold EphemerisCache.enter. rewrite H, Hr.
  rewrite !bool_decide_false by lia. reflexivity.
Qed.

(** What the first segment does to the maps, whatever it returns. *)
Lemma snap_enter_cases o now t_dec reply st out st' :
  enter o now t_dec reply st = Some (out, st') ->
  let mode := mode_of (includeObserver o) in
  exists cached st1,
    (if forceRefresh o then cached = None /\ st1 = st
     else readCache reply mode st = (cached, st1))
    /\ ((exists res, out = Return res /\ forceRefresh o = false
           /\ (same_maps st1 st'
               \/ exists p, starts st1 st' mode "stale-revalidate" None p))
        \/ (exists p, out = Await p
              /\ ((inflightByMode st1 !! mode = Some p /\ st' = st1)
                  \/ starts st1 st' mode
                       (if forceRefresh o then "manual-refresh" else "miss")
                       (correlationId o) p))).
Proof.
  intros He mode.
  destruct (forceRefresh o) eqn:Hf.
  - rewrite snap_enter_forced in He by done. injection He as He.
    exists None, st. split; [done|]. right.
    apply snap_join_or_refresh_cases in He as (p & -> & Hp). rewrite Hf in Hp. eauto.
  - destruct (readCache reply mode st) as [cached st1] eqn:Hr.
    exists cached, st1. split; [done|].
    destruct cached as [c|].
    + destruct (decide (now - cachedAt c < TTL)) as [Hfresh|Hnf].
      * destruct (heap st1 !! payload c) as [snap|] eqn:Hh.
        -- rewrite (snap_enter_fresh o now t_dec reply st c st1 snap) in He by done.
           injection He as <- <-. left. eexists. split_and!; [done..|].
           left. apply snap_same_maps_metric.
        -- unfold EphemerisCache.enter in He. rewrite Hf in He. fold mode in He.
           rewrite Hr in He. rewrite bool_decide_true in He by done.
           simpl in He. by rewrite Hh in He.
      * destruct (decide (now - cachedAt c < TTL + SWR)) as [Hstale|Hexp].
        -- destruct (heap st1 !! payload c) as [snap|] eqn:Hh.
           ++ rewrite (snap_enter_stale o now t_dec reply st c st1 snap) in He by (done || lia).
              injection He as <- <-. left. eexists. split_and!; [done..|].
              fold mode. destruct (inflightByMode st1 !! mode) eqn:Ei.
              ** left. apply snap_same_maps_metric.
              ** right. eexists.
                 pose proof (snap_setInflight_refresh_frame "stale-revalidate" None mode
                   (record_metric (CacheHit backend_now "stale" (now - cachedAt c)) st1)) as Hs.
                 destruct Hs as (_ & ? & ? & ? & ? & ? & ? & ?). by split_and!.
           ++ unfold EphemerisCache.enter in He. rewrite Hf in He. fold mode in He.
              rewrite Hr in He. rewrite bool_decide_false in He by done.
              rewrite bool_decide_true in He by done. cbn [negb andb orb] in He.
              destruct (bool_decide _) in He;
                cbn [heap record_metric setInflight_refresh set_inflightByMode
                       set_promise snd] in He;
                by rewrite Hh in He.
        -- rewrite (snap_enter_expired o now t_dec reply st c st1) in He by (done || lia).
           injection He as He. right.
           apply snap_join_or_refresh_cases in He as (p & -> & Hp). rewrite Hf in Hp. eauto.
    + rewrite (snap_enter_absent o now t_dec reply st st1) in He by done.
      injection He as He. right.
      apply snap_join_or_refresh_cases in He as (p & -> & Hp). rewrite Hf in Hp. eauto.
Qed.


(** *** The segments of [refreshSnapshot] *)

(** The only error [buildPlanetSnapshot] throws. *)
Lemma snap_buildPlanetSnapshot_error cached started t_done t_stamp results e ws :
  buildPlanetSnapshot cached started t_done t_stamp results = (Rejected e, ws) ->
  e = ErrorObj "No Horizons data available".
Proof.
  unfold EphemerisCache.buildPlanetSnapshot.
  destruct (a_bodies _); intros [= <- _]; done.
Qed.

Lemma snap_writeCache_issue_cases record backend mode st issued st' :
  writeCache_issue record backend mode st = Some (issued, st') ->
  st' = set_memoryCache (<[mode := record]> (memoryCache st)) st
  /\ ((client = true /\ backend = redis
       /\ exists snap, heap st !! payload record = Some snap
          /\ issued = Some ({| s_payload := json_snapshot snap;
                               s_cachedAt := cachedAt record;
                               s_expiresAt := expiresAt record;
                               s_staleUntil := staleUntil record |},
                            staleUntil record - cachedAt record))
      \/ ((client = false \/ backend = memory) /\ issued = None)).
Proof.
  unfold EphemerisCache.writeCache_issue, getRedisClient, serialize.
  destruct client, backend; simpl.
  - destruct (heap st !! payload record) as [snap|] eqn:E; [|done].
    intros [= <- <-]. split; [done|]. left. eauto.
  - intros [= <- <-]. split; [done|]. right. auto.
  - intros [= <- <-]. split; [done|]. right. auto.
  - intros [= <- <-]. split; [done|]. right. auto.
Qed.

(** The refresh failed as a whole: nothing but the call log, the metrics
    and the logger changed. *)
Lemma snap_refresh_fetched_rejected p r started cached results t_done t_stamp now st e st' :
  refresh_fetched p r started cached results t_done t_stamp now st = Some (Some e, st') ->
  e = ErrorObj "No Horizons data available"
  /\ heap st' = heap st /\ memoryCache st' = memoryCache st
  /\ inflightByMode st' = inflightByMode st /\ store st' = store st
  /\ promises st' = promises st.
Proof.
  unfold EphemerisCache.refresh_fetched.
  destruct (cached_snapshot cached st) as [cachedSnap|]; [|done].
  destruct (buildPlanetSnapshot cachedSnap started t_done t_stamp results)
    as [[snap|e'] warns] eqn:Eb.
  - destruct (EphemerisCache.writeCache_issue _ _ _ _ _) as [[issued st4]|]; [|done].
    intros [=].
  - intros [= <- <-]. apply snap_buildPlanetSnapshot_error in Eb. by split_and!.
Qed.

(** The refresh built a snapshot: a new object, a new record in the memory
    slot of the mode, and the refresh waits for [writeCache]. *)
Lemma snap_refresh_fetched_fulfilled p r started cached results t_done t_stamp now st st' :
  refresh_fetched p r started cached results t_done t_stamp now st = Some (None, st') ->
  exists cachedSnap snap warns record issued,
    cached_snapshot cached st = Some cachedSnap
    /\ buildPlanetSnapshot cachedSnap started t_done t_stamp results = (Fulfilled snap, warns)
    /\ record = {| payload := fresh (dom (heap st)); cachedAt := now;
                   expiresAt := now + TTL; staleUntil := now + TTL + SWR |}
    /\ heap st !! payload record = None
    /\ heap st' = <[payload record := snap]> (heap st)
    /\ memoryCache st' = <[r_mode r := record]> (memoryCache st)
    /\ inflightByMode st' = inflightByMode st /\ store st' = store st
    /\ promises st' = <[p := Pending r (Writing record issued)]> (promises st)
    /\ issued =
         (if client
          then Some ({| s_payload := json_snapshot snap;
                        s_cachedAt := cachedAt record;
                        s_expiresAt := expiresAt record;
                        s_staleUntil := staleUntil record |},
                     staleUntil record - cachedAt record)
          else None).
Proof.
  unfold EphemerisCache.refresh_fetched.
  destruct (cached_snapshot cached st) as [cachedSnap|]; [|done].
  destruct (buildPlanetSnapshot cachedSnap started t_done t_stamp results)
    as [[snap|e'] warns] eqn:Eb; [|intros [=]].
  destruct (EphemerisCache.writeCache_issue _ _ _ _ _) as [[issued st4]|] eqn:Ew; [|done].
  intros [= <-].
  apply snap_writeCache_issue_cases in Ew as [-> Hiss].
  exists cachedSnap, snap, warns. eexists _, issued.
  split_and!; try reflexivity.
  - exact Eb.
  - apply (snap_fresh_loc_none st).
  - destruct Hiss as [(Hc & _ & snap' & Hs & ->)|([Hc|Hb] & ->)].
    + rewrite Hc. simpl in Hs. rewrite lookup_insert_eq in Hs. by injection Hs as <-.
    + by rewrite Hc.
    + unfold EphemerisCache.backend_now, getRedisClient in Hb. by destruct client.
Qed.

(** After [writeCache]: the store gets the text when a write was issued
    and went through, and the metadata of the cached object is replaced. *)
Lemma snap_refresh_written_cases r record issued reach t st result st' :
  refresh_written r record issued reach t st = Some (result, st') ->
  exists snap,
    heap st !! payload record = Some snap
    /\ result = {| res_payload := payload record; cacheState := MISS;
                   cacheBackend := backend_now; cacheAgeMs := 0 |}
    /\ heap st' =
         <[payload record :=
             with_metadata snap
               (miss_metadata TTL iso (metadata snap) backend_now (cachedAt record)
                  (r_correlationId r))]> (heap st)
    /\ memoryCache st' = memoryCache st
    /\ inflightByMode st' = inflightByMode st
    /\ promises st' = promises st
    /\ store st' =
         match issued, reach with
         | Some (text, px), None =>
             store_set (store st) (CACHE_KEY_BY_MODE (r_mode r)) text px t
         | _, _ => store st
         end.
Proof.
  unfold EphemerisCache.refresh_written.
  set (st1 := writeCache_done (r_mode r) issued reach t st).
  assert (H1 : heap st1 = heap st /\ memoryCache st1 = memoryCache st
               /\ inflightByMode st1 = inflightByMode st /\ promises st1 = promises st
               /\ store st1 = match issued, reach with
                              | Some (text, px), None =>
                                  store_set (store st) (CACHE_KEY_BY_MODE (r_mode r)) text px t
                              | _, _ => store st
                              end).
  { unfold st1, writeCache_done. destruct issued as [[text px]|], reach; simpl; auto. }
  clearbody st1. destruct H1 as (Hh & Hm & Hi & Hp & Hs).
  destruct (heap st1 !! payload record) as [snap|] eqn:E; [|done].
  intros [= <- <-]. exists snap. simpl. rewrite <- Hh.
  split_and!; auto.
Qed.

(** The loop of a refresh at the top of a turn: the next fetch is called,
    or the refresh goes on to build its snapshot. *)
Lemma snap_refresh_loop_cases p r started cached collected t_done t_stamp now t_dec s st s' :
  refresh_loop p r started cached collected t_done t_stamp now t_dec s st = Some s' ->
  (exists cfg,
     PLANETS !! length collected = Some cfg
     /\ s' = {| state :=
                  set_promise p (Pending r (Fetching started cached collected))
                    (call_upstream
                       [planet_call
                          match r_mode r with full => true | state_vectors => false end
                          cfg] st);
                waiting := waiting s; results := results s; ncalls := ncalls s |})
  \/ (PLANETS !! length collected = None
      /\ ((exists e st',
             refresh_fetched p r started cached collected t_done t_stamp now st
               = Some (Some e, st')
             /\ settle t_dec p r (Rejected e) s st' = Some s')
          \/ (exists st',
                refresh_fetched p r started cached collected t_done t_stamp now st
                  = Some (None, st')
                /\ s' = {| state := st'; waiting := waiting s; results := results s;
                           ncalls := ncalls s |}))).
Proof.
  unfold EphemerisCache.refresh_loop.
  destruct (PLANETS !! length collected) as [cfg|] eqn:E.
  - intros [= <-]. left. eauto.
  - destruct (refresh_fetched p r started cached collected t_done t_stamp now st)
      as [[[e|] st']|]; [| |done].
    + intros H. right. split; [done|]. left. eauto.
    + intros [= <-]. right. split; [done|]. right. eauto.
Qed.

(** Without an outcome there is no body, and the refresh fails. *)
Lemma snap_refresh_fetched_nil p r started cached t_done t_stamp now st x st' :
  refresh_fetched p r started cached [] t_done t_stamp now st = Some (x, st') ->
  x = Some (ErrorObj "No Horizons data available").
Proof.
  unfold EphemerisCache.refresh_fetched.
  destruct (cached_snapshot cached st) as [cachedSnap|]; [|done].
  unfold EphemerisCache.buildPlanetSnapshot. rewrite zip_with_nil_r. cbn.
  by intros [= <- _].
Qed.

Lemma snap_step_read p reach t_store t_started t_done t_stamp now t_dec s s' :
  step (EvRead p reach t_store t_started t_done t_stamp now t_dec) s = Some s' ->
  exists r cached st1,
    promises (state s) !! p = Some (Pending r Reading)
    /\ readCache (get_reply reach t_store (r_mode r) (state s)) (r_mode r) (state s)
         = (cached, st1)
    /\ refresh_loop p r t_started cached [] t_done t_stamp now t_dec s st1 = Some s'.
Proof.
  cbn [EphemerisCache.step].
  destruct (promises (state s) !! p) as [[r [| |]|]|]; try done.
  destruct (readCache _ _ _) as [cached st1] eqn:E. eauto 10.
Qed.

Lemma snap_step_fetched p outcome t_done t_stamp now t_dec s s' :
  step (EvFetched p outcome t_done t_stamp now t_dec) s = Some s' ->
  exists r started cached collected,
    promises (state s) !! p = Some (Pending r (Fetching started cached collected))
    /\ refresh_loop p r started cached (collected ++ [outcome]) t_done t_stamp now t_dec
         s (state s) = Some s'.
Proof.
  cbn [EphemerisCache.step].
  destruct (promises (state s) !! p) as [[r [|started cached collected|]|]|]; try done.
  eauto 10.
Qed.

(** *** Continuations *)

Lemma snap_resume_fulfilled_ext o t result st st' :
  heap st' = heap st ->
  resume_fulfilled o t result st' = resume_fulfilled o t result st.
Proof. intros H. unfold EphemerisCache.resume_fulfilled. by rewrite H. Qed.

Lemma snap_frozen_or_throw_frame o now t err cached st out st' :
  frozen_or_throw o now t err cached st = Some (out, st') -> same_maps st st'.
Proof.
  unfold EphemerisCache.frozen_or_throw. destruct cached as [c|].
  - destruct (heap st !! payload c); [|done]. intros [= <- <-]. apply snap_same_maps_log.
  - intros [= <- <-]. apply snap_same_maps_log.
Qed.

Lemma snap_resume_cases t w res st x st' :
  resume t w res st = Some (x, st') ->
  same_maps st st'
  /\ match res with
     | Fulfilled result =>
         st' = st /\ exists out, resume_fulfilled (c_options w) t result st = Some out
                                 /\ x = inr (Fulfilled out)
     | Rejected err =>
         match memoryCache st !! mode_of (includeObserver (c_options w)) with
         | Some c =>
             exists out, frozen_or_throw (c_options w) (c_now w) t err (Some c) st
                           = Some (out, st') /\ x = inr out
         | None =>
             st' = st
             /\ x = inl {| c_call := c_call w; c_options := c_options w;
                           c_now := c_now w; c_wait := AwaitReadCache err |}
         end
     end.
Proof.
  unfold EphemerisCache.resume. destruct res as [result|err].
  - destruct (resume_fulfilled _ _ _ _) as [out|]; [|done].
    intros [= <- <-]. split; [apply snap_same_maps_refl|]. eauto.
  - destruct (memoryCache st !! _) as [c|].
    + destruct (frozen_or_throw _ _ _ _ _ _) as [[out st1]|] eqn:E; [|done].
      intros [= <- <-]. split; [by eapply snap_frozen_or_throw_frame|]. eauto.
    + intros [= <- <-]. split; [apply snap_same_maps_refl|]. done.
Qed.


(** What becomes of the calls in [ws] when promise [p] settles with [res]:
    those awaiting [p] get a result, or move on to the [readCache] of their
    [catch] block; the others stay as they are. *)
Lemma snap_resume_all_spec t p res ws : forall st out ws' st' out',
  resume_all t p res ws st out = Some (ws', st', out') ->
  same_maps st st'
  /\ (forall n, (forall w, w ∈ ws -> c_wait w = AwaitInflight p -> c_call w <> n) ->
        out' !! n = out !! n)
  /\ (forall w', w' ∈ ws' ->
        exists w, w ∈ ws /\ c_call w' = c_call w
          /\ ((w' = w /\ c_wait w <> AwaitInflight p)
              \/ (exists err, c_wait w' = AwaitReadCache err)))
  /\ (c_call <$> ws') `sublist_of` (c_call <$> ws)
  /\ (forall w, w ∈ ws -> c_wait w <> AwaitInflight p -> w ∈ ws')
  /\ ((forall w, w ∈ ws -> out !! c_call w = None) -> NoDup (c_call <$> ws) ->
        forall w', w' ∈ ws' -> out' !! c_call w' = None)
  /\ (forall result, res = Fulfilled result -> NoDup (c_call <$> ws) ->
        forall w, w ∈ ws -> c_wait w = AwaitInflight p ->
          exists r, resume_fulfilled (c_options w) t result st = Some r
                    /\ out' !! c_call w = Some (Fulfilled r)).
Proof.
  induction ws as [|w ws IH]; intros st out ws' st' out'; simpl.
  { intros [= <- <- <-].
    split_and!;
      [apply snap_same_maps_refl | done
      | intros w Hw; by apply elem_of_nil in Hw
      | constructor
      | intros w Hw; by apply elem_of_nil in Hw
      | intros _ _ w Hw; by apply elem_of_nil in Hw
      | intros result _ _ w Hw; by apply elem_of_nil in Hw]. }
  assert (Hkeep : forall rest st1 out1,
    c_wait w <> AwaitInflight p ->
    resume_all t p res ws st out = Some (rest, st1, out1) ->
    (w :: rest, st1, out1) = (ws', st', out') ->
    same_maps st st'
    /\ (forall n, (forall w0, w0 ∈ w :: ws -> c_wait w0 = AwaitInflight p -> c_call w0 <> n) ->
          out' !! n = out !! n)
    /\ (forall w', w' ∈ ws' ->
          exists w0, w0 ∈ w :: ws /\ c_call w' = c_call w0
            /\ ((w' = w0 /\ c_wait w0 <> AwaitInflight p)
                \/ (exists err, c_wait w' = AwaitReadCache err)))
    /\ (c_call <$> ws') `sublist_of` (c_call <$> w :: ws)
    /\ (forall w0, w0 ∈ w :: ws -> c_wait w0 <> AwaitInflight p -> w0 ∈ ws')
    /\ ((forall w0, w0 ∈ w :: ws -> out !! c_call w0 = None) -> NoDup (c_call <$> w :: ws) ->
          forall w', w' ∈ ws' -> out' !! c_call w' = None)
    /\ (forall result, res = Fulfilled result -> NoDup (c_call <$> w :: ws) ->
          forall w0, w0 ∈ w :: ws -> c_wait w0 = AwaitInflight p ->
            exists r, resume_fulfilled (c_options w0) t result st = Some r
                      /\ out' !! c_call w0 = Some (Fulfilled r))).
  { intros rest st1 out1 Hne Hrec [= <- <- <-].
    apply IH in Hrec as (Hsame & Hfr & Hfrom & Hsub & Hstay & Hnone & Hful).
    split_and!; auto.
    - intros n Hn. apply Hfr. intros w0 Hw0. apply Hn. by right.
    - intros w' Hw'. apply elem_of_cons in Hw' as [->|Hw'].
      + exists w. split_and!; [by left|done|by left].
      + destruct (Hfrom w' Hw') as (w0 & Hw0 & Hc & Hor).
        exists w0. split_and!; [by right|done|done].
    - rewrite ?fmap_cons. by apply sublist_skip.
    - intros w0 Hw0 Hn0. apply elem_of_cons in Hw0 as [->|Hw0]; [by left|].
      right. by apply Hstay.
    - intros Hout Hnd w' Hw'. rewrite ?fmap_cons in Hnd.
      apply NoDup_cons in Hnd as [Hnin Hnd].
      apply elem_of_cons in Hw' as [->|Hw'].
      + rewrite Hfr; [apply Hout; by left|].
        intros w0 Hw0 _ Heq. apply Hnin. rewrite <- Heq. by apply list_elem_of_fmap_2.
      + apply Hnone; [|done|done]. intros w0 Hw0. apply Hout. by right.
    - intros result Hres Hnd w0 Hw0 Ha. rewrite ?fmap_cons in Hnd.
      apply NoDup_cons in Hnd as [Hnin Hnd].
      apply elem_of_cons in Hw0 as [->|Hw0]; [done|]. by eapply Hful. }
  destruct (c_wait w) as [q|err0] eqn:Hw.
  2:{ destruct (resume_all t p res ws st out) as [[[rest st1] out1]|] eqn:Er; [|done].
      intros [= Heq1 Heq2 Heq3]. eapply Hkeep; [done|reflexivity|congruence]. }
  case_bool_decide as Hq.
  2:{ destruct (resume_all t p res ws st out) as [[[rest st1] out1]|] eqn:Er; [|done].
      intros [= Heq1 Heq2 Heq3]. eapply Hkeep; [congruence|reflexivity|congruence]. }
  subst q. clear Hkeep.
  destruct (resume t w res st) as [[[w1|r1] st1]|] eqn:Ers; [| |done].
  - (* the call goes on to the readCache of its catch block *)
    destruct (resume_all t p res ws st1 out) as [[[rest st2] out2]|] eqn:Er; [|done].
    intros [= <- <- <-].
    apply snap_resume_cases in Ers as [Hs1 Hres1].
    apply IH in Er as (Hsame & Hfr & Hfrom & Hsub & Hstay & Hnone & Hful).
    assert (Hw1 : c_call w1 = c_call w /\ exists err, c_wait w1 = AwaitReadCache err).
    { destruct res as [result|err].
      - destruct Hres1 as (_ & out0 & _ & [=]).
      - destruct (memoryCache st !! _).
        + destruct Hres1 as (out0 & _ & [=]).
        + destruct Hres1 as (_ & [= ->]). simpl. eauto. }
    destruct Hw1 as [Hc1 Herr1].
    split_and!.
    + by eapply snap_same_maps_trans.
    + intros n Hn. apply Hfr. intros w0 Hw0. apply Hn. by right.
    + intros w' Hw'. apply elem_of_cons in Hw' as [->|Hw'].
      * exists w. split_and!; [by left|done|by right].
      * destruct (Hfrom w' Hw') as (w0 & Hw0 & Hc & Hor).
        exists w0. split_and!; [by right|done|done].
    + rewrite ?fmap_cons, ?Hc1; simpl; rewrite ?Hc1. by apply sublist_skip.
    + intros w0 Hw0 Hn0. apply elem_of_cons in Hw0 as [->|Hw0]; [congruence|].
      right. by apply Hstay.
    + intros Hout Hnd w' Hw'. rewrite ?fmap_cons in Hnd.
      apply NoDup_cons in Hnd as [Hnin Hnd].
      apply elem_of_cons in Hw' as [->|Hw'].
      * rewrite Hc1, Hfr; [apply Hout; by left|].
        intros w0 Hw0 _ Heq. apply Hnin. rewrite <- Heq. by apply list_elem_of_fmap_2.
      * apply Hnone; [|done|done]. intros w0 Hw0. apply Hout. by right.
    + intros result -> Hnd w0 Hw0 Ha. destruct Hres1 as (_ & out0 & _ & [=]).
  - (* the call returns *)
    intros Er. apply snap_resume_cases in Ers as [Hs1 Hres1].
    apply IH in Er as (Hsame & Hfr & Hfrom & Hsub & Hstay & Hnone & Hful).
    split_and!.
    + by eapply snap_same_maps_trans.
    + intros n Hn. rewrite Hfr.
      * rewrite lookup_insert_ne; [done|]. apply Hn; [by left|done].
      * intros w0 Hw0. apply Hn. by right.
    + intros w' Hw'. destruct (Hfrom w' Hw') as (w0 & Hw0 & Hc & Hor).
      exists w0. split_and!; [by right|done|done].
    + rewrite ?fmap_cons. by apply sublist_cons.
    + intros w0 Hw0 Hn0. apply elem_of_cons in Hw0 as [->|Hw0]; [congruence|].
      by apply Hstay.
    + intros Hout Hnd w' Hw'. rewrite ?fmap_cons in Hnd.
      apply NoDup_cons in Hnd as [Hnin Hnd].
      apply Hnone; [|done|done]. intros w0 Hw0.
      rewrite lookup_insert_ne; [apply Hout; by right|].
      intros Heq. apply Hnin. rewrite Heq. by apply list_elem_of_fmap_2.
    + intros result -> Hnd w0 Hw0 Ha. rewrite ?fmap_cons in Hnd.
      apply NoDup_cons in Hnd as [Hnin Hnd].
      destruct Hres1 as (-> & out0 & Hout0 & [= ->]).
      apply elem_of_cons in Hw0 as [->|Hw0].
      * exists out0. split; [done|]. rewrite Hfr; [apply lookup_insert_eq|].
        intros w0 Hw0 _ Heq. apply Hnin. rewrite <- Heq. by apply list_elem_of_fmap_2.
      * by eapply Hful.
Qed.


(** *** At most one refresh in flight per mode *)

Lemma snap_registered_ext st st' :
  inflightByMode st' = inflightByMode st -> promises st' = promises st ->
  registered st -> registered st'.
Proof.
  intros Hi Hp [H1 H2]. split; unfold in_flight in *; rewrite ?Hi, ?Hp; auto.
Qed.

Lemma snap_registered_same_maps st st' :
  same_maps st st' -> registered st -> registered st'.
Proof. intros (_ & _ & Hi & _ & Hp & _). by apply snap_registered_ext. Qed.

Lemma snap_registered_unique st m p q :
  registered st -> in_flight st m p -> in_flight st m q -> p = q.
Proof.
  intros [_ H] (r & ph & Hr & <-) (r' & ph' & Hr' & Hm).
  apply H in Hr. apply H in Hr'. rewrite Hm in Hr'. congruence.
Qed.

Lemma snap_registered_starts st st' mode reason cid p :
  registered st -> starts st st' mode reason cid p -> registered st'.
Proof.
  intros [H1 H2] (Hnone & Hp & Hpr & Hi & _). split; unfold in_flight; rewrite Hpr, Hi.
  - intros m q. destruct (decide (mode = m)) as [<-|Hne].
    + rewrite lookup_insert_eq. intros [= <-]. eexists _, _.
      rewrite lookup_insert_eq. done.
    + rewrite lookup_insert_ne by done. intros Hq.
      destruct (H1 m q Hq) as (r & ph & Hr & Hm). exists r, ph.
      rewrite lookup_insert_ne; [done|congruence].
  - intros q r ph. destruct (decide (p = q)) as [<-|Hne].
    + rewrite lookup_insert_eq. intros [= <- <-]. apply lookup_insert_eq.
    + rewrite lookup_insert_ne by done. intros Hr.
      pose proof (H2 q r ph Hr) as Hq.
      rewrite lookup_insert_ne; [done|congruence].
Qed.

Lemma snap_registered_phase st st' p r ph ph' :
  registered st -> promises st !! p = Some (Pending r ph) ->
  promises st' = <[p := Pending r ph']> (promises st) ->
  inflightByMode st' = inflightByMode st -> registered st'.
Proof.
  intros [H1 H2] Hp Hpr Hi. split; unfold in_flight; rewrite Hpr, Hi.
  - intros m q Hq. destruct (H1 m q Hq) as (r0 & ph0 & Hr & Hm).
    destruct (decide (p = q)) as [<-|Hne].
    + exists r, ph'. rewrite lookup_insert_eq. split; [done|congruence].
    + exists r0, ph0. by rewrite lookup_insert_ne.
  - intros q r0 ph0. destruct (decide (p = q)) as [<-|Hne].
    + rewrite lookup_insert_eq. intros [= <- <-]. by eapply H2.
    + rewrite lookup_insert_ne by done. apply H2.
Qed.

Lemma snap_clear_inflight_registered st0 st p r ph res :
  registered st0 -> promises st0 !! p = Some (Pending r ph) ->
  promises st = promises st0 -> inflightByMode st = inflightByMode st0 ->
  let st1 := clear_inflight (r_mode r) p (set_promise p (Done res) st) in
  promises st1 = <[p := Done res]> (promises st0)
  /\ inflightByMode st1 = delete (r_mode r) (inflightByMode st0)
  /\ heap st1 = heap st /\ memoryCache st1 = memoryCache st /\ store st1 = store st
  /\ registered st1.
Proof.
  intros Hreg Hp Hpr Hi. pose proof (reg_pending _ Hreg p r ph Hp) as Hin.
  unfold clear_inflight. simpl. rewrite Hi, Hin, bool_decide_true by done. simpl.
  rewrite Hpr. split_and!; auto.
  destruct Hreg as [H1 H2]. split; unfold in_flight; simpl; rewrite Hpr.
  - intros m q Hq. apply lookup_delete_Some in Hq as [Hne Hq]. rewrite ?Hi in Hq.
    destruct (H1 m q Hq) as (r0 & ph0 & Hr & Hm). exists r0, ph0. split; [|done].
    rewrite lookup_insert_ne; [done|]. intros <-. congruence.
  - intros q r0 ph0. destruct (decide (p = q)) as [<-|Hne].
    + by rewrite lookup_insert_eq.
    + rewrite lookup_insert_ne by done. intros Hr.
      pose proof (H2 q r0 ph0 Hr) as Hq.
      rewrite lookup_delete_ne; [by rewrite ?Hi|]. intros Heq.
      rewrite Heq in Hin. congruence.
Qed.

Lemma snap_consistent_boot : consistent boot.
Proof.
  split; simpl.
  - split; simpl; intros *; by rewrite lookup_empty.
  - intros w Hw. by apply elem_of_nil in Hw.
  - constructor.
  - intros n r. by rewrite lookup_empty.
Qed.

Lemma snap_consistent_fresh_call s :
  consistent s ->
  results s !! ncalls s = None /\ ncalls s ∉ (c_call <$> waiting s).
Proof.
  intros H. split.
  - destruct (results s !! ncalls s) eqn:E; [|done].
    apply (con_results _ H) in E. lia.
  - intros Hin. apply list_elem_of_fmap in Hin as (w & Hw & Hin).
    apply (con_waiting _ H) in Hin as (Hlt & _). lia.
Qed.

(** A refresh settles. *)
Lemma snap_consistent_settle t p r ph res s st s' :
  consistent s -> promises (state s) !! p = Some (Pending r ph) ->
  promises st = promises (state s) ->
  inflightByMode st = inflightByMode (state s) ->
  settle t p r res s st = Some s' ->
  consistent s'.
Proof.
  intros Hcon Hp Hpr Hi. unfold EphemerisCache.settle.
  destruct (snap_clear_inflight_registered (state s) st p r ph res (con_registered _ Hcon)
              Hp Hpr Hi) as (Hp1 & Hi1 & _ & _ & _ & Hreg1).
  set (st1 := clear_inflight (r_mode r) p (set_promise p (Done res) st)) in *.
  clearbody st1.
  destruct (resume_all t p res (waiting s) st1 (results s)) as [[[ws st2] out]|] eqn:Er;
    [|done].
  intros [= <-].
  apply snap_resume_all_spec in Er as (Hsame & Hfr & Hfrom & Hsub & Hstay & Hnone & Hful).
  split; simpl.
  - by eapply snap_registered_same_maps.
  - intros w' Hw'. destruct (Hfrom w' Hw') as (w & Hw & Hc & Hor).
    destruct (con_waiting _ Hcon w Hw) as (Hlt & Hr & Hpend).
    split_and!.
    + by rewrite Hc.
    + apply Hnone; [|apply Hcon|done]. intros w0 Hw0. by apply (con_waiting _ Hcon).
    + intros q Hq. destruct Hor as [[-> Hne]|[err Herr]]; [|congruence].
      destruct (Hpend q Hq) as (r0 & ph0 & Hr0). exists r0, ph0.
      destruct Hsame as (_ & _ & _ & _ & -> & _). rewrite Hp1.
      rewrite lookup_insert_ne; [done|congruence].
  - eapply sublist_NoDup; [apply Hcon|done].
  - intros n r0 Hn.
    destruct (decide (Exists (fun w => c_wait w = AwaitInflight p /\ c_call w = n)
                        (waiting s))) as [Hex|Hno].
    + apply Exists_exists in Hex as (w & Hw & _ & <-).
      by apply (con_waiting _ Hcon w Hw).
    + rewrite Hfr in Hn; [by apply (con_results _ Hcon) in Hn|].
      intros w Hw Haw Heq. apply Hno, Exists_exists. eauto.
Qed.


Lemma snap_readCache_maps reply mode st cached st' :
  readCache reply mode st = (cached, st') ->
  promises st' = promises st /\ inflightByMode st' = inflightByMode st
  /\ store st' = store st.
Proof.
  intros H. apply snap_readCache_cases in H
    as [(text & parsed & _ & _ & _ & _ & _ & _ & ? & ? & ? & _)
       |(_ & (_ & _ & ? & ? & ? & _) & _)]; auto.
Qed.

Lemma snap_remove_caller_spec n ws : forall w rest,
  remove_caller n ws = Some (w, rest) ->
  c_call w = n /\ w ∈ ws
  /\ (forall w', w' ∈ rest -> w' ∈ ws)
  /\ (forall w', w' ∈ ws -> c_call w' <> n -> w' ∈ rest)
  /\ (c_call <$> rest) `sublist_of` (c_call <$> ws)
  /\ (NoDup (c_call <$> ws) -> n ∉ (c_call <$> rest)).
Proof.
  induction ws as [|x ws IH]; intros w rest; simpl; [done|].
  case_bool_decide as Hx.
  - intros [= <- <-]. split_and!; auto.
    + by left.
    + intros w' Hw'. by right.
    + intros w' Hw' Hne. apply elem_of_cons in Hw' as [->|Hw']; [congruence|done].
    + by apply sublist_cons.
    + intros Hnd. apply NoDup_cons in Hnd as [Hnin _]. by rewrite <- Hx.
  - destruct (remove_caller n ws) as [[y rest']|] eqn:E; [|done].
    intros [= <- <-]. destruct (IH y rest' eq_refl) as (Hc & Hin & Hsub & Hstay & Hsl & Hnd).
    split_and!; auto.
    + by right.
    + intros w' Hw'. apply elem_of_cons in Hw' as [->|Hw']; [by left|right; auto].
    + intros w' Hw' Hne. apply elem_of_cons in Hw' as [->|Hw']; [by left|right; auto].
    + rewrite !fmap_cons. by apply sublist_skip.
    + intros Hnd'. rewrite fmap_cons. apply NoDup_cons in Hnd' as [_ Hnd'].
      apply not_elem_of_cons. split; [congruence|auto].
Qed.


Lemma snap_pending_kept_eq st st' : promises st' = promises st -> pending_kept st st'.
Proof. intros H q r ph Hq. rewrite H. eauto. Qed.

Lemma snap_pending_kept_starts st st' mode reason cid p :
  starts st st' mode reason cid p -> pending_kept st st'.
Proof.
  intros (_ & Hp & Hpr & _) q r ph Hq. rewrite Hpr. exists r, ph.
  rewrite lookup_insert_ne; [done|congruence].
Qed.

Lemma snap_pending_kept_phase st st' p r ph :
  promises st' = <[p := Pending r ph]> (promises st) -> pending_kept st st'.
Proof.
  intros Hpr q r0 ph0 Hq. rewrite Hpr. destruct (decide (p = q)) as [<-|Hne].
  - rewrite lookup_insert_eq. eauto.
  - rewrite lookup_insert_ne by done. eauto.
Qed.

(** A step that settles nothing and leaves calls and results alone. *)
Lemma snap_consistent_quiet s st' :
  consistent s -> registered st' -> pending_kept (state s) st' ->
  consistent {| state := st'; waiting := waiting s; results := results s;
                ncalls := ncalls s |}.
Proof.
  intros Hcon Hreg Hkept. split; simpl; [done| |apply Hcon|apply Hcon].
  intros w Hw. destruct (con_waiting _ Hcon w Hw) as (Hlt & Hr & Hpend).
  split_and!; [done|done|]. intros q Hq.
  destruct (Hpend q Hq) as (r & ph & Hp). by eapply Hkept.
Qed.

Lemma snap_consistent_call s o now t_dec reach t_store s' :
  consistent s -> step (EvCall o now t_dec reach t_store) s = Some s' -> consistent s'.
Proof.
  intros Hcon. pose proof (snap_consistent_fresh_call s Hcon) as [Hres Hnin].
  cbn [EphemerisCache.step].
  set (reply := get_reply _ _ _ _).
  destruct (enter o now t_dec reply (state s)) as [[out st']|] eqn:E; [|done].
  apply snap_enter_cases in E as (cached & st1 & Hread & Hout).
  assert (H1 : promises st1 = promises (state s)
               /\ inflightByMode st1 = inflightByMode (state s)).
  { destruct (forceRefresh o).
    - by destruct Hread as [_ ->].
    - apply snap_readCache_maps in Hread as (? & ? & _). done. }
  destruct H1 as [Hp1 Hi1].
  assert (Hreg1 : registered st1) by (eapply snap_registered_ext; [done..|apply Hcon]).
  assert (Hk1 : pending_kept (state s) st1) by by apply snap_pending_kept_eq.
  assert (Hgen : registered st' /\ pending_kept (state s) st'
                 /\ forall p, out = Await p ->
                      exists r ph, promises st' !! p = Some (Pending r ph)).
  { destruct Hout as [(res & -> & _ & [Hsame|(p & Hst)])
                     |(p & -> & [[Hin ->]|Hst])].
    - split_and!; [by eapply snap_registered_same_maps| |done].
      destruct Hsame as (_ & _ & _ & _ & Hp & _).
      apply snap_pending_kept_eq. congruence.
    - split_and!; [by eapply snap_registered_starts| |done].
      intros q r ph Hq. eapply snap_pending_kept_starts; [done|]. rewrite Hp1. done.
    - split_and!; [done|done|]. intros q [= <-].
      destruct (reg_inflight _ Hreg1 _ _ Hin) as (r & ph & Hr & _). eauto.
    - split_and!; [by eapply snap_registered_starts| |].
      + intros q r ph Hq. eapply snap_pending_kept_starts; [done|]. rewrite Hp1. done.
      + intros q [= <-]. destruct Hst as (_ & _ & -> & _).
        eexists _, _. apply lookup_insert_eq. }
  destruct Hgen as (Hreg' & Hkept & Hawait).
  destruct out as [res|p]; intros [= <-].
  - split; simpl.
    + done.
    + intros w Hw. destruct (con_waiting _ Hcon w Hw) as (Hlt & Hr & Hpend).
      split_and!; [lia| |].
      * rewrite lookup_insert_ne; [done|lia].
      * intros q Hq. destruct (Hpend q Hq) as (r & ph & Hp). by eapply Hkept.
    + apply Hcon.
    + intros n r. destruct (decide (ncalls s = n)) as [<-|Hne].
      * intros _. lia.
      * rewrite lookup_insert_ne by done. intros Hn.
        apply (con_results _ Hcon) in Hn. lia.
  - split; simpl.
    + done.
    + intros w Hw. apply elem_of_app in Hw as [Hw|Hw].
      * destruct (con_waiting _ Hcon w Hw) as (Hlt & Hr & Hpend).
        split_and!; [lia|done|].
        intros q Hq. destruct (Hpend q Hq) as (r & ph & Hp'). by eapply Hkept.
      * apply list_elem_of_singleton in Hw as ->. simpl.
        split_and!; [lia|done|]. intros q [= <-]. by apply Hawait.
    + rewrite fmap_app. apply NoDup_app. split_and!.
      * apply Hcon.
      * intros n Hn Hn'. apply list_elem_of_singleton in Hn' as ->. done.
      * apply NoDup_singleton.
    + intros n r Hn. apply (con_results _ Hcon) in Hn. lia.
Qed.

(** The loop of a refresh goes on, from a state [st] with the promises
    and the in-flight slots of [s]. *)
Lemma snap_consistent_loop p r ph started cached collected t_done t_stamp now t_dec s st s' :
  consistent s -> promises (state s) !! p = Some (Pending r ph) ->
  promises st = promises (state s) ->
  inflightByMode st = inflightByMode (state s) ->
  refresh_loop p r started cached collected t_done t_stamp now t_dec s st = Some s' ->
  consistent s'.
Proof.
  intros Hcon Hp Hpr Hi Hl.
  apply snap_refresh_loop_cases in Hl
    as [(cfg & _ & ->)|(_ & [(e & st' & Ef & Hs)|(st' & Ef & ->)])].
  - apply snap_consistent_quiet; [done| |].
    + eapply snap_registered_phase; [apply Hcon|exact Hp| |]; simpl.
      * by rewrite Hpr.
      * exact Hi.
    + eapply snap_pending_kept_phase. simpl. by rewrite Hpr.
  - apply snap_refresh_fetched_rejected in Ef as (_ & _ & _ & Hi' & _ & Hpr').
    eapply snap_consistent_settle in Hs; [exact Hs|done|exact Hp|congruence|congruence].
  - apply snap_refresh_fetched_fulfilled in Ef
      as (cs & snap & warns & record & issued & _ & _ & _ & _ & _ & _ & Hi' & _ & Hpr' & _).
    apply snap_consistent_quiet; [done| |].
    + eapply snap_registered_phase; [apply Hcon|exact Hp| |].
      * by rewrite Hpr', Hpr.
      * congruence.
    + eapply snap_pending_kept_phase. by rewrite Hpr', Hpr.
Qed.

Lemma snap_consistent_step s e s' :
  consistent s -> step e s = Some s' -> consistent s'.
Proof.
  intros Hcon. destruct e as [o now t_dec reach t_store
    |p reach t_store t_started t_done t_stamp now t_dec
    |p outcome t_done t_stamp now t_dec|p reach t_store t_dec|n reach t_store t_dec| |sto].
  - by apply snap_consistent_call.
  - (* the readCache of a refresh completes *)
    intros Hstep. apply snap_step_read in Hstep as (r & cached & st1 & Hp & Hread & Hl).
    apply snap_readCache_maps in Hread as (Hp1 & Hi1 & _).
    by eapply snap_consistent_loop.
  - (* the fetch a refresh waits for settles *)
    intros Hstep.
    apply snap_step_fetched in Hstep as (r & started & cached & collected & Hp & Hl).
    by eapply snap_consistent_loop.
  - (* the writeCache of a refresh completes *)
    cbn [EphemerisCache.step].
    destruct (promises (state s) !! p) as [[r [| |record issued]|]|] eqn:Hp; try done.
    destruct (refresh_written r record issued reach t_store (state s))
      as [[result st']|] eqn:Ew; [|done].
    apply snap_refresh_written_cases in Ew as (snap & _ & _ & _ & _ & Hi & Hpr & _).
    by eapply snap_consistent_settle.
  - (* the readCache in a catch block completes *)
    cbn [EphemerisCache.step].
    destruct (remove_caller n (waiting s)) as [[w rest]|] eqn:Erm; [|done].
    destruct (c_wait w) as [|err] eqn:Hw; [done|].
    set (mode := mode_of (includeObserver (c_options w))).
    destruct (readCache (get_reply reach t_store mode (state s)) mode (state s))
      as [cached st1] eqn:Hread.
    destruct (frozen_or_throw (c_options w) (c_now w) t_dec err cached st1)
      as [[out st2]|] eqn:Efz; [|done].
    intros [= <-].
    apply snap_readCache_maps in Hread as (Hp1 & Hi1 & _).
    apply snap_frozen_or_throw_frame in Efz as (_ & _ & Hi2 & _ & Hp2 & _).
    apply snap_remove_caller_spec in Erm as (Hc & Hin & Hsub & Hstay & Hsl & Hnd).
    split; simpl.
    + eapply snap_registered_ext; [| |apply Hcon]; congruence.
    + intros w' Hw'. destruct (con_waiting _ Hcon w' (Hsub w' Hw')) as (Hlt & Hr & Hpend).
      split_and!; [done| |].
      * rewrite lookup_insert_ne; [done|]. intros Heq.
        apply (Hnd (con_nodup _ Hcon)). rewrite Heq. by apply list_elem_of_fmap_2.
      * intros q Hq. rewrite Hp2, Hp1. by apply Hpend.
    + eapply sublist_NoDup; [apply Hcon|done].
    + intros m r. destruct (decide (n = m)) as [<-|Hne].
      * intros _. rewrite <- Hc. by apply (con_waiting _ Hcon w Hin).
      * rewrite lookup_insert_ne by done. apply Hcon.
  - (* the prewarm timer fires *)
    cbn [EphemerisCache.step]. destruct (_ && _); [|done].
    destruct (inflightByMode (state s) !! state_vectors) eqn:Hin; intros [= <-]; [done|].
    pose proof (snap_setInflight_refresh_frame "background-prewarm" None state_vectors (state s))
      as (_ & Hst).
    apply snap_consistent_quiet; [done| |].
    + eapply snap_registered_starts; [apply Hcon|]. by split.
    + eapply snap_pending_kept_starts. by split.
  - (* another process writes to the store *)
    cbn [EphemerisCache.step]. intros [= <-].
    apply snap_consistent_quiet; [done| |by apply snap_pending_kept_eq].
    eapply snap_registered_ext; [| |apply Hcon]; done.
Qed.

Lemma snap_consistent_run es : forall s s',
  consistent s -> run es s = Some s' -> consistent s'.
Proof.
  induction es as [|e es IH]; intros s s' H; simpl.
  - by intros [= <-].
  - destruct (step e s) as [s1|] eqn:E; [|done].
    apply IH. by eapply snap_consistent_step.
Qed.


(** *** Coalescing *)

Lemma snap_run_cons e es s :
  run (e :: es) s =
    match step e s with
    | Some s' => run es s'
    | None => None
    end.
Proof. reflexivity. Qed.

(** A settled promise stays as it is, and a result, once given, stays. *)
Lemma snap_settled_stable s e s' q x :
  consistent s -> step e s = Some s' ->
  promises (state s) !! q = Some (Done x) ->
  promises (state s') !! q = Some (Done x).
Proof.
  intros Hcon Hstep Hq.
  assert (Hsettle : forall t p r ph res st s1,
    promises (state s) !! p = Some (Pending r ph) ->
    promises st = promises (state s) ->
    inflightByMode st = inflightByMode (state s) ->
    settle t p r res s st = Some s1 ->
    promises (state s1) !! q = Some (Done x)).
  { intros t p r ph res st s1 Hp Hpr Hi. unfold EphemerisCache.settle.
    destruct (snap_clear_inflight_registered (state s) st p r ph res (con_registered _ Hcon)
                Hp Hpr Hi) as (Hp1 & _).
    set (st1 := clear_inflight (r_mode r) p (set_promise p (Done res) st)) in *.
    clearbody st1.
    destruct (resume_all t p res (waiting s) st1 (results s)) as [[[ws st2] out]|] eqn:Er;
      [|done].
    intros [= <-]. apply snap_resume_all_spec in Er as ((_ & _ & _ & _ & Hp2 & _) & _).
    simpl. rewrite Hp2, Hp1. rewrite lookup_insert_ne; [done|congruence]. }
  assert (Hloop : forall p r ph started cached collected t_done t_stamp now t_dec st s1,
    promises (state s) !! p = Some (Pending r ph) ->
    promises st = promises (state s) ->
    inflightByMode st = inflightByMode (state s) ->
    refresh_loop p r started cached collected t_done t_stamp now t_dec s st = Some s1 ->
    promises (state s1) !! q = Some (Done x)).
  { intros p r ph started cached collected t_done t_stamp now t_dec st s1 Hp Hpr Hi Hl.
    apply snap_refresh_loop_cases in Hl
      as [(cfg & _ & ->)|(_ & [(e0 & st' & Ef & Hs)|(st' & Ef & ->)])].
    - simpl. rewrite Hpr, lookup_insert_ne; [done|congruence].
    - apply snap_refresh_fetched_rejected in Ef as (_ & _ & _ & Hi' & _ & Hpr').
      eapply Hsettle; [exact Hp| | |exact Hs]; congruence.
    - apply snap_refresh_fetched_fulfilled in Ef
        as (cs & snap & warns & record & issued & _ & _ & _ & _ & _ & _ & _ & _ & Hpr' & _).
      simpl. rewrite Hpr', Hpr, lookup_insert_ne; [done|congruence]. }
  destruct e as [o now t_dec reach t_store|p reach t_store t_started t_done t_stamp now t_dec
    |p outcome t_done t_stamp now t_dec|p reach t_store t_dec|n reach t_store t_dec| |sto];
    cbn [EphemerisCache.step] in Hstep.
  - set (reply := get_reply _ _ _ _) in Hstep.
    destruct (enter o now t_dec reply (state s)) as [[out st']|] eqn:E; [|done].
    apply snap_enter_cases in E as (cached & st1 & Hread & Hout).
    assert (Hp1 : promises st1 = promises (state s)).
    { destruct (forceRefresh o).
      - by destruct Hread as [_ ->].
      - by apply snap_readCache_maps in Hread as (? & _). }
    assert (Hq' : promises st' !! q = Some (Done x)).
    { destruct Hout as [(res & _ & _ & [Hsame|(p & Hst)])|(p & _ & [[_ ->]|Hst])].
      - destruct Hsame as (_ & _ & _ & _ & -> & _). congruence.
      - destruct Hst as (_ & Hnone & -> & _).
        rewrite lookup_insert_ne; [congruence|]. intros <-. congruence.
      - congruence.
      - destruct Hst as (_ & Hnone & -> & _).
        rewrite lookup_insert_ne; [congruence|]. intros <-. congruence. }
    by destruct out; injection Hstep as <-.
  - apply snap_step_read in Hstep as (r & cached & st1 & Hp & Hread & Hl).
    apply snap_readCache_maps in Hread as (Hp1 & Hi1 & _). by eapply Hloop.
  - apply snap_step_fetched in Hstep as (r & started & cached & collected & Hp & Hl).
    by eapply Hloop.
  - destruct (promises (state s) !! p) as [[r [| |record issued]|]|] eqn:Hp; try done.
    destruct (refresh_written r record issued reach t_store (state s))
      as [[result st']|] eqn:Ew; [|done].
    apply snap_refresh_written_cases in Ew as (snap & _ & _ & _ & _ & Hi & Hpr & _).
    by eapply Hsettle.
  - destruct (remove_caller n (waiting s)) as [[w rest]|] eqn:Erm; [|done].
    destruct (c_wait w) as [|err] eqn:Hw; [done|].
    set (mode := mode_of (includeObserver (c_options w))) in *.
    destruct (readCache (get_reply reach t_store mode (state s)) mode (state s))
      as [cached st1] eqn:Hread.
    destruct (frozen_or_throw (c_options w) (c_now w) t_dec err cached st1)
      as [[out st2]|] eqn:Efz; [|done].
    injection Hstep as <-.
    apply snap_readCache_maps in Hread as (Hp1 & _).
    apply snap_frozen_or_throw_frame in Efz as (_ & _ & _ & _ & Hp2 & _).
    simpl. congruence.
  - destruct (_ && _); [|done].
    destruct (inflightByMode (state s) !! state_vectors) eqn:Hin;
      injection Hstep as <-; [done|].
    simpl. rewrite lookup_insert_ne; [done|]. intros <-.
    pose proof (snap_fresh_promise_none (state s)). congruence.
  - by injection Hstep as <-.
Qed.


Lemma snap_consistent_same_call s w w' :
  consistent s -> w ∈ waiting s -> w' ∈ waiting s -> c_call w = c_call w' -> w = w'.
Proof.
  intros Hcon Hw Hw' Heq. pose proof (con_nodup _ Hcon) as Hnd.
  apply list_elem_of_lookup in Hw as [i Hi], Hw' as [j Hj].
  assert (i = j) as ->; [|congruence].
  eapply NoDup_lookup; [exact Hnd| |].
  - rewrite list_lookup_fmap, Hi. reflexivity.
  - rewrite list_lookup_fmap, Hj. simpl. by rewrite Heq.
Qed.

Lemma snap_results_stable s e s' n x :
  consistent s -> step e s = Some s' ->
  results s !! n = Some x -> results s' !! n = Some x.
Proof.
  intros Hcon Hstep Hn.
  assert (Hnw : forall w, w ∈ waiting s -> c_call w <> n).
  { intros w Hw Heq. destruct (con_waiting _ Hcon w Hw) as (_ & Hr & _). congruence. }
  assert (Hsettle : forall t p r res st s1,
    settle t p r res s st = Some s1 -> results s1 !! n = Some x).
  { intros t p r res st s1. unfold EphemerisCache.settle.
    destruct (resume_all t p res (waiting s) _ (results s)) as [[[ws st2] out]|] eqn:Er;
      [|done].
    intros [= <-]. apply snap_resume_all_spec in Er as (_ & Hfr & _).
    simpl. rewrite Hfr; [done|]. intros w Hw _. by apply Hnw. }
  assert (Hloop : forall p r started cached collected t_done t_stamp now t_dec st s1,
    refresh_loop p r started cached collected t_done t_stamp now t_dec s st = Some s1 ->
    results s1 !! n = Some x).
  { intros p r started cached collected t_done t_stamp now t_dec st s1 Hl.
    apply snap_refresh_loop_cases in Hl
      as [(cfg & _ & ->)|(_ & [(e0 & st' & Ef & Hs)|(st' & Ef & ->)])];
      [done|by eapply Hsettle|done]. }
  destruct e as [o now t_dec reach t_store|p reach t_store t_started t_done t_stamp now t_dec
    |p outcome t_done t_stamp now t_dec|p reach t_store t_dec|m reach t_store t_dec| |sto];
    cbn [EphemerisCache.step] in Hstep.
  - destruct (enter _ _ _ _ _) as [[[res|p] st']|]; [| |done]; injection Hstep as <-;
      simpl; [|done].
    rewrite lookup_insert_ne; [done|]. intros Heq.
    apply (con_results _ Hcon) in Hn. lia.
  - apply snap_step_read in Hstep as (r & cached & st1 & Hp & Hread & Hl).
    by eapply Hloop.
  - apply snap_step_fetched in Hstep as (r & started & cached & collected & Hp & Hl).
    by eapply Hloop.
  - destruct (promises (state s) !! p) as [[r [| |record issued]|]|]; try done.
    destruct (refresh_written _ _ _ _ _ _) as [[result st']|]; [|done].
    by eapply Hsettle.
  - destruct (remove_caller m (waiting s)) as [[w rest]|] eqn:Erm; [|done].
    destruct (c_wait w); [done|].
    destruct (readCache _ _ _) as [cached st1].
    destruct (frozen_or_throw _ _ _ _ _ _) as [[out st2]|]; [|done].
    injection Hstep as <-. simpl.
    apply snap_remove_caller_spec in Erm as (Hc & Hin & _).
    rewrite lookup_insert_ne; [done|]. intros <-. by apply (Hnw w).
  - destruct (_ && _); [|done].
    by destruct (inflightByMode (state s) !! state_vectors); injection Hstep as <-.
  - by injection Hstep as <-.
Qed.

(** What a step does to a pending refresh and to the calls awaiting it. *)
Lemma snap_pending_progress s e s' p r ph :
  consistent s -> step e s = Some s' ->
  promises (state s) !! p = Some (Pending r ph) ->
  (exists ph', promises (state s') !! p = Some (Pending r ph')
     /\ forall w, w ∈ waiting s -> c_wait w = AwaitInflight p -> w ∈ waiting s')
  \/ (exists err, promises (state s') !! p = Some (Done (Rejected err)))
  \/ (exists result t st1,
        promises (state s') !! p = Some (Done (Fulfilled result))
        /\ cacheState result = MISS
        /\ forall w, w ∈ waiting s -> c_wait w = AwaitInflight p ->
             exists x, resume_fulfilled (c_options w) t result st1 = Some x
                       /\ results s' !! c_call w = Some (Fulfilled x)).
Proof.
  intros Hcon Hstep Hp.
  assert (Hsettle : forall t q r0 ph0 res st s1,
    promises (state s) !! q = Some (Pending r0 ph0) ->
    promises st = promises (state s) ->
    inflightByMode st = inflightByMode (state s) ->
    settle t q r0 res s st = Some s1 ->
    (q <> p /\ promises (state s1) !! p = Some (Pending r ph)
       /\ forall w, w ∈ waiting s -> c_wait w = AwaitInflight p -> w ∈ waiting s1)
    \/ (q = p /\ promises (state s1) !! p = Some (Done res)
        /\ forall result, res = Fulfilled result ->
             exists st1, forall w, w ∈ waiting s -> c_wait w = AwaitInflight p ->
               exists x, resume_fulfilled (c_options w) t result st1 = Some x
                         /\ results s1 !! c_call w = Some (Fulfilled x))).
  { intros t q r0 ph0 res st s1 Hq Hpr Hi. unfold EphemerisCache.settle.
    destruct (snap_clear_inflight_registered (state s) st q r0 ph0 res (con_registered _ Hcon)
                Hq Hpr Hi) as (Hp1 & _).
    set (st1 := clear_inflight (r_mode r0) q (set_promise q (Done res) st)) in *.
    clearbody st1.
    destruct (resume_all t q res (waiting s) st1 (results s)) as [[[ws st2] out]|] eqn:Er;
      [|done].
    intros [= <-].
    apply snap_resume_all_spec in Er as ((_ & _ & _ & _ & Hp2 & _) & _ & _ & _ & Hstay & _ & Hful).
    simpl. rewrite Hp2, Hp1. destruct (decide (q = p)) as [->|Hne].
    - right. rewrite lookup_insert_eq. split_and!; [done..|].
      intros result Hres. exists st1. intros w Hw Ha.
      by apply (Hful result Hres (con_nodup _ Hcon) w Hw Ha).
    - left. rewrite lookup_insert_ne by done. split_and!; [done..|].
      intros w Hw Ha. apply Hstay; [done|congruence]. }
  assert (Hloop : forall q r0 ph0 started cached collected t_done t_stamp now t_dec st s1,
    promises (state s) !! q = Some (Pending r0 ph0) ->
    promises st = promises (state s) ->
    inflightByMode st = inflightByMode (state s) ->
    refresh_loop q r0 started cached collected t_done t_stamp now t_dec s st = Some s1 ->
    (exists ph', promises (state s1) !! p = Some (Pending r ph')
       /\ forall w, w ∈ waiting s -> c_wait w = AwaitInflight p -> w ∈ waiting s1)
    \/ (exists err, promises (state s1) !! p = Some (Done (Rejected err)))).
  { intros q r0 ph0 started cached collected t_done t_stamp now t_dec st s1 Hq Hpr Hi Hl.
    assert (Hphase : forall st2 ph1,
      promises st2 = <[q := Pending r0 ph1]> (promises (state s)) ->
      exists ph', promises st2 !! p = Some (Pending r ph')).
    { intros st2 ph1 ->. destruct (decide (q = p)) as [->|Hne].
      - rewrite lookup_insert_eq. replace r0 with r by congruence. eauto.
      - rewrite lookup_insert_ne by done. eauto. }
    apply snap_refresh_loop_cases in Hl
      as [(cfg & _ & ->)|(_ & [(e0 & st' & Ef & Hs)|(st' & Ef & ->)])].
    - left. edestruct Hphase as [ph' Hph]; [|eauto]. simpl. by rewrite Hpr.
    - apply snap_refresh_fetched_rejected in Ef as (_ & _ & _ & Hi' & _ & Hpr').
      assert (Hpr2 : promises st' = promises (state s)) by congruence.
      assert (Hi2 : inflightByMode st' = inflightByMode (state s)) by congruence.
      destruct (Hsettle _ _ _ _ _ _ _ Hq Hpr2 Hi2 Hs) as [(_ & ? & ?)|(_ & ? & _)]; eauto.
    - left. apply snap_refresh_fetched_fulfilled in Ef
        as (cs & snap & warns & record & issued & _ & _ & _ & _ & _ & _ & _ & _ & Hpr' & _).
      rewrite Hpr in Hpr'. destruct (Hphase _ _ Hpr') as [ph' Hph]. eauto. }
  destruct e as [o now t_dec reach t_store|q reach t_store t_started t_done t_stamp now t_dec
    |q outcome t_done t_stamp now t_dec|q reach t_store t_dec|n reach t_store t_dec| |sto];
    cbn [EphemerisCache.step] in Hstep.
  - left. set (reply := get_reply _ _ _ _) in Hstep.
    destruct (enter o now t_dec reply (state s)) as [[out st']|] eqn:E; [|done].
    apply snap_enter_cases in E as (cached & st1 & Hread & Hout).
    assert (Hp1 : promises st1 = promises (state s)).
    { destruct (forceRefresh o).
      - by destruct Hread as [_ ->].
      - by apply snap_readCache_maps in Hread as (? & _). }
    assert (Hq' : promises st' !! p = Some (Pending r ph)).
    { destruct Hout as [(res & _ & _ & [Hsame|(q & Hst)])|(q & _ & [[_ ->]|Hst])].
      - destruct Hsame as (_ & _ & _ & _ & -> & _). congruence.
      - destruct Hst as (_ & Hnone & -> & _).
        rewrite lookup_insert_ne; [congruence|]. intros <-. congruence.
      - congruence.
      - destruct Hst as (_ & Hnone & -> & _).
        rewrite lookup_insert_ne; [congruence|]. intros <-. congruence. }
    exists ph. destruct out; injection Hstep as <-; simpl; (split; [done|]).
    + done.
    + intros w Hw _. apply elem_of_app. by left.
  - apply snap_step_read in Hstep as (r0 & cached & st1 & Hq & Hread & Hl).
    apply snap_readCache_maps in Hread as (Hp1 & Hi1 & _).
    destruct (Hloop _ _ _ _ _ _ _ _ _ _ _ _ Hq Hp1 Hi1 Hl) as [?|?]; eauto.
  - apply snap_step_fetched in Hstep as (r0 & started & cached & collected & Hq & Hl).
    destruct (Hloop _ _ _ _ _ _ _ _ _ _ _ _ Hq eq_refl eq_refl Hl) as [?|?]; eauto.
  - destruct (promises (state s) !! q) as [[r0 [| |record issued]|]|] eqn:Hq; try done.
    destruct (refresh_written r0 record issued reach t_store (state s))
      as [[result st']|] eqn:Ew; [|done].
    apply snap_refresh_written_cases in Ew as (snap & _ & Hres & _ & _ & Hi & Hpr & _).
    destruct (Hsettle _ _ _ _ _ _ _ Hq Hpr Hi Hstep) as [(_ & ? & ?)|(_ & ? & Hful)];
      [eauto|].
    right; right. destruct (Hful result eq_refl) as (st1 & Hall).
    exists result, t_dec, st1. split_and!; [done|by rewrite Hres|done].
  - left. destruct (remove_caller n (waiting s)) as [[w rest]|] eqn:Erm; [|done].
    destruct (c_wait w) as [|err] eqn:Hw; [done|].
    set (mode := mode_of (includeObserver (c_options w))) in *.
    destruct (readCache (get_reply reach t_store mode (state s)) mode (state s))
      as [cached st1] eqn:Hread.
    destruct (frozen_or_throw (c_options w) (c_now w) t_dec err cached st1)
      as [[out st2]|] eqn:Efz; [|done].
    injection Hstep as <-.
    apply snap_readCache_maps in Hread as (Hp1 & _).
    apply snap_frozen_or_throw_frame in Efz as (_ & _ & _ & _ & Hp2 & _).
    apply snap_remove_caller_spec in Erm as (Hc & Hin & _ & Hstay & _).
    exists ph. simpl. split; [congruence|].
    intros w' Hw' Ha. apply Hstay; [done|]. intros Heq.
    assert (w' = w) as -> by by eapply snap_consistent_same_call; [| | |congruence].
    congruence.
  - left. destruct (_ && _); [|done].
    destruct (inflightByMode (state s) !! state_vectors) eqn:Hin;
      injection Hstep as <-; [eauto|].
    exists ph. simpl. split; [|done].
    rewrite lookup_insert_ne; [done|]. intros <-.
    pose proof (snap_fresh_promise_none (state s)). congruence.
  - left. injection Hstep as <-. eauto.
Qed.


Lemma snap_resume_fulfilled_payload o t result st x :
  resume_fulfilled o t result st = Some x ->
  cacheState x = cacheState result
  /\ exists snap, heap st !! res_payload result = Some snap
       /\ without_requestId (res_payload x) =
            without_requestId
              (decoratePayloadMetadata t snap (cacheState result) (cacheBackend result)
                 (cacheAgeMs result) None).
Proof.
  unfold EphemerisCache.resume_fulfilled.
  destruct (heap st !! res_payload result) as [snap|]; [|done].
  intros [= <-]. split; [done|]. exists snap. split; [done|]. reflexivity.
Qed.

Lemma snap_coalesced_step n0 K p s e s' :
  consistent s -> coalesced n0 K p s -> step e s = Some s' -> coalesced n0 K p s'.
Proof.
  intros Hcon Hco Hstep. unfold coalesced in *.
  destruct (promises (state s) !! p) as [[r ph|[result|err]]|] eqn:Hp; [| | |done].
  - destruct (snap_pending_progress s e s' p r ph Hcon Hstep Hp)
      as [(ph' & -> & Hkeep)|[(err & ->)|(result & t & st1 & -> & Hmiss & Hall)]];
      [|done|].
    + intros k Hk. destruct (Hco k Hk) as (w & Hw & Hc & Ha). eauto.
    + split.
      * intros k Hk. destruct (Hco k Hk) as (w & Hw & <- & Ha).
        destruct (Hall w Hw Ha) as (x & Hx & Hr). exists x. split; [done|].
        apply snap_resume_fulfilled_payload in Hx as [-> _]. done.
      * intros k k' res res' Hk Hk' Hres Hres'.
        destruct (Hco k Hk) as (w & Hw & Hc & Ha).
        destruct (Hco k' Hk') as (w' & Hw' & Hc' & Ha').
        destruct (Hall w Hw Ha) as (x & Hx & Hr).
        destruct (Hall w' Hw' Ha') as (x' & Hx' & Hr').
        rewrite Hc, Hres in Hr. rewrite Hc', Hres' in Hr'.
        injection Hr as ->. injection Hr' as ->.
        apply snap_resume_fulfilled_payload in Hx as (_ & snap & Hs & ->).
        apply snap_resume_fulfilled_payload in Hx' as (_ & snap' & Hs' & ->).
        congruence.
  - rewrite (snap_settled_stable s e s' p _ Hcon Hstep Hp).
    destruct Hco as [Hall Heq]. split.
    + intros k Hk. destruct (Hall k Hk) as (res & Hr & Hm). exists res.
      split; [|done]. by eapply snap_results_stable.
    + intros k k' res res' Hk Hk' Hres Hres'.
      destruct (Hall k Hk) as (res0 & Hr & _).
      destruct (Hall k' Hk') as (res0' & Hr' & _).
      pose proof (snap_results_stable s e s' _ _ Hcon Hstep Hr) as Hr1.
      pose proof (snap_results_stable s e s' _ _ Hcon Hstep Hr') as Hr1'.
      eapply Heq; [exact Hk|exact Hk'| |]; congruence.
  - by rewrite (snap_settled_stable s e s' p _ Hcon Hstep Hp).
Qed.

Lemma snap_coalesced_run n0 K p es : forall s s',
  consistent s -> coalesced n0 K p s -> run es s = Some s' -> coalesced n0 K p s'.
Proof.
  induction es as [|e es IH]; intros s s' Hcon Hco; simpl.
  - by intros [= <-].
  - destruct (step e s) as [s1|] eqn:E; [|done].
    apply IH; [by eapply snap_consistent_step|by eapply snap_coalesced_step].
Qed.

Lemma snap_forced_call_joins observer p req s :
  inflightByMode (state s) !! mode_of observer = Some p ->
  step (forced_call observer req) s =
    Some {| state := state s;
            waiting := waiting s ++
              [{| c_call := ncalls s;
                  c_options := {| forceRefresh := true; correlationId := req.1.1.1.1;
                                  includeObserver := observer |};
                  c_now := req.1.1.1.2; c_wait := AwaitInflight p |}];
            results := results s; ncalls := S (ncalls s) |}.
Proof.
  intros Hp. unfold forced_call. cbn [EphemerisCache.step].
  rewrite snap_enter_forced by done. unfold join_or_refresh. simpl. by rewrite Hp.
Qed.

Lemma snap_forced_calls_join observer p reqs : forall s,
  inflightByMode (state s) !! mode_of observer = Some p ->
  exists s', run (forced_call observer <$> reqs) s = Some s'
    /\ state s' = state s /\ results s' = results s
    /\ ncalls s' = (ncalls s + length reqs)%nat
    /\ (forall w, w ∈ waiting s -> w ∈ waiting s')
    /\ (forall k, (k < length reqs)%nat ->
          exists w, w ∈ waiting s' /\ c_call w = (ncalls s + k)%nat
                    /\ c_wait w = AwaitInflight p).
Proof.
  induction reqs as [|req reqs IH]; intros s Hp.
  - exists s. simpl. split_and!; auto; lia.
  - rewrite fmap_cons, snap_run_cons, (snap_forced_call_joins observer p req s Hp).
    match goal with |- context [run _ ?s1] => destruct (IH s1) as
      (s' & Hrun & Hst & Hres & Hn & Hold & Hnew) end; [done|].
    simpl in *. exists s'. split_and!; [done|done|done|lia| |].
    + intros w Hw. apply Hold, elem_of_app. by left.
    + intros [|k] Hk.
      * eexists. split; [apply Hold, elem_of_app; right;
                         apply list_elem_of_singleton; reflexivity|].
        simpl. split; [lia|done].
      * destruct (Hnew k) as (w & Hw & Hc & Ha); [lia|].
        exists w. split_and!; [done|lia|done].
Qed.

(** K simultaneous forced-refresh requests for a mode with no refresh in
    flight start exactly one refresh, and however the system goes on, once
    that refresh has resolved all K callers have the same payload up to
    [requestId]. *)
Lemma snapshot_coalescing s observer req reqs :
  consistent s ->
  inflightByMode (state s) !! mode_of observer = None ->
  exists s1 p,
    run (forced_call observer <$> (req :: reqs)) s = Some s1
    /\ promises (state s) !! p = None
    /\ promises (state s1) =
         <[p := Pending {| r_reason := "manual-refresh";
                           r_correlationId := req.1.1.1.1;
                           r_mode := mode_of observer |} Reading]>
           (promises (state s))
    /\ forall es s2, run es s1 = Some s2 ->
         coalesced (ncalls s) (S (length reqs)) p s2.
Proof.
  intros Hcon Hnone.
  destruct (step (forced_call observer req) s) as [s0|] eqn:Hstep.
  2:{ unfold forced_call in Hstep. cbn [EphemerisCache.step] in Hstep.
      rewrite snap_enter_forced in Hstep by done.
      by destruct (join_or_refresh _ _ _) as [[] ?]. }
  assert (Hcon0 : consistent s0) by by eapply snap_consistent_step.
  pose proof Hstep as Hs0. unfold forced_call in Hs0. cbn [EphemerisCache.step] in Hs0.
  rewrite snap_enter_forced in Hs0 by done. unfold join_or_refresh in Hs0.
  simpl in Hs0. rewrite Hnone in Hs0. simpl in Hs0. injection Hs0 as Hs0.
  set (p := fresh (dom (promises (state s))) : PromiseId) in *.
  assert (Hin0 : inflightByMode (state s0) !! mode_of observer = Some p).
  { rewrite <- Hs0. simpl. apply lookup_insert_eq. }
  destruct (snap_forced_calls_join observer p reqs s0 Hin0)
    as (s1 & Hrun & Hst & Hres & Hn & Hold & Hnew).
  assert (Hcon1 : consistent s1) by by eapply snap_consistent_run.
  exists s1, p. split_and!.
  - by rewrite fmap_cons, snap_run_cons, Hstep.
  - apply snap_fresh_promise_none.
  - rewrite Hst, <- Hs0. reflexivity.
  - intros es s2 Hrun2. eapply snap_coalesced_run; [exact Hcon1| |exact Hrun2].
    unfold coalesced. rewrite Hst, <- Hs0. simpl. rewrite lookup_insert_eq.
    intros [|k] Hk.
    + eexists. split; [apply Hold; rewrite <- Hs0; simpl; apply elem_of_app; right;
                       apply list_elem_of_singleton; reflexivity|].
      simpl. split; [lia|done].
    + destruct (Hnew k) as (w & Hw & Hc & Ha); [lia|].
      exists w. split_and!; [done| |done]. rewrite Hc, <- Hs0. simpl. lia.
Qed.


(** *** Partial failure *)

Lemma snap_forEach_spec (fallbacks : gmap string EphemerisBody) prs : forall acc,
  let previous := (fallbacks !!.) in
  let acc' := forEach fallbacks acc prs in
  a_bodies acc' = a_bodies acc ++ spec_bodies previous prs
  /\ usedFallback acc' = usedFallback acc ++ spec_fallbackBodies previous prs
  /\ missing acc' = missing acc ++ spec_missingBodies previous prs.
Proof.
  unfold forEach, spec_bodies, spec_fallbackBodies, spec_missingBodies.
  induction prs as [|[cfg result] prs IH]; intros acc; simpl.
  - by rewrite !app_nil_r.
  - destruct (IH (visit fallbacks acc cfg result)) as (Hb & Hf & Hm).
    rewrite Hb, Hf, Hm. clear.
    unfold visit, body_outcome, fallback_name, missing_name. simpl.
    destruct result as [r|e]; simpl.
    + by rewrite <- app_assoc.
    + destruct (fallbacks !! Planets.name cfg); simpl; by rewrite <- ?app_assoc.
Qed.

(** [buildPlanetSnapshot] against the specification's accounting. *)
Lemma snap_buildPlanetSnapshot_spec cached started t_done t_stamp results :
  let previous := (fallback_map (from_option bodies [] cached) !!.) in
  let prs := zip PLANETS results in
  match (buildPlanetSnapshot cached started t_done t_stamp results).1 with
  | Rejected e => e = no_data /\ spec_bodies previous prs = []
  | Fulfilled snap =>
      bodies snap = spec_bodies previous prs
      /\ bodies snap <> []
      /\ fallbackBodies (metadata snap)
           = nonempty_or_undefined (spec_fallbackBodies previous prs)
      /\ missingBodies (metadata snap)
           = nonempty_or_undefined (spec_missingBodies previous prs)
      /\ partial (metadata snap)
           = Some (bool_decide (spec_fallbackBodies previous prs <> [])
                   || bool_decide (spec_missingBodies previous prs <> []))
  end.
Proof.
  intros previous prs. unfold EphemerisCache.buildPlanetSnapshot.
  fold prs.
  match goal with |- context [forEach ?fb ?a prs] =>
    destruct (snap_forEach_spec fb prs a) as (Hb & Hf & Hm);
    set (acc := forEach fb a prs) in * end.
  fold previous in Hb, Hf, Hm. simpl in Hb, Hf, Hm. clearbody acc.
  destruct (a_bodies acc) as [|b bs] eqn:E; simpl.
  - split; [done|]. by rewrite <- Hb.
  - rewrite Hf, Hm, <- Hb. split_and!; auto.
Qed.

Lemma snap_nonempty_or_undefined_None xs : nonempty_or_undefined xs = None <-> xs = [].
Proof. by destruct xs. Qed.

Lemma snap_elem_of_nonempty_or_undefined x xs :
  x ∈ xs -> x ∈ default [] (nonempty_or_undefined xs).
Proof. by destruct xs. Qed.

(** *** Whole-refresh failure *)

Lemma snap_frozen_or_throw_found o now t err c snap st :
  heap st !! payload c = Some snap ->
  exists res,
    frozen_or_throw o now t err (Some c) st
      = Some (Fulfilled res, log LWarn "ephemeris_snapshot_frozen" (Some (err_text err)) st)
    /\ frozen_result now c snap err res.
Proof.
  intros Hh. unfold EphemerisCache.frozen_or_throw. rewrite Hh.
  eexists. split; [reflexivity|]. by repeat split.
Qed.

Lemma snap_frozen_or_throw_none o now t err st :
  frozen_or_throw o now t err None st
    = Some (Rejected err, log LError "ephemeris_refresh_failed" (Some (err_text err)) st).
Proof. reflexivity. Qed.


(** *** What a step does to the objects, the memory records and the store *)

Lemma snap_same_data_refl st : same_data st st.
Proof. by repeat split. Qed.

Lemma snap_same_data_trans st1 st2 st3 :
  same_data st1 st2 -> same_data st2 st3 -> same_data st1 st3.
Proof. intros (?&?&?) (?&?&?). repeat split; congruence. Qed.

Lemma snap_same_maps_data st st' : same_maps st st' -> same_data st st'.
Proof. intros (?&?&?&?&?&?). by repeat split. Qed.

Lemma snap_starts_data st st' mode reason cid p :
  starts st st' mode reason cid p -> same_data st st'.
Proof. intros (_ & _ & _ & _ & ? & ? & ? & _). by repeat split. Qed.

(** A call changes them only through its [readCache]. *)
Lemma snap_enter_data o now t_dec reply st out st' :
  enter o now t_dec reply st = Some (out, st') ->
  exists cached st1,
    (if forceRefresh o then cached = None /\ st1 = st
     else readCache reply (mode_of (includeObserver o)) st = (cached, st1))
    /\ same_data st1 st'.
Proof.
  intros He. apply snap_enter_cases in He as (cached & st1 & Hread & Hout).
  exists cached, st1. split; [done|].
  destruct Hout as [(res & _ & _ & [Hsame|(p & Hst)])|(p & _ & [[_ ->]|Hst])];
    eauto using snap_same_maps_data, snap_starts_data, snap_same_data_refl.
Qed.

(** Settling a refresh changes none of them. *)
Lemma snap_settle_data t p r res s st s' :
  settle t p r res s st = Some s' -> same_data st (state s').
Proof.
  unfold EphemerisCache.settle.
  set (st1 := clear_inflight (r_mode r) p (set_promise p (Done res) st)).
  assert (H1 : same_data st st1).
  { unfold st1, clear_inflight. simpl.
    destruct (inflightByMode st !! r_mode r); [case_bool_decide|]; by repeat split. }
  clearbody st1.
  destruct (resume_all t p res (waiting s) st1 (results s)) as [[[ws st2] out]|] eqn:Er;
    [|done].
  intros [= <-]. apply snap_resume_all_spec in Er as (Hsame & _). simpl.
  eapply snap_same_data_trans; [done|]. by apply snap_same_maps_data.
Qed.


Lemma snap_readCache_read_through reply mode st cached st' :
  readCache reply mode st = (cached, st') -> read_through mode st st'.
Proof.
  intros H. apply snap_readCache_cases in H
    as [(text & parsed & Hc & _ & -> & _ & Hh & Hm & _ & Hs & _)|(_ & Hsame & _)].
  - right. exists text. eexists. split_and!; try done. apply snap_fresh_loc_none.
  - left. by apply snap_same_maps_data.
Qed.

Lemma snap_read_through_data mode st1 st2 st3 :
  read_through mode st1 st2 -> same_data st2 st3 -> read_through mode st1 st3.
Proof.
  intros [H|(text & parsed & Hc & Hn & Hh & Hm & Hs & Ht1 & Ht2 & Ht3)] (Hh3 & Hm3 & Hs3).
  - left. eapply snap_same_data_trans; [done|]. by repeat split.
  - right. exists text, parsed. split_and!; try done; congruence.
Qed.

(** The loop of a refresh changes them only when it ends with a snapshot:
    one new object, and the record of the mode replaced by a new one. *)
Lemma snap_refresh_loop_data p r started cached collected t_done t_stamp now t_dec s st s' :
  refresh_loop p r started cached collected t_done t_stamp now t_dec s st = Some s' ->
  same_data st (state s')
  \/ exists record snap,
       collected <> []
       /\ cachedAt record = now /\ expiresAt record = now + TTL
       /\ staleUntil record = now + TTL + SWR
       /\ heap st !! payload record = None
       /\ heap (state s') = <[payload record := snap]> (heap st)
       /\ memoryCache (state s') = <[r_mode r := record]> (memoryCache st)
       /\ store (state s') = store st.
Proof.
  intros Hl. apply snap_refresh_loop_cases in Hl
    as [(cfg & _ & ->)|(_ & [(e & st' & Ef & Hs)|(st' & Ef & ->)])].
  - left. by repeat split.
  - left. apply snap_refresh_fetched_rejected in Ef as (_ & Hh & Hm & _ & Hs' & _).
    apply snap_settle_data in Hs. eapply snap_same_data_trans; [|done]. by repeat split.
  - right. assert (Hne : collected <> []).
    { intros ->. by apply snap_refresh_fetched_nil in Ef. }
    apply snap_refresh_fetched_fulfilled in Ef
      as (cs & snap & warns & record & issued & _ & _ & -> & Hn & Hh & Hm & _ & Hs & _).
    exists {| payload := fresh (dom (heap st)); cachedAt := now;
              expiresAt := now + TTL; staleUntil := now + TTL + SWR |}, snap.
    split_and!; first [reflexivity|done].
Qed.

(** Every step, event by event. *)
Lemma snap_step_data e s s' :
  step e s = Some s' ->
  match e with
  | EvCall o _ _ _ _ =>
      if forceRefresh o then same_data (state s) (state s')
      else read_through (mode_of (includeObserver o)) (state s) (state s')
  | EvRead p _ _ _ _ _ _ _ =>
      exists r, promises (state s) !! p = Some (Pending r Reading)
                /\ read_through (r_mode r) (state s) (state s')
  | EvFetched p _ _ _ now _ =>
      exists r started cached collected,
        promises (state s) !! p = Some (Pending r (Fetching started cached collected))
        /\ (same_data (state s) (state s')
            \/ exists record snap,
                 cachedAt record = now /\ expiresAt record = now + TTL
                 /\ staleUntil record = now + TTL + SWR
                 /\ heap (state s) !! payload record = None
                 /\ heap (state s') = <[payload record := snap]> (heap (state s))
                 /\ memoryCache (state s')
                      = <[r_mode r := record]> (memoryCache (state s))
                 /\ store (state s') = store (state s))
  | EvWritten p reach t _ =>
      exists r record issued snap,
        promises (state s) !! p = Some (Pending r (Writing record issued))
        /\ heap (state s) !! payload record = Some snap
        /\ heap (state s') =
             <[payload record :=
                 with_metadata snap
                   (miss_metadata TTL iso (metadata snap) backend_now (cachedAt record)
                      (r_correlationId r))]> (heap (state s))
        /\ memoryCache (state s') = memoryCache (state s)
        /\ store (state s') =
             match issued, reach with
             | Some (text, px), None =>
                 store_set (store (state s)) (CACHE_KEY_BY_MODE (r_mode r)) text px t
             | _, _ => store (state s)
             end
  | EvCatchRead n _ _ _ =>
      exists w, w ∈ waiting s /\ c_call w = n
        /\ read_through (mode_of (includeObserver (c_options w))) (state s) (state s')
  | EvPrewarm => same_data (state s) (state s')
  | EvStore sto =>
      heap (state s') = heap (state s)
      /\ memoryCache (state s') = memoryCache (state s)
      /\ store (state s') = sto
  end.
Proof.
  destruct e as [o now t_dec reach t_store|p reach t_store t_started t_done t_stamp now t_dec
    |p outcome t_done t_stamp now t_dec|p reach t_store t_dec|n reach t_store t_dec| |sto];
    cbn [EphemerisCache.step]; intros Hstep.
  - set (reply := get_reply _ _ _ _) in Hstep.
    destruct (enter o now t_dec reply (state s)) as [[out st']|] eqn:E; [|done].
    apply snap_enter_data in E as (cached & st1 & Hread & Hsame).
    assert (state s' = st') as -> by (destruct out; by injection Hstep as <-).
    destruct (forceRefresh o).
    + by destruct Hread as [_ ->].
    + eapply snap_read_through_data; [|done]. by eapply snap_readCache_read_through.
  - apply snap_step_read in Hstep as (r & cached & st1 & Hp & Hread & Hl).
    exists r. split; [done|].
    eapply snap_read_through_data; [by eapply snap_readCache_read_through|].
    apply snap_refresh_loop_data in Hl as [Hsame|(record & snap & Hne & _)]; done.
  - apply snap_step_fetched in Hstep as (r & started & cached & collected & Hp & Hl).
    exists r, started, cached, collected. split; [done|].
    apply snap_refresh_loop_data in Hl
      as [Hsame|(record & snap & _ & H1 & H2 & H3 & H4 & H5 & H6 & H7)]; [by left|].
    right. exists record, snap. done.
  - destruct (promises (state s) !! p) as [[r [| |record issued]|]|] eqn:Hp; try done.
    destruct (refresh_written r record issued reach t_store (state s))
      as [[result st']|] eqn:Ew; [|done].
    apply snap_refresh_written_cases in Ew as (snap & Hsnap & _ & Hh & Hm & _ & _ & Hs).
    apply snap_settle_data in Hstep as (Hh' & Hm' & Hs').
    exists r, record, issued, snap. split_and!; congruence.
  - destruct (remove_caller n (waiting s)) as [[w rest]|] eqn:Erm; [|done].
    destruct (c_wait w) as [|err] eqn:Hw; [done|].
    set (mode := mode_of (includeObserver (c_options w))) in *.
    destruct (readCache (get_reply reach t_store mode (state s)) mode (state s))
      as [cached st1] eqn:Hread.
    destruct (frozen_or_throw (c_options w) (c_now w) t_dec err cached st1)
      as [[out st2]|] eqn:Efz; [|done].
    injection Hstep as <-.
    apply snap_remove_caller_spec in Erm as (Hc & Hin & _).
    exists w. split_and!; [done..|]. simpl.
    eapply snap_read_through_data; [by eapply snap_readCache_read_through|].
    apply snap_same_maps_data. by eapply snap_frozen_or_throw_frame.
  - destruct (_ && _); [|done].
    destruct (inflightByMode (state s) !! state_vectors); injection Hstep as <-;
      by repeat split.
  - by injection Hstep as <-.
Qed.


(** *** The claims about the snapshot cache *)

(** C1. A call of [getSnapshot] without [forceRefresh] that [readCache]
    gives a record of age [now - cachedAt]: below the TTL it returns the
    record's payload as a HIT and starts nothing; from the TTL up to the
    TTL plus the stale window it returns it at once as STALE, and starts a
    background refresh of the mode exactly when none is in flight; from
    there on (the window being non-negative), or without a record, it
    awaits the refresh in flight for the mode, or the one it starts. *)
Theorem C1_freshness_window (o : Options) (now t_dec : Z)
    (reply : Settled (option Serialized)) (st : State) :
  forceRefresh o = false ->
  let mode := mode_of (includeObserver o) in
  let awaits st1 :=
    exists p st', enter o now t_dec reply st = Some (Await p, st')
      /\ ((inflightByMode st1 !! mode = Some p /\ st' = st1)
          \/ starts st1 st' mode "miss" (correlationId o) p) in
  (forall c st1 snap,
     readCache reply mode st = (Some c, st1) ->
     heap st1 !! payload c = Some snap ->
     let age := now - cachedAt c in
     let served cs st' :=
       enter o now t_dec reply st =
         Some (Return {| res_payload :=
                           decoratePayloadMetadata t_dec snap cs backend_now age
                             (correlationId o);
                         cacheState := cs; cacheBackend := backend_now;
                         cacheAgeMs := age |}, st') in
     (age < TTL -> exists st', served HIT st' /\ same_maps st1 st')
     /\ (TTL <= age < TTL + SWR ->
           exists st', served STALE st'
             /\ match inflightByMode st1 !! mode with
                | Some _ => same_maps st1 st'
                | None => exists p, starts st1 st' mode "stale-revalidate" None p
                end)
     /\ (TTL + SWR <= age -> 0 <= SWR -> awaits st1))
  /\ (forall st1, readCache reply mode st = (None, st1) -> awaits st1).
Proof.
  intros Hf mode awaits.
  assert (Hjoin : forall st1,
    enter o now t_dec reply st = Some (join_or_refresh o mode st1) -> awaits st1).
  { intros st1 He. destruct (join_or_refresh o mode st1) as [out st'] eqn:Ej.
    apply snap_join_or_refresh_cases in Ej as (p & -> & Hp). rewrite Hf in Hp.
    exists p, st'. done. }
  split.
  - intros c st1 snap Hr Hh age served. split_and!.
    + intros Hage. eexists. split; [by eapply snap_enter_fresh|]. apply snap_same_maps_metric.
    + intros Hage. eexists. split; [by eapply snap_enter_stale|]. cbv zeta. fold mode.
      destruct (inflightByMode st1 !! mode) eqn:Ei.
      * apply snap_same_maps_metric.
      * eexists.
        pose proof (snap_setInflight_refresh_frame "stale-revalidate" None mode
          (record_metric (CacheHit backend_now "stale" (now - cachedAt c)) st1)) as Hs.
        destruct Hs as (_ & ? & ? & ? & ? & ? & ? & ?). by split_and!.
    + intros Hage Hw. apply Hjoin. eapply snap_enter_expired; [done|done|done|].
      unfold age in Hage. lia.
  - intros st1 Hr. apply Hjoin. by eapply snap_enter_absent.
Qed.

(** The table the loop of lines 186-189 builds gives, for a name, the
    previous snapshot's value for it. *)
Lemma snap_fallback_map_previous (bs : list EphemerisBody) (n : string) :
  fallback_map bs !! n = previous_value bs n.
Proof.
  unfold fallback_map, previous_value. rewrite foldl_insert_lookup.
  by destruct (last _).
Qed.

Lemma snap_spec_ext (f g : string -> option EphemerisBody) prs :
  (forall n, f n = g n) ->
  spec_bodies f prs = spec_bodies g prs
  /\ spec_fallbackBodies f prs = spec_fallbackBodies g prs
  /\ spec_missingBodies f prs = spec_missingBodies g prs.
Proof.
  intros Hfg. unfold spec_bodies, spec_fallbackBodies, spec_missingBodies.
  split_and!; apply list_omap_ext, Forall2_same_length_lookup_2; try done;
    intros i x y Hx Hy; assert (x = y) as -> by congruence;
    unfold body_outcome, fallback_name, missing_name;
    destruct y.2; by rewrite ?Hfg.
Qed.


(** What [readCache] answers, from what the store holds for the key. *)
Lemma snap_readCache_lookup reach t_store mode st :
  match (if client then
           match reach with
           | None => store_get (store st) (CACHE_KEY_BY_MODE mode) t_store
           | Some _ => None
           end
         else None) with
  | Some text =>
      exists parsed st1,
        readCache (get_reply reach t_store mode st) mode st = (Some parsed, st1)
        /\ heap st1 !! payload parsed = Some (s_payload text)
        /\ memoryCache st1 !! mode = Some parsed
        /\ cachedAt parsed = s_cachedAt text
  | None =>
      exists st1,
        readCache (get_reply reach t_store mode st) mode st = (memoryCache st !! mode, st1)
        /\ same_maps st st1
  end.
Proof.
  unfold EphemerisCache.readCache, getRedisClient, get_reply.
  destruct client; [destruct reach as [e|]|].
  - eexists. split; [reflexivity|]. apply snap_same_maps_log.
  - destruct (store_get (store st) (CACHE_KEY_BY_MODE mode) t_store) as [text|].
    + eexists _, _. split; [reflexivity|]. cbn. by rewrite !lookup_insert_eq.
    + eexists. split; [reflexivity|]. apply snap_same_maps_refl.
  - eexists. split; [reflexivity|]. apply snap_same_maps_refl.
Qed.

(** C4. When the refresh a call awaits fails as a whole (zero bodies), the
    call looks for a previous record in memory first: if memory has one it
    returns it, whatever its age, as FROZEN with [cacheStale] true,
    [cacheExpiresInMs] 0, [frozenSnapshot] true and a non-empty
    [freezeReason]; if not it awaits [readCache].  When that read
    completes: a text held by the shared store (with a client, the store
    reachable, the key not expired) is parsed, becomes the memory record and
    is returned FROZEN in the same way; failing that, the memory record is;
    and with neither the error is rethrown. *)
Theorem C4_frozen_fallback (w : Caller) (t_dec : Z) (st : State) :
  let o := c_options w in
  let mode := mode_of (includeObserver o) in
  freeze_reason_of no_data <> ""
  /\ (forall c snap,
        memoryCache st !! mode = Some c -> heap st !! payload c = Some snap ->
        exists res st',
          resume t_dec w (Rejected no_data) st = Some (inr (Fulfilled res), st')
          /\ frozen_result (c_now w) c snap no_data res)
  /\ (memoryCache st !! mode = None ->
        resume t_dec w (Rejected no_data) st =
          Some (inl {| c_call := c_call w; c_options := o; c_now := c_now w;
                       c_wait := AwaitReadCache no_data |}, st))
  /\ (forall s rest reach t_store t,
        remove_caller (c_call w) (waiting s) = Some (w, rest) ->
        c_wait w = AwaitReadCache no_data ->
        let in_store :=
          if client then
            match reach with
            | None => store_get (store (state s)) (CACHE_KEY_BY_MODE mode) t_store
            | Some _ => None
            end
          else None in
        let returns out s' :=
          step (EvCatchRead (c_call w) reach t_store t) s = Some s'
          /\ results s' !! c_call w = Some out
          /\ waiting s' = rest in
        match in_store with
        | Some text =>
            exists res s' c,
              returns (Fulfilled res) s'
              /\ memoryCache (state s') !! mode = Some c
              /\ heap (state s') !! payload c = Some (s_payload text)
              /\ cachedAt c = s_cachedAt text
              /\ frozen_result (c_now w) c (s_payload text) no_data res
        | None =>
            match memoryCache (state s) !! mode with
            | Some c =>
                forall snap, heap (state s) !! payload c = Some snap ->
                  exists res s',
                    returns (Fulfilled res) s'
                    /\ frozen_result (c_now w) c snap no_data res
            | None => exists s', returns (Rejected no_data) s'
            end
        end).
Proof.
  intros o mode. split_and!.
  - done.
  - intros c snap Hm Hh. unfold EphemerisCache.resume. fold o mode. rewrite Hm.
    destruct (snap_frozen_or_throw_found o (c_now w) t_dec no_data c snap st Hh)
      as (res & -> & Hres). eauto.
  - intros Hm. unfold EphemerisCache.resume. fold o mode. by rewrite Hm.
  - intros s rest reach t_store t Hrm Hw in_store returns.
    assert (Hstep : forall cached st1 out st2,
      readCache (get_reply reach t_store mode (state s)) mode (state s) = (cached, st1) ->
      frozen_or_throw o (c_now w) t no_data cached st1 = Some (out, st2) ->
      returns out {| state := st2; waiting := rest;
                     results := <[c_call w := out]> (results s); ncalls := ncalls s |}).
    { intros cached st1 out st2 Hr Hf. unfold returns. cbn [EphemerisCache.step].
      rewrite Hrm, Hw. fold o mode. rewrite Hr, Hf.
      split_and!; [done|apply lookup_insert_eq|done]. }
    pose proof (snap_readCache_lookup reach t_store mode (state s)) as Hread.
    fold in_store in Hread. destruct in_store as [text|].
    + destruct Hread as (parsed & st1 & Hr & Hh & Hm & Hca).
      destruct (snap_frozen_or_throw_found o (c_now w) t no_data parsed
                  (s_payload text) st1 Hh) as (res & Hf & Hres).
      eexists res, _, parsed. split; [by eapply Hstep|].
      cbn. by split_and!.
    + destruct Hread as (st1 & Hr & Hh1 & Hm1 & _).
      destruct (memoryCache (state s) !! mode) as [c|].
      * intros snap Hh. rewrite <- Hh1 in Hh.
        destruct (snap_frozen_or_throw_found o (c_now w) t no_data c snap st1 Hh)
          as (res & Hf & Hres).
        eexists res, _. split; [by eapply Hstep|done].
      * eexists. eapply Hstep; [done|]. apply snap_frozen_or_throw_none.
Qed.

(** C7. Reading: with a client, a text in the store is the answer and
    also replaces the memory record of the mode; a read error (logged) or
    an absent key falls back to the memory record; without a client the
    memory record is the answer.  Writing: memory is always written; a
    store write is issued exactly when there is a client and the backend
    is [redis]; a failed store write is logged and the refresh still
    resolves; and no step changes the store but the end of the
    [writeCache] of a refresh that issued a write and met no error (or
    another process). *)
Theorem C7_dual_backend_policy (mode : SnapshotMode) (st : State) :
  (* reading *)
  (forall text, client = true ->
     exists parsed st',
       readCache (Fulfilled (Some text)) mode st = (Some parsed, st')
       /\ heap st' !! payload parsed = Some (s_payload text)
       /\ cachedAt parsed = s_cachedAt text /\ expiresAt parsed = s_expiresAt text
       /\ staleUntil parsed = s_staleUntil text
       /\ memoryCache st' !! mode = Some parsed)
  /\ (forall e, client = true ->
        readCache (Rejected e) mode st =
          (memoryCache st !! mode, log LWarn "redis_read_failed" (Some (err_text e)) st))
  /\ (readCache (Fulfilled None) mode st = (memoryCache st !! mode, st))
  /\ (forall reply, client = false ->
        readCache reply mode st = (memoryCache st !! mode, st))
  (* writing *)
  /\ (forall record backend issued st',
        writeCache_issue record backend mode st = Some (issued, st') ->
        memoryCache st' !! mode = Some record
        /\ store st' = store st
        /\ (is_Some issued <-> client = true /\ backend = redis))
  /\ (forall text px e t,
        writeCache_done mode (Some (text, px)) (Some e) t st
          = log LWarn "redis_write_failed" (Some (err_text e)) st)
  /\ (forall r record issued reach t snap,
        heap st !! payload record = Some snap ->
        is_Some (refresh_written r record issued reach t st))
  /\ (forall e s s',
        step e s = Some s' -> store (state s') <> store (state s) ->
        (exists sto, e = EvStore sto)
        \/ (exists p t t_dec r record text px,
              e = EvWritten p None t t_dec
              /\ promises (state s) !! p
                   = Some (Pending r (Writing record (Some (text, px)))))).
Proof.
  split_and!.
  - intros text Hc. unfold EphemerisCache.readCache, getRedisClient. rewrite Hc.
    eexists _, _. split; [reflexivity|]. simpl.
    rewrite !lookup_insert_eq. done.
  - intros e Hc. unfold EphemerisCache.readCache, getRedisClient. by rewrite Hc.
  - unfold EphemerisCache.readCache, getRedisClient. by destruct client.
  - intros reply Hc. unfold EphemerisCache.readCache, getRedisClient. by rewrite Hc.
  - intros record backend issued st' Hw.
    apply snap_writeCache_issue_cases in Hw as [-> Hiss]. split_and!.
    + simpl. apply lookup_insert_eq.
    + done.
    + destruct Hiss as [(Hc & Hb & snap & _ & ->)|(Hor & ->)].
      * split; [done|]. eauto.
      * split; [by intros [? [=]]|]. intros [Hc Hb]. destruct Hor; congruence.
  - done.
  - intros r record issued reach t snap Hh. unfold EphemerisCache.refresh_written.
    assert (Hh1 : heap (writeCache_done (r_mode r) issued reach t st) = heap st).
    { unfold writeCache_done. by destruct issued as [[? ?]|], reach. }
    rewrite Hh1, Hh. eauto.
  - intros e s s' Hstep Hne. apply snap_step_data in Hstep.
    destruct e as [o now t_dec reach t_store|p reach t_store t_started t_done t_stamp now t_dec
      |p outcome t_done t_stamp now t_dec|p reach t_store t_dec|n reach t_store t_dec| |sto].
    + destruct (forceRefresh o).
      * destruct Hstep as (_ & _ & ?). done.
      * destruct Hstep as [(_ & _ & ?)|(? & ? & _ & _ & _ & _ & ? & _)]; done.
    + destruct Hstep as (r & _ & [(_ & _ & ?)|(? & ? & _ & _ & _ & _ & ? & _)]); done.
    + destruct Hstep
        as (r & ? & ? & ? & _ & [(_ & _ & ?)|(? & ? & _ & _ & _ & _ & _ & _ & ?)]);
        done.
    + destruct Hstep as (r & record & issued & snap & Hp & _ & _ & _ & Hs).
      destruct issued as [[text px]|]; [|done]. destruct reach; [done|].
      right. by exists p, t_store, t_dec, r, record, text, px.
    + destruct Hstep as (w & _ & _ & [(_ & _ & ?)|(? & ? & _ & _ & _ & _ & ? & _)]); done.
    + destruct Hstep as (_ & _ & ?). done.
    + left. eauto.
Qed.


(** C8. The record a successful refresh builds and puts in the memory slot
    of its mode has [cachedAt <= expiresAt <= staleUntil] when the TTL and
    the stale window are not negative; and a step leaves a memory slot as
    it is or puts there a whole new record, one whose snapshot object did
    not exist before the step. *)
Theorem C8_record_invariant :
  (forall p r started cached results t_done t_stamp now st st',
     0 <= TTL -> 0 <= SWR ->
     refresh_fetched p r started cached results t_done t_stamp now st = Some (None, st') ->
     exists record,
       memoryCache st' !! r_mode r = Some record
       /\ cachedAt record = now
       /\ expiresAt record = now + TTL
       /\ staleUntil record = now + TTL + SWR
       /\ cachedAt record <= expiresAt record <= staleUntil record)
  /\ (forall e s s' m,
        step e s = Some s' ->
        memoryCache (state s') !! m = memoryCache (state s) !! m
        \/ exists record,
             memoryCache (state s') !! m = Some record
             /\ heap (state s) !! payload record = None).
Proof.
  split.
  - intros p r started cached results t_done t_stamp now st st' Httl Hswr Hr.
    apply snap_refresh_fetched_fulfilled in Hr
      as (cs & snap & warns & record & issued & _ & _ & -> & _ & _ & Hm & _).
    eexists. rewrite Hm, lookup_insert_eq. split; [reflexivity|]. simpl.
    split_and!; try done; lia.
  - intros e s s' m Hstep. apply snap_step_data in Hstep.
    assert (Hrt : forall mode, read_through mode (state s) (state s') ->
      memoryCache (state s') !! m = memoryCache (state s) !! m
      \/ exists record, memoryCache (state s') !! m = Some record
                        /\ heap (state s) !! payload record = None).
    { intros mode [(_ & -> & _)|(text & parsed & _ & Hn & _ & -> & _)]; [by left|].
      destruct (decide (mode = m)) as [<-|Hne].
      - right. exists parsed. by rewrite lookup_insert_eq.
      - left. by rewrite lookup_insert_ne. }
    destruct e as [o now t_dec reach t_store|p reach t_store t_started t_done t_stamp now t_dec
      |p outcome t_done t_stamp now t_dec|p reach t_store t_dec|n reach t_store t_dec| |sto].
    + destruct (forceRefresh o); [|by eapply Hrt].
      destruct Hstep as (_ & -> & _). by left.
    + destruct Hstep as (r & _ & Hr). by eapply Hrt.
    + destruct Hstep
        as (r & ? & ? & ? & _
            & [(_ & -> & _)|(record & snap & _ & _ & _ & Hn & _ & -> & _)]);
        [by left|].
      destruct (decide (r_mode r = m)) as [<-|Hne].
      * right. exists record. by rewrite lookup_insert_eq.
      * left. by rewrite lookup_insert_ne.
    + destruct Hstep as (r & record & issued & snap & _ & _ & _ & -> & _). by left.
    + destruct Hstep as (w & _ & _ & Hr). by eapply Hrt.
    + destruct Hstep as (_ & -> & _). by left.
    + destruct Hstep as (_ & -> & _). by left.
Qed.

Lemma snap_json_number_written x : json_written x (json_number x).
Proof.
  destruct x as [f|]; [|done]. unfold json_number, json_written.
  destruct (is_nan f) eqn:En; simpl orb; cbv iota; [by left|].
  destruct (is_infinity f) eqn:Ei; cbv iota; [by right|].
  destruct (is_zero f) eqn:Ez; cbv iota; by rewrite ?Ez.
Qed.

Lemma snap_json_number_written_opt x : json_written_opt x (json_number <$> x).
Proof. destruct x; [apply snap_json_number_written|done]. Qed.

Lemma snap_json_bodies_written bs : Forall2 body_written bs (json_body <$> bs).
Proof.
  induction bs as [|b bs IH]; constructor; [|done].
  unfold body_written, json_body. cbn.
  split_and!; try done;
    first [apply snap_json_number_written | apply snap_json_number_written_opt].
Qed.

(** C9. With a client, a refresh that built a snapshot hands the store the
    text of the new record: the snapshot the record refers to, as JSON
    renders it (same timestamp, same metadata, the same bodies in the same
    order, with their names, their strings and their finite numbers),
    with the record's three times; the expiry is [staleUntil - cachedAt],
    that is the TTL plus the stale window.  When the write goes through at
    [t] that very text can be read back until [t] plus that span, hence,
    the write coming after the record was stamped, at every time before the
    record's [staleUntil], also past its [expiresAt]; and reading it gives
    the record back. *)
Theorem C9_store_expiry p r started cached results t_done t_stamp now st st' :
  client = true ->
  refresh_fetched p r started cached results t_done t_stamp now st = Some (None, st') ->
  exists record snap text,
    memoryCache st' !! r_mode r = Some record
    /\ heap st' !! payload record = Some snap
    /\ cachedAt record = now
    /\ serialize record st' = Some text
    /\ text = {| s_payload := json_snapshot snap; s_cachedAt := cachedAt record;
                 s_expiresAt := expiresAt record; s_staleUntil := staleUntil record |}
    /\ snap_timestamp (s_payload text) = snap_timestamp snap
    /\ metadata (s_payload text) = metadata snap
    /\ name <$> bodies (s_payload text) = name <$> bodies snap
    /\ Forall2 body_written (bodies snap) (bodies (s_payload text))
    /\ promises st' !! p
         = Some (Pending r (Writing record (Some (text, staleUntil record - cachedAt record))))
    /\ staleUntil record - cachedAt record = TTL + SWR
    /\ (forall st1 t result st2,
          refresh_written r record (Some (text, staleUntil record - cachedAt record))
            None t st1 = Some (result, st2) ->
          (forall t', t' < t + (TTL + SWR) ->
             store_get (store st2) (CACHE_KEY_BY_MODE (r_mode r)) t' = Some text)
          /\ (cachedAt record <= t ->
              forall t', t' < staleUntil record ->
                store_get (store st2) (CACHE_KEY_BY_MODE (r_mode r)) t' = Some text))
    /\ (forall st3, exists parsed st4,
          readCache (Fulfilled (Some text)) (r_mode r) st3 = (Some parsed, st4)
          /\ (cachedAt parsed, expiresAt parsed, staleUntil parsed)
             = (cachedAt record, expiresAt record, staleUntil record)
          /\ heap st4 !! payload parsed = Some (json_snapshot snap)).
Proof.
  intros Hc Hr.
  apply snap_refresh_fetched_fulfilled in Hr
    as (cs & snap & warns & record & issued & _ & _ & Hrec & _ & Hh & Hm & _ & _ & Hp & Hiss).
  rewrite Hc in Hiss. subst issued.
  assert (Hsnap : heap st' !! payload record = Some snap)
    by (rewrite Hh; apply lookup_insert_eq).
  exists record, snap. eexists. split_and!.
  - rewrite Hm. apply lookup_insert_eq.
  - done.
  - by rewrite Hrec.
  - unfold serialize. rewrite Hsnap. reflexivity.
  - reflexivity.
  - reflexivity.
  - reflexivity.
  - cbn. rewrite <- list_fmap_compose. reflexivity.
  - apply snap_json_bodies_written.
  - rewrite Hp. apply lookup_insert_eq.
  - rewrite Hrec. simpl. lia.
  - intros st1 t result st2 Hw.
    apply snap_refresh_written_cases in Hw as (snap1 & _ & _ & _ & _ & _ & _ & Hs).
    assert (Hget : forall t', t' < t + (staleUntil record - cachedAt record) ->
      store_get (store st2) (CACHE_KEY_BY_MODE (r_mode r)) t'
        = Some {| s_payload := json_snapshot snap; s_cachedAt := cachedAt record;
                  s_expiresAt := expiresAt record; s_staleUntil := staleUntil record |}).
    { intros t' Ht'. rewrite Hs. unfold store_get, store_set.
      rewrite lookup_insert_eq. simpl. by rewrite bool_decide_true. }
    split.
    + intros t' Ht'. apply Hget. rewrite Hrec. simpl. lia.
    + intros Hle t' Ht'. apply Hget. lia.
  - intros st3. unfold EphemerisCache.readCache, getRedisClient. rewrite Hc.
    eexists _, _. split; [reflexivity|]. cbn. split; [done|]. apply lookup_insert_eq.
Qed.


(** *** Further properties of the snapshot cache *)

Lemma snap_enter_return o now t_dec reply st res st' :
  enter o now t_dec reply st = Some (Return res, st') ->
  exists c st1 snap,
    forceRefresh o = false
    /\ readCache reply (mode_of (includeObserver o)) st = (Some c, st1)
    /\ heap st1 !! payload c = Some snap
    /\ heap st' = heap st1 /\ memoryCache st' = memoryCache st1
    /\ ((now - cachedAt c < TTL /\ cacheState res = HIT)
        \/ (TTL <= now - cachedAt c < TTL + SWR /\ cacheState res = STALE))
    /\ res = {| res_payload :=
                  decoratePayloadMetadata t_dec snap (cacheState res) backend_now
                    (now - cachedAt c) (correlationId o);
                cacheState := cacheState res; cacheBackend := backend_now;
                cacheAgeMs := now - cachedAt c |}.
Proof.
  intros He.
  assert (Hjoin : forall st1,
    enter o now t_dec reply st = Some (join_or_refresh o (mode_of (includeObserver o)) st1) ->
    False).
  { intros st1 Hj. rewrite He in Hj. injection Hj as Hj.
    symmetry in Hj. apply snap_join_or_refresh_cases in Hj as (p & [=] & _). }
  destruct (forceRefresh o) eqn:Hf.
  { exfalso. eapply Hjoin. by apply snap_enter_forced. }
  destruct (readCache reply (mode_of (includeObserver o)) st) as [[c|] st1] eqn:Hread.
  2:{ exfalso. eapply Hjoin. by eapply snap_enter_absent. }
  destruct (decide (now - cachedAt c < TTL)) as [Hfresh|Hold].
  - destruct (heap st1 !! payload c) as [snap|] eqn:Hsnap.
    + rewrite (snap_enter_fresh o now t_dec reply st c st1 snap Hf Hread Hsnap Hfresh) in He.
      injection He as <- <-. exists c, st1, snap. split_and!; try done. by left.
    + unfold EphemerisCache.enter in He. rewrite Hf, Hread in He.
      rewrite (bool_decide_true _ Hfresh) in He. cbn in He. by rewrite Hsnap in He.
  - destruct (decide (now - cachedAt c < TTL + SWR)) as [Hstale|Hexp].
    + destruct (heap st1 !! payload c) as [snap|] eqn:Hsnap.
      * assert (Hw : TTL <= now - cachedAt c < TTL + SWR) by lia.
        pose proof (snap_enter_stale o now t_dec reply st c st1 snap Hf Hread Hsnap Hw) as Hs.
        cbv zeta in Hs. rewrite Hs in He. injection He as <- <-.
        exists c, st1, snap. split_and!; try done.
        -- by destruct (inflightByMode st1 !! _).
        -- by destruct (inflightByMode st1 !! _).
        -- by right.
      * unfold EphemerisCache.enter in He. rewrite Hf, Hread in He.
        rewrite (bool_decide_false _ Hold), (bool_decide_true _ Hstale) in He.
        cbn in He.
        destruct (inflightByMode st1 !! _); cbn in He; by rewrite Hsnap in He.
    + exfalso. eapply Hjoin. eapply snap_enter_expired; [done..|lia|lia].
Qed.

(** What the continuations run by one settlement hand out, and whom they
    leave waiting. *)
Lemma snap_resume_all_inv (P : Settled (SnapshotResult EphemerisSnapshot) -> Prop)
    (Q : Caller -> Prop) t p res ws : forall st out ws' st' out',
  resume_all t p res ws st out = Some (ws', st', out') ->
  (forall w st0 x st1, w ∈ ws -> same_maps st st0 ->
     resume t w res st0 = Some (inr x, st1) -> P x) ->
  (forall w st0 w' st1, w ∈ ws -> same_maps st st0 ->
     resume t w res st0 = Some (inl w', st1) -> Q w') ->
  (forall n x, out !! n = Some x -> P x) ->
  (forall w, w ∈ ws -> Q w) ->
  (forall n x, out' !! n = Some x -> P x) /\ (forall w, w ∈ ws' -> Q w).
Proof.
  induction ws as [|w ws IH]; intros st out ws' st' out'; simpl.
  { intros [= <- <- <-] _ _ Hout _. split; [done|]. intros w Hw. by apply elem_of_nil in Hw. }
  intros Hall HP HQ Hout Hws.
  assert (Hkeep : forall rest st1 out1,
    resume_all t p res ws st out = Some (rest, st1, out1) ->
    (w :: rest, st1, out1) = (ws', st', out') ->
    (forall n x, out' !! n = Some x -> P x) /\ (forall w0, w0 ∈ ws' -> Q w0)).
  { intros rest st1 out1 Hrec [= <- <- <-].
    eapply IH in Hrec as [H1 H2]; eauto.
    - split; [done|]. intros w0 Hw0. apply elem_of_cons in Hw0 as [->|Hw0]; [|by apply H2].
      apply Hws. by left.
    - intros w0 st0 x st2 Hw0. apply HP. by right.
    - intros w0 st0 x st2 Hw0. apply HQ. by right.
    - intros w0 Hw0. apply Hws. by right. }
  destruct (c_wait w) as [q|err0] eqn:Hw.
  2:{ destruct (resume_all t p res ws st out) as [[[rest st1] out1]|] eqn:Er; [|done].
      injection Hall as Heq1 Heq2 Heq3. eapply Hkeep; [reflexivity|congruence]. }
  case_bool_decide as Hq.
  2:{ destruct (resume_all t p res ws st out) as [[[rest st1] out1]|] eqn:Er; [|done].
      injection Hall as Heq1 Heq2 Heq3. eapply Hkeep; [reflexivity|congruence]. }
  subst q. clear Hkeep.
  destruct (resume t w res st) as [[[w1|r1] st1]|] eqn:Ers; [| |done].
  - destruct (resume_all t p res ws st1 out) as [[[rest st2] out2]|] eqn:Er; [|done].
    injection Hall as <- <- <-.
    pose proof (snap_resume_cases _ _ _ _ _ _ Ers) as [Hsame _].
    eapply IH in Er as [H1 H2]; eauto.
    + split; [done|]. intros w0 Hw0. apply elem_of_cons in Hw0 as [->|Hw0]; [|by apply H2].
      eapply HQ; [by left|apply snap_same_maps_refl|exact Ers].
    + intros w0 st0 x st3 Hw0 Hs. apply HP; [by right|]. by eapply snap_same_maps_trans.
    + intros w0 st0 x st3 Hw0 Hs. apply HQ; [by right|]. by eapply snap_same_maps_trans.
    + intros w0 Hw0. apply Hws. by right.
  - pose proof (snap_resume_cases _ _ _ _ _ _ Ers) as [Hsame _].
    eapply IH in Hall as [H1 H2]; eauto.
    + intros w0 st0 x st3 Hw0 Hs. apply HP; [by right|]. by eapply snap_same_maps_trans.
    + intros w0 st0 x st3 Hw0 Hs. apply HQ; [by right|]. by eapply snap_same_maps_trans.
    + intros n x Hn. destruct (decide (n = c_call w)) as [->|Hne].
      * rewrite lookup_insert_eq in Hn. injection Hn as <-.
        eapply HP; [by left|apply snap_same_maps_refl|exact Ers].
      * rewrite lookup_insert_ne in Hn by done. by eapply Hout.
    + intros w0 Hw0. apply Hws. by right.
Qed.

Lemma snap_decorate_labelled t snap cs age cid :
  match cs with
  | HIT => age < TTL
  | STALE => TTL <= age < TTL + SWR
  | MISS => age = 0
  | FROZEN => False
  end ->
  labelled TTL SWR backend_now
    {| res_payload := decoratePayloadMetadata t snap cs backend_now age cid;
       cacheState := cs; cacheBackend := backend_now; cacheAgeMs := age |}.
Proof.
  intros Hw. split; cbn.
  - done.
  - done.
  - done.
  - by destruct cs.
  - by destruct cs.
  - by eexists.
  - by destruct cs.
Qed.

Lemma snap_frozen_labelled o now t err c st res st' :
  frozen_or_throw o now t err (Some c) st = Some (Fulfilled res, st') ->
  labelled TTL SWR backend_now res.
Proof.
  unfold EphemerisCache.frozen_or_throw.
  destruct (heap st !! payload c) as [snap|]; [|done].
  intros [= <- <-]. split; cbn; first [done | by eauto].
Qed.

Local Abbreviation answer_ok := (answer_ok TTL SWR backend_now).

Lemma snap_settle_answers t p r res s st s' :
  settle t p r res s st = Some s' ->
  match res with
  | Fulfilled result => cacheState result = MISS /\ cacheBackend result = backend_now
                        /\ cacheAgeMs result = 0
  | Rejected e => e = no_data
  end ->
  (forall n x, results s !! n = Some x -> answer_ok x) ->
  (forall w, w ∈ waiting s -> waits_ok w) ->
  (forall n x, results s' !! n = Some x -> answer_ok x)
  /\ (forall w, w ∈ waiting s' -> waits_ok w).
Proof.
  unfold EphemerisCache.settle.
  destruct (resume_all _ _ _ _ _ _) as [[[ws st2] out]|] eqn:Er; [|done].
  intros [= <-] Hres Hout Hws. cbn.
  eapply snap_resume_all_inv in Er; [exact Er| | |exact Hout|exact Hws].
  - intros w st0 x st1 _ _ Hr. apply snap_resume_cases in Hr as [_ Hr].
    destruct res as [result|e].
    + destruct Hr as (_ & out0 & Hf & [= ->]). cbn.
      unfold EphemerisCache.resume_fulfilled in Hf.
      destruct (heap st0 !! res_payload result) as [snap|]; [|done].
      injection Hf as <-. destruct Hres as (-> & -> & ->).
      by apply snap_decorate_labelled.
    + subst e. destruct (memoryCache st0 !! _) as [c|].
      * destruct Hr as (out0 & Hf & [= ->]). destruct out0 as [res0|e0]; cbn.
        -- by eapply snap_frozen_labelled.
        -- unfold EphemerisCache.frozen_or_throw in Hf.
           by destruct (heap st0 !! payload c).
      * by destruct Hr as [_ ?].
  - intros w st0 w' st1 _ _ Hr. apply snap_resume_cases in Hr as [_ Hr].
    destruct res as [result|e].
    + by destruct Hr as (_ & out0 & _ & ?).
    + destruct (memoryCache st0 !! _) as [c|].
      * by destruct Hr as (out0 & _ & ?).
      * destruct Hr as [_ [= ->]]. intros err [= <-]. done.
Qed.

Lemma snap_answers_step s e s' :
  step e s = Some s' ->
  (forall n x, results s !! n = Some x -> answer_ok x) ->
  (forall w, w ∈ waiting s -> waits_ok w) ->
  (forall n x, results s' !! n = Some x -> answer_ok x)
  /\ (forall w, w ∈ waiting s' -> waits_ok w).
Proof.
  intros Hstep Hout Hws.
  assert (Hloop : forall p r started cached collected t_done t_stamp now t_dec st s1,
    refresh_loop p r started cached collected t_done t_stamp now t_dec s st = Some s1 ->
    (forall n x, results s1 !! n = Some x -> answer_ok x)
    /\ (forall w, w ∈ waiting s1 -> waits_ok w)).
  { intros p r started cached collected t_done t_stamp now t_dec st s1 Hl.
    apply snap_refresh_loop_cases in Hl
      as [(cfg & _ & ->)|(_ & [(e0 & st' & Ef & Hs)|(st' & Ef & ->)])]; [done| |done].
    apply snap_refresh_fetched_rejected in Ef as (-> & _).
    eapply snap_settle_answers; [exact Hs|done|done|done]. }
  destruct e as [o now t_dec reach t_store|p reach t_store t_started t_done t_stamp now t_dec
                |p outcome t_done t_stamp now t_dec|p reach t_store t_dec
                |n reach t_store t_dec| |sto];
    cbn [EphemerisCache.step] in Hstep.
  - set (reply := get_reply _ _ _ _) in Hstep.
    destruct (enter o now t_dec reply (state s)) as [[[res|p] st']|] eqn:E; [| |done].
    + injection Hstep as <-. cbn. split; [|done].
      intros n x Hn. destruct (decide (n = ncalls s)) as [->|Hne].
      * rewrite lookup_insert_eq in Hn. injection Hn as <-. cbn.
        apply snap_enter_return in E as (c & st1 & snap & _ & _ & _ & _ & _ & Hw & ->).
        apply snap_decorate_labelled. by destruct Hw as [[? ->]|[? ->]].
      * rewrite lookup_insert_ne in Hn by done. by eapply Hout.
    + injection Hstep as <-. cbn. split; [done|].
      intros w Hw. apply elem_of_app in Hw as [Hw|Hw]; [by apply Hws|].
      apply list_elem_of_singleton in Hw as ->. by intros err.
  - apply snap_step_read in Hstep as (r & cached & st1 & Hp & Hread & Hl).
    by eapply Hloop.
  - apply snap_step_fetched in Hstep as (r & started & cached & collected & Hp & Hl).
    by eapply Hloop.
  - destruct (promises (state s) !! p) as [[r [| |record issued]|]|]; try done.
    destruct (refresh_written r record issued reach t_store (state s))
      as [[result st']|] eqn:Ew; [|done].
    apply snap_refresh_written_cases in Ew as (snap & _ & -> & _).
    eapply snap_settle_answers; [exact Hstep|done|done|done].
  - destruct (remove_caller n (waiting s)) as [[w rest]|] eqn:Erm; [|done].
    destruct (c_wait w) as [|err] eqn:Hw; [done|].
    set (mode := mode_of (includeObserver (c_options w))) in *.
    destruct (readCache (get_reply reach t_store mode (state s)) mode (state s))
      as [cached st1] eqn:Hread.
    destruct (frozen_or_throw (c_options w) (c_now w) t_dec err cached st1)
      as [[out st2]|] eqn:Efz; [|done].
    injection Hstep as <-. cbn.
    apply snap_remove_caller_spec in Erm as (Hc & Hin & Hrest & _).
    split; [|intros w' Hw'; by apply Hws, Hrest].
    intros k x Hk. destruct (decide (k = n)) as [->|Hne].
    + rewrite lookup_insert_eq in Hk. injection Hk as <-.
      pose proof (Hws w Hin err Hw) as ->.
      destruct cached as [c|].
      * destruct out as [res|e]; cbn.
        -- by eapply snap_frozen_labelled.
        -- unfold EphemerisCache.frozen_or_throw in Efz.
           by destruct (heap st1 !! payload c).
      * rewrite snap_frozen_or_throw_none in Efz. by injection Efz as <- _.
    + rewrite lookup_insert_ne in Hk by done. by eapply Hout.
  - destruct (_ && _); [|done].
    destruct (inflightByMode (state s) !! state_vectors); by injection Hstep as <-.
  - by injection Hstep as <-.
Qed.

Lemma snap_answers_run es : forall s s',
  run es s = Some s' ->
  (forall n x, results s !! n = Some x -> answer_ok x) ->
  (forall w, w ∈ waiting s -> waits_ok w) ->
  (forall n x, results s' !! n = Some x -> answer_ok x)
  /\ (forall w, w ∈ waiting s' -> waits_ok w).
Proof.
  induction es as [|e es IH]; intros s s'.
  - by intros [= <-].
  - rewrite snap_run_cons. destruct (step e s) as [s1|] eqn:E; [|done].
    intros Hrun Hout Hws. destruct (snap_answers_step _ _ _ E Hout Hws).
    by eapply IH.
Qed.

Lemma snap_answers_reachable es s n x :
  run es boot = Some s -> results s !! n = Some x ->
  match x with
  | Fulfilled res => labelled TTL SWR backend_now res
  | Rejected e => e = ErrorObj "No Horizons data available"
  end.
Proof.
  intros Hrun Hn.
  destruct (snap_answers_run es boot s Hrun) as [H _]; [done|..].
  - intros w Hw. by apply elem_of_nil in Hw.
  - by apply (H n x).
Qed.

(** X6. Whatever [getSnapshot] answers, in any run from start-up: a result
    whose payload metadata repeats the result's own state, age and
    backend (which is the backend of the process), whose [cacheStale] flag
    is set exactly for STALE and FROZEN, whose remaining lifetime is zero
    when FROZEN and the TTL less the age, not below zero, otherwise, whose
    [generatedAt] is set, and whose age lies in the window of its state
    (below the TTL for HIT, in the stale window for STALE, zero for MISS; a
    FROZEN payload is flagged frozen with a reason); or else the error
    "No Horizons data available", the only one a call ever throws. *)
Theorem X_snapshot_answers_labelled es s n x :
  run es boot = Some s -> results s !! n = Some x ->
  match x with
  | Fulfilled res => labelled TTL SWR backend_now res
  | Rejected e => e = ErrorObj "No Horizons data available"
  end.
Proof. apply snap_answers_reachable. Qed.

(** *** References never dangle, and no segment gets stuck *)

Lemma snap_clear_inflight_frame mode p st :
  promises (clear_inflight mode p st) = promises st
  /\ heap (clear_inflight mode p st) = heap st
  /\ memoryCache (clear_inflight mode p st) = memoryCache st
  /\ store (clear_inflight mode p st) = store st
  /\ upstream (clear_inflight mode p st) = upstream st.
Proof.
  unfold clear_inflight. destruct (inflightByMode st !! mode); [|done].
  by case_bool_decide.
Qed.

Lemma snap_settle_promises t p r res s st s' :
  settle t p r res s st = Some s' ->
  promises (state s') = <[p := Done res]> (promises st)
  /\ upstream (state s') = upstream st.
Proof.
  unfold EphemerisCache.settle.
  destruct (resume_all _ _ _ _ _ _) as [[[ws st2] out]|] eqn:Er; [|done].
  intros [= <-]. cbn.
  apply snap_resume_all_spec in Er as ((_ & _ & _ & _ & Hp & Hu) & _).
  destruct (snap_clear_inflight_frame (r_mode r) p (set_promise p (Done res) st))
    as (Hp' & _ & _ & _ & Hu').
  rewrite Hp, Hp', Hu, Hu'. done.
Qed.

(** What one step does to a promise. *)
Lemma snap_step_promises e s s' q :
  step e s = Some s' ->
  promises (state s') !! q = promises (state s) !! q
  \/ (exists r, promises (state s') !! q = Some (Pending r Reading)
                /\ promises (state s) !! q = None)
  \/ (exists r ph res, promises (state s') !! q = Some (Done res)
                       /\ promises (state s) !! q = Some (Pending r ph))
  \/ (exists r started,
        promises (state s') !! q
          = Some (Pending r (Fetching started (memoryCache (state s') !! r_mode r) []))
        /\ promises (state s) !! q = Some (Pending r Reading)
        /\ (0 < length PLANETS)%nat)
  \/ (exists r started cached collected outcome,
        promises (state s') !! q
          = Some (Pending r (Fetching started cached (collected ++ [outcome])))
        /\ promises (state s) !! q = Some (Pending r (Fetching started cached collected))
        /\ (length (collected ++ [outcome]) < length PLANETS)%nat)
  \/ (exists r record issued started cached collected,
        promises (state s') !! q = Some (Pending r (Writing record issued))
        /\ promises (state s) !! q = Some (Pending r (Fetching started cached collected))
        /\ memoryCache (state s') !! r_mode r = Some record).
Proof.
  intros Hstep.
  assert (Hstarts : forall st st' mode reason cid p,
    starts st st' mode reason cid p ->
    promises st' !! q = promises st !! q
    \/ (exists r, promises st' !! q = Some (Pending r Reading) /\ promises st !! q = None)).
  { intros st st' mode reason cid p (_ & Hnone & Hp & _). rewrite Hp.
    destruct (decide (q = p)) as [->|Hne].
    - right. rewrite lookup_insert_eq. eauto.
    - left. by rewrite lookup_insert_ne. }
  assert (Hloop : forall p r started cached collected t_done t_stamp now t_dec st s1,
    promises st = promises (state s) ->
    refresh_loop p r started cached collected t_done t_stamp now t_dec s st = Some s1 ->
    (q <> p /\ promises (state s1) !! q = promises (state s) !! q)
    \/ (q = p
        /\ ((promises (state s1) !! q = Some (Pending r (Fetching started cached collected))
             /\ memoryCache (state s1) = memoryCache st
             /\ (length collected < length PLANETS)%nat)
            \/ (exists res, promises (state s1) !! q = Some (Done res))
            \/ (collected <> []
                /\ exists record issued,
                     promises (state s1) !! q = Some (Pending r (Writing record issued))
                     /\ memoryCache (state s1) !! r_mode r = Some record)))).
  { intros p r started cached collected t_done t_stamp now t_dec st s1 Hpr Hl.
    assert (Hq : forall st2 x, promises st2 = <[p := x]> (promises (state s)) ->
      (q <> p /\ promises st2 !! q = promises (state s) !! q)
      \/ (q = p /\ promises st2 !! q = Some x)).
    { intros st2 x ->. destruct (decide (q = p)) as [->|Hne].
      - right. by rewrite lookup_insert_eq.
      - left. by rewrite lookup_insert_ne. }
    apply snap_refresh_loop_cases in Hl
      as [(cfg & Hcfg & ->)|(_ & [(e0 & st' & Ef & Hs)|(st' & Ef & ->)])].
    - apply lookup_lt_Some in Hcfg.
      match goal with |- context [state {| state := ?x |}] =>
        destruct (Hq x (Pending r (Fetching started cached collected)))
          as [?|[-> Hx]] end; [cbn; by rewrite Hpr|by left|].
      right. split; [done|]. left. by split.
    - apply snap_refresh_fetched_rejected in Ef as (_ & _ & _ & _ & _ & Hp1).
      apply snap_settle_promises in Hs as [Hs _]. rewrite Hp1, Hpr in Hs.
      destruct (Hq _ _ Hs) as [?|[-> Hx]]; [by left|].
      right. split; [done|]. right; left. eauto.
    - assert (Hne : collected <> []).
      { intros ->. by apply snap_refresh_fetched_nil in Ef. }
      apply snap_refresh_fetched_fulfilled in Ef
        as (cs & snap & warns & record & issued & _ & _ & _ & _ & _ & Hm & _ & _ & Hp1 & _).
      rewrite Hpr in Hp1. destruct (Hq _ _ Hp1) as [?|[-> Hx]]; [by left|].
      right. split; [done|]. right; right. split; [done|].
      exists record, issued. split; [done|]. cbn. rewrite Hm. apply lookup_insert_eq. }
  destruct e as [o now t_dec reach t_store|p reach t_store t_started t_done t_stamp now t_dec
                |p outcome t_done t_stamp now t_dec|p reach t_store t_dec
                |n reach t_store t_dec| |sto];
    cbn [EphemerisCache.step] in Hstep.
  - set (reply := get_reply _ _ _ _) in Hstep.
    destruct (enter o now t_dec reply (state s)) as [[out st']|] eqn:E; [|done].
    assert (state s' = st') as -> by (destruct out; by injection Hstep as <-).
    apply snap_enter_cases in E as (cached & st1 & Hread & Hout).
    assert (Hp1 : promises st1 = promises (state s)).
    { destruct (forceRefresh o).
      - by destruct Hread as [_ ->].
      - by apply snap_readCache_maps in Hread as (? & _). }
    rewrite <- Hp1.
    destruct Hout as [(res & _ & _ & [Hsame|(p & Hst)])|(p & _ & [[_ ->]|Hst])].
    + left. destruct Hsame as (_ & _ & _ & _ & -> & _). done.
    + destruct (Hstarts _ _ _ _ _ _ Hst) as [?|?]; [by left|by right; left].
    + by left.
    + destruct (Hstarts _ _ _ _ _ _ Hst) as [?|?]; [by left|by right; left].
  - apply snap_step_read in Hstep as (r & cached & st1 & Hp & Hread & Hl).
    pose proof (snap_readCache_result _ _ _ _ _ Hread) as Hres.
    apply snap_readCache_maps in Hread as (Hp1 & _).
    destruct (Hloop _ _ _ _ _ _ _ _ _ _ _ Hp1 Hl)
      as [[_ ?]|[-> [(Hq & Hm & Hlt)|[[res Hq]|[Hne _]]]]]; [by left| | |done].
    + right; right; right; left. exists r, t_started. rewrite Hm, Hres. done.
    + right; right; left. eauto.
  - apply snap_step_fetched in Hstep as (r & started & cached & collected & Hp & Hl).
    destruct (Hloop _ _ _ _ _ _ _ _ _ _ _ eq_refl Hl)
      as [[_ ?]|[-> [(Hq & Hm & Hlt)|[[res Hq]|(_ & record & issued & Hq & Hm)]]]];
      [by left|..].
    + right; right; right; right; left. eauto 10.
    + right; right; left. eauto.
    + right; right; right; right; right. eauto 10.
  - destruct (promises (state s) !! p) as [[r [| |record issued]|]|] eqn:Hp; try done.
    destruct (refresh_written r record issued reach t_store (state s))
      as [[result st']|] eqn:Ew; [|done].
    apply snap_refresh_written_cases in Ew as (snap & _ & _ & _ & _ & _ & Hp1 & _).
    apply snap_settle_promises in Hstep as [-> _]. rewrite Hp1.
    destruct (decide (q = p)) as [->|Hne].
    + right; right; left. rewrite lookup_insert_eq. eauto.
    + left. by rewrite lookup_insert_ne.
  - destruct (remove_caller n (waiting s)) as [[w rest]|] eqn:Erm; [|done].
    destruct (c_wait w) as [|err] eqn:Hw; [done|].
    set (mode := mode_of (includeObserver (c_options w))) in *.
    destruct (readCache (get_reply reach t_store mode (state s)) mode (state s))
      as [cached st1] eqn:Hread.
    destruct (frozen_or_throw (c_options w) (c_now w) t_dec err cached st1)
      as [[out st2]|] eqn:Efz; [|done].
    injection Hstep as <-. cbn. left.
    apply snap_readCache_maps in Hread as (Hp1 & _).
    apply snap_frozen_or_throw_frame in Efz as (_ & _ & _ & _ & Hp2 & _). congruence.
  - destruct (_ && _); [|done].
    destruct (inflightByMode (state s) !! state_vectors) eqn:Hi;
      injection Hstep as <-; [by left|]. cbn.
    destruct (snap_setInflight_refresh_frame "background-prewarm" None state_vectors
                (state s)) as (_ & Hnone & Hp & Hi' & Hh & Hm & Hs & Hu).
    destruct (Hstarts (state s)
                (setInflight_refresh "background-prewarm" None state_vectors (state s)).2
                state_vectors "background-prewarm" None (fresh (dom (promises (state s)))))
      as [?|?]; [by repeat split|by left|by right; left].
  - injection Hstep as <-. by left.
Qed.

Lemma snap_read_through_allocated mode st st' :
  read_through mode st st' ->
  (forall l, is_Some (heap st !! l) -> is_Some (heap st' !! l))
  /\ ((forall m c, memoryCache st !! m = Some c -> is_Some (heap st !! payload c)) ->
      forall m c, memoryCache st' !! m = Some c -> is_Some (heap st' !! payload c)).
Proof.
  intros [(Hh & Hm & _)|(text & parsed & _ & Hnone & Hh & Hm & _)].
  - rewrite Hh, Hm. done.
  - rewrite Hh, Hm. split.
    + intros l [x Hl]. destruct (decide (l = payload parsed)) as [->|Hne].
      * rewrite lookup_insert_eq. eauto.
      * rewrite lookup_insert_ne by done. eauto.
    + intros Hal m c Hc. destruct (decide (m = mode)) as [->|Hne].
      * rewrite lookup_insert_eq in Hc. injection Hc as <-.
        rewrite lookup_insert_eq. eauto.
      * rewrite lookup_insert_ne in Hc by done.
        destruct (Hal m c Hc) as [x Hx].
        destruct (decide (payload c = payload parsed)) as [->|Hne'].
        -- rewrite lookup_insert_eq. eauto.
        -- rewrite lookup_insert_ne by done. eauto.
Qed.

Lemma snap_allocated_step e s s' :
  allocated (state s) -> step e s = Some s' -> allocated (state s').
Proof.
  intros [Hmem Hfet Hwri] Hstep.
  pose proof (snap_step_data _ _ _ Hstep) as Hdata.
  assert (Hboth :
    (forall l, is_Some (heap (state s) !! l) -> is_Some (heap (state s') !! l))
    /\ forall m c, memoryCache (state s') !! m = Some c ->
         is_Some (heap (state s') !! payload c)).
  { destruct e as [o now t_dec reach t_store|p reach t_store t_started t_done t_stamp now t_dec
                  |p outcome t_done t_stamp now t_dec|p reach t_store t_dec
                  |n reach t_store t_dec| |sto].
    - destruct (forceRefresh o).
      + destruct Hdata as (Hh & Hm & _). rewrite Hh, Hm. done.
      + apply snap_read_through_allocated in Hdata as [H1 H2]. split; [done|by apply H2].
    - destruct Hdata as (r & _ & Hrt).
      apply snap_read_through_allocated in Hrt as [H1 H2]. split; [done|by apply H2].
    - destruct Hdata as (r & started & cached & collected & _
                         & [(Hh & Hm & _)|(record & snap & _ & _ & _ & Hnone & Hh & Hm & _)]).
      + rewrite Hh, Hm. done.
      + rewrite Hh, Hm. split.
        * intros l [x Hl]. destruct (decide (l = payload record)) as [->|Hne].
          -- rewrite lookup_insert_eq. eauto.
          -- rewrite lookup_insert_ne by done. eauto.
        * intros m c Hc. destruct (decide (m = r_mode r)) as [->|Hne].
          -- rewrite lookup_insert_eq in Hc. injection Hc as <-.
             rewrite lookup_insert_eq. eauto.
          -- rewrite lookup_insert_ne in Hc by done.
             destruct (Hmem m c Hc) as [x Hx].
             destruct (decide (payload c = payload record)) as [->|Hne'].
             ++ rewrite lookup_insert_eq. eauto.
             ++ rewrite lookup_insert_ne by done. eauto.
    - destruct Hdata as (r & record & issued & snap & _ & Hsnap & Hh & Hm & _).
      rewrite Hh, Hm.
      assert (Hmono : forall l, is_Some (heap (state s) !! l) ->
        is_Some (<[payload record :=
                     with_metadata snap
                       (miss_metadata TTL iso (metadata snap) backend_now (cachedAt record)
                          (r_correlationId r))]> (heap (state s)) !! l)).
      { intros l [x Hl]. destruct (decide (l = payload record)) as [->|Hne].
        - rewrite lookup_insert_eq. eauto.
        - rewrite lookup_insert_ne by done. eauto. }
      split; [done|]. intros m c Hc. by apply Hmono, (Hmem m).
    - destruct Hdata as (w & _ & _ & Hrt).
      apply snap_read_through_allocated in Hrt as [H1 H2]. split; [done|by apply H2].
    - destruct Hdata as (Hh & Hm & _). rewrite Hh, Hm. done.
    - destruct Hdata as (Hh & Hm & _). rewrite Hh, Hm. done. }
  destruct Hboth as [Hmono Hmem'].
  split; [done|..].
  - intros p r started c collected Hp.
    destruct (snap_step_promises e s s' p Hstep)
      as [Heq|[(r0 & Hp' & _)|[(r0 & ph & res & Hp' & _)
         |[(r0 & st0 & Hp' & _)|[(r0 & st0 & c0 & col0 & out0 & Hp' & Hp0 & _)
         |(r0 & rec0 & iss & st0 & c0 & col0 & Hp' & _)]]]]];
      rewrite ?Heq in Hp; try congruence.
    + by eapply Hmono, Hfet.
    + rewrite Hp' in Hp. injection Hp as ? ? Hc ?. subst. by eapply Hmem'.
    + rewrite Hp' in Hp. injection Hp as ? ? ? ?. subst. by eapply Hmono, Hfet.
  - intros p r record issued Hp.
    destruct (snap_step_promises e s s' p Hstep)
      as [Heq|[(r0 & Hp' & _)|[(r0 & ph & res & Hp' & _)
         |[(r0 & st0 & Hp' & _)|[(r0 & st0 & c0 & col0 & out0 & Hp' & Hp0 & _)
         |(r0 & rec0 & iss & st0 & c0 & col0 & Hp' & _ & Hm)]]]]];
      rewrite ?Heq in Hp; try congruence.
    + by eapply Hmono, Hwri.
    + rewrite Hp' in Hp. injection Hp as <- <- <-. by eapply Hmem'.
Qed.

Lemma snap_allocated_boot : allocated (state boot).
Proof. by split. Qed.

Lemma snap_allocated_run es : forall s s',
  allocated (state s) -> run es s = Some s' -> allocated (state s').
Proof.
  induction es as [|e es IH]; intros s s' Hal.
  - by intros [= <-].
  - rewrite snap_run_cons. destruct (step e s) as [s1|] eqn:E; [|done].
    apply IH. by eapply snap_allocated_step.
Qed.

Lemma snap_resume_total t w res st :
  (forall m c, memoryCache st !! m = Some c -> is_Some (heap st !! payload c)) ->
  match res with
  | Fulfilled result => is_Some (heap st !! res_payload result)
  | Rejected _ => True
  end ->
  is_Some (resume t w res st).
Proof.
  intros Hmem Hres. unfold EphemerisCache.resume. destruct res as [result|err].
  - unfold EphemerisCache.resume_fulfilled. destruct Hres as [snap ->]. eauto.
  - destruct (memoryCache st !! _) as [c|] eqn:Hc; [|eauto].
    unfold EphemerisCache.frozen_or_throw.
    destruct (Hmem _ _ Hc) as [snap ->]. eauto.
Qed.

Lemma snap_resume_all_total t p res ws : forall st out,
  (forall w st0, w ∈ ws -> same_maps st st0 -> is_Some (resume t w res st0)) ->
  is_Some (resume_all t p res ws st out).
Proof.
  induction ws as [|w ws IH]; intros st out Hall; simpl; [eauto|].
  assert (Hrest : forall st1 out1, same_maps st st1 ->
    is_Some (resume_all t p res ws st1 out1)).
  { intros st1 out1 Hs. apply IH. intros w0 st0 Hw0 Hs0.
    apply Hall; [by right|]. by eapply snap_same_maps_trans. }
  destruct (c_wait w) as [q|err0].
  2:{ destruct (Hrest st out (snap_same_maps_refl st)) as [[[rest st1] out1] ->]. eauto. }
  case_bool_decide.
  2:{ destruct (Hrest st out (snap_same_maps_refl st)) as [[[rest st1] out1] ->]. eauto. }
  destruct (Hall w st (ltac:(by left)) (snap_same_maps_refl st)) as [[x st1] Hr].
  rewrite Hr. pose proof (snap_resume_cases _ _ _ _ _ _ Hr) as [Hs _].
  destruct x as [w1|r1].
  - destruct (Hrest st1 out Hs) as [[[rest st2] out2] ->]. eauto.
  - apply Hrest, Hs.
Qed.

Lemma snap_settle_total t p r res s st :
  (forall m c, memoryCache st !! m = Some c -> is_Some (heap st !! payload c)) ->
  match res with
  | Fulfilled result => is_Some (heap st !! res_payload result)
  | Rejected _ => True
  end ->
  is_Some (settle t p r res s st).
Proof.
  intros Hmem Hres. unfold EphemerisCache.settle.
  set (st1 := clear_inflight _ _ _).
  destruct (snap_clear_inflight_frame (r_mode r) p (set_promise p (Done res) st))
    as (_ & Hh & Hm & _).
  fold st1 in Hh, Hm. cbn in Hh, Hm.
  destruct (snap_resume_all_total t p res (waiting s) st1 (results s))
    as [[[ws st2] out] ->]; [|eauto].
  intros w st0 _ (Hh0 & Hm0 & _). apply snap_resume_total.
  - rewrite Hh0, Hm0, Hh, Hm. done.
  - destruct res; [|done]. by rewrite Hh0, Hh.
Qed.

Lemma snap_readCache_allocated reply mode st c st1 :
  (forall m c, memoryCache st !! m = Some c -> is_Some (heap st !! payload c)) ->
  readCache reply mode st = (Some c, st1) ->
  is_Some (heap st1 !! payload c).
Proof.
  intros Hmem Hread.
  pose proof (snap_readCache_result _ _ _ _ _ Hread) as Hc.
  apply snap_readCache_read_through, snap_read_through_allocated in Hread as [_ H].
  by eapply H.
Qed.

Lemma snap_remove_caller_total w ws :
  w ∈ ws -> exists x rest, remove_caller (c_call w) ws = Some (x, rest).
Proof.
  induction ws as [|w0 ws IH]; intros Hw; [by apply elem_of_nil in Hw|].
  simpl. case_bool_decide as Hc; [eauto|].
  apply elem_of_cons in Hw as [->|Hw]; [done|].
  destruct (IH Hw) as (x & rest & ->). eauto.
Qed.

Lemma snap_refresh_loop_total p r started cached collected t_done t_stamp now t_dec s st :
  (forall m c, memoryCache st !! m = Some c -> is_Some (heap st !! payload c)) ->
  (forall c, cached = Some c -> is_Some (heap st !! payload c)) ->
  is_Some (refresh_loop p r started cached collected t_done t_stamp now t_dec s st).
Proof.
  intros Hmem Hc. unfold EphemerisCache.refresh_loop.
  destruct (PLANETS !! length collected); [eauto|].
  destruct (refresh_fetched p r started cached collected t_done t_stamp now st)
    as [[[e|] st']|] eqn:Ef; [|eauto|].
  - apply snap_refresh_fetched_rejected in Ef as (_ & Hh & Hm & _).
    apply snap_settle_total; [|done]. rewrite Hh, Hm. done.
  - exfalso. unfold EphemerisCache.refresh_fetched in Ef.
    assert (Hcs : is_Some (cached_snapshot cached st)).
    { unfold cached_snapshot. destruct cached as [c|]; [|eauto].
      destruct (Hc c eq_refl) as [x ->]. eauto. }
    destruct Hcs as [cs Hcs]. rewrite Hcs in Ef.
    destruct (EphemerisCache.buildPlanetSnapshot _ _ _ _ _ _ _) as [[snap|e] warns];
      [|done].
    unfold EphemerisCache.writeCache_issue, serialize in Ef. cbn in Ef.
    rewrite lookup_insert_eq in Ef. by destruct (_ && _).
Qed.

(** Every segment that is due can run: the lookups of the objects a
    record, a refresh or a result refers to never fail. *)
Lemma snap_progress s :
  consistent s -> allocated (state s) ->
  (forall o now t_dec reach t_store,
     is_Some (step (EvCall o now t_dec reach t_store) s))
  /\ (forall p r reach t_store t_started t_done t_stamp now t_dec,
        promises (state s) !! p = Some (Pending r Reading) ->
        is_Some (step (EvRead p reach t_store t_started t_done t_stamp now t_dec) s))
  /\ (forall p r started cached collected outcome t_done t_stamp now t_dec,
        promises (state s) !! p = Some (Pending r (Fetching started cached collected)) ->
        is_Some (step (EvFetched p outcome t_done t_stamp now t_dec) s))
  /\ (forall p r record issued reach t_store t_dec,
        promises (state s) !! p = Some (Pending r (Writing record issued)) ->
        is_Some (step (EvWritten p reach t_store t_dec) s))
  /\ (forall w err reach t_store t_dec,
        w ∈ waiting s -> c_wait w = AwaitReadCache err ->
        is_Some (step (EvCatchRead (c_call w) reach t_store t_dec) s)).
Proof.
  intros Hcon [Hmem Hfet Hwri]. split_and!.
  - intros o now t_dec reach t_store. cbn [EphemerisCache.step].
    set (reply := get_reply _ _ _ _).
    destruct (enter o now t_dec reply (state s)) as [[[res|p] st']|] eqn:E; [eauto..|].
    exfalso. unfold EphemerisCache.enter in E.
    destruct (forceRefresh o) eqn:Hf; [done|].
    destruct (readCache reply (mode_of (includeObserver o)) (state s))
      as [[c|] st1] eqn:Hread; [|done].
    destruct (snap_readCache_allocated _ _ _ _ _ Hmem Hread) as [snap Hsnap].
    destruct (_ || _); [|done].
    destruct (_ && _); cbn in E; by rewrite Hsnap in E.
  - intros p r reach t_store t_started t_done t_stamp now t_dec Hp.
    cbn [EphemerisCache.step]. rewrite Hp.
    destruct (readCache (get_reply reach t_store (r_mode r) (state s)) (r_mode r) (state s))
      as [cached st1] eqn:Hread.
    apply snap_refresh_loop_total.
    + pose proof Hread as Hrt.
      apply snap_readCache_read_through, snap_read_through_allocated in Hrt as [_ H].
      by apply H.
    + intros c ->. by eapply snap_readCache_allocated.
  - intros p r started cached collected outcome t_done t_stamp now t_dec Hp.
    cbn [EphemerisCache.step]. rewrite Hp.
    apply snap_refresh_loop_total; [done|]. intros c ->. by eapply Hfet.
  - intros p r record issued reach t_store t_dec Hp.
    cbn [EphemerisCache.step]. rewrite Hp.
    destruct (refresh_written r record issued reach t_store (state s))
      as [[result st']|] eqn:Ew.
    + apply snap_refresh_written_cases in Ew as (snap & Hsnap & -> & Hh & Hm & _).
      assert (Hmono : forall l, is_Some (heap (state s) !! l) -> is_Some (heap st' !! l)).
      { intros l [x Hl]. rewrite Hh. destruct (decide (l = payload record)) as [->|Hne].
        - rewrite lookup_insert_eq. eauto.
        - rewrite lookup_insert_ne by done. eauto. }
      apply snap_settle_total; cbn.
      * intros m c Hc. rewrite Hm in Hc. by eapply Hmono, Hmem.
      * apply Hmono. eauto.
    + exfalso. unfold EphemerisCache.refresh_written in Ew.
      destruct (Hwri _ _ _ _ Hp) as [snap Hsnap].
      assert (Hh : heap (writeCache_done (r_mode r) issued reach t_store (state s))
                   = heap (state s)).
      { unfold writeCache_done. destruct issued as [[text px]|]; [|done]. by destruct reach. }
      by rewrite Hh, Hsnap in Ew.
  - intros w err reach t_store t_dec Hw Hwait. cbn [EphemerisCache.step].
    destruct (snap_remove_caller_total w (waiting s) Hw) as (x & rest & Hrm).
    rewrite Hrm. apply snap_remove_caller_spec in Hrm as (Hc & Hx & _).
    assert (x = w) as -> by (by eapply snap_consistent_same_call).
    rewrite Hwait.
    set (mode := mode_of (includeObserver (c_options w))).
    destruct (readCache (get_reply reach t_store mode (state s)) mode (state s))
      as [cached st1] eqn:Hread.
    destruct cached as [c|].
    + destruct (snap_readCache_allocated _ _ _ _ _ Hmem Hread) as [snap Hsnap].
      destruct (snap_frozen_or_throw_found (c_options w) (c_now w) t_dec err c snap st1 Hsnap)
        as (res & -> & _). eauto.
    + rewrite snap_frozen_or_throw_none. eauto.
Qed.

(** X7. In every state reached from start-up the references held by the
    memory records and by the refreshes under way lead to snapshot objects,
    and every segment that is due runs to its end: a call of [getSnapshot]
    returns or suspends, a refresh gets through the cache read, through
    each turn of its fetch loop, whatever the outcome of the fetch, and
    through the cache write, and a caller in its catch block gets its
    answer. *)
Theorem X_snapshot_progress es s :
  run es boot = Some s ->
  allocated (state s)
  /\ (forall o now t_dec reach t_store,
        is_Some (step (EvCall o now t_dec reach t_store) s))
  /\ (forall p r reach t_store t_started t_done t_stamp now t_dec,
        promises (state s) !! p = Some (Pending r Reading) ->
        is_Some (step (EvRead p reach t_store t_started t_done t_stamp now t_dec) s))
  /\ (forall p r started cached collected outcome t_done t_stamp now t_dec,
        promises (state s) !! p = Some (Pending r (Fetching started cached collected)) ->
        is_Some (step (EvFetched p outcome t_done t_stamp now t_dec) s))
  /\ (forall p r record issued reach t_store t_dec,
        promises (state s) !! p = Some (Pending r (Writing record issued)) ->
        is_Some (step (EvWritten p reach t_store t_dec) s))
  /\ (forall w err reach t_store t_dec,
        w ∈ waiting s -> c_wait w = AwaitReadCache err ->
        is_Some (step (EvCatchRead (c_call w) reach t_store t_dec) s)).
Proof.
  intros Hrun.
  assert (Hal : allocated (state s))
    by (eapply snap_allocated_run; [apply snap_allocated_boot|exact Hrun]).
  split; [done|]. apply snap_progress; [|done].
  eapply snap_consistent_run; [apply snap_consistent_boot|exact Hrun].
Qed.

(** *** The two modes do not interfere *)

Lemma snap_read_through_other mode st st' m' :
  read_through mode st st' -> m' <> mode ->
  memoryCache st' !! m' = memoryCache st !! m' /\ store st' = store st.
Proof.
  intros [(_ & -> & ->)|(text & parsed & _ & _ & _ & -> & -> & _)] Hne; [done|].
  by rewrite lookup_insert_ne.
Qed.

Lemma snap_starts_other st st' mode reason cid p m' :
  starts st st' mode reason cid p -> m' <> mode ->
  inflightByMode st' !! m' = inflightByMode st !! m'.
Proof. intros (_ & _ & _ & -> & _) Hne. by rewrite lookup_insert_ne. Qed.

Lemma snap_settle_other t p r res s st s' m' :
  settle t p r res s st = Some s' -> m' <> r_mode r ->
  inflightByMode (state s') !! m' = inflightByMode st !! m'.
Proof.
  unfold EphemerisCache.settle.
  destruct (resume_all _ _ _ _ _ _) as [[[ws st2] out]|] eqn:Er; [|done].
  intros [= <-] Hne. cbn.
  apply snap_resume_all_spec in Er as ((_ & _ & -> & _) & _).
  unfold clear_inflight. cbn.
  destruct (inflightByMode st !! r_mode r) as [current|]; [|done].
  case_bool_decide; [|done]. cbn. by rewrite lookup_delete_ne.
Qed.

Lemma snap_refresh_loop_other p r started cached collected t_done t_stamp now t_dec
    s st s' m' :
  refresh_loop p r started cached collected t_done t_stamp now t_dec s st = Some s' ->
  m' <> r_mode r ->
  memoryCache (state s') !! m' = memoryCache st !! m'
  /\ inflightByMode (state s') !! m' = inflightByMode st !! m'
  /\ store (state s') = store st.
Proof.
  intros Hl Hne. apply snap_refresh_loop_cases in Hl
    as [(cfg & _ & ->)|(_ & [(e & st' & Ef & Hs)|(st' & Ef & ->)])].
  - done.
  - apply snap_refresh_fetched_rejected in Ef as (_ & _ & Hm & Hi & Hs' & _).
    pose proof (snap_settle_other _ _ _ _ _ _ _ m' Hs Hne) as Hi'.
    apply snap_settle_data in Hs as (_ & Hm' & Hs''). split_and!; congruence.
  - cbn. apply snap_refresh_fetched_fulfilled in Ef
      as (cs & snap & warns & record & issued & _ & _ & _ & _ & _ & Hm & Hi & Hs & _).
    rewrite Hm, Hi, Hs. by rewrite lookup_insert_ne.
Qed.

Lemma snap_CACHE_KEY_BY_MODE_inj m m' :
  CACHE_KEY_BY_MODE m = CACHE_KEY_BY_MODE m' -> m = m'.
Proof. by destruct m, m'. Qed.

(** X8. An event that works for one mode (a call, a refresh segment, the
    prewarm timer, which is for the vectors-only mode) leaves the other
    mode's memory record, in-flight slot and store key as they are. *)
Theorem X_snapshot_modes_independent e s s' m m' :
  step e s = Some s' -> event_mode s e = Some m -> m' <> m ->
  memoryCache (state s') !! m' = memoryCache (state s) !! m'
  /\ inflightByMode (state s') !! m' = inflightByMode (state s) !! m'
  /\ store (state s') !! CACHE_KEY_BY_MODE m' = store (state s) !! CACHE_KEY_BY_MODE m'.
Proof.
  intros Hstep Hmode Hne.
  pose proof (snap_step_data _ _ _ Hstep) as Hdata.
  destruct e as [o now t_dec reach t_store|p reach t_store t_started t_done t_stamp now t_dec
                |p outcome t_done t_stamp now t_dec|p reach t_store t_dec
                |n reach t_store t_dec| |sto];
    cbn [EphemerisCache.step] in Hstep; cbn [event_mode] in Hmode.
  - injection Hmode as <-.
    set (reply := get_reply _ _ _ _) in Hstep.
    destruct (enter o now t_dec reply (state s)) as [[out st']|] eqn:E; [|done].
    assert (state s' = st') as Hst by (destruct out; by injection Hstep as <-).
    rewrite Hst in *. clear Hstep.
    apply snap_enter_cases in E as (cached & st1 & Hread & Hout).
    assert (Hi1 : inflightByMode st1 = inflightByMode (state s)).
    { destruct (forceRefresh o).
      - by destruct Hread as [_ ->].
      - by apply snap_readCache_maps in Hread as (_ & ? & _). }
    assert (Hi : inflightByMode st' !! m' = inflightByMode st1 !! m').
    { destruct Hout as [(res & _ & _ & [Hsame|(p & Hst')])|(p & _ & [[_ ->]|Hst'])].
      - by destruct Hsame as (_ & _ & -> & _).
      - by eapply snap_starts_other.
      - done.
      - by eapply snap_starts_other. }
    rewrite Hi, Hi1. destruct (forceRefresh o).
    + destruct Hdata as (_ & -> & ->). done.
    + destruct (snap_read_through_other _ _ _ m' Hdata Hne) as [-> ->]. done.
  - apply snap_step_read in Hstep as (r & cached & st1 & Hp & Hread & Hl).
    rewrite Hp in Hmode. injection Hmode as <-.
    destruct (snap_refresh_loop_other _ _ _ _ _ _ _ _ _ _ _ _ m' Hl Hne) as (-> & -> & ->).
    pose proof (snap_readCache_read_through _ _ _ _ _ Hread) as Hrt.
    destruct (snap_read_through_other _ _ _ m' Hrt Hne) as [-> ->].
    apply snap_readCache_maps in Hread as (_ & -> & _). done.
  - apply snap_step_fetched in Hstep as (r & started & cached & collected & Hp & Hl).
    rewrite Hp in Hmode. injection Hmode as <-.
    destruct (snap_refresh_loop_other _ _ _ _ _ _ _ _ _ _ _ _ m' Hl Hne) as (-> & -> & ->).
    done.
  - destruct (promises (state s) !! p) as [[r [| |record issued]|]|] eqn:Hp; try done.
    injection Hmode as <-.
    destruct Hdata as (r0 & record0 & issued0 & snap & [= <- <- <-] & _ & _ & Hm & Hs).
    rewrite Hm, Hs.
    destruct (refresh_written r record issued reach t_store (state s))
      as [[result st']|] eqn:Ew; [|done].
    apply snap_refresh_written_cases in Ew as (snap' & _ & _ & _ & _ & Hi & _).
    rewrite (snap_settle_other _ _ _ _ _ _ _ m' Hstep Hne), Hi.
    split_and!; [done..|].
    destruct issued as [[text px]|]; [|done]. destruct reach; [done|].
    unfold store_set. rewrite lookup_insert_ne; [done|].
    intros Heq. by apply snap_CACHE_KEY_BY_MODE_inj in Heq.
  - destruct (remove_caller n (waiting s)) as [[w rest]|] eqn:Erm; [|done].
    injection Hmode as <-.
    destruct (c_wait w) as [|err] eqn:Hw; [done|].
    set (mode := mode_of (includeObserver (c_options w))) in *.
    destruct (readCache (get_reply reach t_store mode (state s)) mode (state s))
      as [cached st1] eqn:Hread.
    destruct (frozen_or_throw (c_options w) (c_now w) t_dec err cached st1)
      as [[out st2]|] eqn:Efz; [|done].
    injection Hstep as <-. cbn.
    apply snap_frozen_or_throw_frame in Efz as (_ & -> & -> & -> & _).
    pose proof (snap_readCache_read_through _ _ _ _ _ Hread) as Hrt.
    destruct (snap_read_through_other _ _ _ m' Hrt Hne) as [-> ->].
    apply snap_readCache_maps in Hread as (_ & -> & _). done.
  - injection Hmode as <-. destruct (_ && _); [|done].
    destruct (inflightByMode (state s) !! state_vectors) eqn:Hi;
      injection Hstep as <-; [done|]. cbn.
    by rewrite lookup_insert_ne.
  - done.
Qed.

(** *** Where the objects of the heap come from, and what happens to them *)

Lemma snap_read_through_heap mode st st' l x' :
  read_through mode st st' -> heap st' !! l = Some x' ->
  heap st !! l = Some x' \/ (client = true /\ heap st !! l = None).
Proof.
  intros [(-> & _)|(text & parsed & Hc & Hnone & -> & _)] Hl; [by left|].
  destruct (decide (l = payload parsed)) as [->|Hne].
  - by right.
  - left. by rewrite lookup_insert_ne in Hl.
Qed.

Lemma snap_step_heap e s s' l x' :
  step e s = Some s' -> heap (state s') !! l = Some x' ->
  heap (state s) !! l = Some x'
  \/ (exists x r record,
        heap (state s) !! l = Some x
        /\ x' = with_metadata x
                  (miss_metadata TTL iso (metadata x) backend_now (cachedAt record)
                     (r_correlationId r)))
  \/ (heap (state s) !! l = None
      /\ (client = true
          \/ exists cached started t_done t_stamp outcomes,
               (buildPlanetSnapshot cached started t_done t_stamp outcomes).1
                 = Fulfilled x')).
Proof.
  intros Hstep Hl.
  pose proof (snap_step_data _ _ _ Hstep) as Hdata.
  assert (Hrt : forall mode, read_through mode (state s) (state s') ->
    heap (state s) !! l = Some x'
    \/ (exists x r record,
          heap (state s) !! l = Some x
          /\ x' = with_metadata x
                    (miss_metadata TTL iso (metadata x) backend_now (cachedAt record)
                       (r_correlationId r)))
    \/ (heap (state s) !! l = None
        /\ (client = true
            \/ exists cached started t_done t_stamp outcomes,
                 (buildPlanetSnapshot cached started t_done t_stamp outcomes).1
                   = Fulfilled x'))).
  { intros mode H. destruct (snap_read_through_heap _ _ _ _ _ H Hl) as [?|[? ?]];
      [by left|right; right; split; [done|by left]]. }
  destruct e as [o now t_dec reach t_store|p reach t_store t_started t_done t_stamp now t_dec
                |p outcome t_done t_stamp now t_dec|p reach t_store t_dec
                |n reach t_store t_dec| |sto].
  - destruct (forceRefresh o); [|by eapply Hrt].
    destruct Hdata as (Hh & _). left. by rewrite <- Hh.
  - destruct Hdata as (r & _ & H). by eapply Hrt.
  - apply snap_step_fetched in Hstep as (r & started & cached & collected & Hp & Hloop).
    apply snap_refresh_loop_cases in Hloop
      as [(cfg & _ & ->)|(_ & [(e & st' & Ef & Hs)|(st' & Ef & ->)])].
    + by left.
    + apply snap_refresh_fetched_rejected in Ef as (_ & Hh & _).
      apply snap_settle_data in Hs as (Hh' & _). left. congruence.
    + cbn in Hl.
      apply snap_refresh_fetched_fulfilled in Ef
        as (cs & snap & warns & record & issued & _ & Hb & -> & Hnone & Hh & _).
      rewrite Hh in Hl. cbn in Hl, Hnone.
      destruct (decide (l = fresh (dom (heap (state s))))) as [->|Hne].
      * rewrite lookup_insert_eq in Hl. injection Hl as <-.
        right; right. split; [done|]. right.
        exists cs, started, t_done, t_stamp, (collected ++ [outcome]). by rewrite Hb.
      * rewrite lookup_insert_ne in Hl by done. by left.
  - destruct Hdata as (r & record & issued & snap & _ & Hsnap & Hh & _).
    rewrite Hh in Hl. destruct (decide (l = payload record)) as [->|Hne].
    + rewrite lookup_insert_eq in Hl. injection Hl as <-.
      right; left. eauto.
    + rewrite lookup_insert_ne in Hl by done. by left.
  - destruct Hdata as (w & _ & _ & H). by eapply Hrt.
  - destruct Hdata as (Hh & _). left. by rewrite <- Hh.
  - destruct Hdata as (Hh & _). left. by rewrite <- Hh.
Qed.

Lemma snap_same_measurements_refl x : same_measurements x x.
Proof. by repeat split. Qed.

Lemma snap_same_measurements_trans x y z :
  same_measurements x y -> same_measurements y z -> same_measurements x z.
Proof.
  intros (?&?&?&?&?&?&?&?&?&?) (?&?&?&?&?&?&?&?&?&?). repeat split; congruence.
Qed.

Lemma snap_step_measurements e s s' l x :
  step e s = Some s' -> heap (state s) !! l = Some x ->
  exists x', heap (state s') !! l = Some x' /\ same_measurements x x'.
Proof.
  intros Hstep Hl.
  assert (Hsome : is_Some (heap (state s') !! l)).
  { pose proof (snap_step_data _ _ _ Hstep) as Hdata.
    destruct e as [o now t_dec reach t_store|p reach t_store t_started t_done t_stamp now t_dec
                  |p outcome t_done t_stamp now t_dec|p reach t_store t_dec
                  |n reach t_store t_dec| |sto].
    - destruct (forceRefresh o).
      + destruct Hdata as (-> & _). eauto.
      + apply snap_read_through_allocated in Hdata as [H _]. apply H. eauto.
    - destruct Hdata as (r & _ & Hrt).
      apply snap_read_through_allocated in Hrt as [H _]. apply H. eauto.
    - destruct Hdata as (r & started & cached & collected & _
                         & [(-> & _)|(record & snap & _ & _ & _ & Hnone & -> & _)]);
        [eauto|].
      rewrite lookup_insert_ne; [eauto|]. intros <-. congruence.
    - destruct Hdata as (r & record & issued & snap & _ & Hsnap & -> & _).
      destruct (decide (l = payload record)) as [->|Hne].
      + rewrite lookup_insert_eq. eauto.
      + rewrite lookup_insert_ne by done. eauto.
    - destruct Hdata as (w & _ & _ & Hrt).
      apply snap_read_through_allocated in Hrt as [H _]. apply H. eauto.
    - destruct Hdata as (-> & _). eauto.
    - destruct Hdata as (-> & _). eauto. }
  destruct Hsome as [x' Hx']. exists x'. split; [done|].
  destruct (snap_step_heap _ _ _ _ _ Hstep Hx')
    as [H|[(x0 & r & record & H & ->)|[H _]]]; rewrite H in Hl; try done.
  - injection Hl as <-. apply snap_same_measurements_refl.
  - injection Hl as <-. by repeat split.
Qed.

Lemma snap_measurements_run es : forall s s' l x,
  run es s = Some s' -> heap (state s) !! l = Some x ->
  exists x', heap (state s') !! l = Some x' /\ same_measurements x x'.
Proof.
  induction es as [|e es IH]; intros s s' l x.
  - intros [= <-] Hl. exists x. split; [done|apply snap_same_measurements_refl].
  - rewrite snap_run_cons. destruct (step e s) as [s1|] eqn:E; [|done].
    intros Hrun Hl.
    destruct (snap_step_measurements _ _ _ _ _ E Hl) as (x1 & Hl1 & Hs1).
    destruct (IH _ _ _ _ Hrun Hl1) as (x' & Hl' & Hs').
    exists x'. split; [done|]. by eapply snap_same_measurements_trans.
Qed.

(** X9. A snapshot object, once in the heap, keeps its measurements through
    every run: its bodies, its timestamp and the metadata that describe
    the fetch (source, frame, units, latency, partial flag, fallback and
    missing lists).  Only the cache decoration of its metadata is ever
    assigned to. *)
Theorem X_snapshot_measurements_kept es s s' l x :
  run es s = Some s' -> heap (state s) !! l = Some x ->
  exists x', heap (state s') !! l = Some x' /\ same_measurements x x'.
Proof. apply snap_measurements_run. Qed.

(** *** What a payload carries *)

Lemma snap_decorate_measurements t snap cs b age cid :
  same_measurements snap (decoratePayloadMetadata t snap cs b age cid).
Proof. by repeat split. Qed.

Lemma snap_frozen_carried o now t err cached st x st' :
  frozen_or_throw o now t err cached st = Some (x, st') -> carried (heap st) x.
Proof.
  unfold EphemerisCache.frozen_or_throw. destruct cached as [c|].
  - destruct (heap st !! payload c) as [snap|] eqn:Hsnap; [|done].
    intros [= <- _]. exists (payload c), snap. split; [done|]. by repeat split.
  - by intros [= <- _].
Qed.

Lemma snap_resume_carried t w res st x st' :
  resume t w res st = Some (inr x, st') -> carried (heap st) x.
Proof.
  intros Hr. apply snap_resume_cases in Hr as [_ Hr]. destruct res as [result|err].
  - destruct Hr as (_ & out & Hf & [= ->]).
    unfold EphemerisCache.resume_fulfilled in Hf.
    destruct (heap st !! res_payload result) as [snap|] eqn:Hsnap; [|done].
    injection Hf as <-. exists (res_payload result), snap. split; [done|].
    apply snap_decorate_measurements.
  - destruct (memoryCache st !! _) as [c|].
    + destruct Hr as (out & Hf & [= ->]). by eapply snap_frozen_carried.
    + by destruct Hr as [_ ?].
Qed.

Lemma snap_carried_step e s s' :
  step e s = Some s' ->
  (forall n x, results s !! n = Some x -> carried (heap (state s)) x) ->
  forall n x, results s' !! n = Some x -> carried (heap (state s')) x.
Proof.
  intros Hstep Hout.
  assert (Hold : forall n x, results s !! n = Some x -> carried (heap (state s')) x).
  { intros n [res|err] Hn; [|done].
    destruct (Hout n _ Hn) as (l & y & Hl & Hy).
    destruct (snap_step_measurements _ _ _ _ _ Hstep Hl) as (y' & Hl' & Hy').
    exists l, y'. split; [done|].
    destruct Hy as (?&?&?&?&?&?&?&?&?&?), Hy' as (?&?&?&?&?&?&?&?&?&?).
    repeat split; congruence. }
  assert (Hloop : forall p r started cached collected t_done t_stamp now t_dec st,
    refresh_loop p r started cached collected t_done t_stamp now t_dec s st = Some s' ->
    forall n x, results s' !! n = Some x -> carried (heap (state s')) x).
  { intros p r started cached collected t_done t_stamp now t_dec st Hl.
    apply snap_refresh_loop_cases in Hl
      as [(cfg & _ & Hs')|(_ & [(e0 & st' & Ef & Hs)|(st' & Ef & Hs')])].
    - subst s'. exact Hold.
    - pose proof (snap_settle_data _ _ _ _ _ _ _ Hs) as (Hh & _).
      unfold EphemerisCache.settle in Hs.
      destruct (resume_all _ _ _ _ _ _) as [[[ws st2] out]|] eqn:Er; [|done].
      injection Hs as <-. cbn in *.
      destruct (snap_resume_all_inv (carried (heap st2)) (fun _ => True)
                  _ _ _ _ _ _ _ _ _ Er) as [Hall _]; [| |exact Hold|done|exact Hall].
      + intros w st0 x st1 _ (Hh0 & _) Hr. apply snap_resume_carried in Hr.
        destruct (snap_clear_inflight_frame (r_mode r) p
                    (set_promise p (Done (Rejected e0)) st')) as (_ & Hh1 & _).
        cbn in Hh1. by rewrite Hh0, Hh1, <- Hh in Hr.
      + done.
    - subst s'. exact Hold. }
  destruct e as [o now t_dec reach t_store|p reach t_store t_started t_done t_stamp now t_dec
                |p outcome t_done t_stamp now t_dec|p reach t_store t_dec
                |n0 reach t_store t_dec| |sto];
    cbn [EphemerisCache.step] in Hstep.
  - set (reply := get_reply _ _ _ _) in Hstep.
    destruct (enter o now t_dec reply (state s)) as [[[res|p] st']|] eqn:E; [| |done].
    + injection Hstep as <-. cbn in *.
      intros n x Hn. destruct (decide (n = ncalls s)) as [->|Hne].
      * rewrite lookup_insert_eq in Hn. injection Hn as <-.
        apply snap_enter_return in E as (c & st1 & snap & _ & _ & Hsnap & Hh & _ & _ & ->).
        exists (payload c), snap. rewrite Hh. split; [done|].
        apply snap_decorate_measurements.
      * rewrite lookup_insert_ne in Hn by done. by eapply Hold.
    + injection Hstep as <-. exact Hold.
  - apply snap_step_read in Hstep as (r & cached & st1 & Hp & Hread & Hl).
    by eapply Hloop.
  - apply snap_step_fetched in Hstep as (r & started & cached & collected & Hp & Hl).
    by eapply Hloop.
  - destruct (promises (state s) !! p) as [[r [| |record issued]|]|]; try done.
    destruct (refresh_written r record issued reach t_store (state s))
      as [[result st']|] eqn:Ew; [|done].
    pose proof (snap_settle_data _ _ _ _ _ _ _ Hstep) as (Hh & _).
    unfold EphemerisCache.settle in Hstep.
    destruct (resume_all _ _ _ _ _ _) as [[[ws st2] out]|] eqn:Er; [|done].
    injection Hstep as <-. cbn in *.
    destruct (snap_resume_all_inv (carried (heap st2)) (fun _ => True)
                _ _ _ _ _ _ _ _ _ Er) as [Hall _]; [| |exact Hold|done|exact Hall].
    + intros w st0 x st1 _ (Hh0 & _) Hr. apply snap_resume_carried in Hr.
      destruct (snap_clear_inflight_frame (r_mode r) p
                  (set_promise p (Done (Fulfilled result)) st')) as (_ & Hh1 & _).
      cbn in Hh1. by rewrite Hh0, Hh1, <- Hh in Hr.
    + done.
  - destruct (remove_caller n0 (waiting s)) as [[w rest]|] eqn:Erm; [|done].
    destruct (c_wait w) as [|err] eqn:Hw; [done|].
    set (mode := mode_of (includeObserver (c_options w))) in *.
    destruct (readCache (get_reply reach t_store mode (state s)) mode (state s))
      as [cached st1] eqn:Hread.
    destruct (frozen_or_throw (c_options w) (c_now w) t_dec err cached st1)
      as [[out st2]|] eqn:Efz; [|done].
    injection Hstep as <-. cbn in *.
    intros k x Hk. destruct (decide (k = n0)) as [->|Hne].
    + rewrite lookup_insert_eq in Hk. injection Hk as <-.
      pose proof (snap_frozen_or_throw_frame _ _ _ _ _ _ _ _ Efz) as (Hh & _).
      apply snap_frozen_carried in Efz. by rewrite Hh.
    + rewrite lookup_insert_ne in Hk by done. by eapply Hold.
  - destruct (_ && _); [|done].
    destruct (inflightByMode (state s) !! state_vectors); injection Hstep as <-;
      exact Hold.
  - injection Hstep as <-. exact Hold.
Qed.

Lemma snap_nonempty_step e s s' :
  client = false -> step e s = Some s' ->
  (forall l x, heap (state s) !! l = Some x -> bodies x <> []) ->
  forall l x, heap (state s') !! l = Some x -> bodies x <> [].
Proof.
  intros Hc Hstep Hne l x' Hl.
  destruct (snap_step_heap _ _ _ _ _ Hstep Hl)
    as [H1|[(x0 & r & record & H2 & ->)|[_ [H3|(cs & a & b & c & outs & H4)]]]].
  - by eapply Hne.
  - cbn. by eapply Hne.
  - congruence.
  - pose proof (snap_buildPlanetSnapshot_spec cs a b c outs) as Hs.
    cbv zeta in Hs. rewrite H4 in Hs. by destruct Hs as (_ & ? & _).
Qed.

Lemma snap_carried_run es : forall s s',
  run es s = Some s' ->
  (forall n x, results s !! n = Some x -> carried (heap (state s)) x) ->
  forall n x, results s' !! n = Some x -> carried (heap (state s')) x.
Proof.
  induction es as [|e es IH]; intros s s'.
  - by intros [= <-].
  - rewrite snap_run_cons. destruct (step e s) as [s1|] eqn:E; [|done].
    intros Hrun Hout. eapply IH; [exact Hrun|]. by eapply snap_carried_step.
Qed.

Lemma snap_nonempty_run es : forall s s',
  client = false -> run es s = Some s' ->
  (forall l x, heap (state s) !! l = Some x -> bodies x <> []) ->
  forall l x, heap (state s') !! l = Some x -> bodies x <> [].
Proof.
  induction es as [|e es IH]; intros s s' Hc.
  - by intros [= <-].
  - rewrite snap_run_cons. destruct (step e s) as [s1|] eqn:E; [|done].
    intros Hrun Hne. eapply IH; [done|exact Hrun|]. by eapply snap_nonempty_step.
Qed.

(** X10. The payload of every result carries the measurements of a snapshot
    object of the heap (its bodies, timestamp and fetch metadata: the
    decoration changes none of them); and in a process without a shared
    store no object of the heap, hence no payload handed out, has an empty
    body list. *)
Theorem X_snapshot_payloads_carried es s :
  run es boot = Some s ->
  (forall n res, results s !! n = Some (Fulfilled res) ->
     exists l y, heap (state s) !! l = Some y /\ same_measurements y (res_payload res))
  /\ (client = false ->
      (forall l x, heap (state s) !! l = Some x -> bodies x <> [])
      /\ forall n res, results s !! n = Some (Fulfilled res) ->
           bodies (res_payload res) <> []).
Proof.
  intros Hrun.
  assert (H1 : forall n res, results s !! n = Some (Fulfilled res) ->
    exists l y, heap (state s) !! l = Some y /\ same_measurements y (res_payload res)).
  { intros n res Hn.
    assert (H0 : forall k x, results boot !! k = Some x -> carried (heap (state boot)) x)
      by done.
    exact (snap_carried_run es boot s Hrun H0 n (Fulfilled res) Hn). }
  split; [exact H1|]. intros Hc.
  assert (H2 : forall l x, heap (state s) !! l = Some x -> bodies x <> []).
  { eapply snap_nonempty_run; [done|exact Hrun|]. intros l x Hl. done. }
  split; [exact H2|]. intros n res Hn.
  destruct (H1 n res Hn) as (l & y & Hl & Hb & _). rewrite Hb. by eapply H2.
Qed.

(** *** The snapshot a refresh builds *)

Lemma snap_default_nonempty_or_undefined xs : default [] (nonempty_or_undefined xs) = xs.
Proof. by destruct xs. Qed.

Lemma snap_spec_lengths previous prs :
  (length (spec_bodies previous prs) + length (spec_missingBodies previous prs)
     = length prs)%nat
  /\ (length (spec_bodies previous prs)
        = length (filter (fun pr => is_fulfilled pr.2 = true) prs)
          + length (spec_fallbackBodies previous prs))%nat.
Proof.
  unfold spec_bodies, spec_fallbackBodies, spec_missingBodies.
  induction prs as [|[cfg result] prs [IH1 IH2]]; [done|].
  rewrite filter_cons. cbn [omap list_omap].
  set (B := omap (body_outcome previous) prs) in *.
  set (F := omap (fallback_name previous) prs) in *.
  set (M := omap (missing_name previous) prs) in *.
  set (N := filter _ prs) in *. clearbody B F M N.
  unfold body_outcome, fallback_name, missing_name. cbn [fst snd].
  destruct result as [r|e]; cbn [is_fulfilled].
  - rewrite decide_True by done. cbn [length]. split; lia.
  - rewrite decide_False by done.
    destruct (previous (Planets.name cfg)); cbn [length]; split; lia.
Qed.

(** Who is in the three lists. *)
Lemma snap_spec_members (previous : string -> option EphemerisBody) prs :
  (forall b, b ∈ spec_bodies previous prs <->
     (exists cfg v, (cfg, Fulfilled v) ∈ prs /\ b = body_of_vector v)
     \/ (exists cfg e, (cfg, Rejected e) ∈ prs /\ previous (Planets.name cfg) = Some b))
  /\ (forall n, n ∈ spec_fallbackBodies previous prs <->
        exists cfg e, (cfg, Rejected e) ∈ prs /\ Planets.name cfg = n
                      /\ is_Some (previous n))
  /\ (forall n, n ∈ spec_missingBodies previous prs <->
        exists cfg e, (cfg, Rejected e) ∈ prs /\ Planets.name cfg = n
                      /\ previous n = None).
Proof.
  unfold spec_bodies, spec_fallbackBodies, spec_missingBodies. split_and!.
  - intros b. rewrite list_elem_of_omap. split.
    + intros ([cfg [v|e]] & Hin & Hb); unfold body_outcome in Hb; cbn in Hb.
      * injection Hb as <-. left. eauto.
      * right. eauto.
    + intros [(cfg & v & Hin & ->)|(cfg & e & Hin & Hb)]; eexists; (split; [exact Hin|]);
        done.
  - intros n. rewrite list_elem_of_omap. split.
    + intros ([cfg [v|e]] & Hin & Hn); unfold fallback_name in Hn; cbn in Hn; [done|].
      destruct (previous (Planets.name cfg)) eqn:E; [|done]. injection Hn as <-.
      exists cfg, e. rewrite E. eauto.
    + intros (cfg & e & Hin & <- & [b Hb]). eexists. split; [exact Hin|].
      unfold fallback_name. cbn. by rewrite Hb.
  - intros n. rewrite list_elem_of_omap. split.
    + intros ([cfg [v|e]] & Hin & Hn); unfold missing_name in Hn; cbn in Hn; [done|].
      destruct (previous (Planets.name cfg)) eqn:E; [done|]. injection Hn as <-.
      exists cfg, e. eauto.
    + intros (cfg & e & Hin & <- & Hb). eexists. split; [exact Hin|].
      unfold missing_name. cbn. by rewrite Hb.
Qed.

(** A previous value exists exactly when the previous snapshot has a body
    of that name. *)
Lemma snap_previous_value_Some (prev : list EphemerisBody) (n : string) :
  is_Some (previous_value prev n) <-> exists b, b ∈ prev /\ name b = n.
Proof.
  unfold previous_value. split.
  - intros [b Hb]. apply last_Some_elem_of, list_elem_of_filter in Hb as [? ?]. eauto.
  - intros (b & Hin & Hn).
    destruct (last (filter (fun b => name b = n) prev)) as [x|] eqn:El; [eauto|].
    apply last_None in El.
    assert (Hb : b ∈ filter (fun b => name b = n) prev) by (by apply list_elem_of_filter).
    rewrite El in Hb. by apply elem_of_nil in Hb.
Qed.

Lemma snap_previous_value_None (prev : list EphemerisBody) (n : string) :
  previous_value prev n = None <-> forall b, b ∈ prev -> name b <> n.
Proof.
  split.
  - intros Hn b Hin Hb.
    assert (Hs : is_Some (previous_value prev n)) by (apply snap_previous_value_Some; eauto).
    rewrite Hn in Hs. by destruct Hs.
  - intros Hall. destruct (previous_value prev n) as [b|] eqn:E; [|done].
    assert (Hs : is_Some (previous_value prev n)) by (rewrite E; eauto).
    apply snap_previous_value_Some in Hs as (b' & Hin & Hb). by destruct (Hall b' Hin).
Qed.

Lemma snap_push_timestamp ts b : push_timestamp ts (timestamp b) = ts ++ option_list (stamp_of b).
Proof.
  unfold push_timestamp, stamp_of. destruct (timestamp b) as [s|]; cbn.
  - destruct (negb _); cbn; by rewrite ?app_nil_r.
  - by rewrite app_nil_r.
Qed.

Lemma snap_forEach_timestamps (fallbacks : gmap string EphemerisBody) prs : forall acc,
  timestamps (forEach fallbacks acc prs)
    = timestamps acc ++ omap stamp_of (spec_bodies (fallbacks !!.) prs).
Proof.
  unfold forEach, spec_bodies.
  induction prs as [|[cfg result] prs IH]; intros acc; simpl.
  - by rewrite app_nil_r.
  - rewrite IH. clear. unfold visit, body_outcome. simpl.
    destruct result as [r|e]; simpl.
    + change (Horizons.timestamp r) with (timestamp (body_of_vector r)).
      rewrite snap_push_timestamp, <- app_assoc. f_equal.
      by destruct (stamp_of (body_of_vector r)).
    + destruct (fallbacks !! Planets.name cfg) as [b|]; simpl; [|done].
      rewrite snap_push_timestamp, <- app_assoc. f_equal.
      by destruct (stamp_of b).
Qed.

Lemma snap_filter_zip_fulfilled (cfgs : list Planets.PlanetConfig)
    (results : list (Settled Horizons.StateVector)) :
  length results = length cfgs ->
  length (filter (fun pr => is_fulfilled pr.2 = true) (zip cfgs results))
    = length (filter (fun r => is_fulfilled r = true) results).
Proof.
  revert results. induction cfgs as [|cfg cfgs IH]; intros [|r rs] Hlen; try done.
  change (zip (cfg :: cfgs) (r :: rs)) with ((cfg, r) :: zip cfgs rs).
  rewrite !filter_cons. cbn [snd]. injection Hlen as Hlen.
  destruct (decide (is_fulfilled r = true)); cbn [length]; by rewrite (IH rs).
Qed.

(** X11. The snapshot a refresh builds from one outcome per tracked planet
    accounts for every planet once: it has a body or is on the missing
    list.  Its bodies are the vectors fetched and, for each planet whose
    fetch failed, the last body of that name in the previous snapshot; the
    fallback list names the failed planets that had such a body, the
    missing list those that had none.  Its timestamp is that of its first
    body that has one, else the previous snapshot's, else the clock's. *)
Theorem X_snapshot_build_accounting cached started t_done t_stamp results snap :
  length results = length PLANETS ->
  (buildPlanetSnapshot cached started t_done t_stamp results).1 = Fulfilled snap ->
  let prev := from_option bodies [] cached in
  let fallback := default [] (fallbackBodies (metadata snap)) in
  let missing := default [] (missingBodies (metadata snap)) in
  let failed n :=
    exists cfg e, (cfg, Rejected e) ∈ zip PLANETS results /\ Planets.name cfg = n in
  (length (bodies snap) + length missing = length PLANETS)%nat
  /\ (length (bodies snap)
        = length (filter (fun r => is_fulfilled r = true) results) + length fallback)%nat
  /\ (forall b, b ∈ bodies snap <->
        (exists cfg v, (cfg, Fulfilled v) ∈ zip PLANETS results /\ b = body_of_vector v)
        \/ (exists n, failed n /\ last (filter (fun b' => name b' = n) prev) = Some b))
  /\ (forall n, n ∈ fallback <-> failed n /\ exists b, b ∈ prev /\ name b = n)
  /\ (forall n, n ∈ missing <-> failed n /\ forall b, b ∈ prev -> name b <> n)
  /\ snap_timestamp snap
       = default (default (iso t_stamp) (snap_timestamp <$> cached))
                 (head (omap stamp_of (bodies snap))).
Proof.
  intros Hlen Hb prev fallback missing failed.
  pose proof (snap_buildPlanetSnapshot_spec cached started t_done t_stamp results) as Hs.
  cbv zeta in Hs. rewrite Hb in Hs. destruct Hs as (Hbodies & _ & Hf & Hm & _).
  fold prev in Hbodies, Hf, Hm.
  destruct (snap_spec_ext (fallback_map prev !!.) (previous_value prev)
              (zip PLANETS results)) as (Eb & Ef & Em);
    [intros n; apply snap_fallback_map_previous|].
  assert (Hts : snap_timestamp snap
    = default (default (iso t_stamp) (snap_timestamp <$> cached))
              (head (omap stamp_of (bodies snap)))).
  { unfold EphemerisCache.buildPlanetSnapshot in Hb. fold prev in Hb.
    match type of Hb with context [forEach ?fb ?a ?prs] =>
      pose proof (snap_forEach_timestamps fb prs a) as Ht;
      destruct (snap_forEach_spec fb prs a) as (Hb' & _);
      set (acc := forEach fb a prs) in * end.
    cbn in Ht, Hb'. clearbody acc.
    destruct (a_bodies acc) as [|b bs] eqn:E; cbn in Hb; [done|].
    injection Hb as <-. cbn. by rewrite Ht, <- Hb'. }
  rewrite Eb in Hbodies. rewrite Ef in Hf. rewrite Em in Hm. clear Eb Ef Em.
  subst fallback missing. rewrite Hf, Hm, !snap_default_nonempty_or_undefined.
  destruct (snap_spec_lengths (previous_value prev) (zip PLANETS results)) as [H1 H2].
  destruct (snap_spec_members (previous_value prev) (zip PLANETS results))
    as (Mb & Mf & Mm).
  split_and!.
  - rewrite Hbodies, H1, length_zip_with_l_eq; done.
  - rewrite Hbodies, H2. f_equal. by apply snap_filter_zip_fulfilled.
  - intros b. rewrite Hbodies, Mb. unfold failed, previous_value. split.
    + intros [?|(cfg & e & Hin & Hl)]; [by left|]. right. eauto 10.
    + intros [?|(n & (cfg & e & Hin & <-) & Hl)]; [by left|]. right. eauto.
  - intros n. rewrite Mf. unfold failed. split.
    + intros (cfg & e & ? & ? & Hp). apply snap_previous_value_Some in Hp. eauto 10.
    + intros ((cfg & e & ? & ?) & Hp). apply snap_previous_value_Some in Hp. eauto 10.
  - intros n. rewrite Mm. unfold failed. split.
    + intros (cfg & e & ? & ? & Hp). rewrite snap_previous_value_None in Hp. eauto 10.
    + intros ((cfg & e & ? & ?) & Hp). rewrite <- snap_previous_value_None in Hp.
      eauto 10.
  - exact Hts.
Qed.

Lemma snap_refresh_fetched_total p r started cached cs results t_done t_stamp now st :
  cached_snapshot cached st = Some cs ->
  exists x st',
    refresh_fetched p r started cached results t_done t_stamp now st = Some (x, st')
    /\ match (buildPlanetSnapshot cs started t_done t_stamp results).1 with
       | Fulfilled _ => x = None
       | Rejected e => x = Some e
       end.
Proof.
  intros Hcs. unfold EphemerisCache.refresh_fetched. rewrite Hcs.
  destruct (EphemerisCache.buildPlanetSnapshot _ _ _ _ _ _ _) as [[snap|e] warns];
    [|cbn; eauto].
  unfold EphemerisCache.writeCache_issue, serialize. cbn.
  rewrite lookup_insert_eq. destruct (_ && _); eauto.
Qed.

Lemma snap_spec_all_rejected (previous : gmap string EphemerisBody)
    (cfgs : list Planets.PlanetConfig)
    (results : list (Settled Horizons.StateVector)) :
  length results = length cfgs ->
  Forall (fun x => is_rejected x = true) results ->
  spec_bodies (previous !!.) (zip cfgs results)
    = omap (fun cfg => previous !! Planets.name cfg) cfgs
  /\ spec_fallbackBodies (previous !!.) (zip cfgs results)
       = Planets.name <$> filter (fun cfg => is_Some (previous !! Planets.name cfg)) cfgs
  /\ spec_missingBodies (previous !!.) (zip cfgs results)
       = Planets.name <$> filter (fun cfg => previous !! Planets.name cfg = None) cfgs.
Proof.
  unfold spec_bodies, spec_fallbackBodies, spec_missingBodies.
  revert results. induction cfgs as [|cfg cfgs IH]; intros [|x rs] Hlen Hall; try done.
  change (zip (cfg :: cfgs) (x :: rs)) with ((cfg, x) :: zip cfgs rs).
  injection Hlen as Hlen. apply Forall_cons in Hall as [Hx Hall].
  destruct (IH rs Hlen Hall) as (IH1 & IH2 & IH3).
  rewrite !filter_cons. cbn [omap list_omap]. rewrite IH1, IH2, IH3.
  unfold body_outcome, fallback_name, missing_name. cbn [fst snd].
  destruct x as [v|e]; [done|].
  destruct (previous !! Planets.name cfg) as [b|] eqn:Hb.
  - rewrite decide_True by eauto. rewrite decide_False by done. done.
  - rewrite decide_False by (by intros [? ?]). rewrite decide_True by done. done.
Qed.

(** X12. A refresh in which every fetch failed still succeeds whenever the
    record it read holds a body for at least one tracked planet: it builds
    a partial snapshot out of those old bodies alone, lists their names as
    fallbacks and the others as missing, and caches it under a record
    stamped with the present time and a full lifetime, so that its callers
    are answered MISS, not FROZEN. *)
Theorem X_snapshot_failed_refresh_republishes p r started c prev results
    t_done t_stamp now st :
  heap st !! payload c = Some prev ->
  length results = length PLANETS ->
  Forall (fun x => is_rejected x = true) results ->
  (exists cfg, cfg ∈ PLANETS
               /\ is_Some (fallback_map (bodies prev) !! Planets.name cfg)) ->
  exists st' record snap issued,
    refresh_fetched p r started (Some c) results t_done t_stamp now st = Some (None, st')
    /\ promises st' !! p = Some (Pending r (Writing record issued))
    /\ memoryCache st' !! r_mode r = Some record
    /\ cachedAt record = now /\ expiresAt record = now + TTL
    /\ heap st' !! payload record = Some snap
    /\ bodies snap
         = omap (fun cfg => fallback_map (bodies prev) !! Planets.name cfg) PLANETS
    /\ (forall b, b ∈ bodies snap -> b ∈ bodies prev)
    /\ partial (metadata snap) = Some true
    /\ fallbackBodies (metadata snap)
         = Some (Planets.name
                   <$> filter (fun cfg => is_Some (fallback_map (bodies prev)
                                                     !! Planets.name cfg)) PLANETS)
    /\ default [] (missingBodies (metadata snap))
         = Planets.name
             <$> filter (fun cfg => fallback_map (bodies prev) !! Planets.name cfg = None)
                   PLANETS.
Proof.
  intros Hprev Hlen Hall (cfg0 & Hcfg0 & Hsome).
  assert (Hcs : cached_snapshot (Some c) st = Some (Some prev)).
  { unfold cached_snapshot. by rewrite Hprev. }
  destruct (snap_refresh_fetched_total p r started (Some c) (Some prev) results
              t_done t_stamp now st Hcs) as (x & st' & Hf & Hx).
  pose proof (snap_buildPlanetSnapshot_spec (Some prev) started t_done t_stamp results)
    as Hs.
  cbv zeta in Hs. cbn [from_option] in Hs.
  destruct (snap_spec_all_rejected (fallback_map (bodies prev)) PLANETS results Hlen Hall)
    as (E1 & E2 & E3).
  rewrite E1, E2, E3 in Hs.
  assert (Hne : Planets.name
                  <$> filter (fun cfg => is_Some (fallback_map (bodies prev)
                                                    !! Planets.name cfg)) PLANETS <> []).
  { intros Hnil. apply fmap_nil_inv in Hnil.
    assert (Hin : cfg0 ∈ filter (fun cfg => is_Some (fallback_map (bodies prev)
                                                       !! Planets.name cfg)) PLANETS)
      by (by apply list_elem_of_filter).
    rewrite Hnil in Hin. by apply elem_of_nil in Hin. }
  destruct ((buildPlanetSnapshot (Some prev) started t_done t_stamp results).1)
    as [snap|e] eqn:Hb.
  2:{ exfalso. destruct Hs as [_ Hnil].
      destruct Hsome as [b Hb0].
      assert (Hb1 : b ∈ omap (fun cfg => fallback_map (bodies prev) !! Planets.name cfg)
                          PLANETS) by (apply list_elem_of_omap; eauto).
      rewrite Hnil in Hb1. by apply elem_of_nil in Hb1. }
  subst x. destruct Hs as (Hbodies & _ & Hfb & Hmb & Hpartial).
  pose proof Hf as Hf'.
  apply snap_refresh_fetched_fulfilled in Hf'
    as (cs & snap' & warns & record & issued & Hcs' & Hb' & Hrec & Hnone & Hh & Hm
        & _ & _ & Hp & _).
  rewrite Hcs in Hcs'. injection Hcs' as <-.
  assert (snap' = snap) as -> by (rewrite Hb' in Hb; by injection Hb).
  exists st', record, snap, issued. split_and!; try done.
  - rewrite Hp. by rewrite lookup_insert_eq.
  - rewrite Hm. by rewrite lookup_insert_eq.
  - by rewrite Hrec.
  - by rewrite Hrec.
  - rewrite Hh. by rewrite lookup_insert_eq.
  - intros b Hb0. rewrite Hbodies in Hb0.
    apply list_elem_of_omap in Hb0 as (cfg & _ & Hl).
    by apply foldl_insert_lookup_Some in Hl as [? _].
  - rewrite Hpartial. by rewrite (bool_decide_true _ Hne).
  - rewrite Hfb. destruct (Planets.name <$> filter _ PLANETS) eqn:E; done.
  - rewrite Hmb. apply snap_default_nonempty_or_undefined.
Qed.

Lemma snap_spec_all_fulfilled previous (cfgs : list Planets.PlanetConfig)
    (vectors : list Horizons.StateVector) :
  length vectors = length cfgs ->
  spec_bodies previous (zip cfgs (Fulfilled <$> vectors)) = body_of_vector <$> vectors
  /\ spec_fallbackBodies previous (zip cfgs (Fulfilled <$> vectors)) = []
  /\ spec_missingBodies previous (zip cfgs (Fulfilled <$> vectors)) = [].
Proof.
  unfold spec_bodies, spec_fallbackBodies, spec_missingBodies.
  revert vectors. induction cfgs as [|cfg cfgs IH]; intros [|v vs] Hlen; try done.
  injection Hlen as Hlen. destruct (IH vs Hlen) as (IH1 & IH2 & IH3).
  rewrite fmap_cons.
  change (zip (cfg :: cfgs) (Fulfilled v :: (Fulfilled <$> vs)))
    with ((cfg, Fulfilled v) :: zip cfgs (Fulfilled <$> vs)).
  cbn [omap list_omap]. rewrite IH1, IH2, IH3. done.
Qed.

(** X13. When every fetch succeeded (one vector per tracked planet, at least
    one planet), the snapshot has exactly the fetched bodies, in the order
    of the planet table, is not partial and lists no fallback and no
    missing body, whatever the record read before held. *)
Theorem X_snapshot_complete_refresh cached started t_done t_stamp vectors :
  length vectors = length PLANETS -> PLANETS <> [] ->
  exists snap,
    (buildPlanetSnapshot cached started t_done t_stamp (Fulfilled <$> vectors)).1
      = Fulfilled snap
    /\ bodies snap = body_of_vector <$> vectors
    /\ name <$> bodies snap = Horizons.name <$> vectors
    /\ partial (metadata snap) = Some false
    /\ fallbackBodies (metadata snap) = None
    /\ missingBodies (metadata snap) = None
    /\ responseTimeMs (metadata snap) = Some (t_done - started).
Proof.
  intros Hlen Hne.
  pose proof (snap_buildPlanetSnapshot_spec cached started t_done t_stamp
                (Fulfilled <$> vectors)) as Hs.
  cbv zeta in Hs.
  destruct (snap_spec_all_fulfilled (fallback_map (from_option bodies [] cached) !!.)
              PLANETS vectors Hlen) as (E1 & E2 & E3).
  rewrite E1, E2, E3 in Hs.
  destruct ((buildPlanetSnapshot cached started t_done t_stamp (Fulfilled <$> vectors)).1)
    as [snap|e] eqn:Hb.
  - destruct Hs as (Hbodies & _ & Hf & Hm & Hp).
    exists snap. split_and!; try done.
    + rewrite Hbodies, <- list_fmap_compose. done.
    + unfold EphemerisCache.buildPlanetSnapshot in Hb.
      destruct (a_bodies _); cbn in Hb; [done|]. by injection Hb as <-.
  - exfalso. destruct Hs as [_ Hnil]. apply fmap_nil_inv in Hnil. subst vectors.
    destruct PLANETS; done.
Qed.

(** X14. The fallback table of a refresh holds, for a name, the last body of
    the previous snapshot with that name; a name is absent exactly when no
    body has it. *)
Theorem X_snapshot_fallback_map_last (bs : list EphemerisBody) (n : string) :
  fallback_map bs !! n = last (filter (fun b => name b = n) bs)
  /\ (fallback_map bs !! n = None <-> forall b, b ∈ bs -> name b <> n)
  /\ (forall b, fallback_map bs !! n = Some b -> b ∈ bs /\ name b = n).
Proof.
  unfold fallback_map. split_and!.
  - rewrite foldl_insert_lookup. by destruct (last _).
  - apply foldl_insert_lookup_None.
  - intros b. apply foldl_insert_lookup_Some.
Qed.

(** *** What reaches the shared store *)

Lemma snap_build_undecorated cached started t_done t_stamp results snap :
  (buildPlanetSnapshot cached started t_done t_stamp results).1 = Fulfilled snap ->
  undecorated (metadata snap).
Proof.
  unfold EphemerisCache.buildPlanetSnapshot.
  destruct (a_bodies _); cbn; [done|]. intros [= <-]. by repeat split.
Qed.

(** X15. With a shared store, the text a refresh hands to the store is the
    JSON text of the snapshot as built, written before [refreshSnapshot]
    assigns the MISS decoration: same timestamp, same metadata (no cache
    status, no [generatedAt], no [requestId]), and body by body what JSON
    keeps: names and strings as they are, every number that is not finite
    as [null], a zero as [0], any other number unchanged.  The process keeps
    the snapshot itself.  A later call served from that text reports its
    own correlation id (or none), a [generatedAt] computed back from the
    record's age, and the bodies of the text. *)
Theorem X_snapshot_store_text_undecorated p r started cached results
    t_done t_stamp now st st' :
  client = true ->
  refresh_fetched p r started cached results t_done t_stamp now st = Some (None, st') ->
  exists record snap text,
    promises st' !! p = Some (Pending r (Writing record (Some (text, TTL + SWR))))
    /\ heap st' !! payload record = Some snap
    /\ s_cachedAt text = now
    /\ snap_timestamp (s_payload text) = snap_timestamp snap
    /\ metadata (s_payload text) = metadata snap
    /\ undecorated (metadata (s_payload text))
    /\ Forall2 body_written (bodies snap) (bodies (s_payload text))
    /\ forall o now' t_dec st0 res st1,
         enter o now' t_dec (Fulfilled (Some text)) st0 = Some (Return res, st1) ->
         requestId (metadata (res_payload res)) = correlationId o
         /\ generatedAt (metadata (res_payload res)) = Some (iso (t_dec - (now' - now)))
         /\ bodies (res_payload res) = bodies (s_payload text)
         /\ cacheAgeMs res = now' - now.
Proof.
  intros Hc Hf.
  apply snap_refresh_fetched_fulfilled in Hf
    as (cs & snap & warns & record & issued & _ & Hb & Hrec & _ & Hh & _ & _ & _ & Hp & Hi).
  rewrite Hc in Hi.
  assert (Hu : undecorated (metadata snap)).
  { eapply snap_build_undecorated. by rewrite Hb. }
  exists record, snap,
    {| s_payload := json_snapshot snap; s_cachedAt := cachedAt record;
       s_expiresAt := expiresAt record; s_staleUntil := staleUntil record |}.
  split_and!.
  - rewrite Hp, lookup_insert_eq, Hi, Hrec. cbn.
    replace (now + TTL + SWR - now) with (TTL + SWR) by lia. done.
  - rewrite Hh. by rewrite lookup_insert_eq.
  - by rewrite Hrec.
  - done.
  - done.
  - done.
  - apply snap_json_bodies_written.
  - intros o now' t_dec st0 res st1 He.
    apply snap_enter_return in He as (c & st2 & snap0 & _ & Hread & Hsnap & _ & _ & _ & ->).
    apply snap_readCache_cases in Hread
      as [(text & parsed & _ & [= <-] & -> & [= ->] & Hh2 & _)
         |(_ & _ & [Hcf|[[=]|[e [=]]]])]; [|congruence].
    rewrite Hh2 in Hsnap. cbn in Hsnap. rewrite lookup_insert_eq in Hsnap.
    injection Hsnap as <-. cbn.
    destruct Hu as (_ & _ & _ & _ & _ & -> & _ & _ & ->).
    rewrite Hrec. cbn. split_and!; try done. by destruct (correlationId o).
Qed.

(** *** Upstream traffic *)

Lemma snap_refresh_fetched_upstream p r started cached results t_done t_stamp now st x st' :
  refresh_fetched p r started cached results t_done t_stamp now st = Some (x, st') ->
  upstream st' = upstream st.
Proof.
  unfold EphemerisCache.refresh_fetched.
  destruct (cached_snapshot cached st) as [cs|]; [|done].
  destruct (EphemerisCache.buildPlanetSnapshot _ _ _ _ _ _ _) as [[snap|e] warns].
  - unfold EphemerisCache.writeCache_issue, serialize. cbn.
    rewrite lookup_insert_eq. destruct (_ && _); by intros [= _ <-].
  - by intros [= _ <-].
Qed.

Lemma snap_outstanding_ext st st' m :
  inflightByMode st' = inflightByMode st -> promises st' = promises st ->
  outstanding st' m = outstanding st m.
Proof. unfold outstanding. by intros -> ->. Qed.

Lemma snap_outstanding_pending st m p r ph :
  registered st -> promises st !! p = Some (Pending r ph) -> r_mode r = m ->
  outstanding st m = fetching ph.
Proof.
  intros [_ Hreg] Hp <-. unfold outstanding. by rewrite (Hreg _ _ _ Hp), Hp.
Qed.

Lemma snap_outstanding_idle st m :
  registered st ->
  (forall p r ph, promises st !! p = Some (Pending r ph) -> r_mode r <> m) ->
  outstanding st m = 0%nat.
Proof.
  intros [Hreg _] Hno. unfold outstanding.
  destruct (inflightByMode st !! m) as [p|] eqn:E; [|done].
  destruct (Hreg _ _ E) as (r & ph & Hp & Hm). by destruct (Hno _ _ _ Hp).
Qed.

Lemma snap_outstanding_update st st' p x m :
  registered st -> registered st' ->
  promises st' = <[p := x]> (promises st) ->
  (forall r ph, promises st !! p = Some (Pending r ph) -> r_mode r <> m) ->
  (forall r ph, x = Pending r ph -> r_mode r <> m) ->
  outstanding st' m = outstanding st m.
Proof.
  intros Hr Hr' Hp Hold Hnew.
  destruct (inflightByMode st !! m) as [q|] eqn:E.
  - destruct (reg_inflight _ Hr _ _ E) as (r & ph & Hq & Hm).
    assert (q <> p) by (intros ->; by destruct (Hold _ _ Hq)).
    rewrite (snap_outstanding_pending st m q r ph),
      (snap_outstanding_pending st' m q r ph); try done.
    rewrite Hp, lookup_insert_ne; done.
  - rewrite (snap_outstanding_idle st), (snap_outstanding_idle st'); try done.
    + intros q r ph Hq Hm. rewrite Hp in Hq. destruct (decide (q = p)) as [->|Hne].
      * rewrite lookup_insert_eq in Hq. injection Hq as Hx.
        by destruct (Hnew _ _ Hx).
      * rewrite lookup_insert_ne in Hq by done.
        pose proof (reg_pending _ Hr _ _ _ Hq). congruence.
    + intros q r ph Hq Hm. pose proof (reg_pending _ Hr _ _ _ Hq). congruence.
Qed.

(** The refresh behind [p] moves on: the fetches under way change by what
    its phase says. *)
Lemma snap_outstanding_moves st st' p r ph x :
  registered st -> registered st' ->
  promises st !! p = Some (Pending r ph) ->
  promises st' = <[p := x]> (promises st) ->
  (forall r' ph', x = Pending r' ph' -> r' = r) ->
  (outstanding st' state_vectors + outstanding st' full + fetching ph
   = outstanding st state_vectors + outstanding st full
     + match x with Pending _ ph' => fetching ph' | Done _ => 0 end)%nat.
Proof.
  intros Hr Hr' Hp Hp' Hx.
  assert (H0 : outstanding st (r_mode r) = fetching ph)
    by (by eapply snap_outstanding_pending).
  assert (H0' : outstanding st' (r_mode r)
                = match x with Pending _ ph' => fetching ph' | Done _ => 0%nat end).
  { destruct x as [r' ph'|res].
    - rewrite (Hx _ _ eq_refl) in Hp'.
      eapply snap_outstanding_pending; [done| |done]. rewrite Hp'. apply lookup_insert_eq.
    - apply snap_outstanding_idle; [done|]. intros q rq phq Hq Hm.
      rewrite Hp' in Hq. destruct (decide (q = p)) as [->|Hne].
      + by rewrite lookup_insert_eq in Hq.
      + rewrite lookup_insert_ne in Hq by done.
        pose proof (reg_pending _ Hr _ _ _ Hq) as H1.
        pose proof (reg_pending _ Hr _ _ _ Hp) as H2.
        rewrite Hm in H1. congruence. }
  assert (H1 : forall m, m <> r_mode r -> outstanding st' m = outstanding st m).
  { intros m Hm. eapply snap_outstanding_update; [done|done|exact Hp'| |].
    - intros r0 ph0 Hq. rewrite Hp in Hq. injection Hq as <- <-. done.
    - intros r0 ph0 ->. rewrite (Hx _ _ eq_refl). done. }
  destruct (r_mode r) eqn:Em.
  - rewrite H0, H0', (H1 full) by done. lia.
  - rewrite H0, H0', (H1 state_vectors) by done. lia.
Qed.

Lemma snap_outstanding_starts st st' mode reason cid p m :
  registered st -> starts st st' mode reason cid p ->
  outstanding st' m = outstanding st m.
Proof.
  intros Hr (Hi & Hnone & Hp & Hi' & _). unfold outstanding. rewrite Hi'.
  destruct (decide (m = mode)) as [->|Hne].
  - by rewrite lookup_insert_eq, Hp, lookup_insert_eq, Hi.
  - rewrite lookup_insert_ne by done.
    destruct (inflightByMode st !! m) as [q|] eqn:E; [|done].
    destruct (reg_inflight _ Hr _ _ E) as (r & ph & Hq & _).
    rewrite Hp, lookup_insert_ne; [done|]. intros <-. congruence.
Qed.

(** One step: a call goes upstream exactly when a fetch starts, and a fetch
    ends exactly when its outcome is delivered. *)
Lemma snap_step_upstream e s s' :
  consistent s -> step e s = Some s' ->
  (length (upstream (state s'))
     + (outstanding (state s) state_vectors + outstanding (state s) full)
   = length (upstream (state s))
     + (outstanding (state s') state_vectors + outstanding (state s') full)
     + (if is_outcome e then 1 else 0))%nat
  /\ forall u, u ∈ upstream (state s') ->
       u ∈ upstream (state s)
       \/ exists cfg b, cfg ∈ PLANETS /\ u = planet_call b cfg.
Proof.
  intros Hcon Hstep.
  pose proof (snap_consistent_step _ _ _ Hcon Hstep) as Hcon'.
  pose proof (con_registered _ Hcon) as Hr.
  pose proof (con_registered _ Hcon') as Hr'.
  assert (Hsame : inflightByMode (state s') = inflightByMode (state s) ->
    promises (state s') = promises (state s) ->
    upstream (state s') = upstream (state s) -> is_outcome e = false ->
    (length (upstream (state s'))
       + (outstanding (state s) state_vectors + outstanding (state s) full)
     = length (upstream (state s))
       + (outstanding (state s') state_vectors + outstanding (state s') full)
       + (if is_outcome e then 1 else 0))%nat
    /\ forall u, u ∈ upstream (state s') ->
         u ∈ upstream (state s)
         \/ exists cfg b, cfg ∈ PLANETS /\ u = planet_call b cfg).
  { intros Hi Hp Hu ->. rewrite Hu, !(snap_outstanding_ext _ _ _ Hi Hp).
    split; [lia|]. intros u ?. by left. }
  assert (Hstarted : forall st1 mode reason cid p,
    inflightByMode st1 = inflightByMode (state s) ->
    promises st1 = promises (state s) -> upstream st1 = upstream (state s) ->
    starts st1 (state s') mode reason cid p -> is_outcome e = false ->
    (length (upstream (state s'))
       + (outstanding (state s) state_vectors + outstanding (state s) full)
     = length (upstream (state s))
       + (outstanding (state s') state_vectors + outstanding (state s') full)
       + (if is_outcome e then 1 else 0))%nat
    /\ forall u, u ∈ upstream (state s') ->
         u ∈ upstream (state s)
         \/ exists cfg b, cfg ∈ PLANETS /\ u = planet_call b cfg).
  { intros st1 mode reason cid p Hi Hp Hu Hst ->.
    assert (Hr1 : registered st1) by (by eapply snap_registered_ext).
    rewrite !(snap_outstanding_starts _ _ _ _ _ _ _ Hr1 Hst),
      !(snap_outstanding_ext _ _ _ Hi Hp).
    destruct Hst as (_ & _ & _ & _ & _ & _ & _ & ->). rewrite Hu.
    split; [lia|]. intros u ?. by left. }
  assert (Hloop : forall p r ph0 started cached collected t_done t_stamp now t_dec st,
    promises st = promises (state s) -> upstream st = upstream (state s) ->
    promises (state s) !! p = Some (Pending r ph0) ->
    refresh_loop p r started cached collected t_done t_stamp now t_dec s st = Some s' ->
    (length (upstream (state s'))
       + (outstanding (state s) state_vectors + outstanding (state s) full)
     = length (upstream (state s))
       + (outstanding (state s') state_vectors + outstanding (state s') full)
       + fetching ph0)%nat
    /\ forall u, u ∈ upstream (state s') ->
         u ∈ upstream (state s)
         \/ exists cfg b, cfg ∈ PLANETS /\ u = planet_call b cfg).
  { intros p r ph0 started cached collected t_done t_stamp now t_dec st Hpr Hup Hp Hl.
    apply snap_refresh_loop_cases in Hl
      as [(cfg & Hcfg & Hs')|(_ & [(e0 & st' & Ef & Hs)|(st' & Ef & Hs')])].
    - assert (Hp' : promises (state s')
        = <[p := Pending r (Fetching started cached collected)]> (promises (state s))).
      { rewrite Hs'. cbn. by rewrite Hpr. }
      assert (Hu' : upstream (state s') = upstream (state s)
        ++ [planet_call match r_mode r with full => true | state_vectors => false end
              cfg]).
      { rewrite Hs'. cbn. by rewrite Hup. }
      pose proof (snap_outstanding_moves _ _ _ _ _ _ Hr Hr' Hp Hp') as Hm.
      cbn in Hm. rewrite Hu', length_app. cbn. split.
      + assert (Hx : forall r' ph',
          Pending r (Fetching started cached collected) = Pending r' ph' -> r' = r)
          by (by intros ? ? [= <- _]).
        specialize (Hm Hx). lia.
      + intros u Hin. apply elem_of_app in Hin as [?|Hin]; [by left|].
        apply list_elem_of_singleton in Hin as ->. right.
        eexists cfg, _. split; [|done]. by eapply list_elem_of_lookup_2.
    - pose proof (snap_refresh_fetched_upstream _ _ _ _ _ _ _ _ _ _ _ Ef) as Hu1.
      apply snap_refresh_fetched_rejected in Ef as (_ & _ & _ & _ & _ & Hp1).
      apply snap_settle_promises in Hs as [Hp' Hu'].
      rewrite Hp1, Hpr in Hp'. rewrite Hu1, Hup in Hu'.
      pose proof (snap_outstanding_moves _ _ _ _ _ _ Hr Hr' Hp Hp') as Hm.
      cbn in Hm. rewrite Hu'. split.
      + lapply Hm; [lia|done].
      + intros u ?. by left.
    - pose proof (snap_refresh_fetched_upstream _ _ _ _ _ _ _ _ _ _ _ Ef) as Hu1.
      apply snap_refresh_fetched_fulfilled in Ef
        as (cs & snap & warns & record & issued & _ & _ & _ & _ & _ & _ & _ & _ & Hp1 & _).
      assert (Hp' : promises (state s')
        = <[p := Pending r (Writing record issued)]> (promises (state s))).
      { rewrite Hs'. cbn. by rewrite Hp1, Hpr. }
      assert (Hu' : upstream (state s') = upstream (state s)).
      { rewrite Hs'. cbn. by rewrite Hu1, Hup. }
      pose proof (snap_outstanding_moves _ _ _ _ _ _ Hr Hr' Hp Hp') as Hm.
      cbn in Hm. rewrite Hu'. split.
      + assert (Hx : forall r' ph',
          Pending r (Writing record issued) = Pending r' ph' -> r' = r)
          by (by intros ? ? [= <- _]).
        specialize (Hm Hx). lia.
      + intros u ?. by left. }
  destruct e as [o now t_dec reach t_store|p reach t_store t_started t_done t_stamp now t_dec
                |p outcome t_done t_stamp now t_dec|p reach t_store t_dec
                |n reach t_store t_dec| |sto];
    cbn [EphemerisCache.step] in Hstep.
  - set (reply := get_reply _ _ _ _) in Hstep.
    destruct (enter o now t_dec reply (state s)) as [[out st']|] eqn:E; [|done].
    assert (state s' = st') as Hst' by (destruct out; by injection Hstep as <-).
    apply snap_enter_cases in E as (cached & st1 & Hread & Hout).
    assert (H1 : inflightByMode st1 = inflightByMode (state s)
                 /\ promises st1 = promises (state s)
                 /\ upstream st1 = upstream (state s)).
    { destruct (forceRefresh o).
      - by destruct Hread as [_ ->].
      - apply snap_readCache_cases in Hread
          as [(text & parsed & _ & _ & _ & _ & _ & _ & ? & _ & ? & ?)
             |(_ & (_ & _ & ? & _ & ? & ?) & _)]; done. }
    destruct H1 as (Hi1 & Hp1 & Hu1). subst st'.
    destruct Hout as [(res & _ & _ & [Hsm|(p & Hst)])|(p & _ & [[_ Heq]|Hst])].
    + destruct Hsm as (_ & _ & Hi2 & _ & Hp2 & Hu2).
      apply Hsame; [congruence|congruence|congruence|done].
    + by eapply Hstarted.
    + apply Hsame; rewrite ?Heq; done.
    + by eapply Hstarted.
  - apply snap_step_read in Hstep as (r & cached & st1 & Hp & Hread & Hl).
    assert (H1 : promises st1 = promises (state s) /\ upstream st1 = upstream (state s)).
    { apply snap_readCache_cases in Hread
        as [(text & parsed & _ & _ & _ & _ & _ & _ & ? & _ & ? & ?)
           |(_ & (_ & _ & ? & _ & ? & ?) & _)]; done. }
    destruct H1 as [Hp1 Hu1].
    destruct (Hloop _ _ _ _ _ _ _ _ _ _ _ Hp1 Hu1 Hp Hl) as [Hn Hin].
    cbn in Hn |- *. split; [lia|done].
  - apply snap_step_fetched in Hstep as (r & started & cached & collected & Hp & Hl).
    destruct (Hloop _ _ _ _ _ _ _ _ _ _ _ eq_refl eq_refl Hp Hl) as [Hn Hin].
    cbn in Hn |- *. split; [lia|done].
  - destruct (promises (state s) !! p) as [[r [| |record issued]|]|] eqn:Hp; try done.
    destruct (refresh_written r record issued reach t_store (state s))
      as [[result st']|] eqn:Ew; [|done].
    assert (Hu1 : upstream st' = upstream (state s)).
    { unfold EphemerisCache.refresh_written in Ew.
      destruct (heap _ !! payload record); [|done]. injection Ew as _ <-. cbn.
      unfold writeCache_done. destruct issued as [[text px]|]; [|done]. by destruct reach. }
    apply snap_refresh_written_cases in Ew as (snap & _ & _ & _ & _ & _ & Hp1 & _).
    apply snap_settle_promises in Hstep as [Hp' Hu']. rewrite Hp1 in Hp'.
    pose proof (snap_outstanding_moves _ _ _ _ _ _ Hr Hr' Hp Hp') as Hm.
    cbn in Hm |- *. rewrite Hu', Hu1. split; [|intros u ?; by left].
    lapply Hm; [lia|done].
  - destruct (remove_caller n (waiting s)) as [[w rest]|] eqn:Erm; [|done].
    destruct (c_wait w) as [|err] eqn:Hw; [done|].
    set (mode := mode_of (includeObserver (c_options w))) in *.
    destruct (readCache (get_reply reach t_store mode (state s)) mode (state s))
      as [cached st1] eqn:Hread.
    destruct (frozen_or_throw (c_options w) (c_now w) t_dec err cached st1)
      as [[out st2]|] eqn:Efz; [|done].
    injection Hstep as <-.
    apply snap_frozen_or_throw_frame in Efz as (_ & _ & Hi2 & _ & Hp2 & Hu2).
    assert (H1 : inflightByMode st1 = inflightByMode (state s)
                 /\ promises st1 = promises (state s)
                 /\ upstream st1 = upstream (state s)).
    { apply snap_readCache_cases in Hread
        as [(text & parsed & _ & _ & _ & _ & _ & _ & ? & _ & ? & ?)
           |(_ & (_ & _ & ? & _ & ? & ?) & _)]; done. }
    destruct H1 as (Hi1 & Hp1 & Hu1).
    apply Hsame; cbn; congruence.
  - destruct (_ && _); [|done].
    destruct (inflightByMode (state s) !! state_vectors) eqn:Hi;
      injection Hstep as <-; [by apply Hsame|].
    destruct (snap_setInflight_refresh_frame "background-prewarm" None state_vectors
                (state s)) as (_ & Hnone & Hp & Hi' & Hh & Hm & Hs & Hu).
    eapply (Hstarted (state s)); first [done|by repeat split].
  - injection Hstep as <-. by apply Hsame.
Qed.

Lemma snap_upstream_run es : forall s s',
  consistent s -> run es s = Some s' ->
  (length (upstream (state s'))
     + (outstanding (state s) state_vectors + outstanding (state s) full)
   = length (upstream (state s))
     + (outstanding (state s') state_vectors + outstanding (state s') full)
     + outcomes_delivered es)%nat
  /\ forall u, u ∈ upstream (state s') ->
       u ∈ upstream (state s)
       \/ exists cfg b, cfg ∈ PLANETS /\ u = planet_call b cfg.
Proof.
  induction es as [|e es IH]; intros s s' Hcon.
  - intros [= <-]. cbn. split; [lia|]. by left.
  - rewrite snap_run_cons. destruct (step e s) as [s1|] eqn:E; [|done].
    intros Hrun.
    pose proof (snap_consistent_step _ _ _ Hcon E) as Hcon1.
    destruct (IH _ _ Hcon1 Hrun) as [IH1 IH2].
    destruct (snap_step_upstream _ _ _ Hcon E) as [H1 H2].
    unfold outcomes_delivered in *. rewrite filter_cons. split.
    + destruct (is_outcome e) eqn:Eo.
      * rewrite decide_True by done. cbn [length]. lia.
      * rewrite decide_False by done. lia.
    + intros u Hin. destruct (IH2 u Hin) as [Hin1|?]; [|by right]. by apply H2.
Qed.

(** The loop of a refresh never runs past the planet table. *)
Lemma snap_loop_bound_run es : forall s s',
  (forall p r started cached collected,
     promises (state s) !! p = Some (Pending r (Fetching started cached collected)) ->
     (length collected < length PLANETS)%nat) ->
  run es s = Some s' ->
  forall p r started cached collected,
    promises (state s') !! p = Some (Pending r (Fetching started cached collected)) ->
    (length collected < length PLANETS)%nat.
Proof.
  induction es as [|e es IH]; intros s s' Hb.
  - by intros [= <-].
  - rewrite snap_run_cons. destruct (step e s) as [s1|] eqn:E; [|done].
    apply IH. intros p r started cached collected Hp.
    destruct (snap_step_promises e s s1 p E)
      as [Heq|[(r0 & Hp' & _)|[(r0 & ph & res & Hp' & _)
         |[(r0 & st0 & Hp' & _ & Hlt)|[(r0 & st0 & c0 & col0 & out0 & Hp' & _ & Hlt)
         |(r0 & rec0 & iss & st0 & c0 & col0 & Hp' & _)]]]]];
      rewrite ?Heq in Hp; try congruence.
    + by eapply Hb.
    + rewrite Hp' in Hp. by injection Hp as _ _ _ <-.
Qed.

(** X16. Calls go upstream one at a time, inside the fetch loop of a
    refresh: in a run from start-up, the calls made so far are one for
    every outcome delivered and one for every fetch still under way, at
    most one per mode, that of the refresh in its loop; such a refresh has
    fewer outcomes than there are planets; and every call made is for a
    planet of the table, under its Horizons id and name. *)
Theorem X_snapshot_upstream_sequential es s :
  run es boot = Some s ->
  length (upstream (state s))
    = (outcomes_delivered es
       + outstanding (state s) state_vectors + outstanding (state s) full)%nat
  /\ (forall m,
        (outstanding (state s) m <= 1)%nat
        /\ (outstanding (state s) m = 1%nat <->
            exists p r started cached collected,
              promises (state s) !! p
                = Some (Pending r (Fetching started cached collected))
              /\ r_mode r = m))
  /\ (forall p r started cached collected,
        promises (state s) !! p = Some (Pending r (Fetching started cached collected)) ->
        (length collected < length PLANETS)%nat)
  /\ forall u, u ∈ upstream (state s) ->
       exists cfg, cfg ∈ PLANETS /\ u_horizonsId u = Planets.horizonsId cfg
                   /\ u_name u = Planets.name cfg.
Proof.
  intros Hrun.
  pose proof (snap_consistent_run _ _ _ snap_consistent_boot Hrun) as Hcon.
  pose proof (con_registered _ Hcon) as Hr.
  destruct (snap_upstream_run es boot s snap_consistent_boot Hrun) as [H1 H2].
  split_and!.
  - change (upstream (state boot)) with (@nil UpstreamCall) in H1.
    change (outstanding (state boot) state_vectors) with 0%nat in H1.
    change (outstanding (state boot) full) with 0%nat in H1.
    cbn [length] in H1. lia.
  - intros m. split.
    + unfold outstanding. destruct (inflightByMode (state s) !! m) as [p|]; [|lia].
      destruct (promises (state s) !! p) as [[r [| |]|]|]; cbn; lia.
    + split.
      * unfold outstanding.
        destruct (inflightByMode (state s) !! m) as [p|] eqn:Ei; [|done].
        destruct (reg_inflight _ Hr _ _ Ei) as (r & ph & Hp & Hm).
        rewrite Hp. destruct ph; cbn; try done. eauto 10.
      * intros (p & r & started & cached & collected & Hp & Hm).
        by rewrite (snap_outstanding_pending _ _ _ _ _ Hr Hp Hm).
  - eapply snap_loop_bound_run; [|exact Hrun]. intros p r started cached collected Hp.
    change (promises (state boot)) with (∅ : gmap PromiseId PromiseState) in Hp.
    by rewrite lookup_empty in Hp.
  - intros u Hu. destruct (H2 u Hu) as [Hin|(cfg & b & Hcfg & ->)].
    + by apply elem_of_nil in Hin.
    + eauto.
Qed.

(** *** No call is lost *)

Lemma snap_resume_all_accounted t p res ws : forall st out ws' st' out',
  resume_all t p res ws st out = Some (ws', st', out') ->
  (forall n, is_Some (out !! n) -> is_Some (out' !! n))
  /\ (forall w, w ∈ ws ->
        (exists w', w' ∈ ws' /\ c_call w' = c_call w) \/ is_Some (out' !! c_call w)).
Proof.
  induction ws as [|w ws IH]; intros st out ws' st' out'; simpl.
  { intros [= <- <- <-]. split; [done|]. intros w Hw. by apply elem_of_nil in Hw. }
  assert (Hkeep : forall rest st1 out1,
    resume_all t p res ws st out = Some (rest, st1, out1) ->
    (w :: rest, st1, out1) = (ws', st', out') ->
    (forall n, is_Some (out !! n) -> is_Some (out' !! n))
    /\ (forall w0, w0 ∈ w :: ws ->
          (exists w', w' ∈ ws' /\ c_call w' = c_call w0) \/ is_Some (out' !! c_call w0))).
  { intros rest st1 out1 Hrec [= <- <- <-]. apply IH in Hrec as [H1 H2].
    split; [done|]. intros w0 Hw0. apply elem_of_cons in Hw0 as [->|Hw0].
    - left. exists w. split; [by left|done].
    - destruct (H2 w0 Hw0) as [(w' & Hw' & Hc)|?]; [|by right].
      left. exists w'. split; [by right|done]. }
  destruct (c_wait w) as [q|err0] eqn:Hw.
  2:{ destruct (resume_all t p res ws st out) as [[[rest st1] out1]|] eqn:Er; [|done].
      intros [= Heq1 Heq2 Heq3]. eapply Hkeep; [reflexivity|congruence]. }
  case_bool_decide as Hq.
  2:{ destruct (resume_all t p res ws st out) as [[[rest st1] out1]|] eqn:Er; [|done].
      intros [= Heq1 Heq2 Heq3]. eapply Hkeep; [reflexivity|congruence]. }
  subst q. clear Hkeep.
  destruct (resume t w res st) as [[[w1|r1] st1]|] eqn:Ers; [| |done].
  - destruct (resume_all t p res ws st1 out) as [[[rest st2] out2]|] eqn:Er; [|done].
    intros [= <- <- <-]. apply IH in Er as [H1 H2]. split; [done|].
    assert (Hc1 : c_call w1 = c_call w).
    { apply snap_resume_cases in Ers as [_ Hr]. destruct res as [result|err].
      - by destruct Hr as (_ & ? & _ & ?).
      - destruct (memoryCache st !! _).
        + by destruct Hr as (? & _ & ?).
        + by destruct Hr as [_ [= ->]]. }
    intros w0 Hw0. apply elem_of_cons in Hw0 as [->|Hw0].
    + left. exists w1. split; [by left|done].
    + destruct (H2 w0 Hw0) as [(w' & Hw' & Hc)|?]; [|by right].
      left. exists w'. split; [by right|done].
  - intros Hall. apply IH in Hall as [H1 H2]. split.
    + intros n [x Hn]. apply H1. destruct (decide (n = c_call w)) as [->|Hne].
      * rewrite lookup_insert_eq. eauto.
      * rewrite lookup_insert_ne by done. eauto.
    + intros w0 Hw0. apply elem_of_cons in Hw0 as [->|Hw0]; [|by apply H2].
      right. apply H1. rewrite lookup_insert_eq. eauto.
Qed.

Lemma snap_settle_accounted t p r res s st s' :
  settle t p r res s st = Some s' -> accounted s -> accounted s'.
Proof.
  unfold EphemerisCache.settle.
  destruct (resume_all _ _ _ _ _ _) as [[[ws st2] out]|] eqn:Er; [|done].
  intros [= <-] Hacc n Hn. cbn in *.
  apply snap_resume_all_accounted in Er as [H1 H2].
  destruct (Hacc n Hn) as [(w & Hw & <-)|Hr]; [by apply H2|right; by apply H1].
Qed.

Lemma snap_accounted_step e s s' :
  consistent s -> accounted s -> step e s = Some s' -> accounted s'.
Proof.
  intros Hcon Hacc Hstep.
  assert (Hloop : forall p r started cached collected t_done t_stamp now t_dec st,
    refresh_loop p r started cached collected t_done t_stamp now t_dec s st = Some s' ->
    accounted s').
  { intros p r started cached collected t_done t_stamp now t_dec st Hl.
    apply snap_refresh_loop_cases in Hl
      as [(cfg & _ & ->)|(_ & [(e0 & st' & _ & Hs)|(st' & _ & ->)])]; [done| |done].
    by eapply snap_settle_accounted. }
  destruct e as [o now t_dec reach t_store|p reach t_store t_started t_done t_stamp now t_dec
                |p outcome t_done t_stamp now t_dec|p reach t_store t_dec
                |n0 reach t_store t_dec| |sto];
    cbn [EphemerisCache.step] in Hstep.
  - set (reply := get_reply _ _ _ _) in Hstep.
    destruct (enter o now t_dec reply (state s)) as [[[res|p] st']|] eqn:E; [| |done];
      injection Hstep as <-; intros n Hn; cbn in *.
    + destruct (decide (n = ncalls s)) as [->|Hne].
      * right. rewrite lookup_insert_eq. eauto.
      * rewrite lookup_insert_ne by done. apply Hacc. lia.
    + destruct (decide (n = ncalls s)) as [->|Hne].
      * left. eexists. split; [apply elem_of_app; right; by apply list_elem_of_singleton|].
        done.
      * destruct (Hacc n ltac:(lia)) as [(w & Hw & Hc)|?]; [|by right].
        left. exists w. split; [apply elem_of_app; by left|done].
  - apply snap_step_read in Hstep as (r & cached & st1 & _ & _ & Hl). by eapply Hloop.
  - apply snap_step_fetched in Hstep as (r & started & cached & collected & _ & Hl).
    by eapply Hloop.
  - destruct (promises (state s) !! p) as [[r [| |record issued]|]|]; try done.
    destruct (refresh_written r record issued reach t_store (state s))
      as [[result st']|] eqn:Ew; [|done].
    by eapply snap_settle_accounted.
  - destruct (remove_caller n0 (waiting s)) as [[w rest]|] eqn:Erm; [|done].
    destruct (c_wait w) as [|err] eqn:Hw; [done|].
    set (mode := mode_of (includeObserver (c_options w))) in *.
    destruct (readCache (get_reply reach t_store mode (state s)) mode (state s))
      as [cached st1] eqn:Hread.
    destruct (frozen_or_throw (c_options w) (c_now w) t_dec err cached st1)
      as [[out st2]|] eqn:Efz; [|done].
    injection Hstep as <-. intros n Hn. cbn in *.
    apply snap_remove_caller_spec in Erm as (Hc & Hin & _ & Hrest & _).
    destruct (decide (n = n0)) as [->|Hne].
    + right. rewrite lookup_insert_eq. eauto.
    + rewrite lookup_insert_ne by done.
      destruct (Hacc n Hn) as [(w0 & Hw0 & Hc0)|?]; [|by right].
      left. exists w0. split; [|done]. apply Hrest; [done|congruence].
  - destruct (_ && _); [|done].
    destruct (inflightByMode (state s) !! state_vectors); by injection Hstep as <-.
  - by injection Hstep as <-.
Qed.

Lemma snap_accounted_run es : forall s s',
  consistent s -> accounted s -> run es s = Some s' -> accounted s'.
Proof.
  induction es as [|e es IH]; intros s s' Hcon Hacc.
  - by intros [= <-].
  - rewrite snap_run_cons. destruct (step e s) as [s1|] eqn:E; [|done].
    apply IH; [by eapply snap_consistent_step|by eapply snap_accounted_step].
Qed.

(** X17. The bookkeeping of every state reached from start-up.  The
    in-flight slot of a mode holds a promise exactly when that promise is an
    unsettled refresh of the mode: a settled refresh never keeps the slot
    and a running one never loses it.  Every call made so far is either
    suspended or answered, never both, and a suspended call that awaits a
    refresh awaits an unsettled one. *)
Theorem X_snapshot_bookkeeping es s :
  run es boot = Some s ->
  (forall m p, inflightByMode (state s) !! m = Some p <-> in_flight (state s) m p)
  /\ (forall n, (n < ncalls s)%nat <->
        (exists w, w ∈ waiting s /\ c_call w = n) \/ is_Some (results s !! n))
  /\ (forall w, w ∈ waiting s ->
        results s !! c_call w = None
        /\ forall p, c_wait w = AwaitInflight p ->
             exists r ph, promises (state s) !! p = Some (Pending r ph)).
Proof.
  intros Hrun.
  assert (Hcon : consistent s)
    by (eapply snap_consistent_run; [apply snap_consistent_boot|exact Hrun]).
  assert (Hacc : accounted s).
  { eapply snap_accounted_run; [apply snap_consistent_boot| |exact Hrun].
    intros n Hn. cbn in Hn. lia. }
  destruct Hcon as [[Hreg1 Hreg2] Hwait Hnd Hres]. split_and!.
  - intros m p. split; [apply Hreg1|].
    intros (r & ph & Hp & <-). by eapply Hreg2.
  - intros n. split; [apply Hacc|].
    intros [(w & Hw & <-)|[x Hx]]; [by apply Hwait|by eapply Hres].
  - intros w Hw. destruct (Hwait w Hw) as (_ & ? & ?). done.
Qed.

(** *** Hits from one record *)

Lemma snap_memory_kept_step e s s' :
  client = false -> ends_loop PLANETS s e = false -> step e s = Some s' ->
  memoryCache (state s') = memoryCache (state s).
Proof.
  intros Hc He Hstep. pose proof (snap_step_data _ _ _ Hstep) as Hdata.
  assert (Hrt : forall mode, read_through mode (state s) (state s') ->
    memoryCache (state s') = memoryCache (state s)).
  { intros mode [(_ & ? & _)|(text & parsed & ? & _)]; [done|congruence]. }
  destruct e as [o now t_dec reach t_store|p reach t_store t_started t_done t_stamp now t_dec
                |p outcome t_done t_stamp now t_dec|p reach t_store t_dec
                |n reach t_store t_dec| |sto].
  - destruct (forceRefresh o); [by destruct Hdata as (_ & ? & _)|by eapply Hrt].
  - destruct Hdata as (r & _ & H). by eapply Hrt.
  - apply snap_step_fetched in Hstep as (r & started & cached & collected & Hp & Hl).
    cbn in He. rewrite Hp in He. apply bool_decide_eq_false in He.
    apply snap_refresh_loop_cases in Hl as [(cfg & _ & ->)|(Hnone & _)]; [done|].
    apply lookup_ge_None in Hnone. rewrite length_app in Hnone. cbn in Hnone. lia.
  - by destruct Hdata as (r & record & issued & snap & _ & _ & _ & ? & _).
  - destruct Hdata as (w & _ & _ & H). by eapply Hrt.
  - by destruct Hdata as (_ & ? & _).
  - by destruct Hdata as (_ & ? & _).
Qed.

Lemma snap_memory_kept_run es : forall s s',
  client = false -> no_loop_ends es s -> run es s = Some s' ->
  memoryCache (state s') = memoryCache (state s).
Proof.
  induction es as [|e es IH]; intros s s' Hc Hall.
  - by intros [= <-].
  - rewrite snap_run_cons. cbn [SnapshotInvariants.no_loop_ends] in Hall.
    destruct Hall as [He Hall].
    destruct (step e s) as [s1|] eqn:E; [|done]. intros Hrun.
    rewrite (IH _ _ Hc Hall Hrun). by eapply snap_memory_kept_step.
Qed.

(** X18. In a process without a shared store, a record stays the record of
    its mode until a refresh completes its fetch loop, that is until the
    outcome for the last planet of the table is delivered; so, whatever
    else happens in between (outcomes for earlier planets included), every
    call without [forceRefresh] that arrives
    while the record is younger than the TTL returns at once, as a HIT of
    the record's age, with the bodies and the timestamp the record's
    snapshot had from the start. *)
Theorem X_snapshot_hits_repeatable es s s' c snap o now t_dec reach t_store :
  client = false ->
  memoryCache (state s) !! mode_of (includeObserver o) = Some c ->
  heap (state s) !! payload c = Some snap ->
  no_loop_ends es s ->
  run es s = Some s' ->
  forceRefresh o = false ->
  now - cachedAt c < TTL ->
  exists res st',
    step (EvCall o now t_dec reach t_store) s'
      = Some {| state := st'; waiting := waiting s';
                results := <[ncalls s' := Fulfilled res]> (results s');
                ncalls := S (ncalls s') |}
    /\ cacheState res = HIT
    /\ cacheAgeMs res = now - cachedAt c
    /\ bodies (res_payload res) = bodies snap
    /\ snap_timestamp (res_payload res) = snap_timestamp snap.
Proof.
  intros Hc Hm Hsnap Hall Hrun Hf Hage.
  rewrite <- (snap_memory_kept_run es s s' Hc Hall Hrun) in Hm.
  destruct (snap_measurements_run es s s' _ _ Hrun Hsnap) as (snap' & Hsnap' & Hb & Ht & _).
  set (reply := get_reply reach t_store (mode_of (includeObserver o)) (state s')).
  assert (Hread : readCache reply (mode_of (includeObserver o)) (state s')
                  = (Some c, state s')).
  { unfold EphemerisCache.readCache, getRedisClient. by rewrite Hc, Hm. }
  pose proof (snap_enter_fresh o now t_dec reply (state s') c (state s') snap'
                Hf Hread Hsnap' Hage) as He.
  eexists _, _. split_and!.
  - cbn [EphemerisCache.step]. fold reply. rewrite He. reflexivity.
  - done.
  - done.
  - done.
  - done.
Qed.

End SnapshotFacts.

(** * Properties of the routes *)
Section RouteFacts.
Import EphemerisRoutes RouteInvariants.
Variable TTL SWR PREWARM : Z.
Variable PLANETS : list Planets.PlanetConfig.
Variable client : bool.
Variable iso : Z -> string.

(** A header is among those a handler sets. *)
Local Ltac header_in :=
  repeat first
    [ apply list_elem_of_here
    | apply list_elem_of_further
    | apply elem_of_app; right ].

Lemma route_on_spec s : on s = true <-> s = "1" \/ s = "true".
Proof.
  unfold on. rewrite orb_true_iff, !String.eqb_eq. done.
Qed.

Lemma route_find_value_on vs :
  from_option value_on false (List.find value_on vs) = true
  <-> exists s, QString s ∈ vs /\ on s = true.
Proof.
  induction vs as [|v vs IH]; cbn.
  - split; [done|]. intros (s & Hs & _). by apply elem_of_nil in Hs.
  - destruct (value_on v) eqn:Hv; cbn.
    + rewrite Hv. split; [intros _|done].
      destruct v as [s|]; [|done]. exists s. split; [by left|done].
    + rewrite IH. split.
      * intros (s & Hs & Hon). exists s. split; [by right|done].
      * intros (s & Hs & Hon). apply elem_of_cons in Hs as [<-|Hs]; [|eauto].
        cbn in Hv. congruence.
Qed.

(** X19. [parseForceRefresh] asks for a refresh exactly when the [refresh]
    query parameter is the string "1" or "true", or is an array with such
    a string among its elements, or when the [x-refresh-cache] header, or
    the first of its values if there are several, is "1" or "true".  The
    comparison is exact: no other spelling counts. *)
Theorem X_routes_force_refresh (req : Request) :
  (parseForceRefresh req = true <->
     (exists s, q_refresh req = QOne (QString s) /\ (s = "1" \/ s = "true"))
     \/ (exists vs s, q_refresh req = QMany vs /\ QString s ∈ vs /\ (s = "1" \/ s = "true"))
     \/ (exists s, h_refresh req = HOne s /\ (s = "1" \/ s = "true"))
     \/ (exists s ss, h_refresh req = HMany (s :: ss) /\ (s = "1" \/ s = "true")))
  /\ (forall observer,
        EphemerisCache.forceRefresh (snapshot_options observer req) = parseForceRefresh req
        /\ EphemerisCache.mode_of
             (EphemerisCache.includeObserver (snapshot_options observer req))
           = EphemerisCache.mode_of observer).
Proof.
  split; [|done].
  unfold parseForceRefresh. rewrite orb_true_iff. split.
  - intros [Hq|Hh].
    + destruct (q_refresh req) as [|[s|]|vs]; cbn in Hq; try done.
      * left. exists s. split; [done|]. by apply route_on_spec.
      * right; left. apply route_find_value_on in Hq as (s & Hs & Hon).
        exists vs, s. split_and!; [done..|]. by apply route_on_spec.
    + destruct (h_refresh req) as [|s|[|s ss]]; cbn in Hh; try done.
      * right; right; left. exists s. split; [done|]. by apply route_on_spec.
      * right; right; right. exists s, ss. split; [done|]. by apply route_on_spec.
  - intros [(s & -> & Hs)|[(vs & s & -> & Hin & Hs)|[(s & -> & Hs)|(s & ss & -> & Hs)]]];
      apply route_on_spec in Hs.
    + by left.
    + left. apply route_find_value_on. eauto.
    + by right.
    + by right.
Qed.

(** *** The snapshot routes *)

(** X20. What a snapshot route sends for any answer [getSnapshot] gives in a
    run from start-up.  On a result: status 200 with the payload as body,
    and headers that agree with the payload's metadata: the cache state,
    the age, the backend (that of the process) and the stale flag are the
    same in both places, the TTL header is the configured TTL, and a FROZEN
    result is flagged frozen.  On an error, which can only be "No Horizons
    data available": status 500, no header, the fixed error body, and one
    log entry. *)
Theorem X_routes_snapshot_response es s n out req :
  EphemerisCache.run TTL SWR PREWARM PLANETS client iso es EphemerisCache.boot = Some s ->
  EphemerisCache.results s !! n = Some out ->
  let r := (snapshot_response TTL req out).1 in
  match out with
  | Fulfilled res =>
      let m := EphemerisCache.metadata (EphemerisCache.res_payload res) in
      status r = 200
      /\ body r = JsonSnapshot (EphemerisCache.res_payload res)
      /\ (snapshot_response TTL req out).2 = []
      /\ ("X-Horizons-Cache", HState (EphemerisCache.cacheState res)) ∈ headers r
      /\ EphemerisCache.cacheStatus m = Some (EphemerisCache.cacheState res)
      /\ ("X-Horizons-Cache-Age", HNum (EphemerisCache.cacheAgeMs res)) ∈ headers r
      /\ EphemerisCache.md_cacheAgeMs m = Some (EphemerisCache.cacheAgeMs res)
      /\ ("X-Horizons-Cache-Backend", HBackend (EphemerisCache.backend_now client))
           ∈ headers r
      /\ EphemerisCache.md_cacheBackend m = Some (EphemerisCache.backend_now client)
      /\ ("X-Horizons-TTL", HNum TTL) ∈ headers r
      /\ (exists stale, ("X-Horizons-Cache-Stale", flag stale) ∈ headers r
                        /\ EphemerisCache.cacheStale m = Some stale)
      /\ (EphemerisCache.cacheState res = EphemerisCache.FROZEN ->
            ("X-Horizons-Frozen", flag true) ∈ headers r)
  | Rejected e =>
      e = ErrorObj "No Horizons data available"
      /\ status r = 500 /\ headers r = []
      /\ body r = JsonError "Erreur lors de la récupération des éphémérides"
      /\ (snapshot_response TTL req out).2
           = [{| level := LError; event := "ephemeris_fetch_failed";
                 error := Some "No Horizons data available" |}]
  end.
Proof.
  intros Hrun Hn r.
  pose proof (snap_answers_reachable TTL SWR PREWARM PLANETS client iso es s n out Hrun Hn)
    as Hlab.
  destruct out as [res|e]; subst r; cbn.
  - destruct Hlab as [Hst Hage [Hb Hb'] Hstale _ _ Hwin].
    split_and!; try done.
    + header_in.
    + header_in.
    + rewrite Hb'. header_in.
    + header_in.
    + exists (SnapshotInvariants.stale_state (EphemerisCache.cacheState res)).
      split; [|done]. destruct (EphemerisCache.cacheState res); cbn; header_in.
    + intros Hf. rewrite Hf in Hwin. destruct Hwin as [Hfz _].
      rewrite Hfz. cbn. header_in.
  - subst e. by split_and!.
Qed.

(** *** The single-body route *)

Lemma route_body_route_call req o :
  body_route req = Call o ->
  p_id req = Some (BodyEphemerisCache.o_id o)
  /\ BodyEphemerisCache.o_id o <> ""
  /\ is_Some (Bodies.BODY_BY_ID !! BodyEphemerisCache.o_id o)
  /\ BodyEphemerisCache.forceRefresh o = parseForceRefresh req
  /\ BodyEphemerisCache.correlationId o = requestId req.
Proof.
  unfold body_route, truthy. destruct (p_id req) as [i|]; [|done].
  change (default "" (Some i)) with i.
  destruct (String.eqb i "") eqn:Hi; cbn [negb]; [done|].
  apply String.eqb_neq in Hi.
  destruct (Bodies.BODY_BY_ID !! i) as [cfg|] eqn:Hcfg; cbn beta iota; [|done].
  intros [= <-].
  cbn [BodyEphemerisCache.o_id BodyEphemerisCache.forceRefresh
       BodyEphemerisCache.correlationId].
  split_and!; by eauto.
Qed.

Lemma route_all_upstream_step s e s' :
  all_upstream s -> through_route e ->
  BodyEphemerisCache.step TTL iso e s = Some s' -> all_upstream s'.
Proof.
  intros [Hch Hn] Hr Hstep.
  destruct e as [o now tl ts|q outcome tr tc te].
  - destruct Hr as (req & Hreq).
    apply route_body_route_call in Hreq as (_ & _ & [cfg Hcfg] & _).
    cbn [BodyEphemerisCache.step] in Hstep.
    destruct (BodyEphemerisCache.enter o now tl ts (BodyEphemerisCache.state s))
      as [out st'] eqn:E.
    assert (BodyEphemerisCache.state s' = st') as Hst
      by (destruct out; by injection Hstep as <-).
    unfold all_upstream. rewrite Hst.
    apply body_enter_chains in E
      as [(Hp & Hup & _)|(f & _ & _ & Hnone & Hp & [(cfg' & _ & -> & Hup)|(Hcfg' & _)])].
    + split; rewrite Hp, ?Hup; done.
    + split.
      * rewrite Hp. intros p c Hpc.
        destruct (decide (p = fresh (dom (BodyEphemerisCache.promises
                                            (BodyEphemerisCache.state s))))) as [->|Hne].
        -- rewrite lookup_insert_eq in Hpc. injection Hpc as <-. cbn. eauto.
        -- rewrite lookup_insert_ne in Hpc by done. by eapply Hch.
      * rewrite Hp, Hup, length_app, map_size_insert_None by done. cbn. lia.
    + congruence.
  - apply (body_settle_chains TTL iso) in Hstep as (c & Hq & Hp & Hup & _).
    unfold all_upstream. split; rewrite Hp, ?Hup.
    + intros p c0 Hpc. destruct (decide (p = q)) as [->|Hne].
      * by rewrite lookup_insert_eq in Hpc.
      * rewrite lookup_insert_ne in Hpc by done. by eapply Hch.
    + rewrite map_size_insert_Some by eauto. done.
Qed.

Lemma route_all_upstream_run es : forall s s',
  all_upstream s -> Forall through_route es ->
  BodyEphemerisCache.run TTL iso es s = Some s' -> all_upstream s'.
Proof.
  induction es as [|e es IH]; intros s s' Hall Hr.
  - by intros [= <-].
  - rewrite body_run_cons.
    destruct (BodyEphemerisCache.step TTL iso e s) as [s1|] eqn:E; [|done].
    apply Forall_cons in Hr as [He Hr]. apply IH; [|done].
    by eapply route_all_upstream_step.
Qed.

(** X21. The route [/body/:id] answers 400 without an id and 404 for an id
    that is not in the table, without calling the cache; otherwise it calls
    [getBodyEphemeris] with that id, the parsed refresh flag and the
    request id.  So when every call comes through the route, no chain ever
    fails on an unknown body: each one is waiting for its upstream call,
    and there are exactly as many upstream calls as chains. *)
Theorem X_routes_body_guard :
  (forall req,
     match body_route req with
     | Respond r =>
         headers r = []
         /\ ((status r = 400 /\ body r = JsonError "Missing body id"
              /\ (p_id req = None \/ p_id req = Some ""))
             \/ (status r = 404 /\ body r = JsonError "Unknown body id"
                 /\ exists i, p_id req = Some i /\ Bodies.BODY_BY_ID !! i = None))
     | Call o =>
         p_id req = Some (BodyEphemerisCache.o_id o)
         /\ is_Some (Bodies.BODY_BY_ID !! BodyEphemerisCache.o_id o)
         /\ BodyEphemerisCache.forceRefresh o = parseForceRefresh req
         /\ BodyEphemerisCache.correlationId o = requestId req
     end)
  /\ (forall es s,
        Forall through_route es ->
        BodyEphemerisCache.run TTL iso es BodyEphemerisCache.boot = Some s ->
        all_upstream s).
Proof.
  split.
  - intros req. destruct (body_route req) as [r|o] eqn:Hr.
    + unfold body_route, truthy in Hr. destruct (p_id req) as [i|].
      * change (default "" (Some i)) with i in Hr.
        destruct (String.eqb i "") eqn:Hi; cbn [negb] in Hr.
        -- injection Hr as <-. apply String.eqb_eq in Hi as ->.
           cbn [status headers body]. split; [done|]. left. split_and!; by eauto.
        -- destruct (Bodies.BODY_BY_ID !! i) as [cfg|] eqn:Hcfg; cbn beta iota in Hr;
             [done|].
           injection Hr as <-. cbn [status headers body]. split; [done|]. right. eauto.
      * injection Hr as <-. cbn [status headers body]. split; [done|]. left.
        split_and!; by eauto.
    + apply route_body_route_call in Hr as (? & _ & ? & ? & ?). done.
  - intros es s Hall Hrun.
    eapply route_all_upstream_run; [|exact Hall|exact Hrun].
    split; [done|]. cbn. by rewrite map_size_empty.
Qed.

(** X22. What the route [/body/:id] sends for any answer [getBodyEphemeris]
    gives in a run from start-up.  On a payload: status 200 with the
    payload as body, a cache-status header that repeats the payload's
    status, age, remaining-lifetime and latency headers that repeat the
    payload's metadata, and a frozen flag that is "1" exactly for a FROZEN
    payload.  On an error: status 500, no header, the fixed error body and
    one log entry carrying the error's text. *)
Theorem X_routes_body_response es s n out req :
  BodyEphemerisCache.run TTL iso es BodyEphemerisCache.boot = Some s ->
  BodyEphemerisCache.results s !! n = Some out ->
  let r := (body_response req out).1 in
  match out with
  | Fulfilled p =>
      status r = 200 /\ body r = JsonBody p /\ (body_response req out).2 = []
      /\ exists m cs age ms latency,
           BodyEphemerisCache.metadata p = Some m
           /\ BodyEphemerisCache.cacheStatus m = Some cs
           /\ ("X-Horizons-Cache", HBodyStatus cs) ∈ headers r
           /\ BodyEphemerisCache.cacheAgeMs m = Some age
           /\ ("X-Horizons-Cache-Age", HNum age) ∈ headers r
           /\ BodyEphemerisCache.cacheExpiresInMs m = Some ms
           /\ ("X-Horizons-TTL", HNum ms) ∈ headers r
           /\ BodyEphemerisCache.responseTimeMs m = Some latency
           /\ ("X-Horizons-Latency", HNum latency) ∈ headers r
           /\ ("X-Horizons-Frozen",
               flag match cs with BodyEphemerisCache.FROZEN => true | _ => false end)
                ∈ headers r
  | Rejected e =>
      status r = 500 /\ headers r = []
      /\ (body_response req out).2
           = [{| level := LError; event := "body_ephemeris_fetch_failed";
                 error := Some (err_text e) |}]
  end.
Proof.
  intros Hrun Hn r. destruct out as [p|e]; [|done].
  destruct (body_answered_run TTL iso es BodyEphemerisCache.boot s
              body_consistent_boot) as [_ Hans]; [done|done|exact Hrun|].
  destruct (Hans n p Hn) as (i & cid & started & t_resp & vec & m & -> & Hlat & Hm).
  subst r. cbn. split_and!; try done.
  rewrite Hlat.
  destruct (BodyEphemerisCache.cacheStatus m) as [[| |]|] eqn:Hcs; [| | |done].
  - destruct Hm as ([age Hage] & (ms & Hms & _) & Hfz & _).
    exists m, BodyEphemerisCache.HIT, age, ms, (t_resp - started).
    rewrite Hage, Hms, Hfz. cbn. split_and!; try done; header_in.
  - destruct Hm as (Hage & Hms & Hfz & _).
    exists m, BodyEphemerisCache.MISS, 0, TTL, (t_resp - started).
    rewrite Hage, Hms, Hfz. cbn. split_and!; try done; header_in.
  - destruct Hm as ([age Hage] & Hms & Hfz & _).
    exists m, BodyEphemerisCache.FROZEN, age, 0, (t_resp - started).
    rewrite Hage, Hms, Hfz. cbn. split_and!; try done; header_in.
Qed.

(** X23. When a fetch resolves, every caller that awaited it, the one that
    started it and those that joined it alike, is answered with a payload
    whose [requestId] is the correlation id of the call that started the
    fetch, whatever its own; and the route copies that id into the
    [X-Request-Id] header of each of these responses. *)
Theorem X_routes_body_request_id es s p c cfg started vec tr tc te s' w req :
  BodyEphemerisCache.run TTL iso es BodyEphemerisCache.boot = Some s ->
  BodyEphemerisCache.promises (BodyEphemerisCache.state s) !! p
    = Some (BodyEphemerisCache.Pending c) ->
  BodyEphemerisCache.ch_fetch c = BodyEphemerisCache.Upstream cfg started ->
  BodyEphemerisCache.step TTL iso
    (BodyEphemerisCache.EvSettle p (Fulfilled vec) tr tc te) s = Some s' ->
  w ∈ BodyEphemerisCache.waiting s ->
  BodyEphemerisCache.awaited (BodyEphemerisCache.c_wait w) = p ->
  exists payload m,
    BodyEphemerisCache.results s' !! BodyEphemerisCache.c_call w = Some (Fulfilled payload)
    /\ BodyEphemerisCache.metadata payload = Some m
    /\ BodyEphemerisCache.cacheStatus m = Some BodyEphemerisCache.MISS
    /\ BodyEphemerisCache.requestId m = BodyEphemerisCache.ch_correlationId c
    /\ forall i, BodyEphemerisCache.ch_correlationId c = Some i -> i <> "" ->
         ("X-Request-Id", HStr i) ∈ headers (body_response req (Fulfilled payload)).1.
Proof.
  intros Hrun Hp Hf Hstep Hw Ha.
  pose proof (body_consistent_reachable TTL iso es s Hrun) as Hcon.
  cbn [BodyEphemerisCache.step] in Hstep. rewrite Hp in Hstep.
  destruct (BodyEphemerisCache.resume_all _ _ _ _ _ _) as [[ws st2] res] eqn:Er.
  injection Hstep as <-. cbn [BodyEphemerisCache.results].
  apply body_resume_all_spec in Er as (_ & _ & _ & _ & _ & _ & Hres).
  rewrite (Hres (BodyInvariants.con_nodup _ Hcon) w Hw Ha).
  unfold BodyEphemerisCache.fetched. rewrite Hf. rewrite body_resume_fulfilled_out.
  eexists _, _. split; [reflexivity|]. split; [reflexivity|]. split; [reflexivity|].
  split; [reflexivity|].
  intros i Hi Hne. unfold body_response. cbn. rewrite Hi. unfold request_id_header, truthy.
  destruct (String.eqb i "") eqn:E; [by apply String.eqb_eq in E|]. cbn.
  header_in.
Qed.

End RouteFacts.

(** * The claims about both caches, and the defects found *)

(** C2. In every reachable state of either cache, two pending refreshes for
    one key (a body, a mode) are one and the same.  K forced-refresh
    requests arriving together for a key with nothing in flight make one
    upstream call (one refresh), no further call is made for the key while
    that one is pending, and, however the system goes on, once it has
    resolved the K callers have all returned the same payload (up to
    [requestId] in the snapshot cache). *)
Theorem C2_request_coalescing :
  (forall (TTL : Z) (iso : Z -> string) es s,
     BodyEphemerisCache.run TTL iso es BodyEphemerisCache.boot = Some s ->
     (forall i p q,
        BodyInvariants.in_flight (BodyEphemerisCache.state s) i p ->
        BodyInvariants.in_flight (BodyEphemerisCache.state s) i q -> p = q)
     /\ (forall i cfg req reqs,
           Bodies.BODY_BY_ID !! i = Some cfg ->
           BodyEphemerisCache.inflight (BodyEphemerisCache.state s) !! i = None ->
           exists s1 p,
             BodyEphemerisCache.run TTL iso
               (BodyInvariants.forced_call i <$> (req :: reqs)) s = Some s1
             /\ BodyEphemerisCache.upstream (BodyEphemerisCache.state s1)
                  = BodyEphemerisCache.upstream (BodyEphemerisCache.state s) ++ [i]
             /\ forall es2 s2,
                  BodyEphemerisCache.run TTL iso es2 s1 = Some s2 ->
                  BodyInvariants.coalesced TTL i
                    (BodyInvariants.calls_for i (BodyEphemerisCache.state s) ++ [i])
                    (BodyEphemerisCache.ncalls s) (S (length reqs)) p s2))
  /\ (forall (TTL SWR PREWARM : Z) PLANETS (client : bool) (iso : Z -> string) es s,
        EphemerisCache.run TTL SWR PREWARM PLANETS client iso es EphemerisCache.boot
          = Some s ->
        (forall m p q,
           SnapshotInvariants.in_flight (EphemerisCache.state s) m p ->
           SnapshotInvariants.in_flight (EphemerisCache.state s) m q -> p = q)
        /\ (forall observer req reqs,
              EphemerisCache.inflightByMode (EphemerisCache.state s)
                !! EphemerisCache.mode_of observer = None ->
              exists s1 p,
                EphemerisCache.run TTL SWR PREWARM PLANETS client iso
                  (SnapshotInvariants.forced_call observer <$> (req :: reqs)) s = Some s1
                /\ EphemerisCache.promises (EphemerisCache.state s) !! p = None
                /\ EphemerisCache.promises (EphemerisCache.state s1)
                     = <[p := EphemerisCache.Pending
                               {| EphemerisCache.r_reason := "manual-refresh";
                                  EphemerisCache.r_correlationId := req.1.1.1.1;
                                  EphemerisCache.r_mode := EphemerisCache.mode_of observer |}
                               EphemerisCache.Reading]>
                         (EphemerisCache.promises (EphemerisCache.state s))
                /\ forall es2 s2,
                     EphemerisCache.run TTL SWR PREWARM PLANETS client iso es2 s1 = Some s2 ->
                     SnapshotInvariants.coalesced (EphemerisCache.ncalls s)
                       (S (length reqs)) p s2)).
Proof.
  split.
  - intros TTL iso es s Hrun.
    pose proof (body_consistent_reachable TTL iso es s Hrun) as Hcon. split.
    + intros i p q. apply body_registered_unique, Hcon.
    + intros i cfg req reqs. by apply body_coalescing_run.
  - intros TTL SWR PREWARM PLANETS client iso es s Hrun.
    assert (Hcon : SnapshotInvariants.consistent s).
    { eapply snap_consistent_run; [apply snap_consistent_boot|exact Hrun]. }
    split.
    + intros m p q. apply snap_registered_unique, Hcon.
    + intros observer req reqs. by apply snapshot_coalescing.
Qed.

(** C5 (defect). The Moon has a cached record; two forced requests arrive
    together and their one fetch fails.  The call that started the fetch
    returns the record FROZEN; the call that joined it gets the error,
    although the record is still in the cache. *)
Theorem C5_joined_call_rethrows :
  (fun s => (bool_decide (is_Some (BodyEphemerisCache.cache (BodyEphemerisCache.state s)
                                     !! "moon")),
             Scenario.Body.outcome (BodyEphemerisCache.results s !! 1%nat),
             Scenario.Body.outcome (BodyEphemerisCache.results s !! 2%nat)))
    <$> BodyEphemerisCache.run Scenario.Body.TTL Scenario.clock_text
          Scenario.Body.joined_failure BodyEphemerisCache.boot
  = Some (true,
          Some (inl (Some BodyEphemerisCache.FROZEN)),
          Some (inr Scenario.upstream_down)).
Proof. vm_compute. reflexivity. Qed.

(** C6 (defect). A refresh puts its record in memory and then, once
    [writeCache] is over, assigns the MISS decoration to the [metadata] of
    the very object the record refers to: the cached object changes under
    the same record, and a later hit made without a correlation id hands
    out the refresher's [requestId]. *)
Theorem C6_refresh_decorates_cached_object :
  Scenario.Snapshot.cached_decoration
    <$> Scenario.Snapshot.run false Scenario.Snapshot.refresh_awaiting_write
          EphemerisCache.boot
    = Some (Some (Scenario.Snapshot.warm_record, (None, None, None)))
  /\ Scenario.Snapshot.cached_decoration
       <$> Scenario.Snapshot.run false Scenario.Snapshot.refresh_done EphemerisCache.boot
     = Some (Some (Scenario.Snapshot.warm_record,
                   (Some EphemerisCache.MISS, Some "req-1", Some "T10")))
  /\ (fun s =>
        match EphemerisCache.results s !! 1%nat with
        | Some (Fulfilled res) =>
            Some (EphemerisCache.cacheState res,
                  EphemerisCache.requestId
                    (EphemerisCache.metadata (EphemerisCache.res_payload res)))
        | _ => None
        end)
       <$> Scenario.Snapshot.run false Scenario.Snapshot.refresh_then_hit EphemerisCache.boot
     = Some (Some (EphemerisCache.HIT, Some "req-1")).
Proof. vm_compute. repeat split; reflexivity. Qed.

(** * Witnesses: the theorems at concrete inputs *)

Lemma C1_witness :
  exists res st',
    EphemerisCache.enter Scenario.Snapshot.TTL Scenario.Snapshot.STALE_WINDOW false
      Scenario.clock_text (Scenario.Snapshot.request false (Some "req-2"))
      100000 100000 (Fulfilled None) Scenario.Snapshot.warm
      = Some (EphemerisCache.Return res, st')
    /\ EphemerisCache.cacheState res = EphemerisCache.HIT.
Proof.
  destruct (C1_freshness_window Scenario.Snapshot.TTL Scenario.Snapshot.STALE_WINDOW
              false Scenario.clock_text (Scenario.Snapshot.request false (Some "req-2"))
              100000 100000 (Fulfilled None) Scenario.Snapshot.warm eq_refl) as [H _].
  destruct (H Scenario.Snapshot.warm_record Scenario.Snapshot.warm
              Scenario.Snapshot.warm_snapshot) as (Hhit & _ & _).
  - vm_compute. reflexivity.
  - vm_compute. reflexivity.
  - destruct Hhit as (st' & He & _); [vm_compute; reflexivity|].
    eexists _, st'. split; [exact He|reflexivity].
Defined.

Lemma C2_witness :
  exists s1 p,
    BodyEphemerisCache.run Scenario.Body.TTL Scenario.clock_text
      (BodyInvariants.forced_call "moon"
         <$> [(Some "b", 10, 10, 10); (Some "c", 11, 11, 11)])
      BodyEphemerisCache.boot = Some s1
    /\ BodyEphemerisCache.upstream (BodyEphemerisCache.state s1) = ["moon"]
    /\ BodyInvariants.coalesced Scenario.Body.TTL "moon" ["moon"] 0 2 p s1.
Proof.
  destruct (proj1 C2_request_coalescing Scenario.Body.TTL Scenario.clock_text []
              BodyEphemerisCache.boot eq_refl) as [_ H].
  destruct (H "moon"
              {| Bodies.id := "moon"; Bodies.displayName := "Lune";
                 Bodies.kind := Bodies.moon; Bodies.horizonsId := "301" |}
              (Some "b", 10, 10, 10) [(Some "c", 11, 11, 11)])
    as (s1 & p & Hrun & Hup & Hco).
  - vm_compute. reflexivity.
  - reflexivity.
  - exists s1, p. split; [exact Hrun|]. split; [exact Hup|]. exact (Hco [] s1 eq_refl).
Defined.


Lemma C4_witness :
  exists res s',
    EphemerisCache.step Scenario.Snapshot.TTL Scenario.Snapshot.STALE_WINDOW
      Scenario.Snapshot.PREWARM Scenario.Snapshot.PLANETS true Scenario.clock_text
      (EphemerisCache.EvCatchRead 0%nat None 111 111)
      Walkthrough.Snapshot.without_data_system = Some s'
    /\ EphemerisCache.results s' !! 0%nat = Some (Fulfilled res)
    /\ EphemerisCache.cacheState res = EphemerisCache.FROZEN
    /\ EphemerisCache.cacheAgeMs res = 90
    /\ EphemerisCache.bodies (EphemerisCache.res_payload res)
       = EphemerisCache.bodies Scenario.Snapshot.warm_snapshot.
Proof.
  destruct (C4_frozen_fallback Scenario.Snapshot.TTL Scenario.Snapshot.STALE_WINDOW
              Scenario.Snapshot.PREWARM Scenario.Snapshot.PLANETS true Scenario.clock_text
              Scenario.Snapshot.waiting_call 111
              (EphemerisCache.state Walkthrough.Snapshot.without_data_system))
    as (_ & _ & _ & H).
  specialize (H Walkthrough.Snapshot.without_data_system [] None 111 111).
  change (EphemerisCache.store_get
            (EphemerisCache.store
               (EphemerisCache.state Walkthrough.Snapshot.without_data_system))
            (EphemerisCache.CACHE_KEY_BY_MODE
               (EphemerisCache.mode_of
                  (EphemerisCache.includeObserver
                     (EphemerisCache.c_options Scenario.Snapshot.waiting_call))))
            111)
    with (Some Scenario.Snapshot.stored_text) in H.
  destruct H as (res & s' & c & (Hstep & Hres & _) & _ & _ & Hc & Hfr).
  - vm_compute. reflexivity.
  - reflexivity.
  - destruct Hfr as (Hst & Hage & Hb & _).
    exists res, s'. split; [exact Hstep|]. split; [exact Hres|]. split; [exact Hst|].
    split; [|exact Hb]. rewrite Hage, Hc. reflexivity.
Defined.

Lemma C7_witness :
  exists parsed st',
    EphemerisCache.readCache true (Fulfilled (Some Scenario.Snapshot.stored_text))
      EphemerisCache.state_vectors EphemerisCache.initial = (Some parsed, st')
    /\ EphemerisCache.memoryCache st' !! EphemerisCache.state_vectors = Some parsed.
Proof.
  destruct (C7_dual_backend_policy Scenario.Snapshot.TTL Scenario.Snapshot.STALE_WINDOW
              Scenario.Snapshot.PREWARM Scenario.Snapshot.PLANETS true Scenario.clock_text
              EphemerisCache.state_vectors EphemerisCache.initial) as (H & _).
  destruct (H Scenario.Snapshot.stored_text eq_refl)
    as (parsed & st' & He & _ & _ & _ & _ & Hm).
  exists parsed, st'. split; [exact He|exact Hm].
Defined.

Lemma C8_witness :
  exists record,
    EphemerisCache.memoryCache Scenario.Snapshot.awaiting_write
      !! EphemerisCache.state_vectors = Some record
    /\ EphemerisCache.cachedAt record <= EphemerisCache.expiresAt record
       <= EphemerisCache.staleUntil record.
Proof.
  destruct (proj1 (C8_record_invariant Scenario.Snapshot.TTL
                     Scenario.Snapshot.STALE_WINDOW Scenario.Snapshot.PREWARM
                     Scenario.Snapshot.PLANETS false Scenario.clock_text)
              0%nat Scenario.Snapshot.manual_refresh 0 None
              Scenario.Snapshot.both_vectors 10 10 10 Scenario.Snapshot.fetching
              Scenario.Snapshot.awaiting_write)
    as (record & Hm & _ & _ & _ & Hle).
  - vm_compute. discriminate.
  - vm_compute. discriminate.
  - vm_compute. reflexivity.
  - exists record. split; [exact Hm|exact Hle].
Defined.

Lemma C9_witness :
  exists record snap text,
    EphemerisCache.heap Scenario.Snapshot.awaiting_store_write
      !! EphemerisCache.payload record = Some snap
    /\ EphemerisCache.serialize record Scenario.Snapshot.awaiting_store_write = Some text
    /\ EphemerisCache.staleUntil record - EphemerisCache.cachedAt record = 180000
    /\ Forall2 SnapshotInvariants.body_written (EphemerisCache.bodies snap)
         (EphemerisCache.bodies (EphemerisCache.s_payload text)).
Proof.
  destruct (C9_store_expiry Scenario.Snapshot.TTL Scenario.Snapshot.STALE_WINDOW
              Scenario.Snapshot.PLANETS true Scenario.clock_text
              0%nat Scenario.Snapshot.manual_refresh 0 None
              Scenario.Snapshot.store_vectors 10 10 10
              Scenario.Snapshot.fetching_with_store
              Scenario.Snapshot.awaiting_store_write)
    as (record & snap & text & _ & Hh & _ & Hs & _ & _ & _ & _ & Hw & _ & Hpx & _).
  - reflexivity.
  - vm_compute. reflexivity.
  - exists record, snap, text. split; [exact Hh|]. split; [exact Hs|].
    split; [|exact Hw]. rewrite Hpx. reflexivity.
Defined.

Lemma C10_witness :
  exists s1,
    BodyEphemerisCache.step Scenario.Body.TTL Scenario.clock_text
      (BodyEphemerisCache.EvCall Scenario.Body.late_request 70000 70000 70000)
      Scenario.Body.moon_cached = Some s1
    /\ BodyEphemerisCache.cache (BodyEphemerisCache.state s1) !! "moon" = None
    /\ BodyEphemerisCache.results s1 !! 1%nat = None.
Proof.
  destruct (C10_single_body_expiry Scenario.Body.TTL Scenario.clock_text)
    as (_ & _ & _ & _ & H).
  destruct (H Scenario.Body.cached_moon Scenario.Body.moon_cached
              Scenario.Body.late_request 70000 70000 70000 Scenario.Body.moon_entry)
    as (s1 & Hstep & Hc & Hr & _).
  - vm_compute. reflexivity.
  - reflexivity.
  - vm_compute. reflexivity.
  - vm_compute. discriminate.
  - exists s1. split; [exact Hstep|]. split; [exact Hc|exact Hr].
Defined.

(** * The further properties on concrete runs *)

Lemma X_snapshot_answers_labelled_witness :
  exists res,
    EphemerisCache.results Walkthrough.Snapshot.hit_system !! 1%nat = Some (Fulfilled res)
    /\ SnapshotInvariants.labelled Scenario.Snapshot.TTL Scenario.Snapshot.STALE_WINDOW
         EphemerisCache.memory res.
Proof.
  eexists. split; [vm_compute; reflexivity|].
  refine (X_snapshot_answers_labelled Scenario.Snapshot.TTL Scenario.Snapshot.STALE_WINDOW
            Scenario.Snapshot.PREWARM Scenario.Snapshot.PLANETS false Scenario.clock_text
            Scenario.Snapshot.refresh_then_hit Walkthrough.Snapshot.hit_system 1%nat
            (Fulfilled _) _ _);
    vm_compute; reflexivity.
Defined.

Lemma X_snapshot_progress_witness :
  is_Some
    (EphemerisCache.step Scenario.Snapshot.TTL Scenario.Snapshot.STALE_WINDOW
       Scenario.Snapshot.PREWARM Scenario.Snapshot.PLANETS false Scenario.clock_text
       (EphemerisCache.EvWritten 0%nat None 11 11)
       Walkthrough.Snapshot.awaiting_write_system).
Proof.
  destruct (X_snapshot_progress Scenario.Snapshot.TTL Scenario.Snapshot.STALE_WINDOW
              Scenario.Snapshot.PREWARM Scenario.Snapshot.PLANETS false Scenario.clock_text
              Scenario.Snapshot.refresh_awaiting_write
              Walkthrough.Snapshot.awaiting_write_system)
    as (_ & _ & _ & _ & H & _).
  - vm_compute. reflexivity.
  - eapply (H 0%nat). vm_compute. reflexivity.
Defined.

Lemma X_snapshot_modes_independent_witness :
  EphemerisCache.memoryCache (EphemerisCache.state Walkthrough.Snapshot.awaiting_write_system)
    !! EphemerisCache.full
  = EphemerisCache.memoryCache (EphemerisCache.state Walkthrough.Snapshot.fetching_system)
      !! EphemerisCache.full.
Proof.
  refine (proj1 (X_snapshot_modes_independent Scenario.Snapshot.TTL
                   Scenario.Snapshot.STALE_WINDOW Scenario.Snapshot.PREWARM
                   Scenario.Snapshot.PLANETS false Scenario.clock_text
                   (EphemerisCache.EvFetched 0%nat
                      (Fulfilled (Scenario.vector "Mars" 2%float)) 10 10 10 10)
                   Walkthrough.Snapshot.fetching_system
                   Walkthrough.Snapshot.awaiting_write_system
                   EphemerisCache.state_vectors EphemerisCache.full _ _ _)).
  - vm_compute. reflexivity.
  - vm_compute. reflexivity.
  - discriminate.
Defined.

Lemma X_snapshot_measurements_kept_witness :
  exists x',
    EphemerisCache.heap (EphemerisCache.state Walkthrough.Snapshot.warm_system) !! 0%nat
      = Some x'
    /\ EphemerisCache.bodies x' = EphemerisCache.bodies Walkthrough.Snapshot.fresh_snapshot.
Proof.
  destruct (X_snapshot_measurements_kept Scenario.Snapshot.TTL
              Scenario.Snapshot.STALE_WINDOW Scenario.Snapshot.PREWARM
              Scenario.Snapshot.PLANETS false Scenario.clock_text
              [EphemerisCache.EvWritten 0%nat None 11 11]
              Walkthrough.Snapshot.awaiting_write_system Walkthrough.Snapshot.warm_system
              0%nat Walkthrough.Snapshot.fresh_snapshot)
    as (x' & Hx & Hb & _).
  - vm_compute. reflexivity.
  - vm_compute. reflexivity.
  - exists x'. split; [exact Hx|exact Hb].
Defined.

Lemma X_snapshot_payloads_carried_witness :
  exists x,
    EphemerisCache.heap (EphemerisCache.state Walkthrough.Snapshot.warm_system) !! 0%nat
      = Some x
    /\ EphemerisCache.bodies x <> [].
Proof.
  destruct (X_snapshot_payloads_carried Scenario.Snapshot.TTL
              Scenario.Snapshot.STALE_WINDOW Scenario.Snapshot.PREWARM
              Scenario.Snapshot.PLANETS false Scenario.clock_text
              Scenario.Snapshot.refresh_done Walkthrough.Snapshot.warm_system)
    as [_ H].
  - vm_compute. reflexivity.
  - eexists. split; [vm_compute; reflexivity|].
    refine (proj1 (H eq_refl) 0%nat _ _). vm_compute. reflexivity.
Defined.

Lemma X_snapshot_build_accounting_witness :
  (length (EphemerisCache.bodies Scenario.Snapshot.fallback_snapshot)
   + length (default [] (EphemerisCache.missingBodies
                           (EphemerisCache.metadata Scenario.Snapshot.fallback_snapshot)))
   = 2)%nat
  /\ (EphemerisCache.body_of_vector (Scenario.vector "Mars" 2%float)
        ∈ EphemerisCache.bodies Scenario.Snapshot.fallback_snapshot)
  /\ exists b, b ∈ EphemerisCache.bodies Scenario.Snapshot.warm_snapshot
               /\ EphemerisCache.name b = "Mars".
Proof.
  destruct (X_snapshot_build_accounting Scenario.Snapshot.PLANETS Scenario.clock_text
              (Some Scenario.Snapshot.warm_snapshot) 200000 200010 200010
              Scenario.Snapshot.venus_moved_mars_down Scenario.Snapshot.fallback_snapshot)
    as (H1 & _ & H3 & H4 & _).
  - reflexivity.
  - vm_compute. reflexivity.
  - split; [exact H1|]. split.
    + apply H3. right. exists "Mars". split; [|vm_compute; reflexivity].
      exists {| Planets.name := "Mars"; Planets.horizonsId := "499" |},
        Scenario.upstream_down.
      split; [|reflexivity]. vm_compute. apply list_elem_of_further, list_elem_of_here.
    + apply (H4 "Mars"). vm_compute. apply list_elem_of_here.
Defined.

Lemma X_snapshot_failed_refresh_republishes_witness :
  exists st' record snap,
    EphemerisCache.refresh_fetched Scenario.Snapshot.TTL Scenario.Snapshot.STALE_WINDOW
      Scenario.Snapshot.PLANETS false Scenario.clock_text 1%nat
      Scenario.Snapshot.manual_refresh 200000 (Some Scenario.Snapshot.warm_record)
      Walkthrough.Snapshot.all_down 200010 200010 200010 Scenario.Snapshot.warm
      = Some (None, st')
    /\ EphemerisCache.memoryCache st' !! EphemerisCache.state_vectors = Some record
    /\ EphemerisCache.cachedAt record = 200010
    /\ EphemerisCache.heap st' !! EphemerisCache.payload record = Some snap
    /\ EphemerisCache.partial (EphemerisCache.metadata snap) = Some true.
Proof.
  destruct (X_snapshot_failed_refresh_republishes Scenario.Snapshot.TTL
              Scenario.Snapshot.STALE_WINDOW Scenario.Snapshot.PLANETS false
              Scenario.clock_text 1%nat Scenario.Snapshot.manual_refresh 200000
              Scenario.Snapshot.warm_record Scenario.Snapshot.warm_snapshot
              Walkthrough.Snapshot.all_down 200010 200010 200010 Scenario.Snapshot.warm)
    as (st' & record & snap & issued & Hf & _ & Hm & Hc & _ & Hh & _ & _ & Hp & _).
  - vm_compute. reflexivity.
  - reflexivity.
  - repeat constructor.
  - exists {| Planets.name := "Venus"; Planets.horizonsId := "299" |}.
    split; [by left|]. eexists. vm_compute. reflexivity.
  - exists st', record, snap. repeat split; assumption.
Defined.

Lemma X_snapshot_complete_refresh_witness :
  exists snap,
    (EphemerisCache.buildPlanetSnapshot Scenario.Snapshot.PLANETS Scenario.clock_text
       None 0 10 10 Scenario.Snapshot.both_vectors).1 = Fulfilled snap
    /\ EphemerisCache.partial (EphemerisCache.metadata snap) = Some false.
Proof.
  destruct (X_snapshot_complete_refresh Scenario.Snapshot.PLANETS Scenario.clock_text
              None 0 10 10
              [Scenario.vector "Venus" 1%float; Scenario.vector "Mars" 2%float])
    as (snap & Hb & _ & _ & Hp & _).
  - reflexivity.
  - discriminate.
  - exists snap. split; [exact Hb|exact Hp].
Defined.

Lemma X_snapshot_store_text_undecorated_witness :
  exists record snap text,
    EphemerisCache.promises Scenario.Snapshot.awaiting_store_write !! 0%nat
      = Some (EphemerisCache.Pending Scenario.Snapshot.manual_refresh
                (EphemerisCache.Writing record (Some (text, 180000))))
    /\ EphemerisCache.heap Scenario.Snapshot.awaiting_store_write
         !! EphemerisCache.payload record = Some snap
    /\ EphemerisCache.requestId (EphemerisCache.metadata (EphemerisCache.s_payload text))
       = None
    /\ Forall2 SnapshotInvariants.body_written (EphemerisCache.bodies snap)
         (EphemerisCache.bodies (EphemerisCache.s_payload text)).
Proof.
  destruct (X_snapshot_store_text_undecorated Scenario.Snapshot.TTL
              Scenario.Snapshot.STALE_WINDOW Scenario.Snapshot.PLANETS true
              Scenario.clock_text 0%nat Scenario.Snapshot.manual_refresh 0 None
              Scenario.Snapshot.store_vectors 10 10 10
              Scenario.Snapshot.fetching_with_store
              Scenario.Snapshot.awaiting_store_write)
    as (record & snap & text & Hp & Hh & _ & _ & _ & Hu & Hw & _).
  - reflexivity.
  - vm_compute. reflexivity.
  - exists record, snap, text. split; [exact Hp|]. split; [exact Hh|].
    split; [|exact Hw].
    destruct Hu as (_ & _ & _ & _ & _ & _ & _ & _ & Hr). exact Hr.
Defined.

Lemma X_snapshot_upstream_sequential_witness :
  length (EphemerisCache.upstream (EphemerisCache.state Walkthrough.Snapshot.fetching_system))
    = 2%nat
  /\ SnapshotInvariants.outstanding
       (EphemerisCache.state Walkthrough.Snapshot.fetching_system)
       EphemerisCache.state_vectors = 1%nat.
Proof.
  destruct (X_snapshot_upstream_sequential Scenario.Snapshot.TTL
              Scenario.Snapshot.STALE_WINDOW Scenario.Snapshot.PREWARM
              Scenario.Snapshot.PLANETS false Scenario.clock_text
              (take 3 Scenario.Snapshot.refresh_awaiting_write)
              Walkthrough.Snapshot.fetching_system)
    as (H1 & H2 & _).
  - vm_compute. reflexivity.
  - split; [rewrite H1; vm_compute; reflexivity|].
    apply (H2 EphemerisCache.state_vectors).
    exists 0%nat, {| EphemerisCache.r_reason := "manual-refresh";
                     EphemerisCache.r_correlationId := Some "req-1";
                     EphemerisCache.r_mode := EphemerisCache.state_vectors |},
      0, None, [Fulfilled (Scenario.vector "Venus" 1%float)].
    split; [vm_compute; reflexivity|reflexivity].
Defined.

Lemma X_snapshot_bookkeeping_witness :
  EphemerisCache.inflightByMode
    (EphemerisCache.state Walkthrough.Snapshot.awaiting_write_system)
    !! EphemerisCache.state_vectors = Some 0%nat
  <-> SnapshotInvariants.in_flight
        (EphemerisCache.state Walkthrough.Snapshot.awaiting_write_system)
        EphemerisCache.state_vectors 0%nat.
Proof.
  destruct (X_snapshot_bookkeeping Scenario.Snapshot.TTL
              Scenario.Snapshot.STALE_WINDOW Scenario.Snapshot.PREWARM
              Scenario.Snapshot.PLANETS false Scenario.clock_text
              Scenario.Snapshot.refresh_awaiting_write
              Walkthrough.Snapshot.awaiting_write_system)
    as [H _].
  - vm_compute. reflexivity.
  - exact (H EphemerisCache.state_vectors 0%nat).
Defined.

Lemma X_snapshot_hits_repeatable_witness :
  exists res st',
    EphemerisCache.step Scenario.Snapshot.TTL Scenario.Snapshot.STALE_WINDOW
      Scenario.Snapshot.PREWARM Scenario.Snapshot.PLANETS false Scenario.clock_text
      (EphemerisCache.EvCall (Scenario.Snapshot.request false (Some "req-3"))
         2000 2000 None 2000)
      Walkthrough.Snapshot.refetching_system
      = Some {| EphemerisCache.state := st';
                EphemerisCache.waiting :=
                  EphemerisCache.waiting Walkthrough.Snapshot.refetching_system;
                EphemerisCache.results :=
                  <[EphemerisCache.ncalls Walkthrough.Snapshot.refetching_system
                      := Fulfilled res]>
                    (EphemerisCache.results Walkthrough.Snapshot.refetching_system);
                EphemerisCache.ncalls :=
                  S (EphemerisCache.ncalls Walkthrough.Snapshot.refetching_system) |}
    /\ EphemerisCache.cacheState res = EphemerisCache.HIT
    /\ EphemerisCache.cacheAgeMs res = 1990.
Proof.
  destruct (X_snapshot_hits_repeatable Scenario.Snapshot.TTL
              Scenario.Snapshot.STALE_WINDOW Scenario.Snapshot.PREWARM
              Scenario.Snapshot.PLANETS false Scenario.clock_text
              Walkthrough.Snapshot.second_refresh
              Walkthrough.Snapshot.warm_system Walkthrough.Snapshot.refetching_system
              Scenario.Snapshot.warm_record Scenario.Snapshot.warm_snapshot
              (Scenario.Snapshot.request false (Some "req-3")) 2000 2000 None 2000)
    as (res & st' & Hstep & Hs & Ha & _).
  - reflexivity.
  - vm_compute. reflexivity.
  - vm_compute. reflexivity.
  - vm_compute. repeat split.
  - vm_compute. reflexivity.
  - reflexivity.
  - vm_compute. reflexivity.
  - exists res, st'. split; [exact Hstep|]. split; [exact Hs|]. rewrite Ha. reflexivity.
Defined.


Lemma X_body_bookkeeping_witness :
  (length (BodyEphemerisCache.upstream
             (BodyEphemerisCache.state Scenario.Body.moon_cached))
   <= BodyEphemerisCache.ncalls Scenario.Body.moon_cached)%nat.
Proof.
  destruct (X_body_bookkeeping Scenario.Body.TTL Scenario.clock_text
              Scenario.Body.cached_moon Scenario.Body.moon_cached)
    as (_ & _ & _ & _ & _ & H1 & H2).
  - vm_compute. reflexivity.
  - exact (Nat.le_trans _ _ _ H1 H2).
Defined.

Lemma X_body_unknown_id_witness :
  exists s1 p s2,
    BodyEphemerisCache.step Scenario.Body.TTL Scenario.clock_text
      (BodyEphemerisCache.EvCall Walkthrough.Body.pluto_request 100 100 100)
      Scenario.Body.moon_cached = Some s1
    /\ BodyEphemerisCache.step Scenario.Body.TTL Scenario.clock_text
         (BodyEphemerisCache.EvSettle p (Rejected Scenario.upstream_down) 101 101 101) s1
       = Some s2
    /\ BodyEphemerisCache.results s2 !! 1%nat
       = Some (Rejected (ErrorObj "Corps inconnu: pluto")).
Proof.
  destruct (X_body_unknown_id Scenario.Body.TTL Scenario.clock_text
              Scenario.Body.cached_moon Scenario.Body.moon_cached
              Walkthrough.Body.pluto_request 100 100 100)
    as (_ & s1 & p & Hstep & _ & _ & _ & H).
  - vm_compute. reflexivity.
  - vm_compute. reflexivity.
  - vm_compute. reflexivity.
  - destruct (H (Rejected Scenario.upstream_down) 101 101 101) as (s2 & Hset & Hr & _).
    exists s1, p, s2. split; [exact Hstep|]. split; [exact Hset|exact Hr].
Defined.

Lemma X_body_fetch_then_hit_witness :
  BodyEphemerisCache.cache (BodyEphemerisCache.state Scenario.Body.moon_cached) !! "moon"
    = Some Scenario.Body.moon_entry
  /\ BodyEphemerisCache.inflight (BodyEphemerisCache.state Scenario.Body.moon_cached)
       !! "moon" = None.
Proof.
  destruct (X_body_fetch_then_hit Scenario.Body.TTL Scenario.clock_text
              Walkthrough.Body.moon_fetching 0%nat Walkthrough.Body.moon_chain
              {| Bodies.id := "moon"; Bodies.displayName := "Lune";
                 Bodies.kind := Bodies.moon; Bodies.horizonsId := "301" |}
              0 (Scenario.vector "Lune" 1%float) 5 5 5 Scenario.Body.moon_cached
              None 1000 1000 1000)
    as (Hc & Hi & _).
  - vm_compute. reflexivity.
  - reflexivity.
  - vm_compute. reflexivity.
  - vm_compute. reflexivity.
  - split; [exact Hc|exact Hi].
Defined.

Lemma X_routes_snapshot_response_witness :
  exists res,
    EphemerisCache.results Walkthrough.Snapshot.hit_system !! 1%nat = Some (Fulfilled res)
    /\ EphemerisCache.cacheState res = EphemerisCache.HIT
    /\ ("X-Horizons-Cache", EphemerisRoutes.HState (EphemerisCache.cacheState res))
         ∈ EphemerisRoutes.headers
             (EphemerisRoutes.snapshot_response Scenario.Snapshot.TTL
                Walkthrough.Routes.planets_request (Fulfilled res)).1.
Proof.
  eexists. split; [vm_compute; reflexivity|]. split; [reflexivity|].
  refine (proj1 (proj2 (proj2 (proj2
            (X_routes_snapshot_response Scenario.Snapshot.TTL
               Scenario.Snapshot.STALE_WINDOW Scenario.Snapshot.PREWARM
               Scenario.Snapshot.PLANETS false Scenario.clock_text
               Scenario.Snapshot.refresh_then_hit Walkthrough.Snapshot.hit_system 1%nat
               (Fulfilled _) Walkthrough.Routes.planets_request _ _)))));
    vm_compute; reflexivity.
Defined.

Lemma X_routes_body_guard_witness :
  RouteInvariants.all_upstream Scenario.Body.moon_cached.
Proof.
  refine (proj2 (X_routes_body_guard Scenario.Body.TTL Scenario.clock_text)
            Scenario.Body.cached_moon Scenario.Body.moon_cached _ _).
  - repeat constructor.
    exists {| EphemerisRoutes.requestId := Some "a";
              EphemerisRoutes.q_refresh := EphemerisRoutes.QOne (EphemerisRoutes.QString "1");
              EphemerisRoutes.h_refresh := EphemerisRoutes.HAbsent;
              EphemerisRoutes.p_id := Some "moon" |}.
    vm_compute. reflexivity.
  - vm_compute. reflexivity.
Defined.

Lemma X_routes_body_response_witness :
  exists p,
    BodyEphemerisCache.results Scenario.Body.moon_cached !! 0%nat = Some (Fulfilled p)
    /\ EphemerisRoutes.status
         (EphemerisRoutes.body_response Walkthrough.Routes.moon_request (Fulfilled p)).1
       = 200.
Proof.
  eexists. split; [vm_compute; reflexivity|].
  refine (proj1 (X_routes_body_response Scenario.Body.TTL Scenario.clock_text
                   Scenario.Body.cached_moon Scenario.Body.moon_cached 0%nat (Fulfilled _)
                   Walkthrough.Routes.moon_request _ _));
    vm_compute; reflexivity.
Defined.

Lemma X_routes_body_request_id_witness :
  exists payload m,
    BodyEphemerisCache.results Walkthrough.Body.joined_resolved !! 2%nat
      = Some (Fulfilled payload)
    /\ BodyEphemerisCache.metadata payload = Some m
    /\ BodyEphemerisCache.requestId m = Some "b".
Proof.
  destruct (X_routes_body_request_id Scenario.Body.TTL Scenario.clock_text
              (take 4 Scenario.Body.joined_failure) Walkthrough.Body.joined_pending
              1%nat Walkthrough.Body.second_chain
              {| Bodies.id := "moon"; Bodies.displayName := "Lune";
                 Bodies.kind := Bodies.moon; Bodies.horizonsId := "301" |}
              10 (Scenario.vector "Lune" 2%float) 20 20 20
              Walkthrough.Body.joined_resolved Walkthrough.Body.joined_caller
              Walkthrough.Routes.moon_request)
    as (payload & m & Hr & Hm & _ & Hid & _).
  - vm_compute. reflexivity.
  - vm_compute. reflexivity.
  - reflexivity.
  - vm_compute. reflexivity.
  - vm_compute. apply list_elem_of_further, list_elem_of_here.
  - reflexivity.
  - exists payload, m. split; [exact Hr|]. split; [exact Hm|exact Hid].
Defined.
